(** * uC compiler core: semantic analysis, IR generation, dataflow optimisation

    A shallow embedding of the Python sources [uc_type.py], [uc_sema.py],
    [uc_block.py], [uc_code.py] and [uc_analysis.py], followed by the
    properties established about them.

    Conventions of the embedding.
    - A Python exception that is not caught (IndexError, KeyError,
      AttributeError, ...) ends the run: functions that can raise return
      [option], with [None] for the raised exception.
    - [_assert_semantic] prints a diagnostic and calls [sys.exit(1)]; the
      semantic visitor therefore lives in an error monad whose failure carries
      the numeric message code.
    - Objects that are mutated through several references (basic blocks)
      live in a store indexed by an allocation counter; a reference is the
      index. *)

From Stdlib Require Import ZArith QArith String Ascii List Bool Lia.
From stdpp Require Import base option list gmap strings pretty fin_maps.

#[global] Set Warnings "-register-all,-clear-no-such-hyp".

Open Scope string_scope.
Open Scope Z_scope.
Open Scope list_scope.

(* ===================================================================== *)
(** ** Python data used by the sources                                    *)
(* ===================================================================== *)

Module Py.

(** [seq[i]] with a Python index: negative indices count from the end;
    out of range is IndexError. *)
Definition index (len : nat) (i : Z) : option nat :=
  if (0 <=? i)%Z then
    (if (i <? Z.of_nat len)%Z then Some (Z.to_nat i) else None)
  else
    (if (0 <=? Z.of_nat len + i)%Z then Some (Z.to_nat (Z.of_nat len + i)) else None).

Definition getitem {A} (l : list A) (i : Z) : option A :=
  k ← index (length l) i; l !! k.

(** [s.startswith(p)] *)
Definition startswith (s p : string) : bool := String.prefix p s.

(** [s.split(c)] for a one-character separator: the pieces between the
    occurrences of [c]; never empty. *)
Fixpoint split (c : ascii) (s : string) : list string :=
  match s with
  | EmptyString => [EmptyString]
  | String a rest =>
      if Ascii.eqb a c then EmptyString :: split c rest
      else match split c rest with
           | [] => [String a EmptyString]
           | piece :: pieces => String a piece :: pieces
           end
  end.

(** [s.split(c, 1)]: the text before the first [c] and, when there is one,
    the text after it. *)
Fixpoint split1 (c : ascii) (s : string) : string * option string :=
  match s with
  | EmptyString => (EmptyString, None)
  | String a rest =>
      if Ascii.eqb a c then (EmptyString, Some rest)
      else let '(h, t) := split1 c rest in (String a h, t)
  end.

(** [str(n)] and ["%d" % n] for integers. *)
Definition str_nat (n : nat) : string := pretty n.
Definition str_Z (z : Z) : string := pretty z.

Definition digit_of (a : ascii) : option Z :=
  let n := Z.of_nat (nat_of_ascii a) in
  if (48 <=? n)%Z && (n <=? 57)%Z then Some (n - 48)%Z else None.

Fixpoint digits_value (acc : Z) (s : string) : option Z :=
  match s with
  | EmptyString => Some acc
  | String a rest => d ← digit_of a; digits_value (10 * acc + d)%Z rest
  end.

(** [int(s)] on the text of an INT_CONST token ([0-9]+); anything else is
    taken to raise ValueError. *)
Definition int_of_str (s : string) : option Z :=
  match s with
  | EmptyString => None
  | _ => digits_value 0 s
  end.

(** [float(s)] on the text of a FLOAT_CONST token ([0-9]+.[0-9]* or
    [0-9]*.[0-9]+).  The value is kept as the exact decimal fraction the
    text denotes; rounding to a binary64 is not represented. *)
Definition float_of_str (s : string) : option Q :=
  match split1 "." s with
  | (ip, Some fp) =>
      match ip, fp with
      | EmptyString, EmptyString => None
      | _, _ =>
          i ← digits_value 0 ip;
          f ← digits_value 0 fp;
          Some (Qmake (i * 10 ^ Z.of_nat (String.length fp) + f)
                      (Z.to_pos (10 ^ Z.of_nat (String.length fp))))
      end
  | (ip, None) => i ← int_of_str ip; Some (inject_Z i)
  end.

(** The values that occur as components of instruction tuples: names and
    opcodes are [str]; literal operands are [int], [float] or [str];
    the parameter list of [define] and aggregate initialisers are lists,
    a parameter being a 2-tuple. *)
Inductive val :=
| VInt (z : Z)
| VFloat (q : Q)
| VStr (s : string)
| VList (l : list val)
| VTuple (l : list val).

(** [type(v).__name__] *)
Definition type_name (v : val) : string :=
  match v with
  | VInt _ => "int"
  | VFloat _ => "float"
  | VStr _ => "str"
  | VList _ => "list"
  | VTuple _ => "tuple"
  end.

(** [a == b]: numbers compare by value across [int] and [float], sequences
    componentwise and only with their own kind. *)
Fixpoint eqb (a b : val) {struct a} : bool :=
  let fix eqb_list (l1 l2 : list val) {struct l1} : bool :=
    match l1, l2 with
    | [], [] => true
    | x :: l1', y :: l2' => eqb x y && eqb_list l1' l2'
    | _, _ => false
    end in
  match a, b with
  | VInt x, VInt y => Z.eqb x y
  | VInt x, VFloat y => Qeq_bool (inject_Z x) y
  | VFloat x, VInt y => Qeq_bool x (inject_Z y)
  | VFloat x, VFloat y => Qeq_bool x y
  | VStr x, VStr y => String.eqb x y
  | VList x, VList y => eqb_list x y
  | VTuple x, VTuple y => eqb_list x y
  | _, _ => false
  end.

(** [v[i]] for a non-negative [i]; a string yields its characters. *)
Definition item (v : val) (i : nat) : option val :=
  match v with
  | VList l | VTuple l => l !! i
  | VStr s => match String.get i s with
              | Some a => Some (VStr (String a EmptyString))
              | None => None
              end
  | _ => None
  end.

(** [for x in v]: the elements visited; TypeError for a number. *)
Definition iter (v : val) : option (list val) :=
  match v with
  | VList l | VTuple l => Some l
  | VStr s => Some ((λ a, VStr (String a EmptyString)) <$> list_ascii_of_string s)
  | _ => None
  end.

(** [for x in l: a = f(a, x)], where the body may raise. *)
Fixpoint for_each {A X} (f : A → X → option A) (l : list X) (a : A) : option A :=
  match l with
  | [] => Some a
  | x :: l' => a' ← f a x; for_each f l' a'
  end.

(** A value in a position where the sources expect a name. *)
Definition as_str (v : val) : option string :=
  match v with
  | VStr s => Some s
  | _ => None
  end.

(** [list(dict.fromkeys(l))]: duplicates dropped, first occurrences kept in
    order. *)
Fixpoint unique (l : list val) : list val :=
  match l with
  | [] => []
  | x :: l' => x :: filter (λ y, eqb x y = false) (unique l')
  end.

(** [x in l] for a list [l]. *)
Definition mem (x : val) (l : list val) : bool := existsb (eqb x) l.

(** Insertion-ordered dict with integer keys ([labeled_code],
    [numerated_code]): assigning to a present key keeps its position. *)
Fixpoint dict_set {B} (k : nat) (v : B) (d : list (nat * B)) : list (nat * B) :=
  match d with
  | [] => [(k, v)]
  | (k', v') :: d' =>
      if Nat.eqb k k' then (k, v) :: d' else (k', v') :: dict_set k v d'
  end.

Fixpoint dict_get {B} (k : nat) (d : list (nat * B)) : option B :=
  match d with
  | [] => None
  | (k', v') :: d' => if Nat.eqb k k' then Some v' else dict_get k d'
  end.

(** [l.remove(x)]: the first occurrence goes; ValueError when there is
    none. *)
Fixpoint list_remove (x : nat) (l : list nat) : option (list nat) :=
  match l with
  | [] => None
  | y :: l' => if Nat.eqb x y then Some l' else (y ::.) <$> list_remove x l'
  end.

(** The order in which Python enumerates a set is fixed by the hashing of
    its elements and the history of the table, which the sources neither
    control nor rely on.  [set_union l1 l2] stands for
    [list(set(l1).union(l2))]: the analyses are written over an arbitrary such
    enumeration. *)
Class SetOrder := {
  union_int : list nat → list nat → list nat;
  union_val : list val → list val → list val
}.

(** [sorted(l1) == sorted(l2)] on lists of indices, or of names: the two
    lists hold the same elements the same number of times. *)
Fixpoint remove_first (same : val → val → bool) (x : val) (l : list val)
  : option (list val) :=
  match l with
  | [] => None
  | y :: l' => if same x y then Some l' else (y ::.) <$> remove_first same x l'
  end.

Fixpoint same_elements (l1 l2 : list val) : bool :=
  match l1 with
  | [] => match l2 with [] => true | _ => false end
  | x :: l1' =>
      match remove_first eqb x l2 with
      | Some l2' => same_elements l1' l2'
      | None => false
      end
  end.

Fixpoint same_indices (l1 l2 : list nat) : bool :=
  match l1 with
  | [] => match l2 with [] => true | _ => false end
  | x :: l1' =>
      match list_remove x l2 with
      | Some l2' => same_indices l1' l2'
      | None => false
      end
  end.

(** One enumeration, for running the analyses: first occurrences in the
    order of [l1] then [l2]. *)
Fixpoint nodup_nat (l : list nat) : list nat :=
  match l with
  | [] => []
  | x :: l' => x :: filter (λ y, negb (Nat.eqb x y) = true) (nodup_nat l')
  end.

Definition insertion_order : SetOrder :=
  {| union_int l1 l2 := nodup_nat (l1 ++ l2);
     union_val l1 l2 := unique (l1 ++ l2) |}.

End Py.

(* ===================================================================== *)
(** ** uc_sema.py: class SymbolTable                                      *)
(* ===================================================================== *)

Module SymbolTable.

Section Table.

(** [V] is the type of the bound values (uC types in the analyser), [A] the
    type of the parameter signatures. *)
Context {V A : Type}.

(** The table is a dict from names to a chain [(value, previous)] of nested
    pairs ending in [None]: the chain is kept here as the list of its values,
    newest first, [[]] being Python's [None].  A key is never deleted:
    [remove] stores the tail, so a name whose bindings are all gone stays in
    the dict with the value [None].  [self.args] has the same shape; its
    elements are optional because [add] defaults [args] to [None]. *)
Record t := mk {
  dict : gmap string (list V);
  args : gmap string (list (option A));
  scope : list (list string)
}.

Definition init : t := mk ∅ ∅ [].

(** [self.get(name, None)] *)
Definition get (s : t) (name : string) : list V := default [] (dict s !! name).
Definition args_get (s : t) (name : string) : list (option A) := default [] (args s !! name).

(** [def add(self, name, value, args=None, scp=-1)] *)
Definition add (name : string) (value : V) (a : option A) (scp : Z) (s : t) : option t :=
  let d := <[name := value :: get s name]> (dict s) in
  let g := <[name := a :: args_get s name]> (args s) in
  i ← Py.index (length (scope s)) scp;
  Some (mk d g (alter (λ names, names ++ [name]) i (scope s))).

(** [def lookup(self, name)] *)
Definition lookup (s : t) (name : string) : option V := head (get s name).

(** [def lookup_args(self, name)]: [None] both when the name has no entry
    and when the newest entry was added without a signature. *)
Definition lookup_args (s : t) (name : string) : option A :=
  match args_get s name with
  | [] => None
  | a :: _ => a
  end.

(** [def remove(self, name)] *)
Definition remove (name : string) (s : t) : t :=
  let d := match get s name with
           | [] => dict s
           | _ :: prev => <[name := prev]> (dict s)
           end in
  let g := match args_get s name with
           | [] => args s
           | _ :: prev => <[name := prev]> (args s)
           end in
  mk d g (scope s).

(** [def beginscope(self)] *)
Definition beginscope (s : t) : t := mk (dict s) (args s) (scope s ++ [[]]).

(** [def endscope(self)]: [self.scope[-1]] raises IndexError when no scope
    is open. *)
Definition endscope (s : t) : option t :=
  names ← last (scope s);
  let s' := foldl (λ acc name, remove name acc) s names in
  Some (mk (dict s') (args s') (removelast (scope s'))).

(** [def declared(self, name)]: -2 declared in the current scope, -1 in some
    enclosing scope, 0 not declared.  The first test indexes [self.scope[-1]]
    and so raises IndexError when no scope is open. *)
Definition declared (s : t) (name : string) : option Z :=
  top ← last (scope s);
  if bool_decide (name ∈ top) && negb (bool_decide (get s name = [])) then Some (-2)
  else if negb (bool_decide (get s name = [])) then Some (-1)
  else Some 0.

(** The vocabulary of the specification, read off a table state. *)

(** [name] has a live binding. *)
Definition bound (s : t) (name : string) : Prop := get s name ≠ [].

(** [name] is recorded in the innermost open scope. *)
Definition in_current_scope (s : t) (name : string) : Prop :=
  ∃ top, last (scope s) = Some top ∧ name ∈ top.

(** [name] is recorded in some open scope. *)
Definition in_some_scope (s : t) (name : string) : Prop :=
  ∃ names, names ∈ scope s ∧ name ∈ names.

(** States the analyser can build: any sequence of the three public
    operations that does not raise. *)
Inductive reachable : t → Prop :=
| reach_init : reachable init
| reach_begin s : reachable s → reachable (beginscope s)
| reach_add s name v a scp s' :
    reachable s → add name v a scp s = Some s' → reachable s'
| reach_end s s' : reachable s → endscope s = Some s' → reachable s'.

End Table.

Arguments t : clear implicits.

End SymbolTable.

(* ===================================================================== *)
(** ** uc_type.py                                                         *)
(* ===================================================================== *)

Module uc_type.

(** [class uCType] and its subclass [ArrayType].  The basic types are the six
    module-level instances, created once and shared; an [ArrayType] is built
    per declaration.  The size of an array is stored by the analyser either as
    the text of the constant in the declarator or as a [len(...)]; only
    [str(size)] and [size is None] are ever taken, so the field holds that
    rendering. *)
Inductive uCType :=
| IntType
| FloatType
| CharType
| BoolType
| StringType
| VoidType
| ArrayType (type : uCType) (size : option string).

(** [self.typename]; [None] for an array. *)
Definition typename (t : uCType) : option string :=
  match t with
  | IntType => Some "int"
  | FloatType => Some "float"
  | CharType => Some "char"
  | BoolType => Some "bool"
  | StringType => Some "string"
  | VoidType => Some "void"
  | ArrayType _ _ => None
  end.

(** The operator sets given to the constructors.  They are only ever tested
    for membership, so each is the list of its elements; [ArrayType] leaves
    [binary_ops] at the default [set()]. *)
Definition unary_ops (t : uCType) : list string :=
  match t with
  | IntType => ["-"; "+"; "--"; "++"; "p--"; "p++"; "*"; "&"]
  | FloatType => ["-"; "+"; "*"; "&"]
  | CharType => []
  | BoolType => ["!"]
  | StringType => []
  | VoidType => []
  | ArrayType _ _ => ["*"; "&"]
  end.

Definition binary_ops (t : uCType) : list string :=
  match t with
  | IntType => ["+"; "-"; "*"; "/"; "%"]
  | FloatType => ["+"; "-"; "*"; "/"; "%"]
  | CharType => []
  | BoolType => []
  | StringType => ["+"]
  | VoidType => []
  | ArrayType _ _ => []
  end.

Definition rel_ops (t : uCType) : list string :=
  match t with
  | IntType => ["=="; "!="; "<"; ">"; "<="; ">="]
  | FloatType => ["=="; "!="; "<"; ">"; "<="; ">="]
  | CharType => ["=="; "!="; "&&"; "||"]
  | BoolType => ["=="; "!="; "&&"; "||"]
  | StringType => ["=="; "!="]
  | VoidType => []
  | ArrayType _ _ => ["=="; "!="]
  end.

Definition assign_ops (t : uCType) : list string :=
  match t with
  | IntType => ["="; "+="; "-="; "*="; "/="; "%="]
  | FloatType => ["="; "+="; "-="; "*="; "/="; "%="]
  | CharType => ["="]
  | BoolType => ["="]
  | StringType => ["="]
  | VoidType => []
  | ArrayType _ _ => ["="]
  end.

(** [__str__]: the type name for a basic type; for an array the rendering of
    the element type with this array's [[size]] inserted in front of the
    element's own brackets. *)
Fixpoint str (t : uCType) : string :=
  match t with
  | IntType => "int"
  | FloatType => "float"
  | CharType => "char"
  | BoolType => "bool"
  | StringType => "string"
  | VoidType => "void"
  | ArrayType elem size =>
      let complement :=
        match size with
        | Some n => "[" +:+ n +:+ "]"
        | None => "[]"
        end in
      match Py.split1 "[" (str elem) with
      | (h, Some rest) => h +:+ complement +:+ "[" +:+ rest
      | (h, None) => h +:+ complement
      end
  end.

(** [str(x)] where [x] may be [None]. *)
Definition str_opt (t : option uCType) : string :=
  match t with Some t => str t | None => "None" end.

(** [Visitor.typemap] *)
Definition typemap (name : string) : option uCType :=
  if String.eqb name "int" then Some IntType
  else if String.eqb name "float" then Some FloatType
  else if String.eqb name "char" then Some CharType
  else if String.eqb name "bool" then Some BoolType
  else if String.eqb name "string" then Some StringType
  else if String.eqb name "void" then Some VoidType
  else None.

End uc_type.

(* ===================================================================== *)
(** ** uc_ast.py: the nodes the two later stages walk                     *)
(* ===================================================================== *)

Module uc_ast.

Import uc_type.

(** [class Coord] of the parser, with its [__str__]. *)
Record Coord := { line : Z; column : option Z }.

Definition coord_str (c : Coord) : string :=
  match column c with
  | Some col =>
      if Z.eqb (line c) 0 then ""
      else "@ " +:+ Py.str_Z (line c) +:+ ":" +:+ Py.str_Z col
  | None =>
      if Z.eqb (line c) 0 then "" else "@ " +:+ Py.str_Z (line c)
  end.

Definition coord_str_opt (c : option Coord) : string :=
  match c with Some c => coord_str c | None => "None" end.

(** Expression nodes.  Each carries its source coordinate and, where the
    class has the slot, the [uc_type] annotation that the semantic analyser
    fills in and the code generator reads.  [gen_location] and
    [mem_location] are written and read by the code generator only; there
    they are the results of visiting the node. *)
Inductive expr :=
| Constant (type value : string) (coord : option Coord) (uc_type : option uCType)
| ID (name : string) (coord : option Coord) (uc_type : option uCType)
| BinaryOp (op : string) (left right : expr) (coord : option Coord)
           (uc_type : option uCType)
| UnaryOp (op : string) (e : expr) (coord : option Coord) (uc_type : option uCType)
| Cast (type_name : string) (value : expr) (coord : option Coord)
       (uc_type : option uCType)
| ArrayRef (id pos : expr) (coord : option Coord) (uc_type : option uCType)
| FuncCall (declarator : expr) (arguments : option expr) (coord : option Coord)
           (uc_type : option uCType)
| Assignment (op : string) (lvalue rvalue : expr) (coord : option Coord)
             (uc_type : option uCType)
| ExprList (exprs : list expr) (coord : option Coord).

(** [node.uc_type]: AttributeError on an [ExprList], which has no such
    slot. *)
Definition uc_type_of (e : expr) : option (option uCType) :=
  match e with
  | Constant _ _ _ t | ID _ _ t | BinaryOp _ _ _ _ t | UnaryOp _ _ _ t
  | Cast _ _ _ t | ArrayRef _ _ _ t | FuncCall _ _ _ t | Assignment _ _ _ _ t => Some t
  | ExprList _ _ => None
  end.

Definition coord_of (e : expr) : option Coord :=
  match e with
  | Constant _ _ c _ | ID _ c _ | BinaryOp _ _ _ c _ | UnaryOp _ _ c _
  | Cast _ _ c _ | ArrayRef _ _ c _ | FuncCall _ _ c _ | Assignment _ _ _ c _
  | ExprList _ c => c
  end.

(** [node.name]: only an [ID] has the attribute. *)
Definition name_of (e : expr) : option string :=
  match e with ID n _ _ => Some n | _ => None end.

(** An initializer: an expression, or a braced list ([class InitList], whose
    [size] is [len(decls)]). *)
Inductive initializer :=
| InitExpr (e : expr)
| InitList (decls : list initializer) (uc_type : option uCType).

(** [class Decl] and the declarator chain under its [type]: [VarDecl] (with
    the name of its [Type] node and of its [declname]), [ArrayDecl] (its size
    expression is read by the analyser only, which leaves the size in
    [uc_type]) and [FuncDecl] (whose [param_list], when present, is a list of
    parameter declarations).  [Decl.name] is the [declname] at the bottom of
    the chain. *)
Inductive Decl :=
| mkDecl (type : declarator) (init : option initializer)
with declarator :=
| VarDecl (type_name declname : string)
| ArrayDecl (type : declarator) (uc_type : option uCType)
| FuncDecl (param_list : option (list Decl)) (type : declarator).

Definition decl_type (d : Decl) : declarator := match d with mkDecl t _ => t end.
Definition decl_init (d : Decl) : option initializer := match d with mkDecl _ i => i end.

(** The first clause of a [for]: an optional expression, or a [DeclList]. *)
Inductive for_init :=
| ForExpr (e : option expr)
| DeclList (decls : list Decl).

(** Statement nodes.  An empty statement [;] is [None] in the parser's
    output, hence the optional statements. *)
Inductive stmt :=
| Expr (e : expr)
| Compound (decls : list Decl) (statmts : list (option stmt))
| If (cond : expr) (ifstat elsestat : option stmt)
| While (cond : expr) (stat : option stmt)
| For (t1 : for_init) (t2 t3 : option expr) (stat : option stmt)
| Break
| Return (e : option expr)
| Assert (e : expr)
| Print (e : option expr)
| Read (e : expr).

(** [class FuncDef]: the name of its [Type] node, its [Decl] and its body;
    the list of old-style declarations is not looked at by the generator. *)
Record FuncDef := mkFuncDef {
  fd_type : string;
  fd_name : Decl;
  fd_compound_statement : option stmt
}.

(** What [Program.gdecls] holds. *)
Inductive gdecl :=
| GlobalDecl (declaration : list Decl)
| GFuncDef (f : FuncDef).

End uc_ast.

(* ===================================================================== *)
(** ** uc_sema.py: class Visitor, expressions and [print]                 *)
(* ===================================================================== *)

Module Visitor.

Import uc_type uc_ast.

(** Outcome of a visit: the annotated node, a fatal diagnostic
    ([_assert_semantic] with a false condition: message code, then
    [sys.exit(1)]), or an uncaught Python exception. *)
Inductive outcome (A : Type) :=
| Ok (a : A)
| SemanticError (code : nat)
| Raise.
Arguments Ok {A} a.
Arguments SemanticError {A} code.
Arguments Raise {A}.

#[global] Instance outcome_ret : MRet outcome := λ A a, Ok a.
#[global] Instance outcome_bind : MBind outcome := λ A B f m,
  match m with
  | Ok a => f a
  | SemanticError c => SemanticError c
  | Raise => Raise
  end.

(** [self._assert_semantic(condition, msg_code, ...)] *)
Definition _assert_semantic (condition : bool) (msg_code : nat) : outcome unit :=
  if condition then Ok tt else SemanticError msg_code.

(** An operation that raises when it has no result. *)
Definition lift {A} (o : option A) : outcome A :=
  match o with Some a => Ok a | None => Raise end.

(** The signature stored for a function: [ParamList.param_types], an
    insertion-ordered dict from the parameters' [ID] nodes to their types. *)
Definition signature := list (string * uCType).

Definition symtab := SymbolTable.t uCType signature.

(** [x in s] for an operator set. *)
Definition op_in (op : string) (s : list string) : bool := bool_decide (op ∈ s).

(** The positional check of [visit_FuncCall]:
    [for i, def_arg in enumerate(def_args or []): assert str(def_args[def_arg])
    == str(call_args[i][0])], IndexError when the call has fewer arguments. *)
Fixpoint check_args (def_args : signature) (call_args : list (option uCType))
  : outcome unit :=
  match def_args with
  | [] => Ok tt
  | (_, t) :: def_args' =>
      match call_args with
      | [] => Raise
      | c :: call_args' =>
          _ ← _assert_semantic (String.eqb (str t) (str_opt c)) 18;
          check_args def_args' call_args'
      end
  end.

(** [Visitor.visit] on expression nodes: the node comes back with its
    [uc_type] slot filled in. *)
Fixpoint visit (st : symtab) (node : expr) {struct node} : outcome expr :=
  match node with
  | Constant type value coord _ =>
      (* visit_Constant *)
      if negb (String.eqb type "string") then
        t ← lift (typemap type);
        Ok (Constant type value coord (Some t))
      else
        Ok (Constant type value coord
              (Some (ArrayType CharType (Some (Py.str_nat (String.length value))))))
  | ID name coord _ =>
      (* visit_ID *)
      d ← lift (SymbolTable.declared st name);
      _ ← _assert_semantic (d <? 0)%Z 1;
      Ok (ID name coord (SymbolTable.lookup st name))
  | BinaryOp op lhs rhs coord _ =>
      (* visit_BinaryOp *)
      left' ← visit st lhs;
      ltype ← lift (uc_type_of left');
      right' ← visit st rhs;
      rtype ← lift (uc_type_of right');
      _ ← _assert_semantic (String.eqb (str_opt ltype) (str_opt rtype)) 6;
      lt ← lift ltype;
      if op_in op (binary_ops lt) then
        Ok (BinaryOp op left' right' coord (Some lt))
      else if op_in op (rel_ops lt) then
        Ok (BinaryOp op left' right' coord (typemap "bool"))
      else
        SemanticError 7
  | UnaryOp op e coord _ =>
      (* visit_UnaryOp *)
      e' ← visit st e;
      t ← lift (uc_type_of e');
      ty ← lift t;
      _ ← _assert_semantic (op_in op (unary_ops ty)) 26;
      Ok (UnaryOp op e' coord t)
  | Cast type_name value coord _ =>
      (* visit_Cast *)
      value' ← visit st value;
      t ← lift (typemap type_name);
      Ok (Cast type_name value' coord (Some t))
  | ArrayRef id pos coord _ =>
      (* visit_ArrayRef *)
      id' ← visit st id;
      pos' ← visit st pos;
      pt ← lift (uc_type_of pos');
      _ ← _assert_semantic (String.eqb (str_opt pt) "int") 2;
      it ← lift (uc_type_of id');
      match it with
      | Some (ArrayType elem _) => Ok (ArrayRef id' pos' coord (Some elem))
      | _ => Raise
      end
  | FuncCall declarator arguments coord _ =>
      (* visit_FuncCall *)
      declarator' ← visit st declarator;
      name ← lift (name_of declarator');
      _ ← _assert_semantic
            (bool_decide (is_Some (SymbolTable.lookup_args st name))) 16;
      t ← lift (uc_type_of declarator');
      match arguments with
      | None => Ok (FuncCall declarator' None coord t)
      | Some args =>
          args' ← visit st args;
          match args' with
          | ExprList exprs _ =>
              let def_args := default [] (SymbolTable.lookup_args st name) in
              call_args ← lift (mapM uc_type_of exprs);
              _ ← _assert_semantic
                    (Nat.eqb (length call_args) (length def_args)) 17;
              _ ← check_args def_args call_args;
              Ok (FuncCall declarator' (Some args') coord t)
          | _ => Ok (FuncCall declarator' (Some args') coord t)
          end
      end
  | Assignment op lvalue rvalue coord _ =>
      (* visit_Assignment *)
      rvalue' ← visit st rvalue;
      rtype ← lift (uc_type_of rvalue');
      lvalue' ← visit st lvalue;
      ltype ← lift (uc_type_of lvalue');
      _ ← _assert_semantic (String.eqb (str_opt ltype) (str_opt rtype)) 4;
      lt ← lift ltype;
      _ ← _assert_semantic (op_in op (assign_ops lt)) 5;
      Ok (Assignment op lvalue' rvalue' coord (typemap "void"))
  | ExprList exprs coord =>
      (* visit_ExprList: each child is visited, then its [uc_type] is read *)
      let fix visit_all (l : list expr) : outcome (list expr) :=
        match l with
        | [] => Ok []
        | child :: l' =>
            child' ← visit st child;
            _ ← lift (uc_type_of child');
            rest ← visit_all l';
            Ok (child' :: rest)
        end in
      exprs' ← visit_all exprs;
      Ok (ExprList exprs' coord)
  end.

(** The types [visit_Print] lets through. *)
Definition printable : list string := ["int"; "char"; "float"; "string"; "char[]"].

(** [visit_Print]: [node.expr] is [None] for [print();], and visiting [None]
    does nothing. *)
Definition visit_Print (st : symtab) (e : option expr) : outcome (option expr) :=
  match e with
  | None => Ok None
  | Some child =>
      child' ← visit st child;
      match child' with
      | ID _ _ t =>
          _ ← _assert_semantic (op_in (str_opt t) printable) 22;
          Ok (Some child')
      | FuncCall declarator _ _ _ =>
          dt ← lift (uc_type_of declarator);
          _ ← _assert_semantic (op_in (str_opt dt) printable) 21;
          Ok (Some child')
      | _ => Ok (Some child')
      end
  end.

(** The argument type the specification speaks of: basic, or a string, that
    is an array of [char]. *)
Definition is_basic (t : uCType) : bool :=
  match t with ArrayType _ _ => false | _ => true end.

Definition is_string (t : uCType) : bool :=
  match t with
  | StringType => true
  | ArrayType CharType _ => true
  | _ => false
  end.

(** The identifiers that occur in an expression. *)
Fixpoint ids (e : expr) : list string :=
  match e with
  | Constant _ _ _ _ => []
  | ID name _ _ => [name]
  | BinaryOp _ lhs rhs _ _ => ids lhs ++ ids rhs
  | UnaryOp _ e' _ _ => ids e'
  | Cast _ value _ _ => ids value
  | ArrayRef id pos _ _ => ids id ++ ids pos
  | FuncCall declarator arguments _ _ =>
      ids declarator ++ match arguments with Some a => ids a | None => [] end
  | Assignment _ lvalue rvalue _ _ => ids lvalue ++ ids rvalue
  | ExprList exprs _ =>
      (fix all (l : list expr) : list string :=
         match l with
         | [] => []
         | child :: l' => ids child ++ all l'
         end) exprs
  end.

End Visitor.

(* ===================================================================== *)
(** ** uc_block.py                                                        *)
(* ===================================================================== *)

Module uc_block.

(** An instruction is a tuple whose first component is the opcode, always a
    [str]; [operands] are the components from index 1 on. *)
Record inst := Inst { opcode : string; operands : list Py.val }.

(** [inst[i]] *)
Definition arg (i : nat) (t : inst) : option Py.val :=
  match i with
  | O => Some (Py.VStr (opcode t))
  | S k => operands t !! k
  end.

(** Blocks are referred to by the order of their creation. *)
Abbreviation block_ref := nat (only parsing).

(** [class BasicBlock] with its [branch]; [class ConditionBlock] with
    [taken] and [fall_through]. *)
Inductive block_class :=
| BasicBlock (branch : option block_ref)
| ConditionBlock (taken fall_through : option block_ref).

(** [class Block]: the attributes set by [__init__] (the unused [defs] dict
    left out). *)
Record Block := mkBlock {
  label : string;
  instructions : list inst;
  predecessors : list block_ref;
  next_block : option block_ref;
  cls : block_class;
  numerated_code : list (nat * inst);
  gen_defs : list nat;
  kill_defs : list nat;
  in_RD : list nat;
  out_RD : list nat;
  used : list Py.val;
  defined : list Py.val;
  in_set : list Py.val;
  out_set : list Py.val
}.

(** [BasicBlock(label)] and [ConditionBlock(label)] *)
Definition new_block (c : block_class) (l : string) : Block :=
  mkBlock l [] [] None c [] [] [] [] [] [] [] [] [].

Definition set_instructions (v : list inst) (b : Block) : Block :=
  mkBlock (label b) v (predecessors b) (next_block b) (cls b) (numerated_code b) (gen_defs b) (kill_defs b) (in_RD b) (out_RD b) (used b) (defined b) (in_set b) (out_set b).
Definition set_predecessors (v : list block_ref) (b : Block) : Block :=
  mkBlock (label b) (instructions b) v (next_block b) (cls b) (numerated_code b) (gen_defs b) (kill_defs b) (in_RD b) (out_RD b) (used b) (defined b) (in_set b) (out_set b).
Definition set_next_block (v : option block_ref) (b : Block) : Block :=
  mkBlock (label b) (instructions b) (predecessors b) v (cls b) (numerated_code b) (gen_defs b) (kill_defs b) (in_RD b) (out_RD b) (used b) (defined b) (in_set b) (out_set b).
Definition set_cls (v : block_class) (b : Block) : Block :=
  mkBlock (label b) (instructions b) (predecessors b) (next_block b) v (numerated_code b) (gen_defs b) (kill_defs b) (in_RD b) (out_RD b) (used b) (defined b) (in_set b) (out_set b).
Definition set_numerated_code (v : list (nat * inst)) (b : Block) : Block :=
  mkBlock (label b) (instructions b) (predecessors b) (next_block b) (cls b) v (gen_defs b) (kill_defs b) (in_RD b) (out_RD b) (used b) (defined b) (in_set b) (out_set b).
Definition set_gen_defs (v : list nat) (b : Block) : Block :=
  mkBlock (label b) (instructions b) (predecessors b) (next_block b) (cls b) (numerated_code b) v (kill_defs b) (in_RD b) (out_RD b) (used b) (defined b) (in_set b) (out_set b).
Definition set_kill_defs (v : list nat) (b : Block) : Block :=
  mkBlock (label b) (instructions b) (predecessors b) (next_block b) (cls b) (numerated_code b) (gen_defs b) v (in_RD b) (out_RD b) (used b) (defined b) (in_set b) (out_set b).
Definition set_in_RD (v : list nat) (b : Block) : Block :=
  mkBlock (label b) (instructions b) (predecessors b) (next_block b) (cls b) (numerated_code b) (gen_defs b) (kill_defs b) v (out_RD b) (used b) (defined b) (in_set b) (out_set b).
Definition set_out_RD (v : list nat) (b : Block) : Block :=
  mkBlock (label b) (instructions b) (predecessors b) (next_block b) (cls b) (numerated_code b) (gen_defs b) (kill_defs b) (in_RD b) v (used b) (defined b) (in_set b) (out_set b).
Definition set_used (v : list Py.val) (b : Block) : Block :=
  mkBlock (label b) (instructions b) (predecessors b) (next_block b) (cls b) (numerated_code b) (gen_defs b) (kill_defs b) (in_RD b) (out_RD b) v (defined b) (in_set b) (out_set b).
Definition set_defined (v : list Py.val) (b : Block) : Block :=
  mkBlock (label b) (instructions b) (predecessors b) (next_block b) (cls b) (numerated_code b) (gen_defs b) (kill_defs b) (in_RD b) (out_RD b) (used b) v (in_set b) (out_set b).
Definition set_in_set (v : list Py.val) (b : Block) : Block :=
  mkBlock (label b) (instructions b) (predecessors b) (next_block b) (cls b) (numerated_code b) (gen_defs b) (kill_defs b) (in_RD b) (out_RD b) (used b) (defined b) v (out_set b).
Definition set_out_set (v : list Py.val) (b : Block) : Block :=
  mkBlock (label b) (instructions b) (predecessors b) (next_block b) (cls b) (numerated_code b) (gen_defs b) (kill_defs b) (in_RD b) (out_RD b) (used b) (defined b) (in_set b) v.

(** The blocks that exist, by reference. *)
Abbreviation heap := (gmap nat Block) (only parsing).

(** [while bb is not None: ...; bb = bb.next_block]: the blocks met from
    [start].  A block met twice means the links form a cycle, on which the
    loop does not end: no list then. *)
Fixpoint chain_from (fuel : nat) (h : heap) (start : option block_ref)
  : option (list block_ref) :=
  match start with
  | None => Some []
  | Some r =>
      match fuel with
      | O => None
      | S fuel' =>
          b ← h !! r;
          rest ← chain_from fuel' h (next_block b);
          Some (r :: rest)
      end
  end.

Definition chain (h : heap) (start : block_ref) : option (list block_ref) :=
  chain_from (S (size h)) h (Some start).

(** [class EmitBlocks]: the instructions of the blocks of a chain, in
    order; both block classes are emitted alike. *)
Definition emit_blocks (h : heap) (cfg : block_ref) : option (list inst) :=
  refs ← chain h cfg;
  blocks ← mapM (λ r, h !! r) refs;
  Some (concat (instructions <$> blocks)).

(** A label-only instruction [(<name>:,)]. *)
Definition is_label (t : inst) : bool :=
  match operands t with
  | [] => match Py.split ":" (opcode t) with
          | [name; EmptyString] => negb (String.eqb name "")
          | _ => false
          end
  | _ => false
  end.

(** A terminator: [jump] or [cbranch]. *)
Definition is_terminator (t : inst) : bool :=
  String.eqb (opcode t) "jump" || String.eqb (opcode t) "cbranch".

End uc_block.

(* ===================================================================== *)
(** ** uc_code.py: class CodeGenerator                                    *)
(* ===================================================================== *)

Module CodeGenerator.

Import uc_type uc_ast uc_block.

(** The module-level dict [binary_ops]; KeyError for any other operator. *)
Definition binary_ops (op : string) : option string :=
  if String.eqb op "+" then Some "add"
  else if String.eqb op "-" then Some "sub"
  else if String.eqb op "*" then Some "mul"
  else if String.eqb op "/" then Some "div"
  else if String.eqb op "%" then Some "mod"
  else if String.eqb op "<" then Some "lt"
  else if String.eqb op "<=" then Some "le"
  else if String.eqb op ">" then Some "gt"
  else if String.eqb op ">=" then Some "ge"
  else if String.eqb op "==" then Some "eq"
  else if String.eqb op "&&" then Some "and"
  else if String.eqb op "||" then Some "or"
  else if String.eqb op "!=" then Some "ne"
  else None.

(** The attributes of the generator, with the store of the blocks created
    so far; [return_register] does not exist before a non-void function has
    been visited. *)
Record gen := mkGen {
  blocks : heap;
  next_ref : nat;
  current_block : option block_ref;
  globals : list string;
  fname : string;
  versions : gmap string nat;
  text : list inst;
  var_dim : gmap string string;
  loop_pile : list string;
  return_register : option string
}.

Definition set_blocks (v : heap) (g : gen) : gen :=
  mkGen v (next_ref g) (current_block g) (globals g) (fname g) (versions g) (text g) (var_dim g) (loop_pile g) (return_register g).
Definition set_next_ref (v : nat) (g : gen) : gen :=
  mkGen (blocks g) v (current_block g) (globals g) (fname g) (versions g) (text g) (var_dim g) (loop_pile g) (return_register g).
Definition set_current_block (v : option block_ref) (g : gen) : gen :=
  mkGen (blocks g) (next_ref g) v (globals g) (fname g) (versions g) (text g) (var_dim g) (loop_pile g) (return_register g).
Definition set_globals (v : list string) (g : gen) : gen :=
  mkGen (blocks g) (next_ref g) (current_block g) v (fname g) (versions g) (text g) (var_dim g) (loop_pile g) (return_register g).
Definition set_fname (v : string) (g : gen) : gen :=
  mkGen (blocks g) (next_ref g) (current_block g) (globals g) v (versions g) (text g) (var_dim g) (loop_pile g) (return_register g).
Definition set_versions (v : gmap string nat) (g : gen) : gen :=
  mkGen (blocks g) (next_ref g) (current_block g) (globals g) (fname g) v (text g) (var_dim g) (loop_pile g) (return_register g).
Definition set_text (v : list inst) (g : gen) : gen :=
  mkGen (blocks g) (next_ref g) (current_block g) (globals g) (fname g) (versions g) v (var_dim g) (loop_pile g) (return_register g).
Definition set_var_dim (v : gmap string string) (g : gen) : gen :=
  mkGen (blocks g) (next_ref g) (current_block g) (globals g) (fname g) (versions g) (text g) v (loop_pile g) (return_register g).
Definition set_loop_pile (v : list string) (g : gen) : gen :=
  mkGen (blocks g) (next_ref g) (current_block g) (globals g) (fname g) (versions g) (text g) (var_dim g) v (return_register g).
Definition set_return_register (v : option string) (g : gen) : gen :=
  mkGen (blocks g) (next_ref g) (current_block g) (globals g) (fname g) (versions g) (text g) (var_dim g) (loop_pile g) v.

(** [CodeGenerator(viewcfg)]: the current block is a fresh [%global] block. *)
Definition init : gen :=
  mkGen {[ 0%nat := new_block (BasicBlock None) "%global" ]} 1 (Some 0%nat)
        [] "_glob_" {[ "_glob_" := 0%nat ]} [] ∅ [] None.

(** A visit: it changes the generator, or raises. *)
Definition M (A : Type) : Type := gen → option (A * gen).

#[global] Instance M_ret : MRet M := λ A a g, Some (a, g).
#[global] Instance M_bind : MBind M := λ A B f m g,
  match m g with
  | Some (a, g') => f a g'
  | None => None
  end.

Definition ret {A} (a : A) : M A := mret a.
Definition raise {A} : M A := λ _, None.
Definition lift {A} (o : option A) : M A := λ g, (λ a, (a, g)) <$> o.
Definition read {A} (f : gen → A) : M A := λ g, Some (f g, g).
Definition modify (f : gen → gen) : M unit := λ g, Some (tt, f g).

(** [def new_temp(self)] *)
Definition new_temp : M string :=
  fn ← read fname;
  vs ← read versions;
  let n := default 1%nat (vs !! fn) in
  _ ← modify (set_versions (<[fn := S n]> vs));
  ret ("%" +:+ Py.str_nat n).

(** [def new_name(self, nm)] *)
Definition new_name (nm : string) : M string :=
  vs ← read versions;
  let n := default 0%nat (vs !! nm) in
  if (0 <? n)%nat then
    _ ← modify (set_versions (<[nm := S n]> vs));
    ret (nm +:+ "." +:+ Py.str_nat (S n))
  else
    _ ← modify (set_versions (<[nm := 1%nat]> vs));
    ret nm.

(** [def new_text(self, typename)] *)
Definition new_text (typename : string) : M string :=
  vs ← read versions;
  n ← lift (vs !! "_glob_");
  _ ← modify (set_versions (<["_glob_" := S n]> vs));
  ret ("@." +:+ typename +:+ "." +:+ Py.str_nat n).

(** [def _get_origin(self, name)] *)
Definition _get_origin (name : string) : M string :=
  gs ← read globals;
  ret (if bool_decide (name ∈ gs) then "@" +:+ name else "%" +:+ name).

(** [BasicBlock(label)] or [ConditionBlock(label)]: a new object. *)
Definition create_block (c : block_class) (l : string) : M block_ref :=
  λ g, let r := next_ref g in
       Some (r, set_next_ref (S r) (set_blocks (<[r := new_block c l]> (blocks g)) g)).

(** An assignment to, or a method call on, the block [r]. *)
Definition update_block (r : block_ref) (f : Block → Block) : M unit :=
  λ g, b ← blocks g !! r; Some (tt, set_blocks (<[r := f b]> (blocks g)) g).

(** [self.current_block], about to be dereferenced. *)
Definition current : M block_ref := λ g, r ← current_block g; Some (r, g).

(** [block.append(instr)] *)
Definition append (r : block_ref) (t : inst) : M unit :=
  update_block r (λ b, set_instructions (instructions b ++ [t]) b).

(** [self.current_block.append(inst)] *)
Definition emit (t : inst) : M unit := r ← current; append r t.

(** [self.text.append(inst)] *)
Definition emit_text (t : inst) : M unit := modify (λ g, set_text (text g ++ [t]) g).

(** [block.predecessors.append(p)] *)
Definition add_predecessor (r p : block_ref) : M unit :=
  update_block r (λ b, set_predecessors (predecessors b ++ [p]) b).

(** [block.branch = target].  On a [ConditionBlock] this creates an
    attribute nothing reads. *)
Definition set_branch (r target : block_ref) : M unit :=
  update_block r (λ b, match cls b with
                       | BasicBlock _ => set_cls (BasicBlock (Some target)) b
                       | ConditionBlock _ _ => b
                       end).

(** [block.taken = target] and [block.fall_through = target]; on a
    [BasicBlock] they create attributes nothing reads. *)
Definition set_taken (r target : block_ref) : M unit :=
  update_block r (λ b, match cls b with
                       | ConditionBlock _ ft => set_cls (ConditionBlock (Some target) ft) b
                       | BasicBlock _ => b
                       end).

Definition set_fall_through (r target : block_ref) : M unit :=
  update_block r (λ b, match cls b with
                       | ConditionBlock tk _ => set_cls (ConditionBlock tk (Some target)) b
                       | BasicBlock _ => b
                       end).

(** [self.current_block.next_block = r; self.current_block = r] *)
Definition enter (r : block_ref) : M unit :=
  c ← current;
  _ ← update_block c (set_next_block (Some r));
  modify (set_current_block (Some r)).

(** [str(t).split('[')[0]] *)
Definition base_name (t : option uCType) : string :=
  default "" (head (Py.split "[" (str_opt t))).

(** What a visited expression node holds afterwards: [gen_location], and
    [mem_location] for an [ArrayRef].  [None] where the class has no such
    slot, so that reading it raises. *)
Record loc := mkLoc { gen_location : option string; mem_location : option string }.

Definition S_ (s : string) : Py.val := Py.VStr s.

(** [def _get_name(self, node)] on an [ArrayRef]: down the [id]s to the
    identifier. *)
Fixpoint _get_name_ref (node : expr) : option string :=
  match node with
  | ID name _ _ => Some name
  | ArrayRef id _ _ _ => _get_name_ref id
  | _ => None
  end.

(** The value a constant contributes to an instruction: [int(value)],
    [float(value)], or the text itself. *)
Definition constant_value (type value : string) : option Py.val :=
  if String.eqb type "int" then Py.VInt <$> Py.int_of_str value
  else if String.eqb type "float" then Py.VFloat <$> Py.float_of_str value
  else Some (Py.VStr value).

(** [CodeGenerator.visit] on expression nodes: [visit_Constant],
    [visit_BinaryOp], [visit_ID], [visit_Cast], [visit_UnaryOp],
    [visit_ExprList], [visit_ArrayRef], [visit_FuncCall] and
    [visit_Assignment]. *)
Fixpoint visit_expr (node : expr) {struct node} : M loc :=
  match node with
  | Constant type value _ _ =>
      if String.eqb type "string" then
        _target ← new_text "str";
        _ ← emit_text (Inst "global_string" [S_ _target; S_ value]);
        ret (mkLoc (Some _target) None)
      else
        _target ← new_temp;
        v ← lift (constant_value type value);
        _ ← emit (Inst ("literal_" +:+ type) [v; S_ _target]);
        ret (mkLoc (Some _target) None)
  | BinaryOp op lhs rhs _ _ =>
      l ← visit_expr lhs;
      r ← visit_expr rhs;
      target ← new_temp;
      o ← lift (binary_ops op);
      lt ← lift (uc_type_of lhs);
      lg ← lift (gen_location l);
      rg ← lift (gen_location r);
      _ ← emit (Inst (o +:+ "_" +:+ str_opt lt) [S_ lg; S_ rg; S_ target]);
      ret (mkLoc (Some target) None)
  | ID name _ t =>
      target ← new_temp;
      source ← _get_origin name;
      _ ← emit (Inst ("load_" +:+ str_opt t) [S_ source; S_ target]);
      ret (mkLoc (Some target) None)
  | Cast type_name value _ _ =>
      v ← visit_expr value;
      tgt ← new_temp;
      vg ← lift (gen_location v);
      _ ← emit (Inst (if String.eqb type_name "int" then "fptosi" else "sitofp")
                     [S_ vg; S_ tgt]);
      ret (mkLoc (Some tgt) None)
  | UnaryOp op e _ _ =>
      le ← visit_expr e;
      if negb (bool_decide (op ∈ ["!"; "-"; "+"; "*"; "/"])) then
        _1 ← new_temp;
        _ ← emit (Inst "literal_int" [Py.VInt 1; S_ _1]);
        ename ← lift (name_of e);
        name ← _get_origin ename;
        if Py.startswith op "p" then
          temp ← new_temp;
          _ ← emit (Inst "alloc_int" [S_ temp]);
          _ ← emit (Inst "store_int" [S_ name; S_ temp]);
          eg ← lift (gen_location le);
          _ ← emit (Inst (if String.eqb op "p++" then "add_int" else "sub_int")
                         [S_ eg; S_ _1; S_ name]);
          ret (mkLoc (Some temp) None)
        else
          eg ← lift (gen_location le);
          _ ← emit (Inst (if String.eqb op "++" then "add_int" else "sub_int")
                         [S_ eg; S_ _1; S_ name]);
          ret (mkLoc (Some name) None)
      else
        et ← lift (uc_type_of e);
        let typename := base_name et in
        res ← new_temp;
        if String.eqb op "!" then
          eg ← lift (gen_location le);
          _ ← emit (Inst ("not_" +:+ typename) [S_ eg; S_ res]);
          ret (mkLoc (Some res) None)
        else
          _0 ← new_temp;
          _ ← emit (Inst ("literal_" +:+ typename) [Py.VInt 0; S_ _0]);
          o ← lift (binary_ops op);
          eg ← lift (gen_location le);
          _ ← emit (Inst (o +:+ "_" +:+ typename) [S_ _0; S_ eg; S_ res]);
          ret (mkLoc (Some res) None)
  | ExprList _ _ =>
      ret (mkLoc None None)
  | ArrayRef id pos _ t =>
      nm ← lift (_get_name_ref node);
      name ← _get_origin nm;
      let typename := base_name t in
      match id with
      | ArrayRef _ _ _ _ =>
          vd ← read var_dim;
          d ← lift (vd !! nm);
          let dims := tail (Py.split "_" d) in
          offset ← new_temp;
          _ ← emit (Inst "literal_int" [Py.VInt 0; S_ offset]);
          produtorio ← new_temp;
          _ ← emit (Inst "literal_int" [Py.VInt 1; S_ produtorio]);
          let fix walk (aux : expr) (i : Z) {struct aux} : M unit :=
            match aux with
            | ArrayRef aux_id aux_pos _ _ =>
                lp ← visit_expr aux_pos;
                p ← lift (gen_location lp);
                dim ← new_temp;
                termo ← new_temp;
                _ ← emit (Inst "mul_int" [S_ p; S_ produtorio; S_ termo]);
                _ ← emit (Inst "add_int" [S_ offset; S_ termo; S_ offset]);
                n ← lift (Py.getitem dims i ≫= Py.int_of_str);
                _ ← emit (Inst "literal_int" [Py.VInt n; S_ dim]);
                _ ← emit (Inst "mul_int" [S_ dim; S_ produtorio; S_ produtorio]);
                walk aux_id (i - 1)%Z
            | _ => ret tt
            end in
          _ ← walk node (Z.of_nat (length dims) - 1)%Z;
          location ← new_temp;
          _ ← emit (Inst ("elem_" +:+ typename) [S_ name; S_ offset; S_ location]);
          value ← new_temp;
          _ ← emit (Inst ("load_" +:+ typename +:+ "_*") [S_ location; S_ value]);
          ret (mkLoc (Some value) (Some location))
      | _ =>
          lp ← visit_expr pos;
          index ← lift (gen_location lp);
          location ← new_temp;
          _ ← emit (Inst "elem_int" [S_ name; S_ index; S_ location]);
          value ← new_temp;
          _ ← emit (Inst ("load_" +:+ typename +:+ "_*") [S_ location; S_ value]);
          ret (mkLoc (Some value) (Some location))
      end
  | FuncCall declarator arguments _ _ =>
      func_name ← lift (name_of declarator);
      _ ← match arguments with
          | Some (ExprList exprs _) =>
              (fix params (l : list expr) : M unit :=
                 match l with
                 | [] => ret tt
                 | a :: l' =>
                     la ← visit_expr a;
                     ty ← lift (uc_type_of a);
                     ag ← lift (gen_location la);
                     _ ← emit (Inst ("param_" +:+ str_opt ty) [S_ ag]);
                     params l'
                 end) exprs
          | Some a =>
              la ← visit_expr a;
              ty ← lift (uc_type_of a);
              ag ← lift (gen_location la);
              emit (Inst ("param_" +:+ str_opt ty) [S_ ag])
          | None => raise
          end;
      res ← new_temp;
      dt ← lift (uc_type_of declarator);
      _ ← emit (Inst ("call_" +:+ str_opt dt) [S_ ("@" +:+ func_name); S_ res]);
      ret (mkLoc (Some res) None)
  | Assignment op lvalue rvalue _ _ =>
      lr ← visit_expr rvalue;
      match lvalue with
      | ID name _ _ =>
          var ← _get_origin name;
          if String.eqb op "=" then
            rt ← lift (uc_type_of rvalue);
            rg ← lift (gen_location lr);
            _ ← emit (Inst ("store_" +:+ str_opt rt) [S_ rg; S_ var]);
            ret (mkLoc None None)
          else
            ll ← visit_expr lvalue;
            o ← lift (binary_ops (String.substring 0 1 op));
            _ ← lift (String.get 0 op);
            rt ← lift (uc_type_of rvalue);
            lg ← lift (gen_location ll);
            rg ← lift (gen_location lr);
            _ ← emit (Inst (o +:+ "_" +:+ str_opt rt) [S_ lg; S_ rg; S_ var]);
            ret (mkLoc None None)
      | _ =>
          ll ← visit_expr lvalue;
          var ← lift (mem_location ll);
          if String.eqb op "=" then
            rt ← lift (uc_type_of rvalue);
            rg ← lift (gen_location lr);
            _ ← emit (Inst ("store_" +:+ str_opt rt +:+ "_*") [S_ rg; S_ var]);
            ret (mkLoc None None)
          else
            o ← lift (binary_ops op);
            rt ← lift (uc_type_of rvalue);
            lg ← lift (gen_location ll);
            rg ← lift (gen_location lr);
            _ ← emit (Inst (o +:+ "_" +:+ str_opt rt +:+ "_*") [S_ lg; S_ rg; S_ var]);
            ret (mkLoc None None)
      end
  end.

(** [def _get_basic_type(self, node)] and [def _get_name(self, node)] on a
    declaration: down the [type]s to the [VarDecl]. *)
Fixpoint _get_basic_type (d : declarator) : string :=
  match d with
  | VarDecl type_name _ => type_name
  | ArrayDecl ty _ => _get_basic_type ty
  | FuncDecl _ ty => _get_basic_type ty
  end.

Fixpoint _get_name (d : declarator) : string :=
  match d with
  | VarDecl _ declname => declname
  | ArrayDecl ty _ => _get_name ty
  | FuncDecl _ ty => _get_name ty
  end.

(** The second loop of [_get_dim], over nested initializer lists. *)
Fixpoint _get_dim_init (i : initializer) : option string :=
  match i with
  | InitList decls _ =>
      match decls with
      | [] => None
      | first :: _ =>
          rest ← _get_dim_init first;
          Some ("_" +:+ Py.str_nat (length decls) +:+ rest)
      end
  | InitExpr _ => Some ""
  end.

(** [def _get_dim(self, node)] on an array declarator: the first loop; the
    chain of [ArrayDecl]s ends in a declarator, never in an [InitList]. *)
Fixpoint _get_dim (d : declarator) : option string :=
  match d with
  | ArrayDecl ty t =>
      t' ← t;
      rest ← _get_dim ty;
      match t' with
      | ArrayType _ (Some size) => Some ("_" +:+ size +:+ rest)
      | ArrayType _ None => Some ("_" +:+ rest)
      | _ => None
      end
  | _ => Some ""
  end.

(** [def visit_InitList(self, node)]: the nested list [node.code].  The
    items the analyser lets through are constants and lists; any other item
    stops the model. *)
Fixpoint visit_InitList (i : initializer) : option Py.val :=
  match i with
  | InitList decls _ =>
      _ ← head decls;
      Py.VList <$>
        (fix items (l : list initializer) : option (list Py.val) :=
           match l with
           | [] => Some []
           | item :: l' =>
               v ← match item with
                   | InitList _ _ => visit_InitList item
                   | InitExpr (Constant type value _ _) => constant_value type value
                   | InitExpr _ => None
                   end;
               vs ← items l';
               Some (v :: vs)
           end) decls
  | InitExpr _ => None
  end.

Definition init_uc_type (i : initializer) : option (option uCType) :=
  match i with
  | InitExpr e => uc_type_of e
  | InitList _ t => Some t
  end.

(** [def visit_VarDecl(self, node)], with the [init] and [dim] the enclosing
    declaration has stored in the node. *)
Definition visit_VarDecl (_varname type_name : string) (init : option initializer)
    (dim : string) : M unit :=
  match init with
  | None =>
      _ ← emit (Inst ("alloc_" +:+ type_name +:+ dim) [S_ ("%" +:+ _varname)]);
      modify (λ g, set_var_dim (<[_varname := dim]> (var_dim g)) g)
  | Some i =>
      it ← lift (init_uc_type i);
      let typename := base_name it in
      c ← current;
      bs ← read blocks;
      b ← lift (bs !! c);
      if String.eqb (label b) "%global" then
        inst ←
          match i with
          | InitList _ _ =>
              value ← lift (visit_InitList i);
              dim' ← lift (_get_dim_init i);
              _ ← modify (λ g, set_var_dim (<[_varname := dim']> (var_dim g)) g);
              ret (Inst ("global_" +:+ typename +:+ dim') [S_ ("@" +:+ _varname); value])
          | InitExpr (Constant _ value _ _) =>
              v ← lift (if String.eqb typename "int" then Py.VInt <$> Py.int_of_str value
                        else if String.eqb typename "float"
                             then Py.VFloat <$> Py.float_of_str value
                             else Some (Py.VStr value));
              ret (Inst ("global_" +:+ typename) [S_ ("@" +:+ _varname); v])
          | InitExpr _ => raise
          end;
        _ ← emit_text inst;
        modify (λ g, set_globals (globals g ++ [_varname]) g)
      else
        match i with
        | InitList _ _ =>
            code ← lift (visit_InitList i);
            init_name ← new_text _varname;
            dim' ← lift (_get_dim_init i);
            _ ← emit (Inst ("alloc_" +:+ typename +:+ dim') [S_ ("%" +:+ _varname)]);
            _ ← emit_text (Inst ("global_" +:+ typename +:+ dim') [S_ init_name; code]);
            _ ← modify (λ g, set_globals (globals g ++ [init_name]) g);
            _ ← emit (Inst ("store_" +:+ typename +:+ dim')
                           [S_ init_name; S_ ("%" +:+ _varname)]);
            modify (λ g, set_var_dim (<[_varname := dim']> (var_dim g)) g)
        | InitExpr e =>
            le ← visit_expr e;
            match e with
            | Constant "string" value _ _ =>
                let dim' := "_" +:+ Py.str_nat (String.length value) in
                _ ← emit (Inst ("alloc_" +:+ typename +:+ dim') [S_ ("%" +:+ _varname)]);
                eg ← lift (gen_location le);
                _ ← emit (Inst ("store_" +:+ typename +:+ dim')
                               [S_ eg; S_ ("%" +:+ _varname)]);
                modify (λ g, set_var_dim (<[_varname := dim']> (var_dim g)) g)
            | _ =>
                _ ← emit (Inst ("alloc_" +:+ typename) [S_ ("%" +:+ _varname)]);
                eg ← lift (gen_location le);
                emit (Inst ("store_" +:+ typename) [S_ eg; S_ ("%" +:+ _varname)])
            end
        end
  end.

(** [def visit_ParamList(self, node)]: the pairs [(type, temp)] for the
    [define] instruction and the [alloc]/[store] pairs of the prologue. *)
Fixpoint visit_ParamList (params : list Decl) : M (list Py.val * list inst) :=
  match params with
  | [] => ret ([], [])
  | decl :: params' =>
      tgt ← new_temp;
      let typename := _get_basic_type (decl_type decl) in
      let name := "%" +:+ _get_name (decl_type decl) in
      '(txt, code) ← visit_ParamList params';
      ret (Py.VTuple [S_ typename; S_ tgt] :: txt,
           Inst ("alloc_" +:+ typename) [S_ name]
           :: Inst ("store_" +:+ typename) [S_ tgt; S_ name] :: code)
  end.

(** [def visit_FuncDecl(self, node)]: [node.text] and [node.code]. *)
Definition visit_FuncDecl (param_list : option (list Decl)) : M (list Py.val * list inst) :=
  match param_list with
  | Some params => visit_ParamList params
  | None => ret ([], [])
  end.

(** [visit_ArrayDecl] and, at the end of the chain, [visit_VarDecl] or
    [visit_FuncDecl]: [init] and [dim] are what the parent has stored in the
    node ([dim] is [None] on an [ArrayDecl] no parent has written to, and
    [FuncDecl] has no [dim] slot to write to). *)
Fixpoint visit_declarator (d : declarator) (init : option initializer)
    (dim : option string) : M unit :=
  match d with
  | VarDecl type_name declname =>
      visit_VarDecl declname type_name init (default "" dim)
  | ArrayDecl ty _ =>
      match init with
      | Some _ => visit_declarator ty init None
      | None =>
          dim' ← match dim with
                 | None => lift (_get_dim d)
                 | Some dm => ret dm
                 end;
          match ty with
          | FuncDecl _ _ => raise
          | _ => visit_declarator ty None (Some dim')
          end
      end
  | FuncDecl param_list _ =>
      _ ← visit_FuncDecl param_list; ret tt
  end.

(** [def visit_Decl(self, node)] *)
Definition visit_Decl (node : Decl) : M unit :=
  visit_declarator (decl_type node) (decl_init node) None.

(** Visiting the nodes of a list in order ([visit_GlobalDecl],
    [visit_DeclList], the declarations of a [Compound]). *)
Fixpoint visit_Decls (l : list Decl) : M unit :=
  match l with
  | [] => ret tt
  | d :: l' => _ ← visit_Decl d; visit_Decls l'
  end.

(** [def visit_Print(self, node)] *)
Definition visit_Print (e : option expr) : M unit :=
  let print_one (child : expr) : M unit :=
    lc ← visit_expr child;
    t ← lift (uc_type_of child);
    g ← lift (gen_location lc);
    emit (Inst ("print_" +:+ base_name t) [S_ g]) in
  match e with
  | Some (ExprList exprs _) =>
      (fix each (l : list expr) : M unit :=
         match l with
         | [] => ret tt
         | child :: l' => _ ← print_one child; each l'
         end) exprs
  | Some child => print_one child
  | None =>
      nl ← new_temp;
      _ ← emit (Inst "literal_char" [S_ (String (ascii_of_nat 10) EmptyString); S_ nl]);
      emit (Inst "print_char" [S_ nl])
  end.

(** [def visit_Return(self, node)] *)
Definition visit_Return (e : option expr) : M unit :=
  match e with
  | Some ex =>
      le ← visit_expr ex;
      t ← lift (uc_type_of ex);
      g ← lift (gen_location le);
      rr ← read return_register;
      reg ← lift rr;
      emit (Inst ("store_" +:+ str_opt t) [S_ g; S_ reg])
  | None => ret tt
  end.

(** [self.loop_pile.pop(-1)] *)
Definition pop_loop_pile : M unit :=
  pile ← read loop_pile;
  _ ← lift (last pile);
  modify (set_loop_pile (removelast pile)).

(** [def visit_Break(self, node)] *)
Definition visit_Break : M unit :=
  pile ← read loop_pile;
  top ← lift (last pile);
  emit (Inst "jump" [S_ ("%" +:+ top)]).

(** [def visit_Assert(self, node)] *)
Definition visit_Assert (e : expr) : M unit :=
  cond_name ← new_name "assert";
  cond_block ← create_block (ConditionBlock None None) cond_name;
  fail_name ← new_name "assert.fail";
  fail_block ← create_block (BasicBlock None) fail_name;
  end_name ← new_name "assert.end";
  end_block ← create_block (BasicBlock None) end_name;
  c ← current;
  _ ← add_predecessor cond_block c;
  _ ← set_branch c cond_block;
  _ ← set_taken cond_block end_block;
  _ ← set_fall_through cond_block fail_block;
  _ ← enter cond_block;
  le ← visit_expr e;
  g ← lift (gen_location le);
  _ ← emit (Inst "cbranch" [S_ g; S_ ("%" +:+ end_name); S_ ("%" +:+ fail_name)]);
  _ ← add_predecessor fail_block cond_block;
  msg ← new_text "str";
  where_ ← lift (Py.split "@" (coord_str_opt (coord_of e)) !! 1%nat);
  _ ← emit_text (Inst "global_string" [S_ msg; S_ ("assertion_fail on" +:+ where_)]);
  _ ← enter fail_block;
  _ ← emit (Inst (fail_name +:+ ":") []);
  _ ← emit (Inst "print_string" [S_ msg]);
  _ ← emit (Inst "jump" [S_ "%exit"]);
  _ ← add_predecessor fail_block fail_block;
  _ ← add_predecessor fail_block cond_block;
  _ ← enter end_block;
  emit (Inst (end_name +:+ ":") []).

(** [CodeGenerator.visit] on statement nodes: [visit_Compound], [visit_If],
    [visit_While], [visit_For] and the statements above.  An expression used
    as a statement is visited for its instructions. *)
Fixpoint visit_stmt (node : stmt) {struct node} : M unit :=
  let visit_opt (o : option stmt) : M unit :=
    match o with
    | Some s => visit_stmt s
    | None => ret tt
    end in
  match node with
  | Expr e => _ ← visit_expr e; ret tt
  | Compound decls statmts =>
      _ ← visit_Decls decls;
      (fix each (l : list (option stmt)) : M unit :=
         match l with
         | [] => ret tt
         | Some child :: l' => _ ← visit_stmt child; each l'
         | None :: l' => each l'
         end) statmts
  | If cond ifstat elsestat =>
      if_name ← new_name "if";
      if_block ← create_block (ConditionBlock None None) if_name;
      then_name ← new_name "then";
      then_block ← create_block (BasicBlock None) then_name;
      els ← match elsestat with
            | Some _ =>
                else_name ← new_name "else";
                else_block ← create_block (BasicBlock None) else_name;
                ret (Some (else_name, else_block))
            | None => ret None
            end;
      end_name ← new_name "if.end";
      end_block ← create_block (BasicBlock None) end_name;
      c ← current;
      _ ← set_branch c if_block;
      _ ← add_predecessor if_block c;
      _ ← emit (Inst "jump" [S_ ("%" +:+ if_name)]);
      _ ← enter if_block;
      _ ← append if_block (Inst (if_name +:+ ":") []);
      lc ← visit_expr cond;
      g ← lift (gen_location lc);
      _ ← emit (Inst "cbranch"
                     [S_ g; S_ ("%" +:+ then_name);
                      S_ ("%" +:+ match els with
                                  | Some (else_name, _) => else_name
                                  | None => end_name
                                  end)]);
      _ ← set_taken if_block then_block;
      c1 ← current;
      _ ← add_predecessor then_block c1;
      _ ← enter then_block;
      _ ← emit (Inst (then_name +:+ ":") []);
      _ ← visit_opt ifstat;
      _ ← emit (Inst "jump" [S_ ("%" +:+ end_name)]);
      c2 ← current;
      _ ← set_branch c2 end_block;
      _ ← add_predecessor end_block c2;
      _ ← match els with
          | Some (else_name, else_block) =>
              _ ← set_fall_through if_block else_block;
              _ ← add_predecessor else_block if_block;
              _ ← enter else_block;
              _ ← append else_block (Inst (else_name +:+ ":") []);
              _ ← visit_opt elsestat;
              _ ← emit (Inst "jump" [S_ ("%" +:+ end_name)]);
              c3 ← current;
              _ ← set_branch c3 end_block;
              add_predecessor end_block c3
          | None => set_fall_through if_block end_block
          end;
      _ ← enter end_block;
      emit (Inst (end_name +:+ ":") [])
  | For t1 t2 t3 stat =>
      cond_name ← new_name "for.cond";
      cond_block ← create_block (ConditionBlock None None) cond_name;
      stat_name ← new_name "for.stat";
      stat_block ← create_block (BasicBlock None) stat_name;
      inc_name ← new_name "for.inc";
      inc_block ← create_block (BasicBlock None) inc_name;
      end_name ← new_name "for.end";
      end_block ← create_block (BasicBlock None) end_name;
      _ ← match t1 with
          | ForExpr (Some e) => _ ← visit_expr e; ret tt
          | ForExpr None => ret tt
          | DeclList decls => visit_Decls decls
          end;
      _ ← emit (Inst "jump" [S_ ("%" +:+ cond_name)]);
      c ← current;
      _ ← set_branch c cond_block;
      _ ← add_predecessor cond_block c;
      _ ← add_predecessor cond_block inc_block;
      _ ← set_taken cond_block stat_block;
      _ ← set_fall_through cond_block end_block;
      _ ← enter cond_block;
      _ ← emit (Inst (cond_name +:+ ":") []);
      l2 ← match t2 with
           | Some e => visit_expr e
           | None => raise
           end;
      g ← lift (gen_location l2);
      _ ← emit (Inst "cbranch" [S_ g; S_ ("%" +:+ stat_name); S_ ("%" +:+ end_name)]);
      _ ← add_predecessor stat_block cond_block;
      _ ← enter stat_block;
      _ ← modify (λ g, set_loop_pile (loop_pile g ++ [end_name]) g);
      _ ← emit (Inst (stat_name +:+ ":") []);
      _ ← visit_opt stat;
      _ ← emit (Inst "jump" [S_ ("%" +:+ inc_name)]);
      _ ← pop_loop_pile;
      c1 ← current;
      _ ← set_branch c1 inc_block;
      _ ← add_predecessor inc_block c1;
      _ ← set_branch inc_block cond_block;
      _ ← enter inc_block;
      _ ← emit (Inst (inc_name +:+ ":") []);
      _ ← match t3 with
          | Some e => _ ← visit_expr e; ret tt
          | None => ret tt
          end;
      _ ← emit (Inst "jump" [S_ ("%" +:+ cond_name)]);
      _ ← add_predecessor end_block cond_block;
      _ ← enter end_block;
      _ ← emit (Inst (end_name +:+ ":") []);
      _ ← set_taken cond_block stat_block;
      set_fall_through cond_block end_block
  | While cond stat =>
      cond_name ← new_name "while.cond";
      cond_block ← create_block (ConditionBlock None None) cond_name;
      stat_name ← new_name "while.stat";
      stat_block ← create_block (BasicBlock None) stat_name;
      end_name ← new_name "while.end";
      end_block ← create_block (BasicBlock None) end_name;
      c ← current;
      _ ← add_predecessor cond_block c;
      _ ← add_predecessor cond_block stat_block;
      _ ← set_taken cond_block stat_block;
      _ ← set_fall_through cond_block end_block;
      _ ← set_branch c cond_block;
      _ ← emit (Inst "jump" [S_ ("%" +:+ cond_name)]);
      _ ← enter cond_block;
      _ ← emit (Inst (cond_name +:+ ":") []);
      lc ← visit_expr cond;
      g ← lift (gen_location lc);
      _ ← emit (Inst "cbranch" [S_ g; S_ ("%" +:+ stat_name); S_ ("%" +:+ end_name)]);
      _ ← add_predecessor stat_block cond_block;
      _ ← set_branch stat_block cond_block;
      _ ← enter stat_block;
      _ ← modify (λ g, set_loop_pile (loop_pile g ++ [end_name]) g);
      _ ← emit (Inst (stat_name +:+ ":") []);
      _ ← visit_opt stat;
      _ ← emit (Inst "jump" [S_ ("%" +:+ cond_name)]);
      _ ← pop_loop_pile;
      _ ← add_predecessor end_block cond_block;
      _ ← enter end_block;
      emit (Inst (end_name +:+ ":") [])
  | Break => visit_Break
  | Return e => visit_Return e
  | Assert e => visit_Assert e
  | Print e => visit_Print e
  | Read _ => ret tt
  end.

(** [def visit_FuncDef(self, node)]: the result is [node.cfg].  The closing
    [self.current_block.taken = return_block] is on a [BasicBlock], where
    nothing reads it. *)
Definition visit_FuncDef (node : FuncDef) : M block_ref :=
  let name := _get_name (decl_type (fd_name node)) in
  cfg ← create_block (BasicBlock None) ("%" +:+ name);
  cp ← read current_block;
  _ ← match cp with
      | Some p =>
          _ ← add_predecessor cfg p;
          update_block p (set_next_block (Some cfg))
      | None => ret tt
      end;
  _ ← modify (set_current_block (Some cfg));
  _ ← modify (set_fname ("_" +:+ name +:+ "_"));
  let typename := fd_type node in
  '(params, var_define) ←
    match decl_type (fd_name node) with
    | FuncDecl param_list _ => visit_FuncDecl param_list
    | _ => raise
    end;
  _ ← append cfg (Inst ("define_" +:+ typename) [S_ ("@" +:+ name); Py.VList params]);
  _ ← append cfg (Inst "entry" []);
  _ ← update_block cfg (λ b, set_instructions (instructions b ++ var_define) b);
  target ←
    (if negb (String.eqb typename "void") then
       target ← new_temp;
       _ ← modify (set_return_register (Some target));
       _ ← append cfg (Inst ("alloc_" +:+ typename) [S_ target]);
       ret (Some target)
     else ret None);
  _ ← match fd_compound_statement node with
      | Some body => visit_stmt body
      | None => ret tt
      end;
  _ ← emit (Inst "jump" [S_ "%exit"]);
  return_block ← create_block (BasicBlock None) "%exit";
  c ← current;
  _ ← add_predecessor return_block c;
  _ ← set_branch c return_block;
  _ ← append return_block (Inst "exit:" []);
  _ ← append return_block
        match target with
        | Some tg => Inst ("return_" +:+ typename) [S_ tg]
        | None => Inst "return_void" []
        end;
  _ ← update_block c (set_next_block (Some return_block));
  _ ← modify (set_current_block None);
  ret cfg.

(** The first loop of [visit_Program]: every global declaration is visited;
    the result lists the [cfg] of the function definitions, in order. *)
Fixpoint visit_gdecls (l : list gdecl) : M (list block_ref) :=
  match l with
  | [] => ret []
  | GlobalDecl declaration :: l' => _ ← visit_Decls declaration; visit_gdecls l'
  | GFuncDef f :: l' =>
      cfg ← visit_FuncDef f;
      cfgs ← visit_gdecls l';
      ret (cfg :: cfgs)
  end.

(** The second loop of [visit_Program]: [self.code] is the global
    instructions followed by the instructions [EmitBlocks] collects from the
    CFG of each function. *)
Definition emit_program (h : heap) (text : list inst) (cfgs : list block_ref)
  : option (list inst) :=
  bodies ← mapM (emit_blocks h) cfgs;
  Some (text ++ concat bodies).

(** The outcome of [visit_Program]: [self.code], with what it leaves in the
    tree for the next stage, [node.text] and the [cfg]s, and the blocks. *)
Record generated := mkGenerated {
  g_code : list inst;
  g_text : list inst;
  g_cfgs : list block_ref;
  g_blocks : heap
}.

(** [def visit_Program(self, node)] *)
Definition visit_Program (gdecls : list gdecl) : option generated :=
  '(cfgs, g) ← visit_gdecls gdecls init;
  code ← emit_program (blocks g) (text g) cfgs;
  Some (mkGenerated code (text g) cfgs (blocks g)).

End CodeGenerator.

(* ===================================================================== *)
(** ** uc_analysis.py: class DataFlow                                     *)
(* ===================================================================== *)

Module DataFlow.

Import uc_block.

(** The module-level list [binary_ops] of opcode prefixes. *)
Definition binary_ops : list string :=
  ["add_"; "sub_"; "mul_"; "div_"; "mod_"; "lt_"; "le_"; "gt_"; "ge_"; "eq_";
   "and_"; "or_"; "ne_"].

(** [self.defs]: the indices at which each name is written.  The keys are
    the names found in target positions, which are [str] in all IR the
    generator builds; a target that is not a [str] stops the model. *)
Abbreviation defs_t := (gmap string (list nat)) (only parsing).

(** The attributes of the [DataFlow] object, and the blocks it works on. *)
Record state := mkState {
  blocks : heap;
  code : list inst;
  global_variables : list Py.val;
  dead_code : list nat;
  labeled_code : list (nat * inst);
  defs : defs_t;
  index : nat
}.

(** [DataFlow(viewcfg)] about to visit a program whose blocks are [h]. *)
Definition init (h : heap) : state := mkState h [] [] [] [] ∅ 1.

Definition set_blocks (h : heap) (s : state) : state :=
  mkState h (code s) (global_variables s) (dead_code s) (labeled_code s) (defs s) (index s).

(** [inst[0].startswith(p)] *)
Definition op_is (t : inst) (p : string) : bool := Py.startswith (opcode t) p.

Definition is_binary_op (t : inst) : bool :=
  existsb (op_is t) binary_ops.

(** [def add_to_defs(self, variable, index)] *)
Definition add_to_defs (variable : Py.val) (i : nat) (d : defs_t) : option defs_t :=
  name ← Py.as_str variable;
  Some (<[name := default [] (d !! name) ++ [i]]> d).

(** [self.add_to_defs(inst[k], self.index)] *)
Definition def_at (k : nat) (t : inst) (i : nat) (d : defs_t) : option defs_t :=
  v ← arg k t; add_to_defs v i d.

(** The body of the inner loop of [number_instructions], on [self.defs]:
    the if/elif chain, then the loop over [binary_ops]. *)
Definition number_defs (t : inst) (i : nat) (d : defs_t) : option defs_t :=
  d1 ← (if op_is t "literal" then def_at 2 t i d
        else if op_is t "store" then def_at 2 t i d
        else if op_is t "load" then def_at 2 t i d
        else if op_is t "call" then def_at 2 t i d
        else if op_is t "not_" then def_at 2 t i d
        else if op_is t "sitofp" then def_at 2 t i d
        else if op_is t "fptosi" then def_at 2 t i d
        else if op_is t "elem" then def_at 3 t i d
        else if op_is t "define" then
          parameter_list ← arg 2 t ≫= Py.iter;
          Py.for_each (λ d' parameter, name ← Py.item parameter 1; add_to_defs name i d')
                      parameter_list d
        else Some d);
  Py.for_each (λ d' bin_op, if op_is t bin_op then def_at 3 t i d' else Some d')
              binary_ops d1.

(** One instruction of [number_instructions]: the block's
    [numerated_code], [self.labeled_code], [self.defs] and [self.index]. *)
Definition number_inst
    (acc : list (nat * inst) * list (nat * inst) * gmap string (list nat) * nat)
    (t : inst)
  : option (list (nat * inst) * list (nat * inst) * gmap string (list nat) * nat) :=
  let '(nc, lc, d, i) := acc in
  d' ← number_defs t i d;
  Some (Py.dict_set i t nc, Py.dict_set i t lc, d', S i).

(** One block of [number_instructions]. *)
Definition number_block (s : state) (r : block_ref) : option state :=
  b ← blocks s !! r;
  '(nc, lc, d, i) ←
    Py.for_each number_inst (instructions b)
                (numerated_code b, labeled_code s, defs s, index s);
  Some (mkState (<[r := set_numerated_code nc b]> (blocks s))
                (code s) (global_variables s) (dead_code s) lc d i).

(** [def number_instructions(self, cfg)] *)
Definition number_instructions (cfg : block_ref) (s : state) : option state :=
  refs ← chain (blocks s) cfg;
  Py.for_each number_block refs
              (mkState (blocks s) (code s) (global_variables s) (dead_code s)
                       [] (defs s) 1).

(** [inst_gen = [index]; inst_kill = self.defs[inst[k]].copy();
    inst_kill.remove(index)] *)
Definition gen_kill_at (d : defs_t) (k : nat) (t : inst) (i : nat)
  : option (list nat * list nat) :=
  name ← arg k t ≫= Py.as_str;
  ds ← d !! name;
  kill ← Py.list_remove i ds;
  Some ([i], kill).

(** [def instruction_gen_kill(self, inst, index)] *)
Definition instruction_gen_kill (d : defs_t) (t : inst) (i : nat)
  : option (list nat * list nat) :=
  gk1 ← (if op_is t "store" then gen_kill_at d 2 t i
         else if op_is t "literal" then gen_kill_at d 2 t i
         else if op_is t "load" then gen_kill_at d 2 t i
         else if op_is t "call" then gen_kill_at d 2 t i
         else if op_is t "not_" then gen_kill_at d 2 t i
         else if op_is t "sitofp" then gen_kill_at d 2 t i
         else if op_is t "fptosi" then gen_kill_at d 2 t i
         else Some ([], []));
  Py.for_each (λ gk bin_op, if op_is t bin_op then gen_kill_at d 3 t i else Some gk)
              binary_ops gk1.

(** [def update_block_gen_kill_RD(self, block, inst_gen, inst_kill)] *)
Definition update_block_gen_kill_RD (b : Block) (inst_gen inst_kill : list nat) : Block :=
  match inst_gen, inst_kill with
  | [], [] => b
  | _, _ =>
      match gen_defs b with
      | [] =>
          let b' := set_gen_defs inst_gen b in
          match kill_defs b with
          | [] => set_kill_defs inst_kill b'
          | _ => b'
          end
      | _ =>
          set_kill_defs (kill_defs b ++ inst_kill)
            (set_gen_defs
               (filter (λ i, i ∉ inst_kill) (gen_defs b) ++ inst_gen) b)
      end
  end.

(** Applying [f] to every block of the chain from [cfg], in order. *)
Definition for_each_block (f : state → block_ref → option state)
    (cfg : block_ref) (s : state) : option state :=
  refs ← chain (blocks s) cfg;
  Py.for_each f refs s.

(** One block of [computeRD_gen_kill]. *)
Definition gen_kill_block (s : state) (r : block_ref) : option state :=
  b ← blocks s !! r;
  b' ← Py.for_each (λ b' it,
                      '(g, k) ← instruction_gen_kill (defs s) it.2 it.1;
                      Some (update_block_gen_kill_RD b' g k))
                   (numerated_code b) b;
  Some (set_blocks (<[r := b']> (blocks s)) s).

(** [def computeRD_gen_kill(self, cfg)] *)
Definition computeRD_gen_kill : block_ref → state → option state :=
  for_each_block gen_kill_block.

Section Solvers.

Context `{Py.SetOrder}.

(** The successors [computeRD_in_out] puts back on its list when the
    [out] of a block has changed. *)
Definition RD_successors (b : Block) : list (option block_ref) :=
  match cls b with
  | BasicBlock branch =>
      match branch with
      | Some r => [Some r]
      | None => match next_block b with
                | Some r => [Some r]
                | None => []
                end
      end
  | ConditionBlock taken fall_through =>
      taken :: match fall_through with
               | Some r => [Some r]
               | None => []
               end
  end.

(** The [while changed:] loop of [computeRD_in_out]; [fuel] bounds the
    number of blocks taken off the list. *)
Fixpoint RD_loop (fuel : nat) (changed : list (option block_ref)) (h : heap)
  : option heap :=
  match changed with
  | [] => Some h
  | top :: changed' =>
      match fuel with
      | O => None
      | S fuel' =>
          r ← top;
          b ← h !! r;
          in_rd ← Py.for_each (λ cur p, pred ← h !! p;
                                        Some (Py.union_int cur (out_RD pred)))
                              (predecessors b) (in_RD b);
          let old_out := out_RD b in
          let new_out :=
            Py.union_int (filter (λ i, i ∉ kill_defs b) in_rd) (gen_defs b) in
          let b' := set_out_RD new_out (set_in_RD in_rd b) in
          let h' := <[r := b']> h in
          if Py.same_indices old_out new_out then RD_loop fuel' changed' h'
          else RD_loop fuel' (changed' ++ RD_successors b') h'
      end
  end.

(** [def computeRD_in_out(self, cfg)] *)
Definition computeRD_in_out (fuel : nat) (cfg : block_ref) (s : state) : option state :=
  refs ← chain (blocks s) cfg;
  h ← RD_loop fuel (Some <$> refs) (blocks s);
  Some (set_blocks h s).

(** The inner loop of [check_constant_propagation] over the definitions of
    the stored name.  The result is the new [current_value]; its [break]
    only leaves this loop. *)
Fixpoint store_defs_loop (lc : list (nat * inst)) (current_value : option Py.val)
    (store_defs : list nat) : option (option Py.val) :=
  match store_defs with
  | [] => Some current_value
  | sd :: rest =>
      t ← Py.dict_get sd lc;
      if op_is t "literal" then
        v ← arg 1 t;
        match current_value with
        | None => store_defs_loop lc (Some v) rest
        | Some c =>
            if negb (Py.eqb c v) then Some None
            else store_defs_loop lc current_value rest
        end
      else Some None
  end.

(** The outer loop, over [current_defs]. *)
Fixpoint current_defs_loop (lc : list (nat * inst)) (d : defs_t)
    (var_defs : list nat) (current_value : option Py.val)
    (current_defs : list nat) : option (option Py.val) :=
  match current_defs with
  | [] => Some current_value
  | definition :: rest =>
      if bool_decide (definition ∈ var_defs) then
        t ← Py.dict_get definition lc;
        if op_is t "store" then
          src ← arg 1 t ≫= Py.as_str;
          sds ← d !! src;
          cv ← store_defs_loop lc current_value sds;
          current_defs_loop lc d var_defs cv rest
        else Some None
      else current_defs_loop lc d var_defs current_value rest
  end.

(** [def check_constant_propagation(self, current_defs, variable)]: the
    outer [option] is for a raised exception, the inner one is the returned
    value or [None]. *)
Definition check_constant_propagation (lc : list (nat * inst)) (d : defs_t)
    (current_defs : list nat) (variable : Py.val) : option (option Py.val) :=
  first ← Py.item variable 0;
  if Py.eqb first (Py.VStr "@") then Some None
  else
    name ← Py.as_str variable;
    match d !! name with
    | None => Some None
    | Some var_defs => current_defs_loop lc d var_defs None current_defs
    end.

(** One instruction of [constant_propagation]: the running
    [current_defs], the block's [numerated_code] and [self.labeled_code]. *)
Definition propagate_inst (d : defs_t)
    (acc : list nat * list (nat * inst) * list (nat * inst)) (it : nat * inst)
  : option (list nat * list (nat * inst) * list (nat * inst)) :=
  let '(current_defs, nc, lc) := acc in
  let '(i, t) := it in
  '(nc', lc') ←
    (if op_is t "load" then
       variable ← arg 1 t;
       expr_value ← check_constant_propagation lc d current_defs variable;
       match expr_value with
       | Some v =>
           target ← arg 2 t;
           let lit := Inst ("literal_" +:+ Py.type_name v) [v; target] in
           Some (Py.dict_set i lit nc, Py.dict_set i lit lc)
       | None => Some (nc, lc)
       end
     else Some (nc, lc));
  '(inst_gen, inst_kill) ← instruction_gen_kill d t i;
  match inst_gen, inst_kill with
  | [], [] => Some (current_defs, nc', lc')
  | _, _ =>
      Some (Py.union_int (filter (λ j, j ∉ inst_kill) current_defs) inst_gen, nc', lc')
  end.

(** One block of [constant_propagation]: [current_defs] starts from the
    block's [in_RD]; the items iterated are those the block has on entry. *)
Definition propagate_block (s : state) (r : block_ref) : option state :=
  b ← blocks s !! r;
  '(_, nc, lc) ←
    Py.for_each (propagate_inst (defs s)) (numerated_code b)
                (in_RD b, numerated_code b, labeled_code s);
  Some (mkState (<[r := set_numerated_code nc b]> (blocks s))
                (code s) (global_variables s) (dead_code s) lc (defs s) (index s)).

(** [def constant_propagation(self, cfg)] *)
Definition constant_propagation : block_ref → state → option state :=
  for_each_block propagate_block.

(** One instruction of [computeLV_use_def]: what it appends to [bb.used]
    and [bb.defined]. *)
Definition use (t : inst) (k : nat) (a : list Py.val * list Py.val)
  : option (list Py.val * list Py.val) :=
  v ← arg k t; Some (a.1 ++ [v], a.2).

Definition def (t : inst) (k : nat) (a : list Py.val * list Py.val)
  : option (list Py.val * list Py.val) :=
  v ← arg k t; Some (a.1, a.2 ++ [v]).

Definition use_def_inst (t : inst) (acc : list Py.val * list Py.val)
  : option (list Py.val * list Py.val) :=
  a1 ← (if op_is t "store" then a ← use t 1 acc; def t 2 a
        else if op_is t "literal" then def t 2 acc
        else if op_is t "load" then a ← use t 1 acc; def t 2 a
        else if op_is t "call" then a ← def t 2 acc; use t 1 a
        else if op_is t "elem" then a ← def t 3 acc; a' ← use t 1 a; use t 2 a'
        else if op_is t "not_" then a ← def t 2 acc; use t 1 a
        else Some acc);
  a2 ← Py.for_each (λ a' bin_op,
                      if op_is t bin_op
                      then a1 ← use t 1 a'; a2 ← use t 2 a1; def t 3 a2
                      else Some a')
                   binary_ops a1;
  a3 ← (if op_is t "call" then def t 2 a2 else Some a2);
  if op_is t "print" then use t 1 a3
  else if op_is t "sitofp" then a ← use t 1 a3; def t 2 a
  else if op_is t "fptosi" then a ← use t 1 a3; def t 2 a
  else if op_is t "return" then
    (if negb (String.eqb (opcode t) "return_void") then use t 1 a3 else Some a3)
  else if op_is t "param" then use t 1 a3
  else if op_is t "cbranch" then use t 1 a3
  else Some a3.

(** One block of [computeLV_use_def]. *)
Definition use_def_block (s : state) (r : block_ref) : option state :=
  b ← blocks s !! r;
  '(u, d) ← Py.for_each (λ a it, use_def_inst it.2 a)
                        (numerated_code b) (used b, defined b);
  Some (set_blocks
          (<[r := set_defined (Py.unique d) (set_used (Py.unique u) b)]> (blocks s)) s).

(** [def computeLV_use_def(self, cfg)] *)
Definition computeLV_use_def : block_ref → state → option state :=
  for_each_block use_def_block.

(** [def find_exit_block(self, cfg)]: the first block of the chain labelled
    [%exit], if any. *)
Definition find_exit_block (h : heap) (cfg : block_ref) : option (option block_ref) :=
  refs ← chain h cfg;
  Some (List.find (λ r, match h !! r with
                        | Some b => String.eqb (label b) "%exit"
                        | None => false
                        end) refs).

(** The [while worklist:] loop of [computeLV_in_out].  [worklist.pop(-1)]
    takes the block appended last: the list is kept newest first. *)
Fixpoint LV_loop (fuel : nat) (globals : list Py.val)
    (worklist : list block_ref) (h : heap) : option heap :=
  match worklist with
  | [] => Some h
  | r :: worklist' =>
      match fuel with
      | O => None
      | S fuel' =>
          b ← h !! r;
          let old_in := in_set b in
          let old_out := out_set b in
          let new_in :=
            Py.union_val (filter (λ v, Py.mem v (defined b) = false) (out_set b))
                         (used b) in
          let b1 := set_in_set new_in b in
          let h1 := <[r := b1]> h in
          new_out ←
            (if String.eqb (label b) "%exit" then Some globals
             else match cls b with
                  | BasicBlock branch =>
                      match branch with
                      | Some br => in_set <$> h1 !! br
                      | None => nb ← next_block b; in_set <$> h1 !! nb
                      end
                  | ConditionBlock taken fall_through =>
                      tk ← taken; ft ← fall_through;
                      tb ← h1 !! tk; fb ← h1 !! ft;
                      Some (Py.union_val (in_set tb) (in_set fb))
                  end);
          let h2 := <[r := set_out_set new_out b1]> h1 in
          if Py.same_elements old_out new_out && Py.same_elements old_in new_in
          then LV_loop fuel' globals worklist' h2
          else LV_loop fuel' globals (rev (predecessors b) ++ worklist') h2
      end
  end.

(** [def computeLV_in_out(self, end_block, first_block)] *)
Definition computeLV_in_out (fuel : nat) (cfg : block_ref) (s : state) : option state :=
  refs ← chain (blocks s) cfg;
  h ← LV_loop fuel (global_variables s) (rev refs) (blocks s);
  Some (set_blocks h s).

End Solvers.

(** [inst[k] not in bb.out_set and inst[k] not in bb.used] *)
Definition target_is_dead (b : Block) (k : nat) (t : inst) : option bool :=
  v ← arg k t;
  Some (negb (Py.mem v (out_set b)) && negb (Py.mem v (used b))).

(** One instruction of [deadcode_elimination]: the keys it appends to
    [self.dead_code]. *)
Definition mark (b : Block) (key : nat) (t : inst) (k : nat) (dead : list nat)
  : option (list nat) :=
  match target_is_dead b k t with
  | Some true => Some (dead ++ [key])
  | Some false => Some dead
  | None => None
  end.

Definition dead_keys (b : Block) (key : nat) (t : inst) (dead : list nat)
  : option (list nat) :=
  d1 ← (if op_is t "store" then mark b key t 2 dead
        else if op_is t "literal" then mark b key t 2 dead
        else if op_is t "load" then mark b key t 2 dead
        else Some dead);
  d2 ← Py.for_each (λ d' bin_op, if op_is t bin_op then mark b key t 3 d' else Some d')
                   binary_ops d1;
  if op_is t "call" then mark b key t 2 d2 else Some d2.

(** One block of [deadcode_elimination]. *)
Definition dead_block (s : state) (r : block_ref) : option state :=
  b ← blocks s !! r;
  dead ← Py.for_each (λ d it, dead_keys b it.1 it.2 d) (numerated_code b) (dead_code s);
  Some (mkState (blocks s) (code s) (global_variables s) dead
                (labeled_code s) (defs s) (index s)).

(** [def deadcode_elimination(self, cfg)] *)
Definition deadcode_elimination (cfg : block_ref) (s : state) : option state :=
  for_each_block dead_block cfg
    (mkState (blocks s) (code s) (global_variables s) []
             (labeled_code s) (defs s) (index s)).

(** [def appendOptimizedCode(self, cfg)] *)
Definition appendOptimizedCode (s : state) : state :=
  mkState (blocks s)
          (code s ++ (snd <$> filter (λ kt, fst kt ∉ dead_code s) (labeled_code s)))
          (global_variables s) (dead_code s) (labeled_code s) (defs s) (index s).

Section Program.

Context `{Py.SetOrder}.

(** The body of the loop of [visit_Program] for one function definition
    whose CFG starts at [cfg].  [short_circuit_jumps], [merge_blocks] and
    [discard_unused_allocs] do nothing. *)
Definition visit_FuncDef (fuel : nat) (s : state) (cfg : block_ref) : option state :=
  let s0 := mkState (blocks s) (code s) (global_variables s) (dead_code s)
                    (labeled_code s) ∅ (index s) in
  s1 ← number_instructions cfg s0;
  s2 ← computeRD_gen_kill cfg s1;
  s3 ← computeRD_in_out fuel cfg s2;
  s4 ← constant_propagation cfg s3;
  _ ← find_exit_block (blocks s4) cfg;
  s5 ← computeLV_use_def cfg s4;
  s6 ← computeLV_in_out fuel cfg s5;
  s7 ← deadcode_elimination cfg s6;
  Some (appendOptimizedCode s7).

(** [def save_global_variables(self, node)] *)
Definition save_global_variables (text : list inst) (s : state) : option state :=
  names ← mapM (arg 1) text;
  Some (mkState (blocks s) (code s) (global_variables s ++ names) (dead_code s)
                (labeled_code s) (defs s) (index s)).

(** [def visit_Program(self, node)], on what the generator left in the
    program node: the global instructions [node.text] and, for the function
    definitions among [node.gdecls], in order, their [cfg]. *)
Definition visit_Program (fuel : nat) (text : list inst) (cfgs : list block_ref)
    (s : state) : option state :=
  s1 ← save_global_variables text
         (mkState (blocks s) text (global_variables s) (dead_code s)
                  (labeled_code s) (defs s) (index s));
  Py.for_each (visit_FuncDef fuel) cfgs s1.

End Program.

(** The vocabulary of the statements about the passes. *)

(** [l] numbered from [i] on. *)
Fixpoint numbering (i : nat) (l : list inst) : list (nat * inst) :=
  match l with
  | [] => []
  | t :: l' => (i, t) :: numbering (S i) l'
  end.

(** The blocks of the chain from [cfg] are as [Block.__init__] leaves their
    [numerated_code]: empty. *)
Definition unnumbered (h : heap) (cfg : block_ref) : Prop :=
  ∀ refs r b, chain h cfg = Some refs → r ∈ refs → h !! r = Some b →
              numerated_code b = [].

(** The state [number_instructions] builds for the chain from [cfg]:
    [labeled_code] has every index once, and is the [numerated_code] of the
    blocks of the chain one after the other. *)
Definition numbered (s : state) (cfg : block_ref) : Prop :=
  ∃ refs bs,
    chain (blocks s) cfg = Some refs
    ∧ mapM (λ r, blocks s !! r) refs = Some bs
    ∧ concat (numerated_code <$> bs) = labeled_code s
    ∧ NoDup (labeled_code s).*1.

(** What constant propagation may do to the instruction at an index: leave
    it, or turn a [load] into a [literal] with the same target. *)
Definition propagated (t t' : inst) : Prop :=
  t' = t
  ∨ (op_is t "load" = true
     ∧ ∃ v target, arg 2 t = Some target
                   ∧ t' = Inst ("literal_" +:+ Py.type_name v) [v; target]).

(** The same on a dict: same indices in the same order. *)
Definition propagated_dict (d d' : list (nat * inst)) : Prop :=
  Forall2 (λ e e', e'.1 = e.1 ∧ propagated e.2 e'.2) d d'.

(** The opcodes [deadcode_elimination] may mark. *)
Definition removable (t : inst) : bool :=
  op_is t "store" || op_is t "literal" || op_is t "load" || is_binary_op t
  || op_is t "call".

(** The opcodes with an effect of their own. *)
Definition side_effecting (t : inst) : bool :=
  op_is t "print" || op_is t "cbranch" || op_is t "jump" || op_is t "return"
  || op_is t "param" || op_is t "elem" || op_is t "sitofp" || op_is t "fptosi".

(** No block of [h] has numbered instructions: the blocks are as the
    generator leaves them. *)
Definition fresh (h : heap) : Prop :=
  map_Forall (λ _ b, length (numerated_code b) = 0%nat) h.

(** The CFGs of the functions of a program share no block, as the
    generator builds them: each chain ends in the exit block of its own
    function. *)
Definition separated (h : heap) (cfgs : list block_ref) : Prop :=
  ∃ chains, mapM (chain h) cfgs = Some chains ∧ NoDup (concat chains).

(** [variable[0] == "@"]: a name the generator gave a global. *)
Definition is_global_name (variable : Py.val) : bool :=
  match Py.item variable 0 with
  | Some first => Py.eqb first (Py.VStr "@")
  | None => false
  end.

(** What constant propagation may do to an instruction, with the name that
    is loaded: leave it, or turn a [load] of a name that is not global into a
    [literal] with the same target. *)
Definition propagated_local (t t' : inst) : Prop :=
  t' = t
  ∨ (op_is t "load" = true
     ∧ ∃ variable v target,
         arg 1 t = Some variable ∧ is_global_name variable = false
         ∧ arg 2 t = Some target
         ∧ t' = Inst ("literal_" +:+ Py.type_name v) [v; target]).

(** Two dicts with the same keys in the same order, and related values. *)
Definition related_dict (R : inst → inst → Prop) (d d' : list (nat * inst)) : Prop :=
  Forall2 (λ e e', e'.1 = e.1 ∧ R e.2 e'.2) d d'.

(** The opcode prefixes whose instructions [instruction_gen_kill] takes
    for definitions of their component 2; for an opcode that starts with one
    of [binary_ops] it is the component 3. *)
Definition target_prefixes : list string :=
  ["store"; "literal"; "load"; "call"; "not_"; "sitofp"; "fptosi"].

(** The gen and kill sets of a sequence of instructions, one instruction
    after the other: an instruction kills what it redefines among the
    definitions generated before it. *)
Definition seq_gen_kill (acc gk : list nat * list nat) : list nat * list nat :=
  (filter (λ i, i ∉ gk.2) acc.1 ++ gk.1, acc.2 ++ gk.2).

(** The index [i] is recorded in [d] among the definitions of the name
    [v]. *)
Definition recorded (d : defs_t) (i : nat) (v : Py.val) : Prop :=
  ∃ x ds, v = Py.VStr x ∧ d !! x = Some ds ∧ i ∈ ds.

(** [d'] records what [d] records. *)
Definition grows (d d' : defs_t) : Prop :=
  ∀ x ds, d !! x = Some ds → ∃ ds', d' !! x = Some ds' ∧ ds ⊆ ds'.

(** The target [instruction_gen_kill] looks up for the instruction [t] at
    index [i] is recorded with that index. *)
Definition targets_recorded (d : defs_t) (i : nat) (t : inst) : Prop :=
  (∀ p, p ∈ target_prefixes → op_is t p = true →
        ∃ v, arg 2 t = Some v ∧ recorded d i v)
  ∧ (∀ p, p ∈ binary_ops → op_is t p = true →
          ∃ v, arg 3 t = Some v ∧ recorded d i v).

End DataFlow.

(* ===================================================================== *)
(** ** The shape of the CFGs the generator builds                         *)
(* ===================================================================== *)

Module Cfg.

Import uc_ast uc_block CodeGenerator.

(** The instructions of a block with no terminator among them, and those
    with exactly one, at the end. *)
Definition unterminated (l : list inst) : bool :=
  forallb (λ t, negb (is_terminator t)) l.

Definition terminated (l : list inst) : bool :=
  match last l with
  | Some t => is_terminator t && unterminated (removelast l)
  | None => false
  end.

(** What the specification says of every block: a label-only instruction
    first, one terminator, last. *)
Definition labelled_and_terminated (b : Block) : bool :=
  match instructions b with
  | t :: _ => is_label t && terminated (instructions b)
  | [] => false
  end.

(** Statements with no [break] and no [assert] inside. *)
Fixpoint plain (s : stmt) : bool :=
  let plain_opt (o : option stmt) : bool :=
    match o with
    | Some s' => plain s'
    | None => true
    end in
  match s with
  | Expr _ | Return _ | Print _ | Read _ => true
  | Break | Assert _ => false
  | Compound _ statmts =>
      (fix each (l : list (option stmt)) : bool :=
         match l with
         | [] => true
         | Some child :: l' => plain child && each l'
         | None :: l' => each l'
         end) statmts
  | If _ ifstat elsestat => plain_opt ifstat && plain_opt elsestat
  | While _ stat => plain_opt stat
  | For _ _ _ stat => plain_opt stat
  end.

Definition plain_function (f : FuncDef) : bool :=
  match fd_compound_statement f with
  | Some body => plain body
  | None => true
  end.

(** The size of a node, for the inductions over the visits. *)
Fixpoint expr_size (e : expr) : nat :=
  match e with
  | Constant _ _ _ _ | ID _ _ _ => 1
  | BinaryOp _ l r _ _ => S (expr_size l + expr_size r)
  | UnaryOp _ e' _ _ => S (expr_size e')
  | Cast _ v _ _ => S (expr_size v)
  | ArrayRef id pos _ _ => S (expr_size id + expr_size pos)
  | FuncCall d args _ _ =>
      S (expr_size d + match args with Some a => expr_size a | None => 0 end)
  | Assignment _ l r _ _ => S (expr_size l + expr_size r)
  | ExprList exprs _ =>
      S ((fix sum (l : list expr) : nat :=
            match l with
            | [] => 0
            | a :: l' => expr_size a + sum l'
            end) exprs)
  end%nat.

Fixpoint stmt_size (s : stmt) : nat :=
  let size_opt (o : option stmt) : nat :=
    match o with
    | Some s' => stmt_size s'
    | None => O
    end in
  match s with
  | Compound _ statmts =>
      S ((fix sum (l : list (option stmt)) : nat :=
            match l with
            | [] => 0
            | Some child :: l' => stmt_size child + sum l'
            | None :: l' => sum l'
            end) statmts)
  | If _ a b => S (size_opt a + size_opt b)
  | While _ a => S (size_opt a)
  | For _ _ _ a => S (size_opt a)
  | _ => 1
  end%nat.

(** *** What the invariant of the generator looks at *)

(** Of a block: its label, its instructions, its successor in the chain
    and how many numbered instructions it has.  The predecessors and the
    branch targets play no role. *)
Record skel := Skel {
  s_label : string;
  s_instructions : list inst;
  s_next : option block_ref;
  s_numbered : nat
}.

Definition skeleton (b : Block) : skel :=
  Skel (label b) (instructions b) (next_block b) (length (numerated_code b)).

(** Of the generator: the blocks, the next reference and the current
    block. *)
Record view := View {
  v_blocks : gmap nat skel;
  v_next : nat;
  v_current : option block_ref
}.

Definition view_of (g : gen) : view :=
  View (skeleton <$> blocks g) (next_ref g) (current_block g).

Definition sk_append (ts : list inst) (s : skel) : skel :=
  Skel (s_label s) (s_instructions s ++ ts) (s_next s) (s_numbered s).

Definition sk_link (o : option block_ref) (s : skel) : skel :=
  Skel (s_label s) (s_instructions s) o (s_numbered s).

(** The effect of [create_block], of [append], of an assignment to
    [next_block] and of [enter] on the view. *)
Definition v_create (name : string) (v : view) : view :=
  View (<[v_next v := Skel name [] None 0]> (v_blocks v)) (S (v_next v)) (v_current v).

Definition v_append (r : block_ref) (ts : list inst) (v : view) : view :=
  View (alter (sk_append ts) r (v_blocks v)) (v_next v) (v_current v).

Definition v_link (c : block_ref) (o : option block_ref) (v : view) : view :=
  View (alter (sk_link o) c (v_blocks v)) (v_next v) (v_current v).

Definition v_enter (c r : block_ref) (v : view) : view :=
  View (alter (sk_link (Some r)) c (v_blocks v)) (v_next v) (Some r).

Definition v_append_current (ts : list inst) (v : view) : view :=
  match v_current v with
  | Some c => v_append c ts v
  | None => v
  end.

(** A visit that only appends instructions that are no terminators to the
    current block. *)
Definition appends (g g' : gen) : Prop :=
  ∃ ts, unterminated ts = true ∧ view_of g' = v_append_current ts (view_of g).

(** The blocks [l] are chained by [next_block], and the last has no
    successor. *)
Definition linked (vb : gmap nat skel) (l : list block_ref) : Prop :=
  ∀ i r, l !! i = Some r → ∃ s, vb !! r = Some s ∧ s_next s = l !! S i.

(** While the body of the function whose entry block is [cfg] is visited:
    [l] is the chain from [cfg] to the current block; the blocks [pend] are
    created and still as created, with the labels listed; the blocks of the
    function have references from [lo] on, and the blocks below [lo] are as
    in [old]; no block has numbered instructions. *)
Definition Path (lo : nat) (old : gmap nat skel) (cfg : block_ref)
    (l : list block_ref) (pend : list (block_ref * string)) (v : view) : Prop :=
  head l = Some cfg
  ∧ v_current v = last l
  ∧ NoDup (l ++ pend.*1)
  ∧ Forall (λ r, lo ≤ r < v_next v)%nat (l ++ pend.*1)
  ∧ (∀ r, is_Some (v_blocks v !! r) → (r < v_next v)%nat)
  ∧ linked (v_blocks v) l
  ∧ Forall (λ rn, v_blocks v !! rn.1 = Some (Skel rn.2 [] None 0)) pend
  ∧ (∀ r s, v_blocks v !! r = Some s → s_numbered s = 0%nat)
  ∧ (∀ r, (r < lo)%nat → v_blocks v !! r = old !! r).

(** The first instruction of a block: [define] in the entry block, the
    label-only instruction made of the label of the block in the others. *)
Definition headed (cfg r : block_ref) (s : skel) : Prop :=
  if decide (r = cfg)
  then ∃ ty ops, head (s_instructions s) = Some (Inst ("define_" +:+ ty) ops)
  else head (s_instructions s) = Some (Inst (s_label s +:+ ":") []).

Definition closed (cfg r : block_ref) (s : skel) : Prop :=
  headed cfg r s ∧ terminated (s_instructions s) = true.

(** The current block, between two statements, after its terminator, when
    it has just been entered, and the entry block before its [define]. *)
Inductive phase :=
| Open
| Closed
| Empty (name : string)
| Entry.

Definition current_ok (ph : phase) (cfg r : block_ref) (s : skel) : Prop :=
  match ph with
  | Open => headed cfg r s ∧ unterminated (s_instructions s) = true
  | Closed => closed cfg r s
  | Empty name => s_instructions s = [] ∧ s_label s = name ∧ r ≠ cfg
  | Entry => s_instructions s = [] ∧ r = cfg
  end.

Definition Shape (ph : phase) (cfg : block_ref) (l : list block_ref) (v : view) : Prop :=
  ∃ pre cur s,
    l = pre ++ [cur] ∧ v_blocks v !! cur = Some s ∧ current_ok ph cfg cur s
    ∧ ∀ r s', r ∈ pre → v_blocks v !! r = Some s' → closed cfg r s'.

(** The invariant: the path, and the shape of its blocks when [sh] is
    set; [q] are the pending blocks of the statement being visited, in the
    order of their creation, [p] those of the enclosing statements. *)
Definition Inv (sh : bool) (ph : phase) (lo : nat) (old : gmap nat skel)
    (cfg : block_ref) (l : list block_ref) (q p : list (block_ref * string))
    (v : view) : Prop :=
  Path lo old cfg l (q ++ p) v ∧ (sh = true → Shape ph cfg l v).

(** The CFG of a function of type [ty] once visited, with references from
    [lo] to below [hi]: the chain [l] from [cfg] is the entry block, the
    blocks [mid] and the exit block; the exit block is the label [exit:] and
    the [return]; when [sh] is set, the entry block begins with [define],
    the blocks of [mid] with their label, and each of them has one
    terminator, its last instruction. *)
Definition function_cfg (sh : bool) (ty : string) (vb : gmap nat skel) (lo hi : nat)
    (cfg : block_ref) (l : list block_ref) : Prop :=
  ∃ mid ex t,
    l = cfg :: mid ++ [ex]
    ∧ NoDup l
    ∧ Forall (λ r, lo ≤ r < hi)%nat l
    ∧ linked vb l
    ∧ vb !! ex = Some (Skel "%exit" [Inst "exit:" []; t] None 0)
    ∧ opcode t = "return_" +:+ ty
    ∧ (sh = true → ∀ r s, r ∈ cfg :: mid → vb !! r = Some s → closed cfg r s).

(** The generator between two functions: every reference in use is below
    [next_ref], no block has numbered instructions, and the current block,
    if any, exists. *)
Definition well_formed (g : gen) : Prop :=
  (∀ r, is_Some (blocks g !! r) → (r < next_ref g)%nat)
  ∧ (∀ r b, blocks g !! r = Some b → numerated_code b = [])
  ∧ (∀ r, current_block g = Some r → is_Some (blocks g !! r)).

(** Statements with no control flow inside: expressions, [print],
    [read], [return], and compound statements made of them. *)
Fixpoint straight (s : stmt) : bool :=
  match s with
  | Expr _ | Return _ | Print _ | Read _ => true
  | Compound _ statmts =>
      (fix each (l : list (option stmt)) : bool :=
         match l with
         | [] => true
         | Some child :: l' => straight child && each l'
         | None :: l' => each l'
         end) statmts
  | _ => false
  end.

(** The number the next temporary of the current function gets. *)
Definition next_temp (g : gen) : nat := default 1%nat (versions g !! fname g).

(** A visit inside a function: the function is still the same, and the
    numbers of its temporaries only went up. *)
Definition temps_grow (g g' : gen) : Prop :=
  fname g' = fname g ∧ (next_temp g ≤ next_temp g')%nat.

(** The function definitions of a program, in order. *)
Definition functions (p : list gdecl) : list FuncDef :=
  omap (λ d, match d with GFuncDef f => Some f | GlobalDecl _ => None end) p.

End Cfg.
(* ===================================================================== *)
(** ** Concrete inputs used by the statements below                       *)
(* ===================================================================== *)

Module Examples.

Import uc_type uc_ast.

(** The table while analysing the body of
    [int main() { int x; int m[2][3]; ... }]: the global scope, the scope of
    [main] and the scope of its compound statement. *)
Definition symtab_main : option Visitor.symtab :=
  let s0 := SymbolTable.beginscope (SymbolTable.beginscope SymbolTable.init) in
  s1 ← SymbolTable.add "main" IntType (Some []) (-2) s0;
  s2 ← SymbolTable.add "x" IntType None (-1) (SymbolTable.beginscope s1);
  SymbolTable.add "m" (ArrayType (ArrayType IntType (Some "3")) (Some "2")) None (-1) s2.



(** [m[0]], a row of the matrix. *)
Definition row_of_m : expr :=
  ArrayRef (ID "m" None None) (Constant "int" "0" None None) None None.

(** [x + 1] and [x < 1] *)
Definition x_plus_1 : expr :=
  BinaryOp "+" (ID "x" None None) (Constant "int" "1" None None) None None.
Definition x_lt_1 : expr :=
  BinaryOp "<" (ID "x" None None) (Constant "int" "1" None None) None None.

(** Typed nodes, as the analyser leaves them. *)
Definition int_const (v : string) : expr := Constant "int" v None (Some IntType).
Definition int_id (n : string) : expr := ID n None (Some IntType).
Definition int_decl (n : string) : Decl := mkDecl (VarDecl "int" n) None.
Definition assign (n : string) (e : expr) : stmt :=
  Expr (Assignment "=" (int_id n) e None (Some VoidType)).
Definition function (ty name : string) (params : option (list Decl)) (body : stmt)
  : gdecl :=
  GFuncDef (mkFuncDef ty (mkDecl (FuncDecl params (VarDecl ty name)) None) (Some body)).

(** [int main() { int a; a = 2 + 3; print(a); return a; }] *)
Definition prog_sum : list gdecl :=
  [function "int" "main" None
     (Compound [int_decl "a"]
        [Some (assign "a" (BinaryOp "+" (int_const "2") (int_const "3") None (Some IntType)));
         Some (Print (Some (int_id "a")));
         Some (Return (Some (int_id "a")))])].

(** [void main() { }] *)
Definition prog_empty : list gdecl :=
  [function "void" "main" None (Compound [] [None])].

(** [int main() { return 1; print(); }] *)
Definition prog_return_first : list gdecl :=
  [function "int" "main" None
     (Compound [] [Some (Return (Some (int_const "1"))); Some (Print None)])].

(** [int main() { if (1 == 1) return 1; return 2; }] *)
Definition prog_early_return : list gdecl :=
  [function "int" "main" None
     (Compound []
        [Some (If (BinaryOp "==" (int_const "1") (int_const "1") None (Some BoolType))
                  (Some (Return (Some (int_const "1")))) None);
         Some (Return (Some (int_const "2")))])].

(** [int f(int c) { int x; if (c == 1) x = 3; else if (c == 2) x = 5;
    else x = 7; return x; }] *)
Definition prog_three_stores : list gdecl :=
  [function "int" "f" (Some [int_decl "c"])
     (Compound [int_decl "x"]
        [Some (If (BinaryOp "==" (int_id "c") (int_const "1") None (Some BoolType))
                  (Some (assign "x" (int_const "3")))
                  (Some (If (BinaryOp "==" (int_id "c") (int_const "2") None (Some BoolType))
                            (Some (assign "x" (int_const "5")))
                            (Some (assign "x" (int_const "7"))))));
         Some (Return (Some (int_id "x")))])].

(** [int f(int i) { int a[3]; return a[i]; }] *)
Definition prog_array : list gdecl :=
  [function "int" "f" (Some [int_decl "i"])
     (Compound [mkDecl (ArrayDecl (VarDecl "int" "a") (Some (ArrayType IntType (Some "3")))) None]
        [Some (Return (Some (ArrayRef (ID "a" None (Some (ArrayType IntType (Some "3"))))
                                      (int_id "i") None (Some IntType))))])].

(** [int one() { return 1; }
     int main() { int a; a = 2 + 3; print(a); return a; }] *)
Definition prog_two : list gdecl :=
  function "int" "one" None (Compound [] [Some (Return (Some (int_const "1")))])
  :: prog_sum.

(** [int g = 3;  int main() { return g; }] *)
Definition prog_global : list gdecl :=
  [GlobalDecl [mkDecl (VarDecl "int" "g") (Some (InitExpr (int_const "3")))];
   function "int" "main" None (Compound [] [Some (Return (Some (int_id "g")))])].

(** What the generator leaves for a program; nothing when it stops. *)
Definition generated (p : list gdecl) : CodeGenerator.generated :=
  default (CodeGenerator.mkGenerated [] [] [] ∅) (CodeGenerator.visit_Program p).

(** The two stages one after the other, as the drivers run them: the
    generator, then the dataflow stage on what it left in the tree. *)
Definition optimise `{Py.SetOrder} (fuel : nat) (p : list gdecl)
  : option (list uc_block.inst) :=
  g ← CodeGenerator.visit_Program p;
  s ← DataFlow.visit_Program fuel (CodeGenerator.g_text g) (CodeGenerator.g_cfgs g)
        (DataFlow.init (CodeGenerator.g_blocks g));
  Some (DataFlow.code s).

(** The state of the dataflow stage once the instructions of the first
    function of [p] are numbered. *)
Definition numbered (p : list gdecl) : option DataFlow.state :=
  g ← CodeGenerator.visit_Program p;
  cfg ← head (CodeGenerator.g_cfgs g);
  DataFlow.number_instructions cfg (DataFlow.init (CodeGenerator.g_blocks g)).

(** The instructions of [prog_three_stores] as [number_instructions] finds
    them in the blocks, and the definitions it records for them. *)
Definition three_stores_code : list (nat * uc_block.inst) :=
  let S_ := Py.VStr in
  let I := uc_block.Inst in
  DataFlow.numbering 1
    [I "define_int" [S_ "@f"; Py.VList [Py.VTuple [S_ "int"; S_ "%1"]]];
     I "entry" [];
     I "alloc_int" [S_ "%c"];
     I "store_int" [S_ "%1"; S_ "%c"];
     I "alloc_int" [S_ "%2"];
     I "alloc_int" [S_ "%x"];
     I "jump" [S_ "%if"];
     I "if:" [];
     I "load_int" [S_ "%c"; S_ "%3"];
     I "literal_int" [Py.VInt 1; S_ "%4"];
     I "eq_int" [S_ "%3"; S_ "%4"; S_ "%5"];
     I "cbranch" [S_ "%5"; S_ "%then"; S_ "%else"];
     I "then:" [];
     I "literal_int" [Py.VInt 3; S_ "%6"];
     I "store_int" [S_ "%6"; S_ "%x"];
     I "jump" [S_ "%if.end"];
     I "else:" [];
     I "jump" [S_ "%if.2"];
     I "if.2:" [];
     I "load_int" [S_ "%c"; S_ "%7"];
     I "literal_int" [Py.VInt 2; S_ "%8"];
     I "eq_int" [S_ "%7"; S_ "%8"; S_ "%9"];
     I "cbranch" [S_ "%9"; S_ "%then.2"; S_ "%else.2"];
     I "then.2:" [];
     I "literal_int" [Py.VInt 5; S_ "%10"];
     I "store_int" [S_ "%10"; S_ "%x"];
     I "jump" [S_ "%if.end.2"];
     I "else.2:" [];
     I "literal_int" [Py.VInt 7; S_ "%11"];
     I "store_int" [S_ "%11"; S_ "%x"];
     I "jump" [S_ "%if.end.2"];
     I "if.end.2:" [];
     I "jump" [S_ "%if.end"];
     I "if.end:" [];
     I "load_int" [S_ "%x"; S_ "%12"];
     I "store_int" [S_ "%12"; S_ "%2"];
     I "jump" [S_ "%exit"];
     I "exit:" [];
     I "return_int" [S_ "%2"]].

Definition three_stores_defs : gmap string (list nat) :=
  list_to_map
    [("%1", [1]); ("%c", [4]); ("%3", [9]); ("%4", [10]); ("%5", [11]);
     ("%6", [14]); ("%x", [15; 26; 30]); ("%7", [20]); ("%8", [21]);
     ("%9", [22]); ("%10", [25]); ("%11", [29]); ("%12", [35]); ("%2", [36])]%nat.

(** The state of the dataflow stage on the first function of [p] when the
    reaching definitions are solved, with the entry of its CFG. *)
Definition reaching `{Py.SetOrder} (fuel : nat) (p : list gdecl)
  : option (uc_block.block_ref * DataFlow.state) :=
  g ← CodeGenerator.visit_Program p;
  cfg ← head (CodeGenerator.g_cfgs g);
  s1 ← DataFlow.number_instructions cfg (DataFlow.init (CodeGenerator.g_blocks g));
  s2 ← DataFlow.computeRD_gen_kill cfg s1;
  s3 ← DataFlow.computeRD_in_out fuel cfg s2;
  Some (cfg, s3).

(** That state for [prog_three_stores], whose CFG starts at block 1. *)
Definition three_stores_reached : DataFlow.state :=
  default (DataFlow.init ∅)
          (snd <$> reaching (H := Py.insertion_order) 200 prog_three_stores).

(** The state of the dataflow stage once the instructions of the function
    of [prog_three_stores] are numbered. *)
Definition three_stores_numbered_state : DataFlow.state :=
  default (DataFlow.init ∅) (numbered prog_three_stores).

(** The state for [prog_global] when the reaching definitions are
    solved. *)
Definition global_reached : DataFlow.state :=
  default (DataFlow.init ∅)
          (snd <$> reaching (H := Py.insertion_order) 200 prog_global).

(** The generator once the first function of [p] is visited, from the
    initial state: the entry of the CFG of the function and the state. *)
Definition after_first_function (p : list gdecl)
  : option (uc_block.block_ref * CodeGenerator.gen) :=
  f ← head (Cfg.functions p); CodeGenerator.visit_FuncDef f CodeGenerator.init.

End Examples.

(* ===================================================================== *)
(** * Properties                                                          *)
(* ===================================================================== *)

Section SymbolTableFacts.

Context {V A : Type} `{EqDecision V}.
Implicit Types (s : SymbolTable.t V A) (n m : string).

Lemma symtab_get_remove_eq s n :
  SymbolTable.get (SymbolTable.remove n s) n = tail (SymbolTable.get s n).
Proof.
  unfold SymbolTable.remove, SymbolTable.get at 1. simpl.
  destruct (SymbolTable.get s n) as [|v prev] eqn:E.
  - fold (SymbolTable.get s n). by rewrite E.
  - by rewrite lookup_insert_eq.
Qed.

Lemma symtab_get_remove_ne s n m :
  n ≠ m → SymbolTable.get (SymbolTable.remove n s) m = SymbolTable.get s m.
Proof.
  intros Hne. unfold SymbolTable.remove, SymbolTable.get at 1. simpl.
  destruct (SymbolTable.get s n); [done|].
  by rewrite lookup_insert_ne.
Qed.

Lemma symtab_args_remove_eq s n :
  SymbolTable.args_get (SymbolTable.remove n s) n = tail (SymbolTable.args_get s n).
Proof.
  unfold SymbolTable.remove, SymbolTable.args_get at 1. simpl.
  destruct (SymbolTable.args_get s n) as [|v prev] eqn:E.
  - fold (SymbolTable.args_get s n). by rewrite E.
  - by rewrite lookup_insert_eq.
Qed.

Lemma symtab_args_remove_ne s n m :
  n ≠ m → SymbolTable.args_get (SymbolTable.remove n s) m = SymbolTable.args_get s m.
Proof.
  intros Hne. unfold SymbolTable.remove, SymbolTable.args_get at 1. simpl.
  destruct (SymbolTable.args_get s n); [done|].
  by rewrite lookup_insert_ne.
Qed.

Lemma py_index_last (len : nat) : Py.index (S len) (-1) = Some len.
Proof.
  unfold Py.index.
  destruct (0 <=? -1)%Z eqn:E1; [apply Z.leb_le in E1; lia|].
  destruct (0 <=? Z.of_nat (S len) + -1)%Z eqn:E2.
  - f_equal. lia.
  - apply Z.leb_gt in E2. lia.
Qed.

Lemma symtab_declared_cases s n top :
  last (SymbolTable.scope s) = Some top →
  SymbolTable.declared s n =
    Some (if bool_decide (n ∈ top) && negb (bool_decide (SymbolTable.get s n = []))
          then -2
          else if negb (bool_decide (SymbolTable.get s n = [])) then -1 else 0).
Proof.
  intros Htop. unfold SymbolTable.declared. rewrite Htop. simpl.
  by repeat case_match.
Qed.

(** Leaving a scope takes, for every name, as many bindings off its chain as
    the scope recorded for it. *)
Lemma symtab_foldl_remove_get names s m :
  SymbolTable.get (foldl (λ acc name, SymbolTable.remove name acc) s names) m
  = drop (length (filter (λ x, x = m) names)) (SymbolTable.get s m).
Proof.
  revert s. induction names as [|x names IH]; intros s; simpl.
  - by rewrite drop_0.
  - rewrite IH. rewrite filter_cons. destruct (decide (x = m)) as [->|Hne].
    + rewrite symtab_get_remove_eq. simpl.
      destruct (SymbolTable.get s m); simpl; [by rewrite !drop_nil|done].
    + by rewrite symtab_get_remove_ne.
Qed.

Lemma symtab_foldl_remove_scope names s :
  SymbolTable.scope (foldl (λ acc name, SymbolTable.remove name acc) s names)
  = SymbolTable.scope s.
Proof. revert s. induction names as [|x names IH]; intros s; simpl; [done|]. by rewrite IH. Qed.

Lemma count_concat_alter_snoc (sc : list (list string)) (i : nat) (x m : string) :
  (i < length sc)%nat →
  length (filter (λ y, y = m) (concat (alter (λ l, l ++ [x]) i sc)))
  = (length (filter (λ y, y = m) (concat sc)) + (if decide (x = m) then 1 else 0))%nat.
Proof.
  revert i. induction sc as [|l sc IH]; intros i Hi; simpl in *; [lia|].
  destruct i as [|i]; simpl.
  - rewrite !filter_app, !length_app, filter_cons, filter_nil.
    destruct (decide (x = m)); simpl; lia.
  - rewrite !filter_app, !length_app.
    specialize (IH i ltac:(lia)). unfold alter in IH. rewrite IH. lia.
Qed.

(** On every state the analyser can build, a name has exactly as many live
    bindings as there are records of it in the open scopes. *)
Lemma symtab_reachable_balance s m :
  SymbolTable.reachable s →
  length (SymbolTable.get s m)
  = length (filter (λ x, x = m) (concat (SymbolTable.scope s))).
Proof.
  induction 1 as [|s Hs IH|s name v a scp s' Hs IH Hadd|s s' Hs IH Hend].
  - done.
  - simpl. by rewrite concat_app, filter_app, length_app, Nat.add_0_r.
  - unfold SymbolTable.add in Hadd.
    destruct (Py.index _ scp) as [i|] eqn:Hi; simplify_eq/=.
    assert (Hlt : (i < length (SymbolTable.scope s))%nat).
    { unfold Py.index in Hi. repeat case_match; simplify_eq;
        repeat match goal with
               | H : (_ <=? _)%Z = true |- _ => apply Z.leb_le in H
               | H : (_ <? _)%Z = true |- _ => apply Z.ltb_lt in H
               | H : (_ <=? _)%Z = false |- _ => apply Z.leb_gt in H
               end; lia. }
    rewrite (count_concat_alter_snoc _ _ _ _ Hlt).
    unfold SymbolTable.get at 1. simpl.
    destruct (decide (name = m)) as [->|Hne].
    + rewrite lookup_insert_eq. simpl. lia.
    + rewrite lookup_insert_ne by done. fold (SymbolTable.get s m). lia.
  - unfold SymbolTable.endscope in Hend.
    destruct (last (SymbolTable.scope s)) as [names|] eqn:Hlast; simplify_eq/=.
    rewrite symtab_foldl_remove_scope.
    apply last_Some in Hlast as [sc Hsc]. rewrite Hsc in IH |- *.
    rewrite removelast_last.
    fold (SymbolTable.get
            (SymbolTable.mk
               (SymbolTable.dict (foldl (λ acc name, SymbolTable.remove name acc) s names))
               (SymbolTable.args (foldl (λ acc name, SymbolTable.remove name acc) s names))
               sc) m).
    change (SymbolTable.get (SymbolTable.mk ?d ?g sc) m) with
      (default [] (d !! m)).
    fold (SymbolTable.get (foldl (λ acc name, SymbolTable.remove name acc) s names) m).
    rewrite symtab_foldl_remove_get, length_drop.
    rewrite concat_app, filter_app, length_app in IH. simpl in IH.
    rewrite app_nil_r in IH. lia.
Qed.

(** On reachable states being bound and being recorded in an open scope
    coincide, so the three answers of [declared] are about scopes alone. *)
Lemma symtab_reachable_bound s m :
  SymbolTable.reachable s →
  SymbolTable.bound s m ↔ SymbolTable.in_some_scope s m.
Proof.
  intros Hs. pose proof (symtab_reachable_balance s m Hs) as Hbal.
  unfold SymbolTable.bound, SymbolTable.in_some_scope. split.
  - intros Hb. destruct (SymbolTable.get s m) as [|v l] eqn:E; [done|].
    simpl in Hbal.
    destruct (filter (λ x, x = m) (concat (SymbolTable.scope s))) as [|y l'] eqn:F;
      [done|].
    assert (Hy : y ∈ filter (λ x, x = m) (concat (SymbolTable.scope s)))
      by (rewrite F; left).
    apply list_elem_of_filter in Hy as [-> Hin].
    apply list_elem_of_In, in_concat in Hin as (names & ? & ?).
    exists names. by rewrite !list_elem_of_In.
  - intros (names & Hn & Hm) E. rewrite E in Hbal. simpl in Hbal.
    assert (Hin : m ∈ filter (λ x, x = m) (concat (SymbolTable.scope s))).
    { apply list_elem_of_filter. split; [done|].
      apply list_elem_of_In, in_concat. exists names.
      by rewrite <- !list_elem_of_In. }
    destruct (filter _ _); [by apply elem_of_nil in Hin | done].
Qed.

(** The table left by beginscope(); add(n, v, a); endscope(): both dicts
    keep the key [n], holding again what [get] returned before. *)
Definition symtab_after_scoped_add s n (v : V) (a : option A) : SymbolTable.t V A :=
  SymbolTable.mk
    (<[n := SymbolTable.get s n]> (<[n := v :: SymbolTable.get s n]> (SymbolTable.dict s)))
    (<[n := SymbolTable.args_get s n]>
       (<[n := a :: SymbolTable.args_get s n]> (SymbolTable.args s)))
    (SymbolTable.scope s).

Lemma symtab_scoped_add s n v a :
  SymbolTable.add n v a (-1) (SymbolTable.beginscope s) ≫= SymbolTable.endscope
  = Some (symtab_after_scoped_add s n v a).
Proof.
  unfold SymbolTable.add. cbn [SymbolTable.scope SymbolTable.beginscope].
  rewrite length_app. cbn [length]. rewrite Nat.add_1_r, py_index_last.
  cbn [mbind option_bind].
  replace (alter (λ names, names ++ [n]) (length (SymbolTable.scope s))
             (SymbolTable.scope s ++ [[]]))
    with (SymbolTable.scope s ++ [[n]]).
  2:{ rewrite <- (Nat.add_0_r (length (SymbolTable.scope s))) at 1.
      by rewrite alter_app_r. }
  unfold SymbolTable.endscope. cbn [SymbolTable.scope].
  rewrite last_snoc. cbn [mbind option_bind foldl].
  unfold SymbolTable.remove, SymbolTable.get at 1, SymbolTable.args_get at 1.
  cbn [SymbolTable.dict SymbolTable.args SymbolTable.scope].
  unfold SymbolTable.args_get at 1.
  cbn [SymbolTable.dict SymbolTable.args SymbolTable.scope id].
  rewrite !lookup_insert_eq. cbn [default].
  by rewrite removelast_last.
Qed.

(** C7. For every table state [s], name [n], binding [v] (and signature
    [a]): the sequence beginscope(); add(n, v); endscope() runs without raising
    and leaves lookup(n) and lookup_args(n) as they were before it (the former
    binding of [n] is back, or [n] is unbound again), and the open scopes are
    the same.  And declared(n) returns -2 exactly when [n] is bound and
    recorded in the innermost scope, -1 exactly when it is bound but not
    recorded in the innermost scope, 0 exactly when it is unbound; the last two
    answers need an innermost scope to exist, [self.scope[-1]] being evaluated
    first. *)
Theorem symtab_scope_roundtrip_and_declared s n v a :
  (∃ s',
      SymbolTable.add n v a (-1) (SymbolTable.beginscope s) ≫= SymbolTable.endscope
      = Some s'
      ∧ SymbolTable.lookup s' n = SymbolTable.lookup s n
      ∧ SymbolTable.lookup_args s' n = SymbolTable.lookup_args s n
      ∧ SymbolTable.scope s' = SymbolTable.scope s
      ∧ ∀ m, SymbolTable.lookup s' m = SymbolTable.lookup s m
             ∧ SymbolTable.lookup_args s' m = SymbolTable.lookup_args s m)
  ∧ (SymbolTable.declared s n = Some (-2)
     ↔ SymbolTable.bound s n ∧ SymbolTable.in_current_scope s n)
  ∧ (SymbolTable.declared s n = Some (-1)
     ↔ SymbolTable.scope s ≠ [] ∧ SymbolTable.bound s n
       ∧ ¬ SymbolTable.in_current_scope s n)
  ∧ (SymbolTable.declared s n = Some 0
     ↔ SymbolTable.scope s ≠ [] ∧ ¬ SymbolTable.bound s n).
Proof.
  split.
  - rewrite symtab_scoped_add. eexists. split; [reflexivity|].
    assert (Hall : ∀ m,
      SymbolTable.lookup (symtab_after_scoped_add s n v a) m = SymbolTable.lookup s m
      ∧ SymbolTable.lookup_args (symtab_after_scoped_add s n v a) m
        = SymbolTable.lookup_args s m).
    { intros m. unfold SymbolTable.lookup, SymbolTable.lookup_args,
        symtab_after_scoped_add, SymbolTable.get, SymbolTable.args_get. simpl.
      destruct (decide (n = m)) as [->|Hne].
      - by rewrite !lookup_insert_eq.
      - by rewrite !lookup_insert_ne. }
    split; [apply Hall|]. split; [apply Hall|]. split; [done|apply Hall].
  - unfold SymbolTable.bound, SymbolTable.in_current_scope.
    destruct (last (SymbolTable.scope s)) as [top|] eqn:Hlast.
    + assert (Hne : SymbolTable.scope s ≠ []) by (intros E; by rewrite E in Hlast).
      rewrite (symtab_declared_cases s n top Hlast).
      destruct (bool_decide (n ∈ top)) eqn:Hin;
        [apply bool_decide_eq_true in Hin | apply bool_decide_eq_false in Hin];
        (destruct (bool_decide (SymbolTable.get s n = [])) eqn:Hg;
         [apply bool_decide_eq_true in Hg | apply bool_decide_eq_false in Hg]);
        simpl; naive_solver.
    + assert (He : SymbolTable.scope s = []) by (by apply last_None).
      unfold SymbolTable.declared. rewrite Hlast. simpl.
      naive_solver.
Qed.

End SymbolTableFacts.

Section VisitorFacts.

Import uc_type uc_ast Visitor.

Lemma op_in_spec op s : op_in op s = true ↔ op ∈ s.
Proof. unfold op_in. apply bool_decide_eq_true. Qed.

(** No operator is both arithmetic and relational for one type, so the two
    successful branches of [visit_BinaryOp] never compete. *)
Lemma binary_rel_ops_disjoint (t : uCType) op :
  op ∈ binary_ops t → op ∈ rel_ops t → False.
Proof.
  destruct t; simpl; rewrite ?elem_of_cons, ?elem_of_nil; intros H1 H2;
    repeat (destruct H1 as [->|H1]; [repeat (destruct H2 as [?|H2]; [discriminate|]); done|]);
    done.
Qed.

(** What [visit_BinaryOp] does once both operands have been visited. *)
Lemma visit_BinaryOp_unfold st op l r c t0 :
  visit st (BinaryOp op l r c t0) =
  (left' ← visit st l;
   ltype ← lift (uc_type_of left');
   right' ← visit st r;
   rtype ← lift (uc_type_of right');
   _ ← _assert_semantic (String.eqb (str_opt ltype) (str_opt rtype)) 6;
   lt ← lift ltype;
   if op_in op (binary_ops lt) then Ok (BinaryOp op left' right' c (Some lt))
   else if op_in op (rel_ops lt) then Ok (BinaryOp op left' right' c (Some BoolType))
   else SemanticError 7).
Proof. reflexivity. Qed.

(** C6. For every [BinaryOp] node the analyser accepts, both operands were
    accepted, the renderings of their types are equal, the operator belongs
    to the arithmetic or to the relational operators of the operand type, and
    the node's [uc_type] is the operand type in the first case and [bool] in
    the second.  Conversely, once both operands are accepted: unequal
    renderings end the analysis with message 6, and equal renderings with an
    operator in neither set end it with message 7. *)
Theorem visit_BinaryOp_typing st op l r c t0 :
  (∀ node', visit st (BinaryOp op l r c t0) = Ok node' →
     ∃ l' r' lt rtype ty,
       visit st l = Ok l' ∧ visit st r = Ok r'
       ∧ uc_type_of l' = Some (Some lt) ∧ uc_type_of r' = Some rtype
       ∧ str lt = str_opt rtype
       ∧ node' = BinaryOp op l' r' c (Some ty)
       ∧ (op ∈ binary_ops lt ∨ op ∈ rel_ops lt)
       ∧ (op ∈ binary_ops lt → ty = lt)
       ∧ (op ∈ rel_ops lt → ty = BoolType))
  ∧ (∀ l' r' lt rtype,
       visit st l = Ok l' → visit st r = Ok r' →
       uc_type_of l' = Some (Some lt) → uc_type_of r' = Some rtype →
       (str lt ≠ str_opt rtype →
          visit st (BinaryOp op l r c t0) = SemanticError 6)
       ∧ (str lt = str_opt rtype → op ∉ binary_ops lt → op ∉ rel_ops lt →
          visit st (BinaryOp op l r c t0) = SemanticError 7)).
Proof.
  rewrite visit_BinaryOp_unfold. split.
  - intros node' H.
    destruct (visit st l) as [l'| |] eqn:Hl; simpl in H; try discriminate.
    destruct (uc_type_of l') as [ltype|] eqn:Hlt; simpl in H; try discriminate.
    destruct (visit st r) as [r'| |] eqn:Hr; simpl in H; try discriminate.
    destruct (uc_type_of r') as [rtype|] eqn:Hrt; simpl in H; try discriminate.
    destruct (String.eqb (str_opt ltype) (str_opt rtype)) eqn:Hs;
      simpl in H; try discriminate.
    apply String.eqb_eq in Hs.
    destruct ltype as [lt|]; simpl in H; try discriminate.
    destruct (op_in op (binary_ops lt)) eqn:Hb.
    + apply op_in_spec in Hb. simplify_eq.
      exists l', r', lt, rtype, lt. repeat split; auto.
      intros Hrel. exfalso. eapply binary_rel_ops_disjoint; eauto.
    + destruct (op_in op (rel_ops lt)) eqn:Hrel; try discriminate.
      apply op_in_spec in Hrel. simplify_eq.
      exists l', r', lt, rtype, BoolType. repeat split; auto.
      intros Hb'. apply op_in_spec in Hb'. congruence.
  - intros l' r' lt rtype -> -> Hlt Hrt. simpl. rewrite Hlt. simpl.
    rewrite Hrt. simpl. split.
    + intros Hne. apply String.eqb_neq in Hne. by rewrite Hne.
    + intros He Hb Hrel. apply String.eqb_eq in He. rewrite He. simpl.
      destruct (op_in op (binary_ops lt)) eqn:E1;
        [apply op_in_spec in E1; done|].
      destruct (op_in op (rel_ops lt)) eqn:E2;
        [apply op_in_spec in E2; done|].
      done.
Qed.

(** The statement above at [x + 1] and [x < 1] inside [main]. *)
Lemma visit_BinaryOp_typing_witness :
  ∃ st, Examples.symtab_main = Some st
  ∧ (∃ l' r', visit st Examples.x_plus_1 = Ok (BinaryOp "+" l' r' None (Some IntType)))
  ∧ (∃ l' r', visit st Examples.x_lt_1 = Ok (BinaryOp "<" l' r' None (Some BoolType))).
Proof.
  eexists. split; [reflexivity|]. split.
  - destruct (visit_BinaryOp_typing
              (default SymbolTable.init Examples.symtab_main) "+"
              (ID "x" None None) (Constant "int" "1" None None) None None)
      as [Hacc _].
    destruct (Hacc _ eq_refl) as (l' & r' & lt & rtype & ty & _ & _ & _ & _ & _ & Hn & _).
    exists (ID "x" None (Some IntType)), (Constant "int" "1" None (Some IntType)).
    reflexivity.
  - destruct (visit_BinaryOp_typing
              (default SymbolTable.init Examples.symtab_main) "<"
              (ID "x" None None) (Constant "int" "1" None None) None None)
      as [Hacc _].
    destruct (Hacc _ eq_refl) as (l' & r' & lt & rtype & ty & _ & _ & _ & _ & _ & Hn & _).
    exists (ID "x" None (Some IntType)), (Constant "int" "1" None (Some IntType)).
    reflexivity.
Defined.

(** C9 (the code departs from it).  [visit_Print] checks the type only when
    the argument is an identifier or a call.  [print(m[0]);] with
    [int m[2][3]] is accepted although the argument has type [int[3]], which
    is neither basic nor a string: no message 21 or 22 is produced. *)
Theorem visit_Print_accepts_array_row :
  ∃ st, Examples.symtab_main = Some st
  ∧ visit_Print st (Some Examples.row_of_m)
    = Ok (Some (ArrayRef (ID "m" None (Some (ArrayType (ArrayType IntType (Some "3")) (Some "2"))))
                         (Constant "int" "0" None (Some IntType))
                         None (Some (ArrayType IntType (Some "3")))))
  ∧ str (ArrayType IntType (Some "3")) = "int[3]"
  ∧ is_basic (ArrayType IntType (Some "3")) = false
  ∧ is_string (ArrayType IntType (Some "3")) = false.
Proof. eexists. split; [reflexivity|]. by vm_compute. Qed.

(** The same through an expression list, the case the source marks as still
    to be done: [print(x, m);] is accepted. *)
Lemma visit_Print_accepts_list_with_array :
  ∃ st node', Examples.symtab_main = Some st
  ∧ visit_Print st (Some (ExprList [ID "x" None None; ID "m" None None] None)) = Ok node'.
Proof. eexists. eexists. split; [reflexivity|]. by vm_compute. Qed.

(** What the check does where it is made: an identifier whose type renders
    outside the five accepted names ends the analysis with message 22. *)
Lemma visit_Print_rejects_array_identifier :
  ∃ st, Examples.symtab_main = Some st
  ∧ visit_Print st (Some (ID "m" None None)) = SemanticError 22.
Proof. eexists. split; [reflexivity|]. by vm_compute. Qed.

End VisitorFacts.

Section OpcodeFacts.

Import uc_block DataFlow.

(** Two prefixes of one string are comparable. *)
Lemma prefix_comparable (p q s : string) :
  String.prefix p s = true → String.prefix q s = true →
  String.prefix p q = true ∨ String.prefix q p = true.
Proof.
  revert p q. induction s as [|c s IH]; intros p q Hp Hq.
  - destruct p; [|done]. left. by destruct q.
  - destruct p as [|a p]; [left; by destruct q|].
    destruct q as [|b q]; [right; reflexivity|].
    simpl in *.
    destruct (ascii_dec a c) as [->|]; [|done].
    destruct (ascii_dec b c) as [->|]; [|done].
    destruct (ascii_dec c c) as [_|]; [|done]. eauto.
Qed.

(** An opcode that starts with [p] does not start with a prefix [q]
    incomparable with [p]. *)
Lemma op_is_exclusive (t : inst) (p q : string) :
  String.prefix p q = false → String.prefix q p = false →
  op_is t p = true → op_is t q = false.
Proof.
  unfold op_is, Py.startswith. intros Hpq Hqp Hp.
  destruct (String.prefix q (opcode t)) eqn:Hq; [|done].
  destruct (prefix_comparable _ _ _ Hp Hq); congruence.
Qed.

(** The loop over [binary_ops] does nothing for an opcode that starts with
    none of them. *)
Lemma binary_loop_skip {A} (t : inst) (f : A → option A) (x : A) :
  is_binary_op t = false →
  Py.for_each (λ a bin_op, if op_is t bin_op then f a else Some a) binary_ops x
  = Some x.
Proof.
  unfold is_binary_op, binary_ops. simpl. intros H.
  repeat (apply orb_false_elim in H as [-> H]). done.
Qed.

End OpcodeFacts.

(** Closes a goal [op_is t q = false] from a hypothesis [op_is t p = true]
    with [p] and [q] incomparable. *)
Ltac other_opcode :=
  match goal with
  | H : DataFlow.op_is ?t ?p = true |- DataFlow.op_is ?t ?q = false =>
      apply (op_is_exclusive t p q); [reflexivity | reflexivity | exact H]
  end.

Ltac not_binary :=
  match goal with
  | H : DataFlow.op_is ?t ?p = true |- DataFlow.is_binary_op ?t = false =>
      unfold DataFlow.is_binary_op, DataFlow.binary_ops; simpl;
      repeat match goal with
             | |- context [DataFlow.op_is t ?q] =>
                 rewrite (op_is_exclusive t p q eq_refl eq_refl H)
             end; reflexivity
  end.

Section GenKillFacts.

Import uc_block DataFlow.

(** The opcodes [instruction_gen_kill] has a case for, outside the binary
    operators; their target is the component at index 2. *)
Definition gen_kill_prefixes : list string :=
  ["store"; "literal"; "load"; "call"; "not_"; "sitofp"; "fptosi"].

(** Where [instruction_gen_kill] has a case, it computes what the
    specification says: gen is the index alone, kill the other definitions of
    the target. *)
Lemma instruction_gen_kill_handled d t i p x ds kill :
  p ∈ gen_kill_prefixes → op_is t p = true →
  arg 2 t = Some (Py.VStr x) → d !! x = Some ds → Py.list_remove i ds = Some kill →
  instruction_gen_kill d t i = Some ([i], kill).
Proof.
  unfold gen_kill_prefixes. rewrite !elem_of_cons, elem_of_nil.
  intros Hp Hop Ha Hd Hk.
  assert (Hgk : gen_kill_at d 2 t i = Some ([i], kill)).
  { unfold gen_kill_at. rewrite Ha. simpl. rewrite Hd. simpl. by rewrite Hk. }
  assert (Hnb : is_binary_op t = false)
    by (destruct Hp as [->|[->|[->|[->|[->|[->|[->|[]]]]]]]]; not_binary).
  unfold instruction_gen_kill.
  assert (Hfirst :
    (if op_is t "store" then gen_kill_at d 2 t i
     else if op_is t "literal" then gen_kill_at d 2 t i
     else if op_is t "load" then gen_kill_at d 2 t i
     else if op_is t "call" then gen_kill_at d 2 t i
     else if op_is t "not_" then gen_kill_at d 2 t i
     else if op_is t "sitofp" then gen_kill_at d 2 t i
     else if op_is t "fptosi" then gen_kill_at d 2 t i
     else Some ([], [])) = Some ([i], kill)).
  { destruct Hp as [->|[->|[->|[->|[->|[->|[->|[]]]]]]]];
      repeat match goal with
             | H : op_is t ?p = true |- context [op_is t ?p] => rewrite H
             | H : op_is t ?p = true |- context [op_is t ?q] =>
                 rewrite (op_is_exclusive t p q eq_refl eq_refl H)
             end; exact Hgk. }
  rewrite Hfirst. simpl.
  apply (binary_loop_skip t (λ _, gen_kill_at d 3 t i)). exact Hnb.
Qed.

(** For an [elem] instruction, and for a [define], no case applies: both
    sets come back empty whatever the definitions recorded for the
    target. *)
Lemma instruction_gen_kill_unhandled d t i p :
  p ∈ ["elem"; "define"] → op_is t p = true →
  instruction_gen_kill d t i = Some ([], []).
Proof.
  rewrite !elem_of_cons, elem_of_nil. intros Hp Hop.
  assert (Hnb : is_binary_op t = false)
    by (destruct Hp as [->|[->|[]]]; not_binary).
  unfold instruction_gen_kill.
  assert (Hfirst :
    (if op_is t "store" then gen_kill_at d 2 t i
     else if op_is t "literal" then gen_kill_at d 2 t i
     else if op_is t "load" then gen_kill_at d 2 t i
     else if op_is t "call" then gen_kill_at d 2 t i
     else if op_is t "not_" then gen_kill_at d 2 t i
     else if op_is t "sitofp" then gen_kill_at d 2 t i
     else if op_is t "fptosi" then gen_kill_at d 2 t i
     else Some ([], [])) = Some ([], [])).
  { destruct Hp as [->|[->|[]]];
      repeat match goal with
             | H : op_is t ?p = true |- context [op_is t ?q] =>
                 rewrite (op_is_exclusive t p q eq_refl eq_refl H)
             end; reflexivity. }
  rewrite Hfirst. simpl.
  apply (binary_loop_skip t (λ _, gen_kill_at d 3 t i)). exact Hnb.
Qed.

(** C2 (the code departs from it).  In
    [int f(int i) { int a[3]; return a[i]; }] the instruction numbered 8 is
    [('elem_int', '%a', '%3', '%4')] and the def-map built by
    [number_instructions] has [%4 -> [8]]; the instruction numbered 1 is the
    [define], recorded as the definition of the parameter temporary [%1].
    [instruction_gen_kill] returns empty gen and kill sets for both, where
    the specified value of gen is the index itself.  A [store], which has a
    case, gets gen = [4]. *)
Theorem instruction_gen_kill_misses_elem_and_define :
  ∃ g cfg s,
    CodeGenerator.visit_Program Examples.prog_array = Some g
    ∧ head (CodeGenerator.g_cfgs g) = Some cfg
    ∧ number_instructions cfg (init (CodeGenerator.g_blocks g)) = Some s
    ∧ Py.dict_get 8 (labeled_code s)
      = Some (Inst "elem_int" [Py.VStr "%a"; Py.VStr "%3"; Py.VStr "%4"])
    ∧ defs s !! "%4" = Some [8%nat]
    ∧ instruction_gen_kill (defs s)
        (Inst "elem_int" [Py.VStr "%a"; Py.VStr "%3"; Py.VStr "%4"]) 8
      = Some ([], [])
    ∧ Py.dict_get 1 (labeled_code s)
      = Some (Inst "define_int"
                [Py.VStr "@f"; Py.VList [Py.VTuple [Py.VStr "int"; Py.VStr "%1"]]])
    ∧ defs s !! "%1" = Some [1%nat]
    ∧ instruction_gen_kill (defs s)
        (Inst "define_int"
           [Py.VStr "@f"; Py.VList [Py.VTuple [Py.VStr "int"; Py.VStr "%1"]]]) 1
      = Some ([], [])
    ∧ instruction_gen_kill (defs s)
        (Inst "store_int" [Py.VStr "%1"; Py.VStr "%i"]) 4
      = Some ([4%nat], []).
Proof.
  eexists. eexists. eexists.
  split; [by vm_compute|]. split; [by vm_compute|]. split; [by vm_compute|].
  by vm_compute.
Qed.

End GenKillFacts.

Section ConstantPropagationFacts.

Import uc_block DataFlow.

(** What [number_instructions] computes on the example. *)
Lemma three_stores_numbered :
  ∃ s, Examples.numbered Examples.prog_three_stores = Some s
       ∧ labeled_code s = Examples.three_stores_code
       ∧ defs s = Examples.three_stores_defs.
Proof.
  destruct (Examples.numbered Examples.prog_three_stores) as [s|] eqn:E.
  - exists s. split; [done|].
    assert (Hl : labeled_code <$> Examples.numbered Examples.prog_three_stores
                 = Some Examples.three_stores_code) by (vm_compute; reflexivity).
    assert (Hd : defs <$> Examples.numbered Examples.prog_three_stores
                 = Some Examples.three_stores_defs) by (vm_compute; reflexivity).
    rewrite E in Hl, Hd.
    change (Some (labeled_code s) = Some Examples.three_stores_code) in Hl.
    change (Some (defs s) = Some Examples.three_stores_defs) in Hd.
    split; congruence.
  - assert (Hs : bool_decide (is_Some (Examples.numbered Examples.prog_three_stores)) = true)
      by (vm_compute; reflexivity).
    rewrite E in Hs. by vm_compute in Hs.
Qed.

(** C4 (the code departs from it).  In
    [int f(int c) { int x; if (c == 1) x = 3; else if (c == 2) x = 5;
    else x = 7; return x; }]
    the definitions of [%x] that reach the final [load] (number 35) are the
    three stores numbered 15, 26 and 30, of the constants 3, 5 and 7.  The
    [break] taken when a second constant differs only leaves the inner loop,
    so the third definition starts afresh: in whatever order the three
    definitions are enumerated, [check_constant_propagation] returns a
    constant, namely the one stored by the definition enumerated last, and the
    [load] is rewritten. *)
Theorem check_constant_propagation_differing_stores :
  ∃ s, Examples.numbered Examples.prog_three_stores = Some s
  ∧ Py.dict_get 35 (labeled_code s) = Some (Inst "load_int" [Py.VStr "%x"; Py.VStr "%12"])
  ∧ defs s !! "%x" = Some [15; 26; 30]%nat
  ∧ Py.dict_get 15 (labeled_code s) = Some (Inst "store_int" [Py.VStr "%6"; Py.VStr "%x"])
  ∧ Py.dict_get 14 (labeled_code s) = Some (Inst "literal_int" [Py.VInt 3; Py.VStr "%6"])
  ∧ Py.dict_get 26 (labeled_code s) = Some (Inst "store_int" [Py.VStr "%10"; Py.VStr "%x"])
  ∧ Py.dict_get 25 (labeled_code s) = Some (Inst "literal_int" [Py.VInt 5; Py.VStr "%10"])
  ∧ Py.dict_get 30 (labeled_code s) = Some (Inst "store_int" [Py.VStr "%11"; Py.VStr "%x"])
  ∧ Py.dict_get 29 (labeled_code s) = Some (Inst "literal_int" [Py.VInt 7; Py.VStr "%11"])
  ∧ ∀ current_defs : list nat,
      current_defs ≡ₚ [15; 26; 30]%nat →
      ∃ v, check_constant_propagation (labeled_code s) (defs s) current_defs (Py.VStr "%x")
           = Some (Some (Py.VInt v)).
Proof.
  destruct three_stores_numbered as (s & E & Hl & Hd).
  exists s. split; [done|]. rewrite Hl, Hd. clear E Hl Hd.
  repeat (split; [by vm_compute|]).
  intros current_defs Hperm. symmetry in Hperm.
  apply permutations_Permutation in Hperm. vm_compute in Hperm.
  repeat (apply elem_of_cons in Hperm as [->|Hperm]; [eexists; by vm_compute|]).
  by apply elem_of_nil in Hperm.
Qed.

(** The whole stage on that program, with the definitions enumerated in
    order of first occurrence: the [load] of [%x] has become
    [literal_int 7], and the three stores to [%x], now dead, are gone. *)
Lemma optimise_three_stores :
  ∃ code,
    Examples.optimise (H := Py.insertion_order) 200 Examples.prog_three_stores = Some code
  ∧ Inst "literal_int" [Py.VInt 7; Py.VStr "%12"] ∈ code
  ∧ (Inst "load_int" [Py.VStr "%x"; Py.VStr "%12"] ∉ code)
  ∧ (∀ src, Inst "store_int" [Py.VStr src; Py.VStr "%x"] ∉ code).
Proof.
  eexists. split; [by vm_compute|]. split.
  - apply list_elem_of_In. vm_compute. tauto.
  - split.
    + intros Hin. apply list_elem_of_In in Hin. vm_compute in Hin.
      repeat (destruct Hin as [Hin|Hin]; [discriminate|]). done.
    + intros src Hin. apply list_elem_of_In in Hin. vm_compute in Hin.
      repeat (destruct Hin as [Hin|Hin]; [discriminate|]). done.
Qed.

End ConstantPropagationFacts.

(* --------------------------------------------------------------------- *)
(** *** Insertion-ordered dicts                                           *)
(* --------------------------------------------------------------------- *)

Section DictFacts.

Context {B : Type}.
Implicit Types (d : list (nat * B)) (k : nat) (v : B).

Lemma dict_set_fresh k v d : k ∉ d.*1 → Py.dict_set k v d = d ++ [(k, v)].
Proof.
  induction d as [|[k' v'] d IH]; simpl; [done|].
  rewrite not_elem_of_cons. intros [Hne Hd].
  destruct (Nat.eqb_spec k k'); [done|]. by rewrite IH.
Qed.

Lemma dict_set_head k v v' d : Py.dict_set k v ((k, v') :: d) = (k, v) :: d.
Proof. simpl. by rewrite Nat.eqb_refl. Qed.

Lemma dict_set_app_l k v d1 d2 :
  k ∈ d1.*1 → Py.dict_set k v (d1 ++ d2) = Py.dict_set k v d1 ++ d2.
Proof.
  induction d1 as [|[k' v'] d1 IH]; simpl; [by intros ?%elem_of_nil|].
  rewrite elem_of_cons. intros Hin.
  destruct (Nat.eqb_spec k k'); [done|].
  destruct Hin as [?|Hin]; [done|]. by rewrite IH.
Qed.

Lemma dict_set_app_r k v d1 d2 :
  k ∉ d1.*1 → Py.dict_set k v (d1 ++ d2) = d1 ++ Py.dict_set k v d2.
Proof.
  induction d1 as [|[k' v'] d1 IH]; simpl; [done|].
  rewrite not_elem_of_cons. intros [Hne Hd].
  destruct (Nat.eqb_spec k k'); [done|]. by rewrite IH.
Qed.

Lemma dict_set_length k v d : k ∈ d.*1 → length (Py.dict_set k v d) = length d.
Proof.
  induction d as [|[k' v'] d IH]; simpl; [by intros ?%elem_of_nil|].
  rewrite elem_of_cons. intros Hin.
  destruct (Nat.eqb_spec k k'); [done|].
  destruct Hin as [?|Hin]; [done|]. simpl. by rewrite IH.
Qed.

End DictFacts.

(* --------------------------------------------------------------------- *)
(** *** What the analyses leave alone                                     *)
(* --------------------------------------------------------------------- *)

Section FrameFacts.

Import uc_block DataFlow.

(** The part of a block the generator wrote: the analyses never assign to
    it. *)
Definition same_static (b b' : Block) : Prop :=
  label b' = label b ∧ instructions b' = instructions b
  ∧ predecessors b' = predecessors b ∧ next_block b' = next_block b
  ∧ cls b' = cls b.

(** The same, and the numbered instructions as well. *)
Definition same_code (b b' : Block) : Prop :=
  same_static b b' ∧ numerated_code b' = numerated_code b.

(** Two stores with the same references, related block by block. *)
Definition heap_rel (R : Block → Block → Prop) (h h' : heap) : Prop :=
  ∀ r, option_Forall2 R (h !! r) (h' !! r).

Lemma same_static_refl b : same_static b b.
Proof. by repeat split. Qed.

Lemma same_static_trans b1 b2 b3 :
  same_static b1 b2 → same_static b2 b3 → same_static b1 b3.
Proof.
  unfold same_static. intros (?&?&?&?&?) (?&?&?&?&?).
  repeat split; congruence.
Qed.

Lemma same_code_refl b : same_code b b.
Proof. split; [apply same_static_refl|done]. Qed.

Lemma same_code_trans b1 b2 b3 :
  same_code b1 b2 → same_code b2 b3 → same_code b1 b3.
Proof.
  intros [? ?] [? ?]. split; [by eapply same_static_trans|congruence].
Qed.

Lemma same_code_static b b' : same_code b b' → same_static b b'.
Proof. by intros [? _]. Qed.

Lemma heap_rel_refl R h : (∀ b, R b b) → heap_rel R h h.
Proof. intros HR r. destruct (h !! r); by constructor. Qed.

Lemma heap_rel_trans R h1 h2 h3 :
  (∀ b1 b2 b3, R b1 b2 → R b2 b3 → R b1 b3) →
  heap_rel R h1 h2 → heap_rel R h2 h3 → heap_rel R h1 h3.
Proof.
  intros HR H12 H23 r. specialize (H12 r). specialize (H23 r).
  destruct H12; inversion H23; simplify_eq; constructor. eauto.
Qed.

Lemma heap_rel_mono (R R' : Block → Block → Prop) h h' :
  (∀ b b', R b b' → R' b b') → heap_rel R h h' → heap_rel R' h h'.
Proof. intros HR H r. destruct (H r); constructor; auto. Qed.

Lemma heap_rel_insert R h r b b' :
  (∀ b, R b b) → h !! r = Some b → R b b' → heap_rel R h (<[r := b']> h).
Proof.
  intros HR Hr Hb r'. destruct (decide (r = r')) as [<-|Hne].
  - rewrite lookup_insert_eq, Hr. by constructor.
  - rewrite lookup_insert_ne by done. destruct (h !! r'); by constructor.
Qed.

Lemma heap_rel_lookup R h h' r b :
  heap_rel R h h' → h !! r = Some b → ∃ b', h' !! r = Some b' ∧ R b b'.
Proof. intros H Hr. specialize (H r). rewrite Hr in H. inversion H. eauto. Qed.

Lemma heap_rel_lookup_inv R h h' r b' :
  heap_rel R h h' → h' !! r = Some b' → ∃ b, h !! r = Some b ∧ R b b'.
Proof. intros H Hr. specialize (H r). rewrite Hr in H. inversion H. eauto. Qed.

Lemma heap_rel_dom R h h' : heap_rel R h h' → dom h' = dom h.
Proof.
  intros H. apply set_eq. intros r. rewrite !elem_of_dom.
  specialize (H r). destruct H; split; intros [? ?]; simplify_eq; eauto.
Qed.

Lemma heap_rel_size R h h' : heap_rel R h h' → size h' = size h.
Proof. intros H. rewrite <- !size_dom. by rewrite (heap_rel_dom R h h' H). Qed.

(** The chain from a block is read off the [next_block] links alone. *)
Lemma chain_from_static fuel h h' start :
  heap_rel same_static h h' → chain_from fuel h' start = chain_from fuel h start.
Proof.
  intros H. revert start. induction fuel as [|fuel IH]; intros [r|]; simpl; try done.
  specialize (H r). destruct H as [b b' (_&_&_&Hn&_)|]; simpl; [|done].
  by rewrite Hn, IH.
Qed.

Lemma chain_static h h' cfg :
  heap_rel same_static h h' → chain h' cfg = chain h cfg.
Proof.
  intros H. unfold chain. rewrite (heap_rel_size _ _ _ H).
  by apply chain_from_static.
Qed.

End FrameFacts.

(* --------------------------------------------------------------------- *)
(** *** Chains                                                            *)
(* --------------------------------------------------------------------- *)

Section ChainFacts.

Import uc_block DataFlow.

Lemma chain_from_det f1 f2 h start l1 l2 :
  chain_from f1 h start = Some l1 → chain_from f2 h start = Some l2 → l1 = l2.
Proof.
  revert f2 start l1 l2. induction f1 as [|f1 IH]; intros f2 [r|] l1 l2 H1 H2;
    simpl in *; simplify_eq.
  all: destruct f2 as [|f2]; simpl in *; simplify_eq; try done.
  destruct (h !! r) as [b|]; simpl in *; [|done].
  destruct (chain_from f1 h (next_block b)) as [l1'|] eqn:E1; simpl in *; [|done].
  destruct (chain_from f2 h (next_block b)) as [l2'|] eqn:E2; simpl in *; [|done].
  simplify_eq. f_equal. eauto.
Qed.

(** Every block of a chain starts a chain of its own, a suffix of the
    first. *)
Lemma chain_from_suffix f h start l r :
  chain_from f h start = Some l → r ∈ l →
  ∃ f' l0 l', chain_from f' h (Some r) = Some (r :: l') ∧ l = l0 ++ r :: l'.
Proof.
  revert start l. induction f as [|f IH]; intros [r0|] l H Hin; simpl in *;
    simplify_eq; try by apply elem_of_nil in Hin.
  destruct (h !! r0) as [b|] eqn:Hb; simpl in *; [|done].
  destruct (chain_from f h (next_block b)) as [l'|] eqn:E; simpl in *; [|done].
  simplify_eq. apply elem_of_cons in Hin as [->|Hin].
  - exists (S f), [], l'. split; [|done]. simpl. rewrite Hb. simpl. by rewrite E.
  - destruct (IH _ _ E Hin) as (f' & l0 & l'' & H1 & ->).
    exists f', (r0 :: l0), l''. done.
Qed.

(** A chain that ends visits no block twice. *)
Lemma chain_from_NoDup f h start l : chain_from f h start = Some l → NoDup l.
Proof.
  revert start l. induction f as [|f IH]; intros [r|] l H; simpl in *;
    simplify_eq; try constructor.
  destruct (h !! r) as [b|] eqn:Hb; simpl in *; [|done].
  destruct (chain_from f h (next_block b)) as [l'|] eqn:E; simpl in *; [|done].
  simplify_eq. constructor; [|by eapply IH].
  intros Hin. destruct (chain_from_suffix _ _ _ _ _ E Hin) as (f' & l0 & l'' & H1 & ->).
  assert (H2 : chain_from (S f) h (Some r) = Some (r :: l0 ++ r :: l''))
    by (simpl; rewrite Hb; simpl; by rewrite E).
  pose proof (chain_from_det _ _ _ _ _ _ H1 H2) as Heq.
  apply (f_equal length) in Heq. simpl in Heq. rewrite length_app in Heq.
  simpl in Heq. lia.
Qed.

Lemma chain_NoDup h cfg refs : chain h cfg = Some refs → NoDup refs.
Proof. apply chain_from_NoDup. Qed.

Lemma chain_from_lookup f h start l r :
  chain_from f h start = Some l → r ∈ l → is_Some (h !! r).
Proof.
  revert start l. induction f as [|f IH]; intros [r0|] l H Hin; simpl in *;
    simplify_eq; try by apply elem_of_nil in Hin.
  destruct (h !! r0) as [b|] eqn:Hb; simpl in *; [|done].
  destruct (chain_from f h (next_block b)) as [l'|] eqn:E; simpl in *; [|done].
  simplify_eq. apply elem_of_cons in Hin as [->|Hin]; eauto.
Qed.

Lemma chain_blocks h cfg refs :
  chain h cfg = Some refs → ∃ bs, mapM (λ r, h !! r) refs = Some bs.
Proof.
  intros Hc.
  assert (Hall : Forall (λ r, is_Some (h !! r)) refs).
  { apply Forall_forall. intros r Hr. eapply chain_from_lookup; eauto. }
  clear Hc. induction Hall as [|r refs [b Hb] _ [bs IH]].
  - by exists [].
  - exists (b :: bs). simpl. rewrite Hb. simpl. by rewrite IH.
Qed.

Lemma numbering_app i l1 l2 :
  numbering i (l1 ++ l2) = numbering i l1 ++ numbering (i + length l1) l2.
Proof.
  revert i. induction l1 as [|t l1 IH]; intros i; simpl.
  - by rewrite Nat.add_0_r.
  - rewrite IH. do 3 f_equal. lia.
Qed.

Lemma numbering_snd i l : (numbering i l).*2 = l.
Proof. revert i. induction l as [|t l IH]; intros i; simpl; [done|]. by rewrite IH. Qed.

Lemma numbering_fst i l : (numbering i l).*1 = seq i (length l).
Proof. revert i. induction l as [|t l IH]; intros i; simpl; [done|]. by rewrite IH. Qed.

Lemma numbering_length i l : length (numbering i l) = length l.
Proof. revert i. induction l as [|t l IH]; intros i; simpl; [done|]. by rewrite IH. Qed.

End ChainFacts.

(* --------------------------------------------------------------------- *)
(** *** The passes that only compute sets                                 *)
(* --------------------------------------------------------------------- *)

Section SetPasses.

Import uc_block DataFlow.

Lemma for_each_rel {A X} (f : A → X → option A) (R : A → A → Prop) l a a' :
  (∀ a, R a a) → (∀ a1 a2 a3, R a1 a2 → R a2 a3 → R a1 a3) →
  (∀ a x a', x ∈ l → f a x = Some a' → R a a') →
  Py.for_each f l a = Some a' → R a a'.
Proof.
  intros Hrefl Htrans. revert a. induction l as [|x l IH]; intros a Hf H; simpl in *.
  - by simplify_eq.
  - destruct (f a x) as [a1|] eqn:E; simpl in *; [|done].
    eapply Htrans; [eapply Hf; [left|done]|].
    apply IH; [|done]. intros ???? ?. eapply Hf; [by right|done].
Qed.

(** What a pass keeps of the state when it only computes sets in the
    blocks. *)
Definition state_frame (s s' : state) : Prop :=
  heap_rel same_code (blocks s) (blocks s')
  ∧ labeled_code s' = labeled_code s ∧ code s' = code s
  ∧ global_variables s' = global_variables s ∧ defs s' = defs s.

Lemma state_frame_refl s : state_frame s s.
Proof. split; [apply heap_rel_refl, same_code_refl|done]. Qed.

Lemma state_frame_trans s1 s2 s3 :
  state_frame s1 s2 → state_frame s2 s3 → state_frame s1 s3.
Proof.
  intros (Ha&?&?&?&?) (Hb&?&?&?&?). split.
  - eapply heap_rel_trans; [apply same_code_trans|done..].
  - repeat split; congruence.
Qed.

Lemma for_each_block_frame f cfg s s' :
  (∀ s r s', f s r = Some s' → state_frame s s') →
  for_each_block f cfg s = Some s' → state_frame s s'.
Proof.
  intros Hf. unfold for_each_block.
  destruct (chain (blocks s) cfg) as [refs|]; simpl; [|done].
  apply for_each_rel; eauto using state_frame_refl, state_frame_trans.
Qed.

Lemma update_block_gen_kill_RD_same_code b g k :
  same_code b (update_block_gen_kill_RD b g k).
Proof.
  unfold update_block_gen_kill_RD.
  destruct g, k, (gen_defs b), (kill_defs b); by repeat split.
Qed.

Lemma gen_kill_block_frame s r s' : gen_kill_block s r = Some s' → state_frame s s'.
Proof.
  unfold gen_kill_block. intros H.
  destruct (blocks s !! r) as [b|] eqn:Hb; simpl in H; [|done].
  destruct (Py.for_each _ _ b) as [b'|] eqn:E; simpl in H; [|done].
  simplify_eq. split; [|done]. simpl.
  apply heap_rel_insert with b; [apply same_code_refl|done|].
  revert E. apply for_each_rel; [apply same_code_refl|apply same_code_trans|].
  intros b1 it b2 _ Hstep.
  destruct (instruction_gen_kill (defs s) it.2 it.1) as [[g k]|]; simpl in Hstep; [|done].
  simplify_eq. apply update_block_gen_kill_RD_same_code.
Qed.

Lemma computeRD_gen_kill_frame cfg s s' :
  computeRD_gen_kill cfg s = Some s' → state_frame s s'.
Proof. apply for_each_block_frame, gen_kill_block_frame. Qed.

Lemma use_def_block_frame s r s' : use_def_block s r = Some s' → state_frame s s'.
Proof.
  unfold use_def_block. intros H.
  destruct (blocks s !! r) as [b|] eqn:Hb; simpl in H; [|done].
  destruct (Py.for_each _ _ _) as [[u d]|]; simpl in H; [|done].
  simplify_eq. split; [|done]. simpl.
  apply heap_rel_insert with b; [apply same_code_refl|done|]. by repeat split.
Qed.

Lemma computeLV_use_def_frame cfg s s' :
  computeLV_use_def cfg s = Some s' → state_frame s s'.
Proof. apply for_each_block_frame, use_def_block_frame. Qed.

Section Loops.

Context `{Py.SetOrder}.

Lemma RD_loop_frame fuel changed h h' :
  RD_loop fuel changed h = Some h' → heap_rel same_code h h'.
Proof.
  revert changed h. induction fuel as [|fuel IH]; intros [|top changed] h Hl;
    simpl in Hl; simplify_eq; try apply heap_rel_refl, same_code_refl.
  destruct top as [r|]; simpl in Hl; [|done].
  destruct (h !! r) as [b|] eqn:Hb; simpl in Hl; [|done].
  destruct (Py.for_each _ _ _) as [in_rd|]; simpl in Hl; [|done].
  eapply heap_rel_trans; [apply same_code_trans| |].
  - apply heap_rel_insert with b; [apply same_code_refl|done|].
    instantiate (1 := set_out_RD _ (set_in_RD in_rd b)). by repeat split.
  - destruct (Py.same_indices _ _); eapply IH; exact Hl.
Qed.

Lemma computeRD_in_out_frame fuel cfg s s' :
  computeRD_in_out fuel cfg s = Some s' → state_frame s s'.
Proof.
  unfold computeRD_in_out. intros Hc.
  destruct (chain (blocks s) cfg) as [refs|]; simpl in Hc; [|done].
  destruct (RD_loop _ _ _) as [h|] eqn:E; simpl in Hc; [|done].
  simplify_eq. split; [|done]. by eapply RD_loop_frame.
Qed.

Lemma LV_loop_frame fuel globals worklist h h' :
  LV_loop fuel globals worklist h = Some h' → heap_rel same_code h h'.
Proof.
  revert worklist h. induction fuel as [|fuel IH]; intros [|r worklist] h Hl;
    simpl in Hl; simplify_eq; try apply heap_rel_refl, same_code_refl.
  destruct (h !! r) as [b|] eqn:Hb; simpl in Hl; [|done].
  match type of Hl with
  | context [mbind _ ?m] => destruct m as [new_out|] eqn:Hout
  end; simpl in Hl; [|done].
  eapply heap_rel_trans; [apply same_code_trans| |].
  - eapply heap_rel_trans; [apply same_code_trans| |].
    + apply heap_rel_insert with b; [apply same_code_refl|done|].
      instantiate (1 := set_in_set _ b). by repeat split.
    + apply heap_rel_insert with (set_in_set
        (Py.union_val (filter (λ v, Py.mem v (defined b) = false) (out_set b)) (used b)) b);
        [apply same_code_refl|by rewrite lookup_insert_eq|].
      instantiate (1 := set_out_set new_out _). by repeat split.
  - destruct (_ && _); eapply IH; exact Hl.
Qed.

Lemma computeLV_in_out_frame fuel cfg s s' :
  computeLV_in_out fuel cfg s = Some s' → state_frame s s'.
Proof.
  unfold computeLV_in_out. intros Hc.
  destruct (chain (blocks s) cfg) as [refs|]; simpl in Hc; [|done].
  destruct (LV_loop _ _ _ _) as [h|] eqn:E; simpl in Hc; [|done].
  simplify_eq. split; [|done]. by eapply LV_loop_frame.
Qed.

End Loops.

End SetPasses.

(* --------------------------------------------------------------------- *)
(** *** Numbering                                                         *)
(* --------------------------------------------------------------------- *)

Section NumberingFacts.

Import uc_block DataFlow.

Lemma number_loop ins : ∀ nc lc d i nc' lc' d' i',
  Py.for_each number_inst ins (nc, lc, d, i) = Some (nc', lc', d', i') →
  Forall (λ k, k < i)%nat nc.*1 → Forall (λ k, k < i)%nat lc.*1 →
  nc' = nc ++ numbering i ins ∧ lc' = lc ++ numbering i ins
  ∧ i' = (i + length ins)%nat.
Proof.
  induction ins as [|t ins IH]; intros nc lc d i nc' lc' d' i' Hl Hnc Hlc; simpl in Hl.
  - simplify_eq. simpl. by rewrite !app_nil_r, Nat.add_0_r.
  - destruct (number_defs t i d) as [d1|]; simpl in Hl; [|done].
    assert (Hfresh : ∀ l : list (nat * inst), Forall (λ k, k < i)%nat l.*1 → i ∉ l.*1).
    { intros l Hall Hin. rewrite Forall_forall in Hall. specialize (Hall _ Hin). lia. }
    rewrite !dict_set_fresh in Hl by auto.
    apply IH in Hl as (-> & -> & ->).
    + simpl. rewrite <- !app_assoc. simpl. repeat split; lia.
    + rewrite fmap_app, Forall_app. split.
      * eapply Forall_impl; [done|]. simpl. lia.
      * simpl. repeat constructor.
    + rewrite fmap_app, Forall_app. split.
      * eapply Forall_impl; [done|]. simpl. lia.
      * simpl. repeat constructor.
Qed.

Lemma number_block_spec s r s' b :
  number_block s r = Some s' → blocks s !! r = Some b → numerated_code b = [] →
  Forall (λ k, k < index s)%nat (labeled_code s).*1 →
  blocks s' = <[r := set_numerated_code (numbering (index s) (instructions b)) b]> (blocks s)
  ∧ labeled_code s' = labeled_code s ++ numbering (index s) (instructions b)
  ∧ index s' = (index s + length (instructions b))%nat
  ∧ code s' = code s ∧ global_variables s' = global_variables s.
Proof.
  unfold number_block. intros Hn Hb Hnc Hlc. rewrite Hb in Hn. simpl in Hn.
  destruct (Py.for_each _ _ _) as [[[[nc lc] d] i]|] eqn:E; simpl in Hn; [|done].
  simplify_eq. rewrite Hnc in E.
  apply number_loop in E as (-> & -> & ->); [done| constructor | done].
Qed.

Lemma mapM_lookup_insert_notin (h : gmap nat Block) r b refs :
  r ∉ refs → mapM (λ r', <[r := b]> h !! r') refs = mapM (λ r', h !! r') refs.
Proof.
  induction refs as [|r' refs IH]; [done|].
  rewrite not_elem_of_cons. intros [Hne Hnin]. simpl.
  rewrite lookup_insert_ne by done. by rewrite IH.
Qed.

Lemma mapM_lookup_cons (h : gmap nat Block) r refs bs :
  mapM (λ r', h !! r') (r :: refs) = Some bs →
  ∃ b bs', bs = b :: bs' ∧ h !! r = Some b ∧ mapM (λ r', h !! r') refs = Some bs'.
Proof.
  simpl. destruct (h !! r) as [b|]; simpl; [|done].
  destruct (mapM _ refs) as [bs'|]; simpl; [|done].
  intros Heq. injection Heq as <-. eauto.
Qed.

Lemma mapM_lookup_ext (h h' : gmap nat Block) refs :
  (∀ r, r ∈ refs → h' !! r = h !! r) →
  mapM (λ r, h' !! r) refs = mapM (λ r, h !! r) refs.
Proof.
  induction refs as [|r refs IH]; intros Hext; [done|]. simpl.
  rewrite Hext by left. rewrite IH; [done|]. intros ??. apply Hext. by right.
Qed.

(** The loop of [number_instructions] over blocks not numbered before:
    every block of the chain gets its instructions, numbered on from where the
    previous block stopped; the other blocks are not touched. *)
Lemma number_chain refs : ∀ s s' bs,
  NoDup refs → mapM (λ r, blocks s !! r) refs = Some bs →
  Forall (λ b, numerated_code b = []) bs →
  Forall (λ k, k < index s)%nat (labeled_code s).*1 →
  Py.for_each number_block refs s = Some s' →
  ∃ bs',
    mapM (λ r, blocks s' !! r) refs = Some bs'
    ∧ Forall2 same_static bs bs'
    ∧ concat (numerated_code <$> bs') = numbering (index s) (concat (instructions <$> bs))
    ∧ labeled_code s' = labeled_code s ++ concat (numerated_code <$> bs')
    ∧ (∀ r, r ∉ refs → blocks s' !! r = blocks s !! r)
    ∧ heap_rel same_static (blocks s) (blocks s')
    ∧ code s' = code s ∧ global_variables s' = global_variables s.
Proof.
  induction refs as [|r refs IH]; intros s s' bs Hnd Hbs Hfresh Hlc Hl.
  - simpl in *. injection Hbs as <-. simplify_eq. exists []. simpl. rewrite app_nil_r.
    repeat split; try done; try constructor. apply heap_rel_refl, same_static_refl.
  - apply NoDup_cons in Hnd as [Hr Hnd].
    apply mapM_lookup_cons in Hbs as (b & bs0 & -> & Hb & Hbs0).
    apply Forall_cons in Hfresh as [Hbnc Hfresh].
    simpl in Hl. destruct (number_block s r) as [s1|] eqn:E1; simpl in Hl; [|done].
    destruct (number_block_spec _ _ _ _ E1 Hb Hbnc Hlc) as (Hh1 & Hlc1 & Hi1 & Hc1 & Hg1).
    destruct (IH s1 s' bs0) as (bs0' & Hbs' & Hst & Hcat & Hlc' & Hout & Hrel & Hc & Hg);
      try done.
    { rewrite Hh1. by rewrite mapM_lookup_insert_notin. }
    { rewrite Hlc1, fmap_app, Forall_app, Hi1. split.
      - eapply Forall_impl; [done|]. simpl. lia.
      - rewrite numbering_fst. apply Forall_forall. intros k Hk.
        apply elem_of_seq in Hk. lia. }
    exists (set_numerated_code (numbering (index s) (instructions b)) b :: bs0').
    assert (Hr' : blocks s' !! r
              = Some (set_numerated_code (numbering (index s) (instructions b)) b)).
    { rewrite Hout by done. rewrite Hh1. apply lookup_insert_eq. }
    repeat split.
    + simpl. rewrite Hr'. simpl. by rewrite Hbs'.
    + constructor; [by repeat split|done].
    + rewrite !fmap_cons. cbn [concat numerated_code set_numerated_code].
      rewrite Hcat, Hi1. by rewrite numbering_app.
    + rewrite Hlc', Hlc1. rewrite !fmap_cons.
      cbn [concat numerated_code set_numerated_code]. by rewrite <- app_assoc.
    + intros r' Hr'n. apply not_elem_of_cons in Hr'n as [Hne Hnin].
      rewrite Hout by done. rewrite Hh1. by rewrite lookup_insert_ne.
    + eapply heap_rel_trans; [apply same_static_trans| |exact Hrel].
      rewrite Hh1. apply heap_rel_insert with b; [apply same_static_refl|done|].
      by repeat split.
    + congruence.
    + congruence.
Qed.

Lemma unnumbered_blocks h cfg refs bs :
  unnumbered h cfg → chain h cfg = Some refs → mapM (λ r, h !! r) refs = Some bs →
  Forall (λ b, numerated_code b = []) bs.
Proof.
  intros Hun Hc. specialize (Hun refs).
  assert (Hun' : ∀ r b, r ∈ refs → h !! r = Some b → numerated_code b = [])
    by (intros; eapply Hun; eauto).
  clear Hun Hc. revert bs. induction refs as [|r refs IH]; intros bs Hbs.
  - simpl in Hbs. injection Hbs as <-. constructor.
  - apply mapM_lookup_cons in Hbs as (b & bs0 & -> & Hb & Hbs0).
    constructor.
    + eapply Hun'; [left|done].
    + apply IH; [|done]. intros r' b' ? ?. eapply Hun'; [by right|done].
Qed.

(** [number_instructions] on a chain not numbered before. *)
Lemma number_instructions_spec cfg s s' refs bs :
  unnumbered (blocks s) cfg → chain (blocks s) cfg = Some refs →
  mapM (λ r, blocks s !! r) refs = Some bs →
  number_instructions cfg s = Some s' →
  numbered s' cfg
  ∧ labeled_code s' = numbering 1 (concat (instructions <$> bs))
  ∧ (∀ r, r ∉ refs → blocks s' !! r = blocks s !! r)
  ∧ heap_rel same_static (blocks s) (blocks s')
  ∧ code s' = code s ∧ global_variables s' = global_variables s.
Proof.
  intros Hun Hc Hbs Hn. unfold number_instructions in Hn. rewrite Hc in Hn.
  simpl in Hn.
  pose proof (unnumbered_blocks _ _ _ _ Hun Hc Hbs) as Hfresh.
  assert (Hnd : NoDup refs) by (by eapply chain_NoDup).
  destruct (number_chain refs
              (mkState (blocks s) (code s) (global_variables s) (dead_code s)
                       [] (defs s) 1) s' bs Hnd Hbs Hfresh ltac:(constructor) Hn)
    as (bs' & Hbs' & Hst & Hcat & Hlc & Hout & Hrel & Hcode & Hg).
  simpl in *. repeat split; try done.
  - exists refs, bs'. split; [by rewrite (chain_static _ _ _ Hrel)|].
    split; [done|]. split; [done|].
    rewrite Hlc, Hcat, numbering_fst. apply NoDup_seq.
  - by rewrite Hlc, Hcat.
Qed.

Lemma numbered_frame s s' cfg : state_frame s s' → numbered s cfg → numbered s' cfg.
Proof.
  intros (Hrel & Hlc & _) (refs & bs & Hc & Hbs & Hcat & Hnd).
  assert (Hbs' : ∃ bs', mapM (λ r, blocks s' !! r) refs = Some bs'
                        ∧ numerated_code <$> bs' = numerated_code <$> bs).
  { clear Hc Hcat. revert bs Hbs. induction refs as [|r refs IH]; intros bs Hbs.
    - simpl in *. injection Hbs as <-. by exists [].
    - apply mapM_lookup_cons in Hbs as (b & bs0 & -> & Hb & Hbs0).
      destruct (IH _ Hbs0) as (bs0' & H1 & H2).
      destruct (heap_rel_lookup _ _ _ _ _ Hrel Hb) as (b' & Hb' & _ & Hnc).
      exists (b' :: bs0'). split.
      + simpl. rewrite Hb'. simpl. by rewrite H1.
      + rewrite !fmap_cons. by rewrite Hnc, H2. }
  destruct Hbs' as (bs' & Hbs' & Hncs).
  exists refs, bs'. rewrite Hlc. split.
  - rewrite <- Hc. apply chain_static.
    eapply heap_rel_mono; [apply same_code_static|done].
  - split; [done|]. split; [by rewrite Hncs|done].
Qed.

End NumberingFacts.

(* --------------------------------------------------------------------- *)
(** *** Constant propagation                                              *)
(* --------------------------------------------------------------------- *)

Section PropagationFacts.

Import uc_block DataFlow.

Context `{Py.SetOrder}.

Lemma propagated_refl t : propagated t t.
Proof. by left. Qed.

Lemma propagated_dict_refl d : propagated_dict d d.
Proof. apply Forall2_same_length_lookup_2; [done|]. intros i e e' ? ?. simplify_eq.
       split; [done|apply propagated_refl]. Qed.

Lemma propagated_dict_keys d d' : propagated_dict d d' → d'.*1 = d.*1.
Proof.
  induction 1 as [|e e' d d' [He _] _ IH]; [done|].
  rewrite !fmap_cons. by rewrite He, IH.
Qed.

Lemma propagated_dict_length d d' : propagated_dict d d' → length d' = length d.
Proof. intros Hd. symmetry. by eapply Forall2_length. Qed.

Lemma propagated_dict_app d1 d1' d2 d2' :
  propagated_dict d1 d1' → propagated_dict d2 d2' →
  propagated_dict (d1 ++ d2) (d1' ++ d2').
Proof. apply Forall2_app. Qed.

(** The instruction read at an index, before and after. *)
Lemma propagated_dict_get d d' k t :
  propagated_dict d d' → Py.dict_get k d = Some t →
  ∃ t', Py.dict_get k d' = Some t' ∧ propagated t t'.
Proof.
  induction 1 as [|[k1 t1] [k1' t1'] d d' [He Hp] _ IH]; simpl; [done|].
  simpl in He. subst k1'. destruct (Nat.eqb k k1); [|done].
  intros. simplify_eq. eauto.
Qed.

Lemma propagate_inst_cases d cd nc lc i t cd' nc' lc' :
  propagate_inst d (cd, nc, lc) (i, t) = Some (cd', nc', lc') →
  (nc' = nc ∧ lc' = lc)
  ∨ (∃ t', propagated t t'
           ∧ nc' = Py.dict_set i t' nc ∧ lc' = Py.dict_set i t' lc).
Proof.
  unfold propagate_inst. intros Hp.
  match type of Hp with
  | context [mbind _ ?m] => destruct m as [[nc1 lc1]|] eqn:E
  end; simpl in Hp; [|done].
  assert (Hout : nc' = nc1 ∧ lc' = lc1).
  { destruct (instruction_gen_kill d t i) as [[g k]|]; simpl in Hp; [|done].
    destruct g, k; by simplify_eq. }
  destruct Hout as [-> ->]. clear Hp.
  destruct (op_is t "load") eqn:Hload; [|left; by simplify_eq].
  destruct (arg 1 t) as [variable|]; simpl in E; [|done].
  destruct (check_constant_propagation lc d cd variable) as [[v|]|];
    simpl in E; [| left; by simplify_eq | done].
  destruct (operands t !! 1%nat) as [target|] eqn:Ht; simpl in E; [|done].
  simplify_eq. right. eexists. split; [|done]. right. split; [done|]. eauto.
Qed.

(** The loop of [constant_propagation] over the items of one block whose
    [numerated_code] is a segment of [labeled_code]: both are rewritten at the
    same indices, in place. *)
Lemma propagate_loop d rest : ∀ cd (done_ pre post : list (nat * inst)) cd' nc' lc',
  NoDup (pre ++ done_ ++ rest ++ post).*1 →
  Py.for_each (propagate_inst d) rest (cd, done_ ++ rest, pre ++ done_ ++ rest ++ post)
  = Some (cd', nc', lc') →
  ∃ rest', nc' = done_ ++ rest' ∧ lc' = pre ++ done_ ++ rest' ++ post
           ∧ propagated_dict rest rest'.
Proof.
  induction rest as [|[i t] rest IH]; intros cd done_ pre post cd' nc' lc' Hnd Hl;
    cbn [Py.for_each] in Hl.
  - simplify_eq. exists []. repeat split. constructor.
  - destruct (propagate_inst d _ (i, t)) as [[[cd1 nc1] lc1]|] eqn:E;
      cbn [mbind option_bind] in Hl; [|done].
    assert (Hi_pre : (i ∉ (pre ++ done_).*1) ∧ (i ∉ done_.*1)).
    { pose proof Hnd as Hnd'.
      rewrite !fmap_app in Hnd'. rewrite fmap_app.
      rewrite app_assoc in Hnd'. apply NoDup_app in Hnd' as (_ & Hdisj & _).
      assert (Hnot : i ∉ pre.*1 ++ done_.*1).
      { intros Hin. apply (Hdisj _ Hin). rewrite fmap_cons. set_solver. }
      split; [done|]. intros Hin. apply Hnot, elem_of_app. by right. }
    destruct Hi_pre as [Hi_pre Hi_done].
    apply propagate_inst_cases in E as [[-> ->]|(t' & Hp & -> & ->)].
    + specialize (IH cd1 (done_ ++ [(i, t)]) pre post cd' nc' lc').
      rewrite <- !app_assoc in IH. simpl in IH.
      destruct (IH Hnd Hl) as (rest' & -> & -> & Hrest).
      exists ((i, t) :: rest'). rewrite <- !app_assoc. simpl.
      repeat split. constructor; [split; [done|apply propagated_refl]|done].
    + specialize (IH cd1 (done_ ++ [(i, t')]) pre post cd' nc' lc').
      rewrite <- !app_assoc in IH. simpl in IH.
      rewrite (dict_set_app_r i t' done_) in Hl by done.
      rewrite (app_assoc pre done_), (dict_set_app_r i t' (pre ++ done_)) in Hl by done.
      rewrite ?dict_set_head, <- ?app_assoc in Hl.
      change (((i, t) :: rest) ++ post) with ((i, t) :: rest ++ post) in Hl.
      rewrite ?dict_set_head in Hl.
      assert (Hnd2 : NoDup (pre ++ done_ ++ (i, t') :: rest ++ post).*1).
      { revert Hnd. by rewrite !fmap_app, !fmap_cons, !fmap_app. }
      destruct (IH Hnd2 Hl) as (rest' & -> & -> & Hrest).
      exists ((i, t') :: rest'). rewrite <- !app_assoc. simpl.
      repeat split. constructor; [split; done|done].
Qed.

Lemma propagate_block_spec s r s' b pre post :
  propagate_block s r = Some s' → blocks s !! r = Some b →
  labeled_code s = pre ++ numerated_code b ++ post →
  NoDup (labeled_code s).*1 →
  ∃ nc', blocks s' = <[r := set_numerated_code nc' b]> (blocks s)
         ∧ labeled_code s' = pre ++ nc' ++ post
         ∧ propagated_dict (numerated_code b) nc'
         ∧ code s' = code s ∧ global_variables s' = global_variables s
         ∧ dead_code s' = dead_code s ∧ defs s' = defs s.
Proof.
  unfold propagate_block. intros Hp Hb Hlc Hnd. rewrite Hb in Hp. simpl in Hp.
  destruct (Py.for_each _ _ _) as [[[cd nc] lc]|] eqn:E; simpl in Hp; [|done].
  simplify_eq. rewrite Hlc in E, Hnd.
  destruct (propagate_loop (defs s) (numerated_code b) (in_RD b) [] pre post cd nc lc)
    as (rest' & -> & -> & Hrest); [done|done|].
  exists rest'. simpl. by repeat split.
Qed.

Lemma propagate_chain refs : ∀ s s' bs pre post,
  NoDup refs → mapM (λ r, blocks s !! r) refs = Some bs →
  labeled_code s = pre ++ concat (numerated_code <$> bs) ++ post →
  NoDup (labeled_code s).*1 →
  Py.for_each propagate_block refs s = Some s' →
  ∃ bs',
    mapM (λ r, blocks s' !! r) refs = Some bs'
    ∧ Forall2 (λ b b', ∃ nc', b' = set_numerated_code nc' b
                              ∧ propagated_dict (numerated_code b) nc') bs bs'
    ∧ labeled_code s' = pre ++ concat (numerated_code <$> bs') ++ post
    ∧ (∀ r, r ∉ refs → blocks s' !! r = blocks s !! r)
    ∧ code s' = code s ∧ global_variables s' = global_variables s
    ∧ dead_code s' = dead_code s ∧ defs s' = defs s.
Proof.
  induction refs as [|r refs IH]; intros s s' bs pre post Hnd Hbs Hlc Hkeys Hl.
  - simpl in *. injection Hbs as <-. simplify_eq. exists [].
    repeat split; try done; try constructor.
  - apply NoDup_cons in Hnd as [Hr Hnd].
    apply mapM_lookup_cons in Hbs as (b & bs0 & -> & Hb & Hbs0).
    simpl in Hl. destruct (propagate_block s r) as [s1|] eqn:E1; simpl in Hl; [|done].
    rewrite fmap_cons in Hlc. cbn [concat] in Hlc. rewrite <- app_assoc in Hlc.
    destruct (propagate_block_spec _ _ _ _ _ _ E1 Hb Hlc Hkeys)
      as (nc' & Hh1 & Hlc1 & Hprop & Hc1 & Hg1 & Hd1 & Hdf1).
    destruct (IH s1 s' bs0 (pre ++ nc') post)
      as (bs0' & Hbs' & Hrew & Hlc' & Hout & Hc & Hg & Hd & Hdf); try done.
    { rewrite Hh1. by rewrite mapM_lookup_insert_notin. }
    { by rewrite Hlc1, <- app_assoc. }
    { rewrite Hlc1. rewrite Hlc in Hkeys.
      rewrite !fmap_app in *. by rewrite (propagated_dict_keys _ _ Hprop). }
    exists (set_numerated_code nc' b :: bs0').
    assert (Hr' : blocks s' !! r = Some (set_numerated_code nc' b)).
    { rewrite Hout by done. rewrite Hh1. apply lookup_insert_eq. }
    repeat split.
    + simpl. rewrite Hr'. simpl. by rewrite Hbs'.
    + constructor; [eauto|done].
    + rewrite Hlc'. rewrite fmap_cons. cbn [concat numerated_code set_numerated_code].
      by rewrite <- !app_assoc.
    + intros r' Hr'n. apply not_elem_of_cons in Hr'n as [Hne Hnin].
      rewrite Hout by done. rewrite Hh1. by rewrite lookup_insert_ne.
    + congruence.
    + congruence.
    + congruence.
    + congruence.
Qed.

End PropagationFacts.

Section PropagationTheorem.

Import uc_block DataFlow.

Context `{Py.SetOrder}.

(** From the blocks of a chain, before and after a pass over them, to all
    the blocks. *)
Lemma chain_pass_heap_rel (R : Block → Block → Prop) (h h' : gmap nat Block) refs bs bs' :
  (∀ b, R b b) →
  mapM (λ r, h !! r) refs = Some bs → mapM (λ r, h' !! r) refs = Some bs' →
  Forall2 R bs bs' → (∀ r, r ∉ refs → h' !! r = h !! r) →
  heap_rel R h h'.
Proof.
  intros HR Hbs Hbs' HF Hout r.
  apply mapM_Some in Hbs, Hbs'.
  destruct (decide (r ∈ refs)) as [Hin|Hnin].
  - apply list_elem_of_lookup in Hin as [j Hj].
    destruct (Forall2_lookup_l _ _ _ _ _ Hbs Hj) as (b & Hb & Hhb).
    destruct (Forall2_lookup_l _ _ _ _ _ Hbs' Hj) as (b' & Hb' & Hhb').
    rewrite Hhb, Hhb'. constructor. eapply Forall2_lookup_lr; eauto.
  - rewrite Hout by done. destruct (h !! r); by constructor.
Qed.

(** What constant propagation does to a numbered state. *)
Lemma constant_propagation_spec cfg s s' :
  numbered s cfg → constant_propagation cfg s = Some s' →
  (labeled_code s').*1 = (labeled_code s).*1
  ∧ length (labeled_code s') = length (labeled_code s)
  ∧ (∀ k t, Py.dict_get k (labeled_code s) = Some t →
            ∃ t', Py.dict_get k (labeled_code s') = Some t' ∧ propagated t t')
  ∧ (∀ k t, Py.dict_get k (labeled_code s) = Some t → op_is t "load" = false →
            Py.dict_get k (labeled_code s') = Some t)
  ∧ heap_rel (λ b b', same_static b b'
                      ∧ propagated_dict (numerated_code b) (numerated_code b'))
             (blocks s) (blocks s')
  ∧ code s' = code s ∧ global_variables s' = global_variables s
  ∧ numbered s' cfg
  ∧ propagated_dict (labeled_code s) (labeled_code s')
  ∧ (∀ refs r, chain (blocks s) cfg = Some refs → r ∉ refs →
               blocks s' !! r = blocks s !! r).
Proof.
  intros (refs & bs & Hc & Hbs & Hcat & Hnd) Hcp.
  unfold constant_propagation, for_each_block in Hcp. rewrite Hc in Hcp. simpl in Hcp.
  destruct (propagate_chain refs s s' bs [] [])
    as (bs' & Hbs' & Hrew & Hlc' & Hout & Hcode & Hg & Hd & Hdf); try done.
  { by eapply chain_NoDup. }
  { by rewrite app_nil_r. }
  simpl in Hlc'. rewrite app_nil_r in Hlc'.
  assert (Hdict : propagated_dict (labeled_code s) (labeled_code s')).
  { rewrite <- Hcat, Hlc'. clear -Hrew.
    induction Hrew as [|b b' bs bs' (nc' & -> & Hp) _ IH]; [constructor|].
    rewrite !fmap_cons. cbn [concat]. by apply propagated_dict_app. }
  assert (Hrel : heap_rel (λ b b', same_static b b'
                      ∧ propagated_dict (numerated_code b) (numerated_code b'))
             (blocks s) (blocks s')).
  { eapply chain_pass_heap_rel; try done.
    - intros b. split; [apply same_static_refl|apply propagated_dict_refl].
    - eapply Forall2_impl; [done|]. intros b b' (nc' & -> & Hp). by repeat split. }
  split; [by apply propagated_dict_keys|].
  split; [by apply propagated_dict_length|].
  split; [intros k t; by apply propagated_dict_get|].
  split.
  { intros k t Hk Hnl. destruct (propagated_dict_get _ _ _ _ Hdict Hk) as (t' & Ht' & Hp).
    destruct Hp as [->|[Hl _]]; [done|congruence]. }
  split; [done|]. split; [done|]. split; [done|].
  split; [|split; [done|]].
  - exists refs, bs'. split.
    + rewrite <- Hc. apply chain_static.
      eapply heap_rel_mono; [|exact Hrel]. by intros ?? [? _].
    + split; [done|]. split; [done|].
      by rewrite (propagated_dict_keys _ _ Hdict).
  - intros refs0 r Hc0 Hr. apply Hout. congruence.
Qed.

(** C10.  On a state whose instructions are numbered, constant propagation
    keeps the indices of [labeled_code] and their order, hence the number of
    instructions; the tuple at an index is afterwards either the same or, when
    it was a [load], a [literal] with the target of that [load]; in
    particular a tuple whose opcode does not begin with [load] is identical
    afterwards.  In every block the label, the instruction list, the links
    and the block class are unchanged, and its [numerated_code] is rewritten
    in the same way; the emitted code so far is unchanged. *)
Theorem constant_propagation_frame cfg s s' :
  numbered s cfg → constant_propagation cfg s = Some s' →
  (labeled_code s').*1 = (labeled_code s).*1
  ∧ length (labeled_code s') = length (labeled_code s)
  ∧ (∀ k t, Py.dict_get k (labeled_code s) = Some t →
            ∃ t', Py.dict_get k (labeled_code s') = Some t' ∧ propagated t t')
  ∧ (∀ k t, Py.dict_get k (labeled_code s) = Some t → op_is t "load" = false →
            Py.dict_get k (labeled_code s') = Some t)
  ∧ heap_rel (λ b b', same_static b b'
                      ∧ propagated_dict (numerated_code b) (numerated_code b'))
             (blocks s) (blocks s')
  ∧ code s' = code s.
Proof.
  intros Hn Hcp.
  destruct (constant_propagation_spec cfg s s' Hn Hcp)
    as (H1 & H2 & H3 & H4 & H5 & H6 & _).
  by repeat split.
Qed.

End PropagationTheorem.

Lemma constant_propagation_frame_witness :
  let s := Examples.three_stores_reached in
  ∃ s',
    DataFlow.constant_propagation (H := Py.insertion_order) 1%nat s = Some s'
    ∧ (DataFlow.labeled_code s').*1 = (DataFlow.labeled_code s).*1
    ∧ Py.dict_get 35%nat (DataFlow.labeled_code s')
      = Some (uc_block.Inst "literal_int" [Py.VInt 7; Py.VStr "%12"]).
Proof.
  intros s.
  assert (Hl : (λ x, Py.dict_get 35%nat (DataFlow.labeled_code x))
                 <$> DataFlow.constant_propagation (H := Py.insertion_order) 1%nat s
               = Some (Some (uc_block.Inst "literal_int" [Py.VInt 7; Py.VStr "%12"])))
    by (vm_compute; reflexivity).
  destruct (DataFlow.constant_propagation 1%nat s) as [s'|] eqn:E; [|discriminate Hl].
  exists s'. split; [reflexivity|]. split.
  - refine (proj1 (constant_propagation_frame (H := Py.insertion_order) 1%nat s s' _ E)).
    eexists _, _.
    split; [vm_compute; reflexivity|].
    split; [vm_compute; reflexivity|].
    split; [vm_compute; reflexivity|].
    apply (bool_decide_unpack _). vm_compute. exact I.
  - by injection Hl.
Defined.

(* --------------------------------------------------------------------- *)
(** *** Dead code elimination and the emitted code                        *)
(* --------------------------------------------------------------------- *)

Section DeadCodeFacts.

Import uc_block DataFlow.

(** Rewrites every test of the opcode of [t] against a prefix incomparable
    with the one a hypothesis gives. *)
Ltac other_opcodes :=
  match goal with
  | H : op_is ?t ?p = true |- _ =>
      repeat match goal with
             | |- context [op_is t ?q] =>
                 rewrite (op_is_exclusive t p q eq_refl eq_refl H)
             end
  end.

Lemma side_effecting_cases t :
  side_effecting t = true →
  ∃ p, p ∈ ["print"; "cbranch"; "jump"; "return"; "param"; "elem"; "sitofp"; "fptosi"]
       ∧ op_is t p = true.
Proof.
  unfold side_effecting. intros H.
  repeat (apply orb_prop in H as [H|H]); eexists; (split; [|exact H]);
    rewrite !elem_of_cons; tauto.
Qed.

Lemma side_effecting_not_removable t : side_effecting t = true → removable t = false.
Proof.
  intros (p & Hp & H)%side_effecting_cases.
  rewrite !elem_of_cons, elem_of_nil in Hp.
  unfold removable, is_binary_op, binary_ops. simpl.
  destruct Hp as [->|[->|[->|[->|[->|[->|[->|[->|[]]]]]]]]]; by other_opcodes.
Qed.

Lemma side_effecting_not_load t : side_effecting t = true → op_is t "load" = false.
Proof.
  intros (p & Hp & H)%side_effecting_cases.
  rewrite !elem_of_cons, elem_of_nil in Hp.
  destruct Hp as [->|[->|[->|[->|[->|[->|[->|[->|[]]]]]]]]]; by other_opcodes.
Qed.

Lemma load_not_side_effecting t : op_is t "load" = true → side_effecting t = false.
Proof. intros H. unfold side_effecting. by other_opcodes. Qed.

(** Constant propagation keeps the side-effecting instructions. *)
Lemma propagated_side_effecting t t' :
  propagated t t' → side_effecting t' = side_effecting t.
Proof.
  intros [->|[Hl (v & target & _ & ->)]]; [done|].
  by rewrite (load_not_side_effecting t Hl).
Qed.

Lemma mark_spec b key t k dead dead' :
  mark b key t k dead = Some dead' → dead' = dead ∨ dead' = dead ++ [key].
Proof.
  unfold mark. destruct (target_is_dead b k t) as [[]|]; naive_solver.
Qed.

Lemma mark_grow b key t k d d' :
  mark b key t k d = Some d' → ∀ x, x ∈ d' → x ∈ d ∨ x = key.
Proof.
  intros [->| ->]%mark_spec x Hx; [by left|].
  apply elem_of_app in Hx as [?|Hx%list_elem_of_singleton]; eauto.
Qed.

Lemma binary_loop_grow b key t ops : ∀ d d',
  Py.for_each (λ d' bin_op, if op_is t bin_op then mark b key t 3 d' else Some d') ops d
  = Some d' →
  ∀ x, x ∈ d' → x ∈ d ∨ x = key.
Proof.
  induction ops as [|op ops IH]; intros d d' E; cbn [Py.for_each] in E.
  - simplify_eq. eauto.
  - destruct (if op_is t op then _ else _) as [d1|] eqn:E1;
      cbn [mbind option_bind] in E; [|done].
    intros x Hx. destruct (IH _ _ E x Hx) as [Hx1|]; [|by right].
    destruct (op_is t op); [|by simplify_eq; eauto].
    eapply mark_grow; eauto.
Qed.

(** The keys [deadcode_elimination] adds for an instruction are its own,
    and only when its opcode is one of those it looks at. *)
Lemma dead_keys_spec b key t dead dead' :
  dead_keys b key t dead = Some dead' →
  ∀ k, k ∈ dead' → k ∈ dead ∨ (k = key ∧ removable t = true).
Proof.
  unfold dead_keys. intros H.
  destruct (removable t) eqn:Hr.
  - assert (Hall : ∀ x, x ∈ dead' → x ∈ dead ∨ x = key); [|naive_solver].
    destruct (if op_is t "store" then mark b key t 2 dead
              else if op_is t "literal" then mark b key t 2 dead
              else if op_is t "load" then mark b key t 2 dead
              else Some dead) as [d1|] eqn:E1; cbn [mbind option_bind] in H; [|done].
    assert (H1 : ∀ x, x ∈ d1 → x ∈ dead ∨ x = key).
    { clear H. destruct (op_is t "store"); [eapply mark_grow; eassumption|].
      destruct (op_is t "literal"); [eapply mark_grow; eassumption|].
      destruct (op_is t "load"); [eapply mark_grow; eassumption|].
      simplify_eq. eauto. }
    destruct (Py.for_each _ binary_ops d1) as [d2|] eqn:E2;
      cbn [mbind option_bind] in H; [|done].
    pose proof (binary_loop_grow _ _ _ _ _ _ E2) as H2.
    assert (H3 : ∀ x, x ∈ dead' → x ∈ d2 ∨ x = key).
    { destruct (op_is t "call"); [eapply mark_grow; eassumption|]. simplify_eq. eauto. }
    intros x Hx. destruct (H3 x Hx) as [Hx2|]; [|by right].
    destruct (H2 x Hx2) as [Hx1|]; [|by right]. eauto.
  - unfold removable in Hr.
    repeat (apply orb_false_elim in Hr as [Hr ?]).
    rewrite Hr in H.
    repeat match goal with Hx : op_is t _ = false |- _ => rewrite Hx in H; clear Hx end.
    cbn [mbind option_bind] in H. rewrite binary_loop_skip in H by done.
    cbn [mbind option_bind] in H. simplify_eq. eauto.
Qed.

Lemma dead_items_spec b items : ∀ dead dead',
  Py.for_each (λ d it, dead_keys b it.1 it.2 d) items dead = Some dead' →
  ∀ k, k ∈ dead' → k ∈ dead ∨ ∃ t, (k, t) ∈ items ∧ removable t = true.
Proof.
  induction items as [|[key t] items IH]; intros dead dead' E; cbn [Py.for_each] in E.
  - simplify_eq. eauto.
  - destruct (dead_keys b _ _ dead) as [d1|] eqn:E1; cbn [mbind option_bind] in E; [|done].
    intros k Hk. destruct (IH _ _ E k Hk) as [Hk1|(t0 & Hin & Hr)].
    + destruct (dead_keys_spec _ _ _ _ _ E1 k Hk1) as [?|[-> Hr]]; [by left|].
      right. exists t. split; [left|done].
    + right. exists t0. split; [by right|done].
Qed.

Lemma dead_block_spec s r s' :
  dead_block s r = Some s' →
  blocks s' = blocks s ∧ code s' = code s ∧ labeled_code s' = labeled_code s
  ∧ global_variables s' = global_variables s
  ∧ ∀ k, k ∈ dead_code s' →
         k ∈ dead_code s
         ∨ ∃ b t, blocks s !! r = Some b ∧ (k, t) ∈ numerated_code b ∧ removable t = true.
Proof.
  unfold dead_block. intros H.
  destruct (blocks s !! r) as [b|] eqn:Hb; cbn [mbind option_bind] in H; [|done].
  destruct (Py.for_each _ _ _) as [dead|] eqn:E; cbn [mbind option_bind] in H; [|done].
  simplify_eq. cbn. repeat split; try done.
  intros k Hk. destruct (dead_items_spec _ _ _ _ E k Hk) as [?|(t & ? & ?)]; [by left|].
  right. by exists b, t.
Qed.

Lemma dead_chain_spec refs : ∀ s s',
  Py.for_each dead_block refs s = Some s' →
  blocks s' = blocks s ∧ code s' = code s ∧ labeled_code s' = labeled_code s
  ∧ global_variables s' = global_variables s
  ∧ ∀ k, k ∈ dead_code s' →
         k ∈ dead_code s
         ∨ ∃ r b t, r ∈ refs ∧ blocks s !! r = Some b ∧ (k, t) ∈ numerated_code b
                    ∧ removable t = true.
Proof.
  induction refs as [|r refs IH]; intros s s' E; cbn [Py.for_each] in E.
  - simplify_eq. repeat split; eauto.
  - destruct (dead_block s r) as [s1|] eqn:E1; cbn [mbind option_bind] in E; [|done].
    destruct (dead_block_spec _ _ _ E1) as (Hb1 & Hc1 & Hl1 & Hg1 & Hd1).
    destruct (IH _ _ E) as (Hb & Hc & Hl & Hg & Hd).
    repeat split; try congruence.
    intros k Hk. destruct (Hd k Hk) as [Hk1|(r' & b & t & ? & Hr' & ? & ?)].
    + destruct (Hd1 k Hk1) as [?|(b & t & ? & ? & ?)]; [by left|].
      right. exists r, b, t. repeat split; try done. left.
    + right. exists r', b, t. rewrite Hb1 in Hr'. repeat split; try done. by right.
Qed.

Lemma dict_get_elem {B} k (d : list (nat * B)) v : Py.dict_get k d = Some v → (k, v) ∈ d.
Proof.
  induction d as [|[k' v'] d IH]; simpl; [done|].
  destruct (Nat.eqb_spec k k') as [->|]; intros; simplify_eq; [left|right; auto].
Qed.

Lemma NoDup_keys_inj {B} (d : list (nat * B)) k v v' :
  NoDup d.*1 → (k, v) ∈ d → (k, v') ∈ d → v = v'.
Proof.
  induction d as [|[k0 v0] d IH]; intros Hnd Hv Hv'; [by apply elem_of_nil in Hv|].
  rewrite fmap_cons in Hnd. apply NoDup_cons in Hnd as [Hk0 Hnd]. simpl in Hk0.
  apply elem_of_cons in Hv as [Hv|Hv]; apply elem_of_cons in Hv' as [Hv'|Hv'].
  - congruence.
  - simplify_eq. destruct Hk0. apply list_elem_of_fmap. by exists (k0, v').
  - simplify_eq. destruct Hk0. apply list_elem_of_fmap. by exists (k0, v).
  - by apply IH.
Qed.

(** What [deadcode_elimination] marks in a numbered state: indices of
    [labeled_code] with one of the opcodes it looks at. *)
Lemma deadcode_elimination_spec cfg s s' :
  numbered s cfg → deadcode_elimination cfg s = Some s' →
  blocks s' = blocks s ∧ code s' = code s ∧ labeled_code s' = labeled_code s
  ∧ global_variables s' = global_variables s
  ∧ ∀ k, k ∈ dead_code s' → ∃ t, (k, t) ∈ labeled_code s ∧ removable t = true.
Proof.
  intros (refs & bs & Hc & Hbs & Hcat & Hnd) H.
  unfold deadcode_elimination, for_each_block in H. cbn [blocks] in H.
  rewrite Hc in H. cbn [mbind option_bind] in H.
  destruct (dead_chain_spec _ _ _ H) as (Hb & Hco & Hl & Hg & Hd).
  repeat split; try done.
  intros k Hk. destruct (Hd k Hk) as [Hk0|(r & b & t & Hr & Hb0 & Hin & Hrem)].
  { by apply elem_of_nil in Hk0. }
  exists t. split; [|done]. rewrite <- Hcat.
  apply mapM_Some in Hbs. apply list_elem_of_lookup in Hr as [j Hj].
  destruct (Forall2_lookup_l _ _ _ _ _ Hbs Hj) as (b' & Hb' & Hlk).
  cbn [blocks] in Hb0. assert (b' = b) as -> by congruence.
  apply list_elem_of_In, in_concat. exists (numerated_code b). split.
  - apply list_elem_of_In, list_elem_of_fmap. exists b. split; [done|].
    apply list_elem_of_lookup. eauto.
  - by apply list_elem_of_In.
Qed.

Lemma filter_side_effecting_propagated d d' :
  propagated_dict d d' →
  filter (λ t, side_effecting t = true) d'.*2 = filter (λ t, side_effecting t = true) d.*2.
Proof.
  induction 1 as [|[k t] [k' t'] d d' [_ Hp] _ IH]; [done|].
  rewrite !fmap_cons, !filter_cons. cbn [snd] in *. rewrite IH.
  destruct Hp as [->|[Hl (v & target & _ & ->)]]; [done|].
  rewrite (load_not_side_effecting t Hl). done.
Qed.

Lemma filter_side_effecting_dead (dead : list nat) (d : list (nat * inst)) :
  (∀ k t, (k, t) ∈ d → k ∈ dead → side_effecting t = false) →
  filter (λ t, side_effecting t = true) (filter (λ kt, kt.1 ∉ dead) d).*2
  = filter (λ t, side_effecting t = true) d.*2.
Proof.
  induction d as [|[k t] d IH]; intros Hd; [done|].
  rewrite fmap_cons, !filter_cons. cbn [fst snd].
  assert (IH' := IH (λ k0 t0 Hin, Hd k0 t0 (list_elem_of_further _ _ _ Hin))).
  destruct (decide (k ∉ dead)) as [Hk|Hk].
  - rewrite fmap_cons, filter_cons. cbn [snd]. by rewrite IH'.
  - apply dec_stable in Hk. rewrite (Hd k t) by (done || left).
    rewrite IH'. by rewrite decide_False by done.
Qed.

End DeadCodeFacts.

Section FunctionFacts.

Import uc_block DataFlow.

Context `{Py.SetOrder}.

Lemma emit_blocks_static h h' cfg :
  heap_rel same_static h h' → emit_blocks h' cfg = emit_blocks h cfg.
Proof.
  intros Hrel. unfold emit_blocks. rewrite (chain_static _ _ _ Hrel).
  destruct (chain h cfg) as [refs|]; cbn [mbind option_bind]; [|done].
  clear cfg. induction refs as [|r refs IH]; [done|].
  cbn [mapM]. specialize (Hrel r).
  destruct Hrel as [b b' (_ & Hi & _)|]; cbn [mbind option_bind]; [|done].
  destruct (mapM (λ r, h' !! r) refs) as [bs'|], (mapM (λ r, h !! r) refs) as [bs|];
    cbn [mbind option_bind mret option_ret] in *; try done.
  simplify_eq. rewrite !fmap_cons. cbn [concat]. by rewrite Hi, IH.
Qed.

(** The loop body of [visit_Program] for one function whose blocks are
    not numbered yet: what it appends to [self.code] is no longer than the
    instructions of the blocks of the function, and has the same
    side-effecting instructions in the same order; it changes no label,
    instruction list or link of any block, and outside the chain of the
    function no numbered code either. *)
Lemma visit_FuncDef_spec fuel s cfg s' body :
  unnumbered (blocks s) cfg → emit_blocks (blocks s) cfg = Some body →
  visit_FuncDef fuel s cfg = Some s' →
  ∃ out,
    code s' = code s ++ out
    ∧ (length out ≤ length body)%nat
    ∧ filter (λ t, side_effecting t = true) out
      = filter (λ t, side_effecting t = true) body
    ∧ (∀ k t, Py.dict_get k (labeled_code s') = Some t → side_effecting t = true →
              k ∉ dead_code s')
    ∧ heap_rel same_static (blocks s) (blocks s')
    ∧ (∀ refs r, chain (blocks s) cfg = Some refs → r ∉ refs →
                 option_Forall2 same_code (blocks s !! r) (blocks s' !! r))
    ∧ global_variables s' = global_variables s.
Proof.
  intros Hun Hemit Hv. unfold emit_blocks in Hemit.
  destruct (chain (blocks s) cfg) as [refs|] eqn:Hc; cbn [mbind option_bind] in Hemit; [|done].
  destruct (mapM _ refs) as [bs|] eqn:Hbs; cbn [mbind option_bind] in Hemit; [|done].
  injection Hemit as <-.
  unfold visit_FuncDef in Hv.
  destruct (number_instructions cfg _) as [s1|] eqn:E1; cbn [mbind option_bind] in Hv; [|done].
  destruct (computeRD_gen_kill cfg s1) as [s2|] eqn:E2; cbn [mbind option_bind] in Hv; [|done].
  destruct (computeRD_in_out fuel cfg s2) as [s3|] eqn:E3; cbn [mbind option_bind] in Hv; [|done].
  destruct (constant_propagation cfg s3) as [s4|] eqn:E4; cbn [mbind option_bind] in Hv; [|done].
  destruct (find_exit_block (blocks s4) cfg) as [ex|]; cbn [mbind option_bind] in Hv; [|done].
  destruct (computeLV_use_def cfg s4) as [s5|] eqn:E5; cbn [mbind option_bind] in Hv; [|done].
  destruct (computeLV_in_out fuel cfg s5) as [s6|] eqn:E6; cbn [mbind option_bind] in Hv; [|done].
  destruct (deadcode_elimination cfg s6) as [s7|] eqn:E7; cbn [mbind option_bind] in Hv; [|done].
  injection Hv as <-.
  match type of E1 with
  | number_instructions _ ?s0 = _ =>
      destruct (number_instructions_spec cfg s0 s1 refs bs Hun Hc Hbs E1)
        as (Hn1 & Hlc1 & Hout1 & Hrel1 & Hcode1 & Hg1)
  end.
  cbn [blocks code global_variables] in Hout1, Hrel1, Hcode1, Hg1.
  pose proof (computeRD_gen_kill_frame _ _ _ E2) as F2.
  pose proof (computeRD_in_out_frame _ _ _ _ E3) as F3.
  pose proof (state_frame_trans _ _ _ F2 F3) as F13.
  pose proof (numbered_frame _ _ cfg F13 Hn1) as Hn3.
  destruct (constant_propagation_spec cfg s3 s4 Hn3 E4)
    as (_ & _ & _ & _ & Hrel4 & Hcode4 & Hg4 & Hn4 & Hdict4 & Hout4).
  pose proof (computeLV_use_def_frame _ _ _ E5) as F5.
  pose proof (computeLV_in_out_frame _ _ _ _ E6) as F6.
  pose proof (state_frame_trans _ _ _ F5 F6) as F46.
  pose proof (numbered_frame _ _ cfg F46 Hn4) as Hn6.
  destruct (deadcode_elimination_spec cfg s6 s7 Hn6 E7) as (Hb7 & Hcode7 & Hlc7 & Hg7 & Hdead).
  destruct F13 as (R13 & L13 & C13 & G13 & _).
  destruct F46 as (R46 & L46 & C46 & G46 & _).
  assert (Hrel3 : heap_rel same_static (blocks s) (blocks s3)).
  { eapply heap_rel_trans; [apply same_static_trans|exact Hrel1|].
    eapply heap_rel_mono; [apply same_code_static|exact R13]. }
  assert (Hrel4' : heap_rel same_static (blocks s3) (blocks s4)).
  { eapply heap_rel_mono; [|exact Hrel4]. by intros ?? [? _]. }
  assert (Hrel6 : heap_rel same_static (blocks s4) (blocks s6)).
  { eapply heap_rel_mono; [apply same_code_static|exact R46]. }
  assert (Hlc7' : propagated_dict (numbering 1 (concat (instructions <$> bs)))
                                  (labeled_code s7)).
  { rewrite Hlc7, L46, <- Hlc1, <- L13. exact Hdict4. }
  assert (Hnd7 : NoDup (labeled_code s7).*1).
  { rewrite Hlc7. by destruct Hn6 as (? & ? & _ & _ & _ & ?). }
  assert (Hse : ∀ k t, (k, t) ∈ labeled_code s7 → k ∈ dead_code s7 →
                       side_effecting t = false).
  { intros k t Hin Hk. destruct (Hdead k Hk) as (t0 & Hin0 & Hrem).
    rewrite <- Hlc7 in Hin0.
    rewrite (NoDup_keys_inj _ _ _ _ Hnd7 Hin Hin0).
    destruct (side_effecting t0) eqn:Hs; [|done].
    apply side_effecting_not_removable in Hs. congruence. }
  exists (snd <$> filter (λ kt, kt.1 ∉ dead_code s7) (labeled_code s7)).
  cbn [appendOptimizedCode code labeled_code dead_code blocks global_variables].
  split; [by rewrite Hcode7, C46, Hcode4, C13, Hcode1|].
  split.
  { rewrite length_fmap. etrans; [apply length_filter|].
    rewrite (propagated_dict_length _ _ Hlc7'), numbering_length. done. }
  split.
  { rewrite (filter_side_effecting_dead _ _ Hse).
    rewrite (filter_side_effecting_propagated _ _ Hlc7'). by rewrite numbering_snd. }
  split.
  { intros k t Hk Hs Hd. apply dict_get_elem in Hk.
    rewrite (Hse k t Hk Hd) in Hs. done. }
  split.
  { rewrite Hb7.
    eapply heap_rel_trans; [apply same_static_trans|exact Hrel3|].
    eapply heap_rel_trans; [apply same_static_trans|exact Hrel4'|exact Hrel6]. }
  split; [|by rewrite Hg7, G46, Hg4, G13, Hg1].
  intros refs0 r Hc0 Hr. assert (refs0 = refs) as -> by congruence.
  rewrite Hb7.
  assert (H1 : option_Forall2 same_code (blocks s !! r) (blocks s3 !! r)).
  { rewrite <- (Hout1 r Hr). apply R13. }
  assert (H4 : blocks s4 !! r = blocks s3 !! r).
  { eapply Hout4; [|exact Hr]. by rewrite (chain_static _ _ _ Hrel3). }
  pose proof (R46 r) as H6. rewrite H4 in H6.
  destruct H1 as [b b3 Hs1|]; inversion H6; simplify_eq; constructor.
  eapply same_code_trans; eauto.
Qed.

End FunctionFacts.

Section ProgramFacts.

Import uc_block DataFlow.

Context `{Py.SetOrder}.

Lemma fresh_unnumbered h cfg : fresh h → unnumbered h cfg.
Proof.
  intros Hf refs r b _ _ Hb. specialize (Hf r b Hb). simpl in Hf.
  by destruct (numerated_code b).
Qed.

(** The functions of a program one after the other. *)
Lemma visit_functions_spec fuel cfgs : ∀ s s' bodies chains,
  Forall (unnumbered (blocks s)) cfgs →
  Forall2 (λ c ch, chain (blocks s) c = Some ch) cfgs chains →
  NoDup (concat chains) →
  Forall2 (λ c body, emit_blocks (blocks s) c = Some body) cfgs bodies →
  Py.for_each (visit_FuncDef fuel) cfgs s = Some s' →
  ∃ outs,
    code s' = code s ++ concat outs
    ∧ Forall2 (λ out body,
                 (length out ≤ length body)%nat
                 ∧ filter (λ t, side_effecting t = true) out
                   = filter (λ t, side_effecting t = true) body) outs bodies.
Proof.
  induction cfgs as [|cfg cfgs IH]; intros s s' bodies chains Hun Hch Hnd Hem Hv.
  - cbn [Py.for_each] in Hv. simplify_eq. inversion Hem; subst.
    exists []. split; [by rewrite app_nil_r|constructor].
  - cbn [Py.for_each] in Hv.
    destruct (visit_FuncDef fuel s cfg) as [s1|] eqn:E1; cbn [mbind option_bind] in Hv; [|done].
    inversion Hem as [|? body ? bodies' Hbody Hem']; subst.
    inversion Hch as [|? refs ? chains' Hrefs Hch']; subst.
    inversion Hun as [|? ? Hun1 Hun']; subst.
    cbn [concat] in Hnd. apply NoDup_app in Hnd as (_ & Hdisj & Hnd').
    destruct (visit_FuncDef_spec fuel s cfg s1 body Hun1 Hbody E1)
      as (out & Hcode & Hlen & Hse & _ & Hrel & Hout & _).
    destruct (IH s1 s' bodies' chains') as (outs & Hcode' & Hall); try done.
    + apply Forall_forall. intros c Hc.
      apply list_elem_of_lookup in Hc as [j Hj].
      destruct (Forall2_lookup_l _ _ _ _ _ Hch' Hj) as (ch & Hchj & Hcch).
      rewrite Forall_forall in Hun'.
      assert (Hunc : unnumbered (blocks s) c).
      { apply Hun'. apply list_elem_of_lookup. eauto. }
      intros refs' r b' Hc1 Hr Hb'.
      rewrite (chain_static _ _ _ Hrel) in Hc1.
      assert (refs' = ch) as -> by congruence.
      assert (Hnr : r ∉ refs).
      { intros Hin. apply (Hdisj r Hin).
        apply list_elem_of_In, in_concat. exists ch. split; apply list_elem_of_In; [|done].
        apply list_elem_of_lookup. eauto. }
      pose proof (Hout refs r Hrefs Hnr) as Hsame. rewrite Hb' in Hsame.
      inversion Hsame as [b ? [_ Hnc] Hb|]; subst.
      rewrite Hnc. eapply Hunc; eauto.
    + eapply Forall2_impl; [exact Hch'|]. intros c ch Hc.
      by rewrite (chain_static _ _ _ Hrel).
    + eapply Forall2_impl; [exact Hem'|]. intros c b Hc.
      by rewrite (emit_blocks_static _ _ _ Hrel).
    + exists (out :: outs). split.
      * rewrite Hcode', Hcode. cbn [concat]. by rewrite app_assoc.
      * by constructor.
Qed.

(** The whole stage: the code it leaves is the global instructions
    followed by what each function contributes. *)
Lemma visit_Program_spec fuel text cfgs s s' code :
  Forall (unnumbered (blocks s)) cfgs → separated (blocks s) cfgs →
  CodeGenerator.emit_program (blocks s) text cfgs = Some code →
  visit_Program fuel text cfgs s = Some s' →
  (length (DataFlow.code s') ≤ length code)%nat
  ∧ filter (λ t, side_effecting t = true) (DataFlow.code s')
    = filter (λ t, side_effecting t = true) code.
Proof.
  intros Hun (chains & Hch & Hnd) Hem Hv.
  unfold CodeGenerator.emit_program in Hem.
  destruct (mapM (emit_blocks _) cfgs) as [bodies|] eqn:Hb;
    cbn [mbind option_bind] in Hem; [|done].
  injection Hem as <-.
  unfold visit_Program, save_global_variables in Hv. cbn [blocks code] in Hv.
  destruct (mapM (arg 1) text) as [names|]; cbn [mbind option_bind] in Hv; [|done].
  apply mapM_Some in Hb, Hch.
  match type of Hv with
  | Py.for_each _ _ ?s0 = _ =>
      destruct (visit_functions_spec fuel cfgs s0 s' bodies chains Hun Hch Hnd Hb Hv)
        as (outs & Hcode & Hall)
  end.
  cbn [DataFlow.code] in Hcode. rewrite Hcode. clear -Hall. split.
  - rewrite !length_app. apply Nat.add_le_mono_l.
    induction Hall as [|out body outs bodies [Hl _] _ IH]; [done|].
    cbn [concat]. rewrite !length_app. lia.
  - rewrite !filter_app. f_equal.
    induction Hall as [|out body outs bodies [_ Hf] _ IH]; [done|].
    cbn [concat]. by rewrite !filter_app, Hf, IH.
Qed.

(** C5.  For a function whose blocks are not numbered yet, the dataflow
    stage leaves in [dead_code] no index of an instruction whose opcode begins
    with [print], [cbranch], [jump], [return], [param], [elem], [sitofp] or
    [fptosi]; the code it appends for the function has exactly the
    side-effecting instructions of the blocks of the function, in their order:
    every such instruction is in the emitted code. *)
Theorem deadcode_elimination_keeps_side_effects fuel s cfg s' body :
  unnumbered (blocks s) cfg → emit_blocks (blocks s) cfg = Some body →
  visit_FuncDef fuel s cfg = Some s' →
  (∀ k t, Py.dict_get k (labeled_code s') = Some t → side_effecting t = true →
          k ∉ dead_code s')
  ∧ ∃ out,
      DataFlow.code s' = DataFlow.code s ++ out
      ∧ filter (λ t, side_effecting t = true) out
        = filter (λ t, side_effecting t = true) body
      ∧ ∀ t, t ∈ body → side_effecting t = true → t ∈ out.
Proof.
  intros Hun Hem Hv.
  destruct (visit_FuncDef_spec fuel s cfg s' body Hun Hem Hv)
    as (out & Hcode & _ & Hse & Hdead & _).
  split; [done|]. exists out. repeat split; try done.
  intros t Hin Hs.
  assert (Ht : t ∈ filter (λ t, side_effecting t = true) body)
    by (by apply list_elem_of_filter).
  rewrite <- Hse in Ht. by apply list_elem_of_filter in Ht as [_ ?].
Qed.

(** C8.  For a program the generator accepts, whose blocks are not numbered
    and whose functions share no block, the code the dataflow stage leaves
    (the global instructions, then the instructions of each function that
    were not marked dead) is no longer than the code of the generator. *)
Theorem optimised_code_no_longer fuel p g s :
  CodeGenerator.visit_Program p = Some g →
  Forall (unnumbered (CodeGenerator.g_blocks g)) (CodeGenerator.g_cfgs g) →
  separated (CodeGenerator.g_blocks g) (CodeGenerator.g_cfgs g) →
  visit_Program fuel (CodeGenerator.g_text g) (CodeGenerator.g_cfgs g)
                (init (CodeGenerator.g_blocks g)) = Some s →
  (length (DataFlow.code s) ≤ length (CodeGenerator.g_code g))%nat.
Proof.
  intros Hg Hun Hsep Hv.
  assert (Hem : CodeGenerator.emit_program (CodeGenerator.g_blocks g)
                  (CodeGenerator.g_text g) (CodeGenerator.g_cfgs g)
                = Some (CodeGenerator.g_code g)).
  { unfold CodeGenerator.visit_Program in Hg.
    destruct (CodeGenerator.visit_gdecls p CodeGenerator.init) as [[cfgs g0]|];
      cbn [mbind option_bind] in Hg; [|done].
    destruct (CodeGenerator.emit_program _ _ cfgs) as [c|] eqn:E;
      cbn [mbind option_bind] in Hg; [|done].
    by simplify_eq. }
  by destruct (visit_Program_spec fuel _ _ (init (CodeGenerator.g_blocks g)) s _ Hun Hsep Hem Hv).
Qed.

End ProgramFacts.

Lemma deadcode_elimination_keeps_side_effects_witness :
  let s := DataFlow.init (CodeGenerator.g_blocks (Examples.generated Examples.prog_three_stores)) in
  ∃ s' body,
    uc_block.emit_blocks (DataFlow.blocks s) 1%nat = Some body
    ∧ DataFlow.visit_FuncDef (H := Py.insertion_order) 200 s 1%nat = Some s'
    ∧ ∀ t, t ∈ body → DataFlow.side_effecting t = true → t ∈ DataFlow.code s'.
Proof.
  intros s.
  assert (Hb : bool_decide (is_Some (uc_block.emit_blocks (DataFlow.blocks s) 1%nat)) = true)
    by (vm_compute; reflexivity).
  assert (Hv : bool_decide (is_Some (DataFlow.visit_FuncDef (H := Py.insertion_order)
                                       200 s 1%nat)) = true)
    by (vm_compute; reflexivity).
  destruct (uc_block.emit_blocks (DataFlow.blocks s) 1%nat) as [body|] eqn:Eb;
    [|discriminate Hb].
  destruct (DataFlow.visit_FuncDef 200 s 1%nat) as [s'|] eqn:Ev; [|discriminate Hv].
  exists s', body. split; [reflexivity|]. split; [reflexivity|].
  assert (Hun : DataFlow.unnumbered (DataFlow.blocks s) 1%nat).
  { apply fresh_unnumbered. apply (bool_decide_unpack _). vm_compute. exact I. }
  destruct (deadcode_elimination_keeps_side_effects (H := Py.insertion_order)
              200 s 1%nat s' body Hun Eb Ev) as (_ & out & Hc & _ & Hin).
  intros t Ht Hs. rewrite Hc. apply elem_of_app. right. by apply Hin.
Defined.

Lemma optimised_code_no_longer_witness :
  let g := Examples.generated Examples.prog_two in
  ∃ s,
    CodeGenerator.visit_Program Examples.prog_two = Some g
    ∧ DataFlow.visit_Program (H := Py.insertion_order) 200
        (CodeGenerator.g_text g) (CodeGenerator.g_cfgs g)
        (DataFlow.init (CodeGenerator.g_blocks g)) = Some s
    ∧ (length (DataFlow.code s) ≤ length (CodeGenerator.g_code g))%nat.
Proof.
  intros g.
  assert (Hg : CodeGenerator.visit_Program Examples.prog_two = Some g)
    by (vm_compute; reflexivity).
  assert (Hv : bool_decide (is_Some (DataFlow.visit_Program (H := Py.insertion_order) 200
                  (CodeGenerator.g_text g) (CodeGenerator.g_cfgs g)
                  (DataFlow.init (CodeGenerator.g_blocks g)))) = true)
    by (vm_compute; reflexivity).
  destruct (DataFlow.visit_Program 200 _ _ _) as [s|] eqn:Ev; [|discriminate Hv].
  exists s. split; [exact Hg|]. split; [reflexivity|].
  apply (optimised_code_no_longer (H := Py.insertion_order) 200 Examples.prog_two g s Hg);
    [| |exact Ev].
  - apply Forall_forall. intros c _. apply fresh_unnumbered.
    apply (bool_decide_unpack _). vm_compute. exact I.
  - eexists. split; [vm_compute; reflexivity|].
    apply (bool_decide_unpack _). vm_compute. exact I.
Defined.

(* ===================================================================== *)
(** ** The generator                                                      *)
(* ===================================================================== *)

Section ReturnFacts.

Import uc_ast uc_block CodeGenerator.

(** The visits, step by step. *)
Lemma bind_Some {A B} (m : M A) (k : A → M B) g b g' :
  (m ≫= k) g = Some (b, g') ↔ ∃ a g1, m g = Some (a, g1) ∧ k a g1 = Some (b, g').
Proof.
  unfold mbind, M_bind. destruct (m g) as [[a g1]|]; [|naive_solver].
  split; [eauto|]. by intros (? & ? & [= <- <-] & ?).
Qed.

Lemma lift_Some {A} (o : option A) g a g' :
  lift o g = Some (a, g') ↔ o = Some a ∧ g' = g.
Proof. unfold lift. destruct o; cbn; naive_solver. Qed.

(** What [visit_Return] adds for [return e;]: the instructions of [e] and
    one [store] into the return slot, at the end of the block that is current
    after [e]; it adds no [jump], and leaves that block current. *)
Lemma visit_Return_appends_store e g g' :
  visit_Return (Some e) g = Some (tt, g') →
  ∃ l g1 t location reg r b,
    visit_expr e g = Some (l, g1)
    ∧ uc_type_of e = Some t ∧ gen_location l = Some location
    ∧ return_register g1 = Some reg
    ∧ current_block g1 = Some r ∧ blocks g1 !! r = Some b
    ∧ current_block g' = Some r
    ∧ blocks g'
      = <[r := set_instructions
                 (instructions b ++ [Inst ("store_" +:+ uc_type.str_opt t)
                                          [S_ location; S_ reg]]) b]> (blocks g1).
Proof.
  unfold visit_Return. intros Hv.
  apply bind_Some in Hv as (l & g1 & E & Hv).
  apply bind_Some in Hv as (t & g2 & Ht & Hv). apply lift_Some in Ht as [Ht ->].
  apply bind_Some in Hv as (location & g2 & Hl & Hv). apply lift_Some in Hl as [Hl ->].
  apply bind_Some in Hv as (rr & g2 & Hrr & Hv). injection Hrr as <- <-.
  apply bind_Some in Hv as (reg & g2 & Hreg & Hv). apply lift_Some in Hreg as [Hreg ->].
  apply bind_Some in Hv as (r & g2 & Hr & Hv).
  unfold current in Hr.
  destruct (current_block g1) as [r'|] eqn:Hcur; [|done]. cbn in Hr.
  injection Hr as -> <-.
  unfold append, update_block in Hv.
  destruct (blocks g1 !! r) as [b|] eqn:Hb; [|done]. cbn in Hv. injection Hv as <-.
  exists l, g1, t, location, reg, r, b. by repeat split.
Qed.

(** C1 (the code departs from it).  In
    [int main() { if (1 == 1) return 1; return 2; }]
    the [return 1;] of the branch is lowered to the [store] of [%5] into the
    return slot [%1] alone: what follows it is the [jump %if.end] that closes
    the branch, not a [jump %exit], so the second [return] is executed as
    well and overwrites the slot. *)
Theorem visit_Return_emits_no_jump :
  g_code <$> visit_Program Examples.prog_early_return
  = Some [Inst "define_int" [S_ "@main"; Py.VList []];
          Inst "entry" [];
          Inst "alloc_int" [S_ "%1"];
          Inst "jump" [S_ "%if"];
          Inst "if:" [];
          Inst "literal_int" [Py.VInt 1; S_ "%2"];
          Inst "literal_int" [Py.VInt 1; S_ "%3"];
          Inst "eq_int" [S_ "%2"; S_ "%3"; S_ "%4"];
          Inst "cbranch" [S_ "%4"; S_ "%then"; S_ "%if.end"];
          Inst "then:" [];
          Inst "literal_int" [Py.VInt 1; S_ "%5"];
          Inst "store_int" [S_ "%5"; S_ "%1"];
          Inst "jump" [S_ "%if.end"];
          Inst "if.end:" [];
          Inst "literal_int" [Py.VInt 2; S_ "%6"];
          Inst "store_int" [S_ "%6"; S_ "%1"];
          Inst "jump" [S_ "%exit"];
          Inst "exit:" [];
          Inst "return_int" [S_ "%1"]].
Proof. vm_compute. reflexivity. Qed.

End ReturnFacts.

(* --------------------------------------------------------------------- *)
(** *** The primitives of the generator, on the view                      *)
(* --------------------------------------------------------------------- *)

Section ViewFacts.

Import uc_block CodeGenerator Cfg.

Lemma ret_Some {A} (a : A) g b g' : ret a g = Some (b, g') ↔ b = a ∧ g' = g.
Proof. unfold ret, mret, M_ret. naive_solver. Qed.

Lemma read_Some {A} (f : gen → A) g a g' : read f g = Some (a, g') ↔ a = f g ∧ g' = g.
Proof. unfold read. naive_solver. Qed.

Lemma current_Some g c g' :
  current g = Some (c, g') ↔ current_block g = Some c ∧ g' = g.
Proof. unfold current. destruct (current_block g); cbn; naive_solver. Qed.

Lemma modify_view f g x g' :
  (∀ g0, view_of (f g0) = view_of g0) → modify f g = Some (x, g') →
  view_of g' = view_of g.
Proof. unfold modify. intros Hf [= _ <-]. apply Hf. Qed.

Lemma update_block_same r f g x g' :
  (∀ b, skeleton (f b) = skeleton b) → update_block r f g = Some (x, g') →
  view_of g' = view_of g.
Proof.
  unfold update_block. intros Hf H.
  destruct (blocks g !! r) as [b|] eqn:Hb; cbn in H; [|done].
  injection H as _ <-. unfold view_of. cbn. f_equal.
  rewrite fmap_insert, Hf. apply insert_id. by rewrite lookup_fmap, Hb.
Qed.

Lemma update_block_alter r f h g x g' :
  (∀ b, skeleton (f b) = h (skeleton b)) → update_block r f g = Some (x, g') →
  view_of g' = View (alter h r (v_blocks (view_of g))) (next_ref g) (current_block g)
  ∧ is_Some (v_blocks (view_of g) !! r).
Proof.
  unfold update_block. intros Hf H.
  destruct (blocks g !! r) as [b|] eqn:Hb; cbn in H; [|done].
  injection H as _ <-. unfold view_of. cbn. split.
  - f_equal. rewrite fmap_insert, Hf. symmetry. apply alter_alt_Some.
    by rewrite lookup_fmap, Hb.
  - rewrite lookup_fmap, Hb. by eexists.
Qed.

Lemma create_block_view c name g r g' :
  create_block c name g = Some (r, g') →
  r = v_next (view_of g) ∧ view_of g' = v_create name (view_of g).
Proof.
  unfold create_block. intros [= <- <-]. split; [done|].
  unfold view_of, v_create. cbn. f_equal. by rewrite fmap_insert.
Qed.

Lemma append_view r t g x g' :
  append r t g = Some (x, g') →
  view_of g' = v_append r [t] (view_of g) ∧ is_Some (v_blocks (view_of g) !! r).
Proof. unfold append. by apply update_block_alter. Qed.

Lemma emit_view t g x g' :
  emit t g = Some (x, g') →
  ∃ c, v_current (view_of g) = Some c ∧ view_of g' = v_append c [t] (view_of g)
       ∧ is_Some (v_blocks (view_of g) !! c).
Proof.
  unfold emit. intros (c & g1 & [Hc ->]%current_Some & H)%bind_Some.
  exists c. split; [done|]. by apply append_view in H.
Qed.

Lemma enter_view r g x g' :
  enter r g = Some (x, g') →
  ∃ c, v_current (view_of g) = Some c ∧ view_of g' = v_enter c r (view_of g)
       ∧ is_Some (v_blocks (view_of g) !! c).
Proof.
  unfold enter. intros (c & g1 & [Hc ->]%current_Some & H)%bind_Some.
  apply bind_Some in H as ([] & g2 & Hu & Hm).
  apply (update_block_alter _ _ (sk_link (Some r))) in Hu as [Hu Hin]; [|done].
  unfold modify in Hm. injection Hm as <-.
  exists c. split; [done|]. split; [|done].
  unfold view_of in Hu. injection Hu as Hb Hn _.
  subst g'. unfold view_of, v_enter. cbn. by rewrite Hb, Hn.
Qed.

Lemma add_predecessor_view r p g x g' :
  add_predecessor r p g = Some (x, g') → view_of g' = view_of g.
Proof. unfold add_predecessor. by apply update_block_same. Qed.

Lemma set_branch_view r target g x g' :
  set_branch r target g = Some (x, g') → view_of g' = view_of g.
Proof. unfold set_branch. apply update_block_same. intros b. by destruct (cls b). Qed.

Lemma set_taken_view r target g x g' :
  set_taken r target g = Some (x, g') → view_of g' = view_of g.
Proof. unfold set_taken. apply update_block_same. intros b. by destruct (cls b). Qed.

Lemma set_fall_through_view r target g x g' :
  set_fall_through r target g = Some (x, g') → view_of g' = view_of g.
Proof. unfold set_fall_through. apply update_block_same. intros b. by destruct (cls b). Qed.

Lemma new_temp_view g x g' : new_temp g = Some (x, g') → view_of g' = view_of g.
Proof.
  unfold new_temp.
  intros (? & ? & [_ ->]%read_Some & (? & ? & [_ ->]%read_Some
          & (? & ? & Hm & [_ ->]%ret_Some)%bind_Some)%bind_Some)%bind_Some.
  by apply modify_view in Hm.
Qed.

Lemma new_name_view nm g x g' : new_name nm g = Some (x, g') → view_of g' = view_of g.
Proof.
  unfold new_name. intros (vs & ? & [_ ->]%read_Some & H)%bind_Some.
  destruct (_ <? _)%nat;
    apply bind_Some in H as (? & ? & Hm & [_ ->]%ret_Some); by apply modify_view in Hm.
Qed.

Lemma new_text_view ty g x g' : new_text ty g = Some (x, g') → view_of g' = view_of g.
Proof.
  unfold new_text.
  intros (? & ? & [_ ->]%read_Some & (? & ? & [_ ->]%lift_Some
          & (? & ? & Hm & [_ ->]%ret_Some)%bind_Some)%bind_Some)%bind_Some.
  by apply modify_view in Hm.
Qed.

Lemma _get_origin_view name g x g' :
  _get_origin name g = Some (x, g') → view_of g' = view_of g.
Proof.
  unfold _get_origin. by intros (? & ? & [_ ->]%read_Some & [_ ->]%ret_Some)%bind_Some.
Qed.

Lemma emit_text_view t g x g' : emit_text t g = Some (x, g') → view_of g' = view_of g.
Proof. unfold emit_text. by apply modify_view. Qed.

Lemma pop_loop_pile_view g x g' : pop_loop_pile g = Some (x, g') → view_of g' = view_of g.
Proof.
  unfold pop_loop_pile.
  intros (? & ? & [_ ->]%read_Some & (? & ? & [_ ->]%lift_Some & Hm)%bind_Some)%bind_Some.
  by apply modify_view in Hm.
Qed.

End ViewFacts.

(* --------------------------------------------------------------------- *)
(** *** Visits that only append to the current block                      *)
(* --------------------------------------------------------------------- *)

Section AppendFacts.

Import uc_block CodeGenerator Cfg.

Lemma sk_append_nil s : sk_append [] s = s.
Proof. destruct s. unfold sk_append. cbn. by rewrite app_nil_r. Qed.

Lemma sk_append_app ts1 ts2 s : sk_append ts2 (sk_append ts1 s) = sk_append (ts1 ++ ts2) s.
Proof. unfold sk_append. cbn. by rewrite app_assoc. Qed.

Lemma v_append_current_nil v : v_append_current [] v = v.
Proof.
  unfold v_append_current, v_append. destruct v as [vb n [c|]]; cbn; [|done].
  f_equal. apply alter_id. intros. apply sk_append_nil.
Qed.

Lemma v_append_current_app ts1 ts2 v :
  v_append_current ts2 (v_append_current ts1 v) = v_append_current (ts1 ++ ts2) v.
Proof.
  unfold v_append_current, v_append. destruct v as [vb n [c|]]; cbn; [|done].
  f_equal. rewrite alter_alter_eq. apply alter_ext. intros. apply sk_append_app.
Qed.

Lemma unterminated_app l1 l2 :
  unterminated (l1 ++ l2) = unterminated l1 && unterminated l2.
Proof. apply forallb_app. Qed.

Lemma appends_view g g' : view_of g' = view_of g → appends g g'.
Proof. intros H. exists []. split; [done|]. by rewrite v_append_current_nil. Qed.

Lemma appends_refl g : appends g g.
Proof. by apply appends_view. Qed.

Lemma appends_trans g1 g2 g3 : appends g1 g2 → appends g2 g3 → appends g1 g3.
Proof.
  intros (ts1 & H1 & E1) (ts2 & H2 & E2). exists (ts1 ++ ts2). split.
  - by rewrite unterminated_app, H1, H2.
  - by rewrite E2, E1, v_append_current_app.
Qed.

Lemma appends_emit t g x g' :
  is_terminator t = false → emit t g = Some (x, g') → appends g g'.
Proof.
  intros Ht (c & Hc & Hv & _)%emit_view. exists [t]. split.
  - cbn. by rewrite Ht.
  - unfold v_append_current. by rewrite Hc.
Qed.

Lemma binary_ops_not_terminator op o suffix ops :
  binary_ops op = Some o → is_terminator (Inst (o +:+ suffix) ops) = false.
Proof.
  unfold binary_ops. intros H.
  repeat (case_match; [by simplify_eq|]). done.
Qed.

End AppendFacts.

(** The side condition of an appended instruction: its opcode is
    neither [jump] nor [cbranch]. *)
Ltac not_terminator :=
  first
  [ reflexivity
  | by destruct (String.eqb _ _)
  | eapply binary_ops_not_terminator; eassumption ].

(** A visit [E] that is one of the primitives, or one the hypotheses
    cover. *)
Ltac prim_appends E :=
  lazymatch type of E with
  | CodeGenerator.new_temp _ = _ => apply appends_view; eapply new_temp_view; exact E
  | CodeGenerator.new_name _ _ = _ => apply appends_view; eapply new_name_view; exact E
  | CodeGenerator.new_text _ _ = _ => apply appends_view; eapply new_text_view; exact E
  | CodeGenerator._get_origin _ _ = _ => apply appends_view; eapply _get_origin_view; exact E
  | CodeGenerator.emit_text _ _ = _ => apply appends_view; eapply emit_text_view; exact E
  | CodeGenerator.pop_loop_pile _ = _ => apply appends_view; eapply pop_loop_pile_view; exact E
  | CodeGenerator.modify _ _ = _ =>
      apply appends_view; eapply modify_view; [|exact E]; intros; reflexivity
  | CodeGenerator.emit _ _ = _ => eapply appends_emit; [|exact E]; not_terminator
  | _ =>
      first
      [ match goal with
        | IH : _ |- _ => eapply IH; [|exact E]; cbn [Cfg.expr_size] in *; lia
        end
      | match goal with
        | IH : _ |- _ => eapply IH; exact E
        end ]
  end.

(** One step of a visit that is a sequence of visits. *)
Ltac step_appends Hv :=
  lazymatch type of Hv with
  | (_ ≫= _) _ = Some _ =>
      let x := fresh "x" in
      let g1 := fresh "g" in
      let E := fresh "E" in
      apply bind_Some in Hv as (x & g1 & E & Hv);
      lazymatch type of E with
      | CodeGenerator.lift _ _ = _ => apply lift_Some in E as [E ->]
      | CodeGenerator.read _ _ = _ => apply read_Some in E as [-> ->]
      | CodeGenerator.ret _ _ = _ => apply ret_Some in E as [-> ->]
      | CodeGenerator.current _ = _ => apply current_Some in E as [E ->]
      | CodeGenerator.raise _ = _ => discriminate E
      | _ =>
          apply (appends_trans _ g1);
          [first [solve [prim_appends E] | solve [run_appends E]]|]
      end
  | (match ?c with _ => _ end) _ = Some _ => destruct c eqn:?
  end
with finish_appends Hv :=
  lazymatch type of Hv with
  | CodeGenerator.ret _ _ = _ => apply ret_Some in Hv as [_ ->]; apply appends_refl
  | CodeGenerator.lift _ _ = _ => apply lift_Some in Hv as [_ ->]; apply appends_refl
  | CodeGenerator.read _ _ = _ => apply read_Some in Hv as [_ ->]; apply appends_refl
  | CodeGenerator.current _ = _ => apply current_Some in Hv as [_ ->]; apply appends_refl
  | CodeGenerator.raise _ = _ => discriminate Hv
  | _ => solve [prim_appends Hv]
  end
with run_appends Hv := repeat step_appends Hv; try finish_appends Hv.

Section ExprFacts.

Import uc_ast uc_block CodeGenerator Cfg.

(** Visiting an expression only appends to the current block, and no
    terminator. *)
Lemma visit_expr_appends_sized n : ∀ e g l g',
  (expr_size e < n)%nat → visit_expr e g = Some (l, g') → appends g g'.
Proof.
  induction n as [|n IH]; [lia|]. intros e g l g' Hn Hv.
  destruct e; cbn [visit_expr] in Hv; try solve [run_appends Hv].
  - do 2 step_appends Hv. destruct e1; try solve [run_appends Hv].
    repeat step_appends Hv.
    lazymatch type of Hv with
    | context [?W e1_1 ?i] =>
        assert (Hw : ∀ aux j g u g', (expr_size aux < S n)%nat →
                                     W aux j g = Some (u, g') → appends g g')
    end.
    { clear -IH. intros aux. induction aux; intros j g u g' Hs Hw; cbn in Hs;
        cbn [visit_expr] in Hw; try solve [run_appends Hw]. }
    run_appends Hv.
  - step_appends Hv. destruct arguments as [a|]; [|run_appends Hv].
    destruct a; try solve [run_appends Hv].
    apply bind_Some in Hv as (u & g1 & E1 & Hv). cbn [expr_size] in Hn.
    apply (appends_trans _ g1); [|run_appends Hv].
    lazymatch type of E1 with
    | ?F exprs _ = _ =>
        lazymatch type of Hn with
        | context [?sum exprs] =>
            assert (Hp : ∀ l g u g', (sum l < n)%nat →
                                     F l g = Some (u, g') → appends g g')
        end
    end.
    { clear -IH. intros l. induction l as [|a l IHl]; intros g u g' Hs Hp;
        cbn in Hs; run_appends Hp. }
    eapply Hp; [|exact E1]. lia.
Qed.

(** Visiting an expression does not change which block is current,
    creates no block, and changes no block but the current one, to which it
    only appends instructions that are neither [jump] nor [cbranch]. *)
Lemma visit_expr_appends e g l g' : visit_expr e g = Some (l, g') → appends g g'.
Proof. apply (visit_expr_appends_sized (S (expr_size e))). lia. Qed.

Lemma visit_ParamList_appends params : ∀ g x g',
  visit_ParamList params g = Some (x, g') → appends g g'.
Proof.
  induction params as [|d params IH]; intros g x g' Hv; cbn [visit_ParamList] in Hv;
    run_appends Hv.
Qed.

Lemma visit_VarDecl_appends name ty init dim g x g' :
  visit_VarDecl name ty init dim g = Some (x, g') → appends g g'.
Proof.
  pose proof visit_expr_appends as IH.
  unfold visit_VarDecl. intros Hv. run_appends Hv.
Qed.

Lemma visit_declarator_appends d : ∀ init dim g x g',
  visit_declarator d init dim g = Some (x, g') → appends g g'.
Proof.
  pose proof visit_VarDecl_appends as IHv.
  pose proof visit_ParamList_appends as IHp.
  induction d as [| |params d IH]; intros init dim g x g' Hv;
    cbn [visit_declarator] in Hv; unfold visit_FuncDecl in *; run_appends Hv.
Qed.

Lemma visit_Decls_appends l : ∀ g x g', visit_Decls l g = Some (x, g') → appends g g'.
Proof.
  pose proof visit_declarator_appends as IHd.
  induction l as [|d l IH]; intros g x g' Hv; cbn [visit_Decls] in Hv;
    unfold visit_Decl in *; run_appends Hv.
Qed.

Lemma visit_Print_appends e g x g' : visit_Print e g = Some (x, g') → appends g g'.
Proof.
  pose proof visit_expr_appends as IH.
  unfold visit_Print. intros Hv.
  destruct e as [e|]; [|run_appends Hv].
  destruct e; try solve [run_appends Hv].
  revert g x g' Hv. induction exprs as [|a exprs IHl]; intros g x g' Hv; run_appends Hv.
Qed.

Lemma visit_Return_appends e g x g' : visit_Return e g = Some (x, g') → appends g g'.
Proof.
  pose proof visit_expr_appends as IH.
  unfold visit_Return. intros Hv. run_appends Hv.
Qed.

End ExprFacts.

(* --------------------------------------------------------------------- *)
(** *** The path under construction                                       *)
(* --------------------------------------------------------------------- *)

Section PathFacts.

Import uc_block CodeGenerator Cfg.

Lemma string_length_append s1 s2 :
  String.length (s1 +:+ s2) = (String.length s1 + String.length s2)%nat.
Proof. induction s1 as [|a s1 IH]; [done|]. simpl. f_equal. exact IH. Qed.

Lemma string_get_append_colon name :
  String.get (String.length name) (name +:+ ":") = Some ":"%char.
Proof. induction name as [|a name IH]; simpl; [done|]. exact IH. Qed.

(** A label-only instruction is no terminator, whatever the label. *)
Lemma label_not_terminator name ops : is_terminator (Inst (name +:+ ":") ops) = false.
Proof.
  unfold is_terminator. cbn [opcode].
  assert (Hne : ∀ s k, String.length s = S k → String.get k s ≠ Some ":"%char →
                       String.eqb (name +:+ ":") s = false).
  { intros s k Hlen Hget. apply String.eqb_neq. intros Heq.
    pose proof (string_get_append_colon name) as Hg.
    apply (f_equal String.length) in Heq as Hl.
    rewrite string_length_append, Hlen in Hl. cbn in Hl.
    assert (String.length name = k) as Hk by lia.
    rewrite Hk, Heq in Hg. done. }
  rewrite (Hne "jump" 3%nat), (Hne "cbranch" 6%nat); done.
Qed.

Lemma Path_current lo old cfg l pend v : Path lo old cfg l pend v → v_current v = last l.
Proof. by intros (_ & ? & _). Qed.

Lemma Path_cfg_range lo old cfg l pend v :
  Path lo old cfg l pend v → (lo ≤ cfg < v_next v)%nat.
Proof.
  intros (Hh & _ & _ & Hr & _). apply head_Some in Hh as [l' ->].
  by apply Forall_cons in Hr as [? _].
Qed.

Lemma Path_create lo old cfg l q p v name :
  Path lo old cfg l (q ++ p) v →
  Path lo old cfg l (q ++ (v_next v, name) :: p) (v_create name v).
Proof.
  intros HP. pose proof (Path_cfg_range _ _ _ _ _ _ HP) as Hcfg.
  destruct HP as (Hh & Hc & Hnd & Hr & Hdom & Hl & Hp & Hf & Ho).
  assert (Hlt : ∀ r, r ∈ l ++ (q ++ p).*1 → (r < v_next v)%nat).
  { intros r Hin. rewrite Forall_forall in Hr. by apply Hr. }
  assert (Hperm : l ++ (q ++ (v_next v, name) :: p).*1
                  ≡ₚ v_next v :: l ++ (q ++ p).*1).
  { rewrite !fmap_app, fmap_cons. cbn [fst]. rewrite !app_assoc.
    by rewrite <- Permutation_middle. }
  unfold Path, v_create. cbn [v_blocks v_next v_current].
  split; [done|]. split; [done|]. split.
  { rewrite Hperm. apply NoDup_cons. split; [|done].
    intros Hin. apply Hlt in Hin. lia. }
  split.
  { rewrite Hperm. apply Forall_cons. split; [lia|].
    eapply Forall_impl; [exact Hr|]. cbn. lia. }
  split.
  { intros r [s Hs]. apply lookup_insert_Some in Hs as [[<- _]|[_ Hs]]; [lia|].
    assert (r < v_next v)%nat by (apply Hdom; eauto). lia. }
  split.
  { intros i r Hi. destruct (Hl i r Hi) as (s & Hs & Hn). exists s. split; [|done].
    rewrite lookup_insert_ne; [done|].
    assert (r < v_next v)%nat; [|lia].
    apply Hlt, elem_of_app. left. apply list_elem_of_lookup. eauto. }
  split.
  { apply Forall_app in Hp as [Hq Hp].
    assert (Hold : ∀ rn, rn ∈ q ++ p →
                         v_blocks v !! rn.1 = Some (Skel rn.2 [] None 0) →
                         <[v_next v := Skel name [] None 0]> (v_blocks v) !! rn.1
                         = Some (Skel rn.2 [] None 0)).
    { intros rn Hin Hs. rewrite lookup_insert_ne; [done|].
      assert (rn.1 < v_next v)%nat; [|lia].
      apply Hlt, elem_of_app. right. apply list_elem_of_fmap. by exists rn. }
    apply Forall_app. split; [|apply Forall_cons; split].
    - apply Forall_forall. intros rn Hin. apply Hold.
      + apply elem_of_app. by left.
      + rewrite Forall_forall in Hq. by apply Hq.
    - cbn. by rewrite lookup_insert_eq.
    - apply Forall_forall. intros rn Hin. apply Hold.
      + apply elem_of_app. by right.
      + rewrite Forall_forall in Hp. by apply Hp. }
  split.
  { intros r s Hs. apply lookup_insert_Some in Hs as [[_ <-]|[_ Hs]]; [done|eauto]. }
  intros r Hlo. rewrite lookup_insert_ne by lia. by apply Ho.
Qed.

Lemma Path_in_range lo old cfg l pend v r :
  Path lo old cfg l pend v → r ∈ l → (lo ≤ r < v_next v)%nat.
Proof.
  intros (_ & _ & _ & Hr & _) Hin. rewrite Forall_forall in Hr.
  apply Hr, elem_of_app. by left.
Qed.

Lemma Path_pending_not_in lo old cfg l pend v r name :
  Path lo old cfg l pend v → (r, name) ∈ pend → r ∉ l.
Proof.
  intros (_ & _ & Hnd & _) Hin Hl. apply NoDup_app in Hnd as (_ & Hd & _).
  apply (Hd r Hl). apply list_elem_of_fmap. by exists (r, name).
Qed.

(** Appending to a block of the path. *)
Lemma Path_append lo old cfg l pend v c ts :
  Path lo old cfg l pend v → c ∈ l → Path lo old cfg l pend (v_append c ts v).
Proof.
  intros HP Hin. pose proof (Path_in_range _ _ _ _ _ _ _ HP Hin) as Hc0.
  pose proof (λ r name, Path_pending_not_in _ _ _ _ _ _ r name HP) as Hpn.
  destruct HP as (Hh & Hc & Hnd & Hr & Hdom & Hl & Hp & Hf & Ho).
  unfold Path, v_append. cbn [v_blocks v_next v_current].
  split; [done|]. split; [done|]. split; [done|]. split; [done|].
  split.
  { intros r Hs. apply Hdom. by apply lookup_alter_is_Some in Hs. }
  split.
  { intros i r Hi. destruct (Hl i r Hi) as (s & Hs & Hn).
    destruct (decide (c = r)) as [->|Hne].
    - exists (sk_append ts s). by rewrite lookup_alter_eq, Hs.
    - exists s. by rewrite lookup_alter_ne. }
  split.
  { apply Forall_forall. intros [r name] Hrn. rewrite Forall_forall in Hp.
    cbn. rewrite lookup_alter_ne; [by apply (Hp (r, name))|].
    intros ->. by apply (Hpn r name). }
  split.
  { intros r s Hs. destruct (decide (c = r)) as [->|Hne].
    - rewrite lookup_alter_eq in Hs. apply fmap_Some in Hs as (s0 & Hs0 & ->).
      by apply (Hf r s0).
    - rewrite lookup_alter_ne in Hs by done. by apply (Hf r). }
  intros r Hlo. rewrite lookup_alter_ne by lia. by apply Ho.
Qed.

(** Entering a pending block. *)
Lemma Path_enter lo old cfg l pend v c r name :
  Path lo old cfg l ((r, name) :: pend) v → v_current v = Some c →
  Path lo old cfg (l ++ [r]) pend (v_enter c r v).
Proof.
  intros HP Hcur.
  assert (Hlast : last l = Some c) by (by rewrite <- (Path_current _ _ _ _ _ _ HP)).
  assert (Hcl : c ∈ l) by (by apply last_Some_elem_of).
  pose proof (Path_in_range _ _ _ _ _ _ _ HP Hcl) as Hc0.
  pose proof (λ r name, Path_pending_not_in _ _ _ _ _ _ r name HP) as Hpn.
  destruct HP as (Hh & Hc & Hnd & Hr & Hdom & Hl & Hp & Hf & Ho).
  assert (Hrl : r ∉ l) by (apply (Hpn r name); left).
  assert (Hrc : c ≠ r) by (by intros ->).
  apply Forall_cons in Hp as [Hpr Hp]. cbn [fst snd] in Hpr.
  unfold Path, v_enter. cbn [v_blocks v_next v_current].
  split.
  { apply head_Some in Hh as [l' ->]. done. }
  split; [by rewrite last_snoc|].
  split; [by rewrite <- app_assoc|].
  split; [by rewrite <- app_assoc|].
  split.
  { intros x Hs. apply Hdom. by apply lookup_alter_is_Some in Hs. }
  split.
  { intros i x Hi.
    destruct (decide (i < length l)%nat) as [Hlt|Hge].
    - rewrite lookup_app_l in Hi by done.
      destruct (Hl i x Hi) as (s & Hs & Hn).
      destruct (decide (c = x)) as [<-|Hne].
      + exists (sk_link (Some r) s). rewrite lookup_alter_eq, Hs. split; [done|].
        cbn. rewrite last_lookup in Hlast.
        apply NoDup_app in Hnd as (Hndl & _).
        pose proof (NoDup_lookup _ _ _ _ Hndl Hi Hlast) as ->.
        replace (S (pred (length l))) with (length l) by lia.
        by rewrite lookup_app_r, Nat.sub_diag by lia.
      + exists s. rewrite lookup_alter_ne by done. split; [done|].
        rewrite Hn. destruct (decide (S i < length l)%nat).
        * by rewrite lookup_app_l.
        * exfalso. apply Hne. rewrite last_lookup in Hlast.
          replace (pred (length l)) with i in Hlast by lia. congruence.
    - rewrite lookup_app_r in Hi by lia.
      destruct (i - length l)%nat as [|k] eqn:Hk; [|by destruct k].
      cbn in Hi. injection Hi as <-.
      exists (Skel name [] None 0). rewrite lookup_alter_ne by done. split; [done|].
      cbn. symmetry. apply lookup_ge_None. rewrite length_app. cbn. lia. }
  split.
  { apply Forall_forall. intros [r' name'] Hrn. rewrite Forall_forall in Hp.
    cbn. rewrite lookup_alter_ne; [by apply (Hp (r', name'))|].
    intros ->. apply (Hpn r' name'); [by right|done]. }
  split.
  { intros x s Hs. destruct (decide (c = x)) as [->|Hne].
    - rewrite lookup_alter_eq in Hs. apply fmap_Some in Hs as (s0 & Hs0 & ->).
      by apply (Hf x s0).
    - rewrite lookup_alter_ne in Hs by done. by apply (Hf x). }
  intros x Hlo. rewrite lookup_alter_ne by lia. by apply Ho.
Qed.

Lemma headed_append cfg r s ts : headed cfg r s → headed cfg r (sk_append ts s).
Proof.
  unfold headed. cbn [s_instructions s_label sk_append].
  destruct (decide (r = cfg)).
  - intros (ty & ops & H). exists ty, ops. by destruct (s_instructions s).
  - intros H. by destruct (s_instructions s).
Qed.

Lemma terminated_snoc l t :
  unterminated l = true → is_terminator t = true → terminated (l ++ [t]) = true.
Proof.
  intros Hl Ht. unfold terminated. by rewrite last_snoc, removelast_last, Ht, Hl.
Qed.

Lemma closed_link cfg r s o : closed cfg r s → closed cfg r (sk_link o s).
Proof. done. Qed.

Lemma Shape_split ph cfg l v c :
  Shape ph cfg l v → NoDup l → last l = Some c →
  ∃ pre s,
    l = pre ++ [c] ∧ (c ∉ pre) ∧ v_blocks v !! c = Some s ∧ current_ok ph cfg c s
    ∧ ∀ r s', r ∈ pre → v_blocks v !! r = Some s' → closed cfg r s'.
Proof.
  intros (pre & cur & s & -> & Hs & Hok & Hpre) Hnd Hlast.
  rewrite last_snoc in Hlast. injection Hlast as <-.
  exists pre, s. split; [done|]. split; [|done].
  apply NoDup_app in Hnd as (_ & Hd & _). intros Hin. apply (Hd cur Hin). left.
Qed.

Lemma Shape_create ph cfg l v name :
  Shape ph cfg l v → v_next v ∉ l → Shape ph cfg l (v_create name v).
Proof.
  intros (pre & cur & s & -> & Hs & Hok & Hpre) Hn.
  exists pre, cur, s. unfold v_create. cbn [v_blocks].
  split; [done|]. split.
  { rewrite lookup_insert_ne; [done|]. intros <-. apply Hn, elem_of_app. right. left. }
  split; [done|]. intros r s' Hr Hs'.
  rewrite lookup_insert_ne in Hs'; [by eapply Hpre|].
  intros <-. apply Hn, elem_of_app. by left.
Qed.

Lemma Shape_append ph ph' cfg l v c ts :
  (∀ s, current_ok ph cfg c s → current_ok ph' cfg c (sk_append ts s)) →
  Shape ph cfg l v → NoDup l → last l = Some c →
  Shape ph' cfg l (v_append c ts v).
Proof.
  intros Hok HS Hnd Hlast.
  destruct (Shape_split _ _ _ _ _ HS Hnd Hlast) as (pre & s & -> & Hc & Hs & Hcur & Hpre).
  exists pre, c, (sk_append ts s). unfold v_append. cbn [v_blocks].
  split; [done|]. split; [by rewrite lookup_alter_eq, Hs|].
  split; [by apply Hok|]. intros r s' Hr Hs'.
  rewrite lookup_alter_ne in Hs'; [by eapply Hpre|]. by intros ->.
Qed.

Lemma current_ok_plain cfg c s ts :
  unterminated ts = true →
  current_ok Open cfg c s → current_ok Open cfg c (sk_append ts s).
Proof.
  intros Hts [Hh Hu]. split; [by apply headed_append|].
  cbn. by rewrite unterminated_app, Hu, Hts.
Qed.

Lemma current_ok_term cfg c s t :
  is_terminator t = true →
  current_ok Open cfg c s → current_ok Closed cfg c (sk_append [t] s).
Proof.
  intros Ht [Hh Hu]. split; [by apply headed_append|].
  cbn. by apply terminated_snoc.
Qed.

Lemma current_ok_label cfg c s name :
  current_ok (Empty name) cfg c s →
  current_ok Open cfg c (sk_append [Inst (name +:+ ":") []] s).
Proof.
  intros (Hi & Hl & Hne). unfold current_ok, headed.
  cbn [sk_append s_instructions s_label]. rewrite Hi, Hl. cbn [app].
  rewrite decide_False by done. split; [done|].
  cbn. by rewrite label_not_terminator.
Qed.

Lemma Shape_enter cfg l v c r name :
  Shape Closed cfg l v → NoDup l → last l = Some c → r ∉ l → cfg ∈ l →
  v_blocks v !! r = Some (Skel name [] None 0) →
  Shape (Empty name) cfg (l ++ [r]) (v_enter c r v).
Proof.
  intros HS Hnd Hlast Hr Hcfg Hsr.
  destruct (Shape_split _ _ _ _ _ HS Hnd Hlast) as (pre & s & -> & Hc & Hs & Hcur & Hpre).
  assert (Hrc : c ≠ r).
  { intros ->. apply Hr, elem_of_app. right. left. }
  exists (pre ++ [c]), r, (Skel name [] None 0). unfold v_enter. cbn [v_blocks].
  split; [done|]. split; [by rewrite lookup_alter_ne|].
  split.
  { repeat split. by intros ->. }
  intros x s' Hx Hs'. apply elem_of_app in Hx as [Hx|Hx%list_elem_of_singleton].
  - rewrite lookup_alter_ne in Hs'; [by eapply Hpre|]. by intros ->.
  - subst x. rewrite lookup_alter_eq, Hs in Hs'. injection Hs' as <-.
    by apply closed_link.
Qed.

(** *** The invariant, step by step *)

Lemma Inv_current sh ph lo old cfg l q p v :
  Inv sh ph lo old cfg l q p v → v_current v = last l.
Proof. intros [HP _]. by eapply Path_current. Qed.

Lemma Inv_NoDup sh ph lo old cfg l q p v : Inv sh ph lo old cfg l q p v → NoDup l.
Proof. intros [(_ & _ & Hnd & _) _]. by apply NoDup_app in Hnd as [? _]. Qed.

Lemma Inv_last_in sh ph lo old cfg l q p v c :
  Inv sh ph lo old cfg l q p v → v_current v = Some c → last l = Some c ∧ c ∈ l.
Proof.
  intros HI Hc. rewrite (Inv_current _ _ _ _ _ _ _ _ _ HI) in Hc.
  split; [done|]. by apply last_Some_elem_of.
Qed.

Lemma Inv_false ph' ph lo old cfg l q p v :
  Inv false ph lo old cfg l q p v → Inv false ph' lo old cfg l q p v.
Proof. intros [HP _]. by split. Qed.

Lemma Inv_create name sh ph lo old cfg l q p v :
  Inv sh ph lo old cfg l q p v →
  Inv sh ph lo old cfg l (q ++ [(v_next v, name)]) p (v_create name v).
Proof.
  intros [HP HS]. split.
  - rewrite <- app_assoc. by apply Path_create.
  - intros Hsh. apply Shape_create; [by apply HS|].
    intros Hin. pose proof (Path_in_range _ _ _ _ _ _ _ HP Hin). lia.
Qed.

Lemma Inv_append ph' ts sh ph lo old cfg l q p v c :
  (sh = true → ∀ s, current_ok ph cfg c s → current_ok ph' cfg c (sk_append ts s)) →
  Inv sh ph lo old cfg l q p v → v_current v = Some c →
  Inv sh ph' lo old cfg l q p (v_append c ts v).
Proof.
  intros Hok HI Hc. destruct (Inv_last_in _ _ _ _ _ _ _ _ _ _ HI Hc) as [Hlast Hin].
  pose proof (Inv_NoDup _ _ _ _ _ _ _ _ _ HI) as Hnd.
  destruct HI as [HP HS]. split; [by apply Path_append|].
  intros Hsh. eapply Shape_append; eauto.
Qed.

Lemma Inv_append_plain ts sh lo old cfg l q p v c :
  unterminated ts = true →
  Inv sh Open lo old cfg l q p v → v_current v = Some c →
  Inv sh Open lo old cfg l q p (v_append c ts v).
Proof. intros Hts. apply (Inv_append Open ts). intros _ s. by apply current_ok_plain. Qed.

Lemma Inv_append_term t sh lo old cfg l q p v c :
  is_terminator t = true →
  Inv sh Open lo old cfg l q p v → v_current v = Some c →
  Inv sh Closed lo old cfg l q p (v_append c [t] v).
Proof. intros Ht. apply (Inv_append Closed [t]). intros _ s. by apply current_ok_term. Qed.

Lemma Inv_append_label sh name lo old cfg l q p v c :
  Inv sh (Empty name) lo old cfg l q p v → v_current v = Some c →
  Inv sh Open lo old cfg l q p (v_append c [Inst (name +:+ ":") []] v).
Proof. apply (Inv_append Open _ sh (Empty name)). intros _ s. by apply current_ok_label. Qed.

Lemma Inv_append_false ph' ts ph lo old cfg l q p v c :
  Inv false ph lo old cfg l q p v → v_current v = Some c →
  Inv false ph' lo old cfg l q p (v_append c ts v).
Proof. by apply (Inv_append ph' ts false ph). Qed.

Lemma Inv_appends sh lo old cfg l q p g g' :
  appends g g' →
  Inv sh Open lo old cfg l q p (view_of g) → Inv sh Open lo old cfg l q p (view_of g').
Proof.
  intros (ts & Hts & ->) HI. unfold v_append_current.
  destruct (v_current (view_of g)) as [c|] eqn:Hc; [|done].
  by apply Inv_append_plain.
Qed.

Lemma Inv_enter sh lo old cfg l r name q p v c :
  Inv sh Closed lo old cfg l ((r, name) :: q) p v → v_current v = Some c →
  Inv sh (Empty name) lo old cfg (l ++ [r]) q p (v_enter c r v).
Proof.
  intros HI Hc. destruct (Inv_last_in _ _ _ _ _ _ _ _ _ _ HI Hc) as [Hlast Hin].
  pose proof (Inv_NoDup _ _ _ _ _ _ _ _ _ HI) as Hnd.
  destruct HI as [HP HS]. split; [by eapply Path_enter|].
  intros Hsh. cbn [app] in HP.
  assert (Hr : r ∉ l) by (eapply Path_pending_not_in; [exact HP|left]).
  destruct HP as (Hh & _ & _ & _ & _ & _ & Hp & _).
  apply Forall_cons in Hp as [Hp _].
  apply Shape_enter; auto. by apply head_Some_elem_of.
Qed.

Lemma Inv_enter_false ph' lo old cfg l r name q p ph v c :
  Inv false ph lo old cfg l ((r, name) :: q) p v → v_current v = Some c →
  Inv false ph' lo old cfg (l ++ [r]) q p (v_enter c r v).
Proof.
  intros HI Hc. apply (Inv_false Closed) in HI.
  apply (Inv_false ph' (Empty name)). by apply Inv_enter.
Qed.

Lemma Inv_shift sh ph lo old cfg l q p v :
  Inv sh ph lo old cfg l q p v ↔ Inv sh ph lo old cfg l [] (q ++ p) v.
Proof. done. Qed.

End PathFacts.

Section InvFacts.

Import uc_block CodeGenerator Cfg.

Lemma Inv_create_at name r sh ph lo old cfg l q p v :
  r = v_next v → Inv sh ph lo old cfg l q p v →
  Inv sh ph lo old cfg l (q ++ [(r, name)]) p (v_create name v).
Proof. intros ->. apply Inv_create. Qed.

Lemma Inv_current_snoc sh ph lo old cfg l r q p v :
  Inv sh ph lo old cfg (l ++ [r]) q p v → v_current v = Some r.
Proof. intros HI. rewrite (Inv_current _ _ _ _ _ _ _ _ _ HI). apply last_snoc. Qed.

End InvFacts.

(** The invariant [HI] carried over one primitive [E] of a visit. *)
Ltac inv_neutral HI E lem :=
  apply lem in E; rewrite <- E in HI; clear E.

Ltac inv_append HI E t c Hc :=
  first
  [ eapply Inv_append_label in HI; [|exact Hc]; rewrite <- E in HI
  | eapply (Inv_append_term t) in HI; [|reflexivity|exact Hc]; rewrite <- E in HI
  | eapply (Inv_append_plain [t]) in HI;
    [|cbn [Cfg.unterminated forallb];
      lazymatch goal with
      | |- negb ?b && true = true =>
          replace b with false; [reflexivity|symmetry; not_terminator]
      end
     |exact Hc]; rewrite <- E in HI
  | eapply (Inv_append_false Cfg.Open [t]) in HI; [|exact Hc]; rewrite <- E in HI ].

Ltac inv_prim HI E :=
  lazymatch type of E with
  | CodeGenerator.new_temp _ = _ => inv_neutral HI E new_temp_view
  | CodeGenerator.new_name _ _ = _ => inv_neutral HI E new_name_view
  | CodeGenerator.new_text _ _ = _ => inv_neutral HI E new_text_view
  | CodeGenerator._get_origin _ _ = _ => inv_neutral HI E _get_origin_view
  | CodeGenerator.emit_text _ _ = _ => inv_neutral HI E emit_text_view
  | CodeGenerator.pop_loop_pile _ = _ => inv_neutral HI E pop_loop_pile_view
  | CodeGenerator.add_predecessor _ _ _ = _ => inv_neutral HI E add_predecessor_view
  | CodeGenerator.set_branch _ _ _ = _ => inv_neutral HI E set_branch_view
  | CodeGenerator.set_taken _ _ _ = _ => inv_neutral HI E set_taken_view
  | CodeGenerator.set_fall_through _ _ _ = _ =>
      inv_neutral HI E set_fall_through_view
  | CodeGenerator.modify _ _ = _ =>
      apply modify_view in E; [rewrite <- E in HI; clear E|intros; reflexivity]
  | CodeGenerator.create_block _ ?name _ = _ =>
      let Hr := fresh "Hr" in
      apply create_block_view in E as [Hr E];
      apply (Inv_create_at name _ _ _ _ _ _ _ _ _ _ Hr) in HI;
      rewrite <- E in HI; cbn [app] in HI; clear E Hr
  | CodeGenerator.emit ?t _ = _ =>
      let c := fresh "c" in
      let Hc := fresh "Hc" in
      apply emit_view in E as (c & Hc & E & _);
      inv_append HI E t c Hc; clear E Hc
  | CodeGenerator.append ?r ?t _ = _ =>
      let Hc := fresh "Hc" in
      apply append_view in E as [E _];
      pose proof (Inv_current_snoc _ _ _ _ _ _ _ _ _ _ HI) as Hc;
      inv_append HI E t r Hc; clear E Hc
  | CodeGenerator.enter ?r _ = _ =>
      let c := fresh "c" in
      let Hc := fresh "Hc" in
      apply enter_view in E as (c & Hc & E & _);
      first
      [ eapply Inv_enter in HI; [|exact Hc]; rewrite <- E in HI
      | eapply (Inv_enter_false Cfg.Open) in HI; [|exact Hc]; rewrite <- E in HI ];
      clear E Hc
  | CodeGenerator.visit_expr _ _ = _ =>
      apply visit_expr_appends in E; apply (Inv_appends _ _ _ _ _ _ _ _ _ E) in HI; clear E
  | CodeGenerator.visit_Decls _ _ = _ =>
      apply visit_Decls_appends in E; apply (Inv_appends _ _ _ _ _ _ _ _ _ E) in HI; clear E
  | CodeGenerator.visit_Print _ _ = _ =>
      apply visit_Print_appends in E; apply (Inv_appends _ _ _ _ _ _ _ _ _ E) in HI; clear E
  | CodeGenerator.visit_Return _ _ = _ =>
      apply visit_Return_appends in E; apply (Inv_appends _ _ _ _ _ _ _ _ _ E) in HI; clear E
  end.

(** A visit [E] of a sub-statement, by the induction hypothesis [IH];
    [Hn] bounds the size of the statement and [Hsh] says it is plain when
    the shapes are looked at. *)
Ltac inv_sub HI E IH Hn Hsh :=
  let H := fresh "H" in
  let new := fresh "new" in
  lazymatch type of HI with
  | Cfg.Inv ?sh ?ph ?lo ?old ?cfg ?l ?q ?p ?v =>
      lazymatch type of E with
      | _ ?g = Some (_, ?g1) =>
          assert (H : ∃ new, Cfg.Inv sh Cfg.Open lo old cfg (l ++ new) [] (q ++ p)
                                     (Cfg.view_of g1));
          [ eapply IH; [| |exact HI|exact E];
            [ cbn [Cfg.stmt_size] in Hn; lia
            | let Ht := fresh in
              intros Ht; specialize (Hsh Ht); cbn [Cfg.plain] in Hsh;
              rewrite ?andb_true_iff in Hsh; tauto ]
          | clear HI E; destruct H as (new & HI);
            change (Cfg.Inv sh Cfg.Open lo old cfg (l ++ new) q p (Cfg.view_of g1)) in HI ]
      end
  end.

(** One step of a visit that is a sequence of visits, with the invariant
    [HI] carried along. *)
Ltac inv_step HI Hv IH Hn Hsh :=
  lazymatch type of Hv with
  | (_ ≫= _) _ = Some _ =>
      let x := fresh "x" in
      let g1 := fresh "g" in
      let E := fresh "E" in
      apply bind_Some in Hv as (x & g1 & E & Hv);
      lazymatch type of E with
      | CodeGenerator.lift _ _ = _ => apply lift_Some in E as [E ->]
      | CodeGenerator.read _ _ = _ => apply read_Some in E as [-> ->]
      | CodeGenerator.ret _ _ = _ => apply ret_Some in E as [-> ->]
      | CodeGenerator.current _ = _ => apply current_Some in E as [E ->]
      | CodeGenerator.raise _ = _ => discriminate E
      | (match ?o with Some _ => _ | None => _ end) _ = _ =>
          destruct o; [inv_sub HI E IH Hn Hsh|apply ret_Some in E as [-> ->]]
      | CodeGenerator.visit_stmt _ _ = _ => inv_sub HI E IH Hn Hsh
      | (_ ≫= _) _ = Some _ =>
          repeat inv_step HI E IH Hn Hsh;
          lazymatch type of E with
          | CodeGenerator.ret _ _ = _ => apply ret_Some in E as [-> ->]
          | _ => inv_prim HI E
          end
      | _ => inv_prim HI E
      end;
      cbn beta iota in Hv
  end.

Ltac inv_done HI Hv :=
  lazymatch type of Hv with
  | CodeGenerator.ret _ _ = _ => apply ret_Some in Hv as [_ ->]
  | _ => inv_prim HI Hv
  end;
  rewrite <- ?app_assoc in HI;
  first
  [ exists []; rewrite app_nil_r; exact HI
  | eexists; exact HI
  | apply (Inv_false Cfg.Open) in HI;
    first [exists []; rewrite app_nil_r; exact HI | eexists; exact HI] ].

Section StmtFacts.

Import uc_ast uc_block CodeGenerator Cfg.

(** Visiting a statement extends the path by blocks it creates, and
    leaves the pending blocks of the enclosing statements as they are. *)
Lemma visit_stmt_Inv_sized n : ∀ s sh lo old cfg l p g x g',
  (stmt_size s < n)%nat → (sh = true → plain s = true) →
  Inv sh Open lo old cfg l [] p (view_of g) →
  visit_stmt s g = Some (x, g') →
  ∃ new, Inv sh Open lo old cfg (l ++ new) [] p (view_of g').
Proof.
  induction n as [|n IH]; [lia|]. intros s sh lo old cfg l p g x g' Hn Hsh HI Hv.
  destruct s; cbn [visit_stmt] in Hv.
  - (* Expr *) repeat inv_step HI Hv IH Hn Hsh. inv_done HI Hv.
  - (* Compound *)
    inv_step HI Hv IH Hn Hsh. cbn [stmt_size plain] in Hn, Hsh.
    apply PeanoNat.lt_S_n in Hn.
    clear x0. revert l g0 HI Hv Hn Hsh.
    induction statmts as [|[child|] rest IHr]; intros l g0 HI Hv Hn Hsh.
    + inv_done HI Hv.
    + inv_step HI Hv IH Hn Hsh.
      destruct (IHr _ _ HI Hv) as (new' & HI'); [lia| |].
      { intros Ht. specialize (Hsh Ht). apply andb_true_iff in Hsh. tauto. }
      rewrite <- app_assoc in HI'. eauto.
    + by apply (IHr l g0).
  - (* If *)
    destruct elsestat as [els|]; repeat inv_step HI Hv IH Hn Hsh; inv_done HI Hv.
  - (* While *) repeat inv_step HI Hv IH Hn Hsh; inv_done HI Hv.
  - (* For *)
    destruct t1 as [[e1|]|decls], t2 as [e2|], t3 as [e3|];
      repeat inv_step HI Hv IH Hn Hsh; inv_done HI Hv.
  - (* Break *)
    assert (sh = false) as -> by (destruct sh; [by specialize (Hsh eq_refl)|done]).
    unfold visit_Break in Hv. repeat inv_step HI Hv IH Hn Hsh. inv_done HI Hv.
  - (* Return *) inv_done HI Hv.
  - (* Assert *)
    assert (sh = false) as -> by (destruct sh; [by specialize (Hsh eq_refl)|done]).
    unfold visit_Assert in Hv. repeat inv_step HI Hv IH Hn Hsh. inv_done HI Hv.
  - (* Print *) inv_done HI Hv.
  - (* Read *) inv_done HI Hv.
Qed.

Lemma visit_stmt_Inv s sh lo old cfg l p g x g' :
  (sh = true → plain s = true) →
  Inv sh Open lo old cfg l [] p (view_of g) →
  visit_stmt s g = Some (x, g') →
  ∃ new, Inv sh Open lo old cfg (l ++ new) [] p (view_of g').
Proof. apply (visit_stmt_Inv_sized (S (stmt_size s))). lia. Qed.

End StmtFacts.

(* --------------------------------------------------------------------- *)
(** *** The CFG of a function                                             *)
(* --------------------------------------------------------------------- *)

Section FuncDefFacts.

Import uc_ast uc_block CodeGenerator Cfg.

Lemma visit_ParamList_view params : ∀ g txt code g',
  visit_ParamList params g = Some ((txt, code), g') →
  view_of g' = view_of g ∧ unterminated code = true.
Proof.
  induction params as [|d params IH]; intros g txt code g' Hv;
    cbn [visit_ParamList] in Hv.
  - apply ret_Some in Hv as [[= -> ->] ->]. done.
  - apply bind_Some in Hv as (tgt & g1 & E1%new_temp_view & Hv).
    apply bind_Some in Hv as ([txt' code'] & g2 & E2 & Hv).
    apply ret_Some in Hv as [[= -> ->] ->].
    destruct (IH _ _ _ _ E2) as [Hview Hcode]. split; [congruence|].
    cbn. exact Hcode.
Qed.

Lemma visit_FuncDecl_view params g txt code g' :
  visit_FuncDecl params g = Some ((txt, code), g') →
  view_of g' = view_of g ∧ unterminated code = true.
Proof.
  unfold visit_FuncDecl. destruct params as [params|].
  - apply visit_ParamList_view.
  - by intros [[= -> ->] ->]%ret_Some.
Qed.

(** A chain of blocks, read off the links. *)
Lemma chain_from_linked (h : gmap nat Block) l : ∀ fuel r,
  linked (skeleton <$> h) (r :: l) → (length l < fuel)%nat →
  chain_from fuel h (Some r) = Some (r :: l).
Proof.
  induction l as [|r' l IH]; intros fuel r Hl Hf.
  - destruct fuel as [|fuel]; [lia|]. cbn [chain_from].
    destruct (Hl 0%nat r eq_refl) as (s & Hs & Hn).
    rewrite lookup_fmap in Hs. apply fmap_Some in Hs as (b & Hb & ->).
    rewrite Hb. cbn in *. rewrite Hn. by destruct fuel.
  - destruct fuel as [|fuel]; [lia|]. cbn [chain_from].
    destruct (Hl 0%nat r eq_refl) as (s & Hs & Hn).
    rewrite lookup_fmap in Hs. apply fmap_Some in Hs as (b & Hb & ->).
    rewrite Hb. cbn in Hn |- *. rewrite Hn.
    rewrite (IH fuel r'); [done| |cbn in Hf; lia].
    intros i x Hi. apply (Hl (S i) x Hi).
Qed.

Lemma chain_linked (h : gmap nat Block) cfg l :
  linked (skeleton <$> h) l → head l = Some cfg → NoDup l →
  chain h cfg = Some l.
Proof.
  intros Hl Hh Hnd. apply head_Some in Hh as [l' ->].
  apply chain_from_linked; [done|].
  assert (Hsub : cfg :: l' ⊆+ (map_to_list h).*1).
  { apply NoDup_submseteq; [done|]. intros r Hr.
    apply list_elem_of_lookup in Hr as [i Hi].
    destruct (Hl i r Hi) as (s & Hs & _).
    rewrite lookup_fmap in Hs. apply fmap_Some in Hs as (b & Hb & _).
    apply list_elem_of_fmap. exists (r, b). split; [done|].
    by apply elem_of_map_to_list. }
  apply submseteq_length in Hsub. rewrite length_fmap, length_map_to_list in Hsub.
  cbn in Hsub. lia.
Qed.

Lemma set_current_block_view o g x g' :
  modify (set_current_block o) g = Some (x, g') →
  view_of g' = View (v_blocks (view_of g)) (v_next (view_of g)) o.
Proof. unfold modify. by intros [= _ <-]. Qed.

Lemma current_ok_define cfg s ty ops :
  current_ok Entry cfg cfg s →
  current_ok Open cfg cfg (sk_append [Inst ("define_" +:+ ty) ops] s).
Proof.
  intros [Hi _]. unfold current_ok, headed.
  cbn [sk_append s_instructions s_label]. rewrite Hi. cbn [app].
  rewrite decide_True by done. split; [by exists ty, ops|done].
Qed.

Lemma Inv_append_define ty ops sh lo old cfg l q p v c :
  Inv sh Entry lo old cfg l q p v → v_current v = Some c →
  Inv sh Open lo old cfg l q p (v_append c [Inst ("define_" +:+ ty) ops] v).
Proof.
  intros HI Hc. eapply (Inv_append Open _ sh Entry); [|done..].
  intros _ s Hok. pose proof Hok as [_ ->]. by apply current_ok_define.
Qed.

(** The invariant when the entry block has just been made current. *)
Lemma Inv_entry sh v cfg name :
  v_current v = Some cfg → v_next v = S cfg →
  v_blocks v !! cfg = Some (Skel name [] None 0) →
  (∀ r, is_Some (v_blocks v !! r) → (r < v_next v)%nat) →
  (∀ r s, v_blocks v !! r = Some s → s_numbered s = 0%nat) →
  Inv sh Entry cfg (v_blocks v) cfg ([] ++ [cfg]) [] [] v.
Proof.
  intros Hc Hn Hcfg Hdom Hf. split.
  - unfold Path. cbn [app fmap list_fmap].
    split; [done|]. split; [done|]. split; [apply NoDup_singleton|].
    split; [apply Forall_singleton; lia|]. split; [done|].
    split.
    { intros [|i] r Hi; [|done]. injection Hi as <-. by eexists. }
    split; [constructor|]. split; [done|]. done.
  - intros _. exists [], cfg, (Skel name [] None 0).
    split; [done|]. split; [done|]. split; [done|].
    intros r s' Hr. by apply elem_of_nil in Hr.
Qed.

(** The end of a function: the exit block gets its two instructions and
    becomes the successor of the current block. *)
Lemma Inv_exit sh lo old cfg l rb v c t1 t2 :
  Inv sh Closed lo old cfg l [(rb, "%exit")] [] v → v_current v = Some c →
  let vb := alter (sk_link (Some rb)) c
              (alter (sk_append [t2]) rb (alter (sk_append [t1]) rb (v_blocks v))) in
  (∀ r, is_Some (vb !! r) → (r < v_next v)%nat)
  ∧ (∀ r s, vb !! r = Some s → s_numbered s = 0%nat)
  ∧ (∀ r, (r < lo)%nat → vb !! r = old !! r)
  ∧ ∃ mid,
      l = cfg :: mid
      ∧ NoDup (l ++ [rb])
      ∧ Forall (λ r, lo ≤ r < v_next v)%nat (l ++ [rb])
      ∧ linked vb (l ++ [rb])
      ∧ vb !! rb = Some (Skel "%exit" [t1; t2] None 0)
      ∧ (sh = true → ∀ r s, r ∈ l → vb !! r = Some s → closed cfg r s).
Proof.
  intros HI Hc vb.
  destruct (Inv_last_in _ _ _ _ _ _ _ _ _ _ HI Hc) as [_ Hcl].
  assert (Hrl : rb ∉ l).
  { destruct HI as [HP _]. eapply Path_pending_not_in; [exact HP|]. left. }
  assert (Hne : c ≠ rb) by (intros ->; done).
  assert (Hrb : v_blocks v !! rb = Some (Skel "%exit" [] None 0)).
  { destruct HI as [(_ & _ & _ & _ & _ & _ & Hp & _) _].
    by apply Forall_cons in Hp as [Hp _]. }
  apply Inv_enter with (c := c) in HI; [|done]. destruct HI as [HP HS].
  apply (Path_append _ _ _ _ _ _ rb [t1; t2]) in HP;
    [|apply elem_of_app; right; left].
  assert (Hvb : v_blocks (v_append rb [t1; t2] (v_enter c rb v)) = vb).
  { unfold vb, v_append, v_enter. cbn [v_blocks]. apply map_eq. intros r.
    destruct (decide (r = rb)) as [->|Hr1].
    - rewrite lookup_alter_eq, !(lookup_alter_ne _ _ c rb), !lookup_alter_eq by done.
      by rewrite Hrb.
    - rewrite (lookup_alter_ne _ _ rb r) by done.
      destruct (decide (r = c)) as [->|Hr2].
      + rewrite !lookup_alter_eq, !(lookup_alter_ne _ _ rb c) by done. done.
      + rewrite !lookup_alter_ne by done. done. }
  rewrite <- Hvb.
  destruct HP as (Hh & _ & Hnd & Hr & Hdom & Hl & _ & Hf & Ho).
  cbn [fmap list_fmap] in Hnd, Hr. rewrite app_nil_r in Hnd, Hr.
  split; [exact Hdom|]. split; [exact Hf|]. split; [exact Ho|].
  destruct l as [|r0 mid]; [by apply elem_of_nil in Hcl|].
  injection Hh as ->. exists mid. split; [done|]. split; [done|].
  split; [exact Hr|]. split; [exact Hl|]. split.
  - rewrite Hvb. unfold vb. rewrite lookup_alter_ne by done.
    rewrite !lookup_alter_eq, Hrb. done.
  - intros Hsh r s Hin Hs. destruct (HS Hsh) as (pre & cur & s0 & Hpre & _ & _ & Hcl').
    apply app_inj_tail in Hpre as [<- <-].
    apply (Hcl' r s Hin). cbn [v_append v_blocks] in Hs.
    rewrite lookup_alter_ne in Hs by (intros ->; done). exact Hs.
Qed.

Lemma startswith_append pre s : Py.startswith (pre +:+ s) pre = true.
Proof.
  unfold Py.startswith. induction pre as [|a pre IH]; [by destruct s|].
  change (String a pre +:+ s) with (String a (pre +:+ s)).
  cbn [String.prefix]. destruct (Ascii.ascii_dec a a); [exact IH|done].
Qed.

(** What the generator has built when a function definition is visited. *)
Lemma visit_FuncDef_Inv f g cfg g' :
  well_formed g → visit_FuncDef f g = Some (cfg, g') →
  cfg = next_ref g
  ∧ well_formed g'
  ∧ current_block g' = None
  ∧ (∀ r, (r < next_ref g)%nat → current_block g ≠ Some r →
          v_blocks (view_of g') !! r = v_blocks (view_of g) !! r)
  ∧ ∃ l, function_cfg (plain_function f) (fd_type f) (v_blocks (view_of g'))
           (next_ref g) (next_ref g') cfg l.
Proof.
  intros (Hdom & Hfresh & Hcur) Hv. unfold visit_FuncDef in Hv.
  set (name := _get_name (decl_type (fd_name f))) in *.
  apply bind_Some in Hv as (cfg0 & g1 & [Hcfg E1]%create_block_view & Hv).
  apply bind_Some in Hv as (cp & g2 & [-> ->]%read_Some & Hv).
  apply bind_Some in Hv as ([] & g2 & E2 & Hv).
  apply bind_Some in Hv as ([] & g3 & E3%set_current_block_view & Hv).
  assert (Hcp : current_block g1 = current_block g).
  { change (v_current (view_of g1) = v_current (view_of g)). by rewrite E1. }
  assert (Hdom0 : ∀ r, is_Some (v_blocks (view_of g) !! r) → (r < cfg0)%nat).
  { intros r Hr. cbn in Hr. rewrite lookup_fmap in Hr.
    apply fmap_is_Some in Hr. rewrite Hcfg. by apply Hdom. }
  assert (Hfresh0 : ∀ r s, v_blocks (view_of g) !! r = Some s → s_numbered s = 0%nat).
  { intros r s Hs. cbn in Hs. rewrite lookup_fmap in Hs.
    apply fmap_Some in Hs as (b & Hb & ->). cbn. by rewrite (Hfresh r b Hb). }
  assert (H2 : v_next (view_of g2) = S cfg0
               ∧ v_blocks (view_of g2) !! cfg0 = Some (Skel ("%" +:+ name) [] None 0)
               ∧ (∀ r, is_Some (v_blocks (view_of g2) !! r) → (r < S cfg0)%nat)
               ∧ (∀ r s, v_blocks (view_of g2) !! r = Some s → s_numbered s = 0%nat)
               ∧ (∀ r, (r < cfg0)%nat → current_block g ≠ Some r →
                       v_blocks (view_of g2) !! r = v_blocks (view_of g) !! r)).
  { rewrite Hcp in E2. destruct (current_block g) as [p|] eqn:Hp.
    - apply bind_Some in E2 as ([] & g1' & Ea%add_predecessor_view & Eu).
      apply (update_block_alter _ _ (sk_link (Some cfg0))) in Eu as [Eu Hin]; [|done].
      assert (Hpc : p ≠ cfg0).
      { destruct (Hcur p eq_refl) as [b Hb].
        assert (p < next_ref g)%nat by (apply Hdom; eauto). rewrite Hcfg. cbn. lia. }
      rewrite Eu. cbn [v_next v_blocks]. rewrite Ea, E1.
      unfold v_create. cbn [v_next v_blocks].
      change (next_ref g1') with (v_next (view_of g1')). rewrite Ea, E1.
      cbn [v_create v_next]. rewrite <- Hcfg.
      split; [done|]. split; [by rewrite lookup_alter_ne, lookup_insert_eq|].
      split.
      { intros r Hr. apply lookup_alter_is_Some in Hr.
        apply lookup_insert_is_Some in Hr as [<-|[_ Hr]]; [lia|].
        apply Hdom0 in Hr. lia. }
      split.
      { intros r s Hs. destruct (decide (p = r)) as [->|Hne].
        - rewrite lookup_alter_eq in Hs. apply fmap_Some in Hs as (s0 & Hs0 & ->).
          cbn. apply lookup_insert_Some in Hs0 as [[_ <-]|[_ Hs0]]; [done|eauto].
        - rewrite lookup_alter_ne in Hs by done.
          apply lookup_insert_Some in Hs as [[_ <-]|[_ Hs]]; [done|eauto]. }
      intros r Hr Hrp. rewrite lookup_alter_ne by congruence.
      rewrite lookup_insert_ne by lia. done.
    - apply ret_Some in E2 as [_ ->]. rewrite E1.
      unfold v_create. cbn [v_next v_blocks]. rewrite <- Hcfg.
      split; [done|]. split; [by rewrite lookup_insert_eq|].
      split.
      { intros r Hr. apply lookup_insert_is_Some in Hr as [<-|[_ Hr]]; [lia|].
        apply Hdom0 in Hr. lia. }
      split.
      { intros r s Hs.
        apply lookup_insert_Some in Hs as [[_ <-]|[_ Hs]]; [done|eauto]. }
      intros r Hr _. rewrite lookup_insert_ne by lia. done. }
  destruct H2 as (Hn2 & Hb2 & Hdom2 & Hfresh2 & Hframe2).
  clear E1 E2 Hcp.
  assert (HI : Inv (plain_function f) Entry cfg0 (v_blocks (view_of g2)) cfg0
                   ([] ++ [cfg0]) [] [] (view_of g3)).
  { replace (v_blocks (view_of g2)) with (v_blocks (view_of g3)) by (by rewrite E3).
    apply (Inv_entry _ _ _ ("%" +:+ name)); rewrite E3; cbn [v_current v_next v_blocks];
      try done. by rewrite Hn2. }
  clear E3. set (old0 := v_blocks (view_of g2)) in *.
  apply bind_Some in Hv as ([] & g4 & E4 & Hv). inv_prim HI E4.
  apply bind_Some in Hv as ([params var_define] & g5 & E5 & Hv).
  assert (view_of g5 = view_of g4 ∧ unterminated var_define = true) as [E5' Hvd].
  { destruct (decl_type (fd_name f)); try discriminate E5.
    by eapply visit_FuncDecl_view. }
  rewrite <- E5' in HI. clear E5 E5'.
  apply bind_Some in Hv as ([] & g6 & E6 & Hv).
  apply append_view in E6 as [E6 _].
  pose proof (Inv_current_snoc _ _ _ _ _ _ _ _ _ _ HI) as Hc.
  eapply Inv_append_define in HI; [|exact Hc]. rewrite <- E6 in HI. clear E6 Hc.
  apply bind_Some in Hv as ([] & g7 & E7 & Hv). inv_prim HI E7.
  apply bind_Some in Hv as ([] & g8 & E8 & Hv).
  apply (update_block_alter _ _ (sk_append var_define)) in E8 as [E8 _]; [|done].
  pose proof (Inv_current_snoc _ _ _ _ _ _ _ _ _ _ HI) as Hc.
  eapply (Inv_append_plain var_define) in HI; [|done|exact Hc].
  change (view_of g8 = v_append cfg0 var_define (view_of g7)) in E8.
  rewrite <- E8 in HI. clear E8 Hc.
  apply bind_Some in Hv as (target & g9 & E9 & Hv).
  assert (HI9 : Inv (plain_function f) Open cfg0 old0 cfg0 ([] ++ [cfg0]) [] []
                    (view_of g9)
                ∧ (target = None → fd_type f = "void")).
  { destruct (fd_type f =? "void")%string eqn:Hty; cbn [negb] in E9.
    - apply ret_Some in E9 as [_ ->]. split; [exact HI|].
      intros _. by apply String.eqb_eq.
    - apply bind_Some in E9 as (tg & ga & Ea & E9). inv_prim HI Ea.
      apply bind_Some in E9 as ([] & gb & Eb & E9). inv_prim HI Eb.
      apply bind_Some in E9 as ([] & gc & Ec & E9). inv_prim HI Ec.
      apply ret_Some in E9 as [-> ->]. by split. }
  clear HI E9. destruct HI9 as [HI9 Htarget].
  apply bind_Some in Hv as ([] & g10 & E10 & Hv).
  assert (HI10 : ∃ new, Inv (plain_function f) Open cfg0 old0 cfg0
                            (([] ++ [cfg0]) ++ new) [] [] (view_of g10)).
  { unfold plain_function in *. destruct (fd_compound_statement f) as [body|].
    - eapply visit_stmt_Inv; [|exact HI9|exact E10]. done.
    - apply ret_Some in E10 as [_ ->]. exists []. by rewrite app_nil_r. }
  clear HI9 E10. destruct HI10 as (new & HI). cbn [app] in HI.
  apply bind_Some in Hv as ([] & g11 & E11 & Hv). inv_prim HI E11.
  apply bind_Some in Hv as (rb & g12 & E12 & Hv). inv_prim HI E12.
  apply bind_Some in Hv as (cur & g13 & [Hc ->]%current_Some & Hv).
  assert (Hlast : last (cfg0 :: new) = Some cur).
  { rewrite <- (Inv_current _ _ _ _ _ _ _ _ _ HI). exact Hc. }
  apply bind_Some in Hv as ([] & g13 & E13 & Hv). inv_prim HI E13.
  apply bind_Some in Hv as ([] & g14 & E14 & Hv). inv_prim HI E14.
  apply bind_Some in Hv as ([] & g15 & [E15 _]%append_view & Hv).
  apply bind_Some in Hv as ([] & g16 & [E16 _]%append_view & Hv).
  apply bind_Some in Hv as ([] & g17 & E17 & Hv).
  apply (update_block_alter _ _ (sk_link (Some rb))) in E17 as [E17 _]; [|done].
  apply bind_Some in Hv as ([] & g18 & E18%set_current_block_view & Hv).
  apply ret_Some in Hv as [-> ->].
  assert (Hcur14 : v_current (view_of g14) = Some cur).
  { by rewrite (Inv_current _ _ _ _ _ _ _ _ _ HI). }
  match type of E16 with
  | _ = v_append _ [?t2] _ =>
      destruct (Inv_exit _ _ _ _ _ _ _ _ (Inst "exit:" []) t2 HI Hcur14)
        as (Hdom' & Hf' & Ho' & mid & Hmid & Hnd & Hr & Hl & Hrb & Hcl);
      assert (Ht2 : opcode t2 = "return_" +:+ fd_type f)
        by (destruct target; [reflexivity|by rewrite Htarget])
  end.
  assert (Hb18 : v_blocks (view_of g18)
                 = alter (sk_link (Some rb)) cur
                     (alter (sk_append [match target with
                                        | Some tg => Inst ("return_" +:+ fd_type f) [S_ tg]
                                        | None => Inst "return_void" []
                                        end]) rb
                        (alter (sk_append [Inst "exit:" []]) rb
                           (v_blocks (view_of g14))))).
  { rewrite E18. cbn [v_blocks]. rewrite E17. cbn [v_blocks]. rewrite E16.
    cbn [v_append v_blocks]. rewrite E15. done. }
  assert (Hn18 : next_ref g18 = v_next (view_of g14)).
  { change (v_next (view_of g18) = v_next (view_of g14)).
    rewrite E18. cbn [v_next]. rewrite E17. cbn [v_next].
    change (next_ref g16) with (v_next (view_of g16)). rewrite E16.
    cbn [v_append v_next]. rewrite E15. done. }
  rewrite <- Hb18 in Hdom', Hf', Ho', Hl, Hrb, Hcl. rewrite <- Hn18 in Hdom', Hr.
  clear E15 E16 E17 Hb18.
  split; [exact Hcfg|]. split.
  { split; [|split].
    - intros r Hr'. apply Hdom'. cbn [view_of v_blocks]. rewrite lookup_fmap.
      by apply fmap_is_Some.
    - intros r b Hb. apply length_zero_iff_nil.
      apply (Hf' r (skeleton b)). cbn [view_of v_blocks]. by rewrite lookup_fmap, Hb.
    - intros r Hr'. change (v_current (view_of g18) = Some r) in Hr'.
      rewrite E18 in Hr'. done. }
  split.
  { change (v_current (view_of g18) = None). by rewrite E18. }
  split.
  { intros r Hlt Hne. rewrite Ho' by (rewrite Hcfg; exact Hlt).
    apply Hframe2; [rewrite Hcfg; exact Hlt|exact Hne]. }
  exists ((cfg0 :: new) ++ [rb]). injection Hmid as ->.
  eexists mid, rb, _. split; [done|]. split; [exact Hnd|].
  split; [change (next_ref g) with (v_next (view_of g)); rewrite <- Hcfg; exact Hr|].
  split; [exact Hl|].
  split; [exact Hrb|]. split; [exact Ht2|]. exact Hcl.
Qed.

End FuncDefFacts.

(* --------------------------------------------------------------------- *)
(** *** The CFGs of a program                                             *)
(* --------------------------------------------------------------------- *)

Section ProgramCfgFacts.

Import uc_ast uc_block CodeGenerator Cfg.

Lemma function_cfg_frame sh ty vb vb' lo hi lo' hi' cfg l :
  (∀ r, (lo ≤ r < hi)%nat → vb' !! r = vb !! r) → (lo' ≤ lo)%nat → (hi ≤ hi')%nat →
  function_cfg sh ty vb lo hi cfg l → function_cfg sh ty vb' lo' hi' cfg l.
Proof.
  intros Hfr Hlo Hhi (mid & ex & t & -> & Hnd & Hr & Hl & Hex & Ht & Hcl).
  rewrite Forall_forall in Hr.
  exists mid, ex, t. split; [done|]. split; [done|]. split.
  { apply Forall_forall. intros r Hin. specialize (Hr r Hin). lia. }
  split.
  { intros i r Hi. rewrite Hfr by (apply Hr; by eapply list_elem_of_lookup_2).
    by apply Hl. }
  split.
  { rewrite Hfr; [done|]. apply Hr. right. apply elem_of_app. right. left. }
  split; [done|]. intros Hsh r s Hin Hs. rewrite Hfr in Hs; [by eapply Hcl|].
  apply Hr. rewrite app_comm_cons. apply elem_of_app. by left.
Qed.

Lemma function_cfg_range sh ty vb lo hi cfg l :
  function_cfg sh ty vb lo hi cfg l →
  NoDup l ∧ Forall (λ r, lo ≤ r < hi)%nat l ∧ (lo < hi)%nat.
Proof.
  intros (mid & ex & t & -> & Hnd & Hr & _). split; [done|]. split; [done|].
  apply Forall_cons in Hr as [? _]. lia.
Qed.

Lemma well_formed_view g :
  well_formed g ↔
  (∀ r, is_Some (v_blocks (view_of g) !! r) → (r < v_next (view_of g))%nat)
  ∧ (∀ r s, v_blocks (view_of g) !! r = Some s → s_numbered s = 0%nat)
  ∧ (∀ r, v_current (view_of g) = Some r → is_Some (v_blocks (view_of g) !! r)).
Proof.
  unfold well_formed. cbn [view_of v_blocks v_next v_current].
  split; intros (Hd & Hf & Hc); (split; [|split]).
  - intros r Hr. rewrite lookup_fmap in Hr. apply fmap_is_Some in Hr. by apply Hd.
  - intros r s Hs. rewrite lookup_fmap in Hs. apply fmap_Some in Hs as (b & Hb & ->).
    cbn. by rewrite (Hf r b Hb).
  - intros r Hr. rewrite lookup_fmap. apply fmap_is_Some. by apply Hc.
  - intros r Hr. apply Hd. rewrite lookup_fmap. by apply fmap_is_Some.
  - intros r b Hb. apply length_zero_iff_nil. apply (Hf r (skeleton b)).
    by rewrite lookup_fmap, Hb.
  - intros r Hr. specialize (Hc r Hr). rewrite lookup_fmap in Hc.
    by apply fmap_is_Some in Hc.
Qed.

(** A visit that only appends to the current block, between two
    functions. *)
Lemma well_formed_appends g g' :
  well_formed g → appends g g' →
  well_formed g' ∧ next_ref g' = next_ref g ∧ current_block g' = current_block g
  ∧ ∀ r, current_block g ≠ Some r →
         v_blocks (view_of g') !! r = v_blocks (view_of g) !! r.
Proof.
  rewrite !well_formed_view. intros (Hd & Hf & Hc) (ts & _ & E).
  change (next_ref g') with (v_next (view_of g')).
  change (current_block g') with (v_current (view_of g')).
  rewrite E. clear E. unfold v_append_current.
  change (current_block g) with (v_current (view_of g)).
  destruct (v_current (view_of g)) as [c|] eqn:Hcur; [|rewrite Hcur; naive_solver].
  cbn [v_append v_blocks v_next v_current]. rewrite Hcur.
  split; [|split; [done|split; [done|]]].
  - split; [|split].
    + intros r Hr. apply lookup_alter_is_Some in Hr. by apply Hd.
    + intros r s Hs. destruct (decide (c = r)) as [->|Hne].
      * rewrite lookup_alter_eq in Hs. apply fmap_Some in Hs as (s0 & Hs0 & ->).
        cbn. by apply (Hf r).
      * rewrite lookup_alter_ne in Hs by done. by apply (Hf r).
    + intros r Hr. apply lookup_alter_is_Some. by apply Hc.
  - intros r Hne. rewrite lookup_alter_ne by congruence. done.
Qed.

Lemma Forall3_function_cfg_range (fs : list FuncDef) vb lo hi cfgs ls :
  Forall3 (λ f cfg l, function_cfg (plain_function f) (fd_type f) vb lo hi cfg l)
          fs cfgs ls →
  Forall (λ r, lo ≤ r < hi)%nat (concat ls).
Proof.
  induction 1 as [|f cfg l fs cfgs ls Hf _ IH]; [constructor|].
  cbn [concat]. apply Forall_app. split; [|done].
  by apply function_cfg_range in Hf as (_ & ? & _).
Qed.

(** The first loop of [visit_Program]. *)
Lemma visit_gdecls_Inv p : ∀ g cfgs g',
  well_formed g → visit_gdecls p g = Some (cfgs, g') →
  well_formed g'
  ∧ (next_ref g ≤ next_ref g')%nat
  ∧ (∀ r, (r < next_ref g)%nat → current_block g ≠ Some r →
          v_blocks (view_of g') !! r = v_blocks (view_of g) !! r)
  ∧ ∃ ls,
      Forall3 (λ f cfg l, function_cfg (plain_function f) (fd_type f)
                            (v_blocks (view_of g')) (next_ref g) (next_ref g') cfg l)
              (functions p) cfgs ls
      ∧ NoDup (concat ls).
Proof.
  induction p as [|[d|f] p IH]; intros g cfgs g' Hwf Hv; cbn [visit_gdecls] in Hv;
    [|rename Hv into Hd|].
  - apply ret_Some in Hv as [-> ->]. split; [done|]. split; [done|].
    split; [done|]. exists []. split; constructor.
  - apply bind_Some in Hd as ([] & g1 & E1%visit_Decls_appends & Hv).
    destruct (well_formed_appends _ _ Hwf E1) as (Hwf1 & Hn1 & Hc1 & Hfr1).
    destruct (IH _ _ _ Hwf1 Hv) as (Hwf2 & Hle & Hfr2 & ls & Hls & Hnd).
    rewrite Hn1 in Hle, Hfr2, Hls. rewrite Hc1 in Hfr2.
    split; [done|]. split; [done|]. split.
    { intros r Hr Hne. rewrite Hfr2 by done. by apply Hfr1. }
    exists ls. cbn [functions omap]. by split.
  - apply bind_Some in Hv as (cfg & g1 & E1 & Hv).
    apply bind_Some in Hv as (cfgs' & g2 & E2 & Hv).
    apply ret_Some in Hv as [-> ->].
    destruct (visit_FuncDef_Inv _ _ _ _ Hwf E1)
      as (-> & Hwf1 & Hcur1 & Hfr1 & l & Hl).
    destruct (IH _ _ _ Hwf1 E2) as (Hwf2 & Hle & Hfr2 & ls & Hls & Hnd).
    pose proof (function_cfg_range _ _ _ _ _ _ _ Hl) as (Hndl & Hrl & Hlt).
    split; [done|]. split; [lia|]. split.
    { intros r Hr Hne. rewrite Hfr2; [by apply Hfr1|lia|by rewrite Hcur1]. }
    exists (l :: ls). cbn [functions omap]. split.
    + constructor.
      * eapply function_cfg_frame; [|reflexivity|exact Hle|exact Hl].
        intros r Hr. apply Hfr2; [lia|by rewrite Hcur1].
      * eapply Forall3_impl; [exact Hls|]. intros f' cfg' l' Hf'. cbn beta in Hf'.
        eapply function_cfg_frame; [|..|exact Hf']; [done|lia|done].
    + cbn [concat]. apply NoDup_app. split; [done|]. split; [|done].
      intros r Hr Hr'. rewrite Forall_forall in Hrl. specialize (Hrl r Hr).
      apply Forall3_function_cfg_range in Hls. rewrite Forall_forall in Hls.
      specialize (Hls r Hr'). lia.
Qed.

Lemma well_formed_init : well_formed init.
Proof.
  split; [|split].
  - intros r Hr. cbn in Hr |- *. apply lookup_singleton_is_Some in Hr. lia.
  - intros r b Hb. cbn in Hb. apply lookup_singleton_Some in Hb as [_ <-]. done.
  - intros r [= <-]. cbn. by rewrite lookup_singleton_eq.
Qed.

(** The CFGs the generator leaves for the functions of a program. *)
Lemma visit_Program_cfgs p out :
  visit_Program p = Some out →
  ∃ hi ls,
    Forall3 (λ f cfg l, function_cfg (plain_function f) (fd_type f)
                          (skeleton <$> g_blocks out) 1 hi cfg l)
            (functions p) (g_cfgs out) ls
    ∧ NoDup (concat ls)
    ∧ (∀ r b, g_blocks out !! r = Some b → numerated_code b = []).
Proof.
  unfold visit_Program. intros Hv.
  destruct (visit_gdecls p init) as [[cfgs g]|] eqn:Hg; cbn in Hv; [|done].
  destruct (emit_program _ _ _) as [code|]; cbn in Hv; [|done].
  injection Hv as <-. cbn [g_blocks g_cfgs].
  destruct (visit_gdecls_Inv _ _ _ _ well_formed_init Hg)
    as ((_ & Hf & _) & _ & _ & ls & Hls & Hnd).
  exists (next_ref g), ls. done.
Qed.

Lemma function_cfg_chain sh ty (h : heap) lo hi cfg l :
  function_cfg sh ty (skeleton <$> h) lo hi cfg l → chain h cfg = Some l.
Proof.
  intros (mid & ex & t & -> & Hnd & _ & Hl & _). by apply chain_linked.
Qed.

Lemma visit_Program_separated p out :
  visit_Program p = Some out →
  DataFlow.separated (g_blocks out) (g_cfgs out)
  ∧ Forall (DataFlow.unnumbered (g_blocks out)) (g_cfgs out).
Proof.
  intros (hi & ls & Hls & Hnd & Hf)%visit_Program_cfgs. split.
  - exists ls. split; [|done]. apply mapM_Some.
    induction Hls as [|f cfg l fs cfgs ls Hc _ IH]; [constructor|].
    constructor; [by eapply function_cfg_chain|]. apply IH.
    cbn [concat] in Hnd. by apply NoDup_app in Hnd as (_ & _ & ?).
  - apply Forall_forall. intros cfg _ refs r b _ _ Hb. by eapply Hf.
Qed.

End ProgramCfgFacts.
(* ===================================================================== *)
(** ** The temporaries of a function                                       *)
(* ===================================================================== *)

Section TempFacts.

Import uc_block CodeGenerator Cfg.

Lemma temps_grow_refl g : temps_grow g g.
Proof. by split. Qed.

Lemma temps_grow_trans g1 g2 g3 : temps_grow g1 g2 → temps_grow g2 g3 → temps_grow g1 g3.
Proof. intros [Hf1 Hn1] [Hf2 Hn2]. split; [congruence|lia]. Qed.

(** A visit that leaves the name of the function and the counters alone. *)
Lemma temps_grow_same g g' :
  fname g' = fname g → versions g' = versions g → temps_grow g g'.
Proof. intros Hf Hv. split; [done|]. unfold next_temp. by rewrite Hf, Hv. Qed.

Lemma update_block_temps r f g x g' :
  update_block r f g = Some (x, g') → temps_grow g g'.
Proof.
  unfold update_block. intros H.
  destruct (blocks g !! r) as [b|]; cbn in H; [|done]. injection H as _ <-.
  by apply temps_grow_same.
Qed.

Lemma modify_temps f g x g' :
  (∀ g0, fname (f g0) = fname g0 ∧ versions (f g0) = versions g0) →
  modify f g = Some (x, g') → temps_grow g g'.
Proof.
  unfold modify. intros Hf [= _ <-]. destruct (Hf g). by apply temps_grow_same.
Qed.

Lemma create_block_temps c name g r g' :
  create_block c name g = Some (r, g') → temps_grow g g'.
Proof. unfold create_block. intros [= _ <-]. by apply temps_grow_same. Qed.

Lemma append_temps r t g x g' : append r t g = Some (x, g') → temps_grow g g'.
Proof. unfold append. apply update_block_temps. Qed.

Lemma emit_temps t g x g' : emit t g = Some (x, g') → temps_grow g g'.
Proof.
  unfold emit. intros (c & g1 & [_ ->]%current_Some & H)%bind_Some.
  by eapply append_temps.
Qed.

Lemma enter_temps r g x g' : enter r g = Some (x, g') → temps_grow g g'.
Proof.
  unfold enter. intros (c & g1 & [_ ->]%current_Some & H)%bind_Some.
  apply bind_Some in H as ([] & g2 & Hu%update_block_temps & Hm).
  eapply temps_grow_trans; [exact Hu|]. eapply modify_temps; [|exact Hm]. done.
Qed.

Lemma add_predecessor_temps r p g x g' :
  add_predecessor r p g = Some (x, g') → temps_grow g g'.
Proof. unfold add_predecessor. apply update_block_temps. Qed.

Lemma set_branch_temps r target g x g' :
  set_branch r target g = Some (x, g') → temps_grow g g'.
Proof. unfold set_branch. apply update_block_temps. Qed.

Lemma set_taken_temps r target g x g' :
  set_taken r target g = Some (x, g') → temps_grow g g'.
Proof. unfold set_taken. apply update_block_temps. Qed.

Lemma set_fall_through_temps r target g x g' :
  set_fall_through r target g = Some (x, g') → temps_grow g g'.
Proof. unfold set_fall_through. apply update_block_temps. Qed.

Lemma _get_origin_temps name g x g' :
  _get_origin name g = Some (x, g') → temps_grow g g'.
Proof.
  unfold _get_origin. intros (? & ? & [_ ->]%read_Some & [_ ->]%ret_Some)%bind_Some.
  apply temps_grow_refl.
Qed.

Lemma emit_text_temps t g x g' : emit_text t g = Some (x, g') → temps_grow g g'.
Proof. unfold emit_text. by apply modify_temps. Qed.

Lemma pop_loop_pile_temps g x g' : pop_loop_pile g = Some (x, g') → temps_grow g g'.
Proof.
  unfold pop_loop_pile.
  intros (? & ? & [_ ->]%read_Some & (? & ? & [_ ->]%lift_Some & Hm)%bind_Some)%bind_Some.
  by apply modify_temps in Hm.
Qed.

(** What [new_temp] returns, and what it leaves. *)
Lemma new_temp_spec g t g' :
  new_temp g = Some (t, g') →
  t = "%" +:+ Py.str_nat (next_temp g)
  ∧ fname g' = fname g ∧ next_temp g' = S (next_temp g).
Proof.
  unfold new_temp.
  intros (? & ? & [-> ->]%read_Some & (? & ? & [-> ->]%read_Some
          & (? & ? & Hm & [-> ->]%ret_Some)%bind_Some)%bind_Some)%bind_Some.
  unfold modify in Hm. injection Hm as _ <-. split; [done|]. split; [done|].
  unfold next_temp. cbn. by rewrite lookup_insert_eq.
Qed.

Lemma new_temp_temps g x g' : new_temp g = Some (x, g') → temps_grow g g'.
Proof. intros (_ & Hf & Hn)%new_temp_spec. split; [done|lia]. Qed.

Lemma insert_next_temp (vs : gmap string nat) fn k n :
  (default 1%nat (vs !! fn) ≤ default 1%nat (<[k := n]> vs !! fn))%nat
  ∨ k = fn.
Proof.
  destruct (decide (k = fn)) as [->|Hne]; [by right|left].
  by rewrite lookup_insert_ne.
Qed.

Lemma new_name_temps nm g x g' : new_name nm g = Some (x, g') → temps_grow g g'.
Proof.
  unfold new_name. intros (vs & ? & [-> ->]%read_Some & H)%bind_Some.
  destruct (0 <? default 0 (versions g !! nm))%nat eqn:Hpos;
    apply bind_Some in H as (? & ? & Hm & [_ ->]%ret_Some);
    unfold modify in Hm; injection Hm as _ <-; (split; [done|]);
    unfold next_temp; cbn [versions fname set_versions];
    (destruct (decide (nm = fname g)) as [->|Hne];
     [rewrite lookup_insert_eq|by rewrite lookup_insert_ne]).
  - apply Nat.ltb_lt in Hpos. destruct (versions g !! fname g); cbn in *; lia.
  - apply Nat.ltb_ge in Hpos. destruct (versions g !! fname g); cbn in *; lia.
Qed.

Lemma new_text_temps ty g x g' : new_text ty g = Some (x, g') → temps_grow g g'.
Proof.
  unfold new_text.
  intros (vs & ? & [-> ->]%read_Some & (n & ? & [Hn ->]%lift_Some
          & (? & ? & Hm & [_ ->]%ret_Some)%bind_Some)%bind_Some)%bind_Some.
  unfold modify in Hm. injection Hm as _ <-. split; [done|].
  unfold next_temp. cbn [versions fname set_versions].
  destruct (decide ("_glob_" = fname g)) as [<-|Hne];
    [rewrite lookup_insert_eq, Hn; cbn; lia|by rewrite lookup_insert_ne].
Qed.

End TempFacts.

(** A visit [E] that is one of the primitives, or one the hypotheses
    cover. *)
Ltac prim_temps E :=
  lazymatch type of E with
  | CodeGenerator.new_temp _ = _ => eapply new_temp_temps; exact E
  | CodeGenerator.new_name _ _ = _ => eapply new_name_temps; exact E
  | CodeGenerator.new_text _ _ = _ => eapply new_text_temps; exact E
  | CodeGenerator._get_origin _ _ = _ => eapply _get_origin_temps; exact E
  | CodeGenerator.emit_text _ _ = _ => eapply emit_text_temps; exact E
  | CodeGenerator.pop_loop_pile _ = _ => eapply pop_loop_pile_temps; exact E
  | CodeGenerator.add_predecessor _ _ _ = _ => eapply add_predecessor_temps; exact E
  | CodeGenerator.set_branch _ _ _ = _ => eapply set_branch_temps; exact E
  | CodeGenerator.set_taken _ _ _ = _ => eapply set_taken_temps; exact E
  | CodeGenerator.set_fall_through _ _ _ = _ => eapply set_fall_through_temps; exact E
  | CodeGenerator.create_block _ _ _ = _ => eapply create_block_temps; exact E
  | CodeGenerator.enter _ _ = _ => eapply enter_temps; exact E
  | CodeGenerator.append _ _ _ = _ => eapply append_temps; exact E
  | CodeGenerator.modify _ _ = _ =>
      eapply modify_temps; [|exact E]; intros; split; reflexivity
  | CodeGenerator.emit _ _ = _ => eapply emit_temps; exact E
  | _ =>
      first
      [ match goal with
        | IH : _ |- _ =>
            eapply IH; [|exact E]; cbn [Cfg.expr_size Cfg.stmt_size] in *; lia
        end
      | match goal with
        | IH : _ |- _ => eapply IH; exact E
        end ]
  end.

(** One step of a visit that is a sequence of visits. *)
Ltac step_temps Hv :=
  lazymatch type of Hv with
  | (_ ≫= _) _ = Some _ =>
      let x := fresh "x" in
      let g1 := fresh "g" in
      let E := fresh "E" in
      apply bind_Some in Hv as (x & g1 & E & Hv);
      lazymatch type of E with
      | CodeGenerator.lift _ _ = _ => apply lift_Some in E as [E ->]
      | CodeGenerator.read _ _ = _ => apply read_Some in E as [-> ->]
      | CodeGenerator.ret _ _ = _ => apply ret_Some in E as [-> ->]
      | CodeGenerator.current _ = _ => apply current_Some in E as [E ->]
      | CodeGenerator.raise _ = _ => discriminate E
      | _ =>
          apply (temps_grow_trans _ g1);
          [first [solve [prim_temps E] | solve [run_temps E]]|]
      end
  | (match ?c with _ => _ end) _ = Some _ => destruct c eqn:?
  end
with finish_temps Hv :=
  lazymatch type of Hv with
  | CodeGenerator.ret _ _ = _ => apply ret_Some in Hv as [_ ->]; apply temps_grow_refl
  | CodeGenerator.lift _ _ = _ => apply lift_Some in Hv as [_ ->]; apply temps_grow_refl
  | CodeGenerator.read _ _ = _ => apply read_Some in Hv as [_ ->]; apply temps_grow_refl
  | CodeGenerator.current _ = _ =>
      apply current_Some in Hv as [_ ->]; apply temps_grow_refl
  | CodeGenerator.raise _ = _ => discriminate Hv
  | _ => solve [prim_temps Hv]
  end
with run_temps Hv := repeat step_temps Hv; try finish_temps Hv.

Section TempVisits.

Import uc_ast uc_block CodeGenerator Cfg.

Lemma visit_expr_temps_sized n : ∀ e g l g',
  (expr_size e < n)%nat → visit_expr e g = Some (l, g') → temps_grow g g'.
Proof.
  induction n as [|n IH]; [lia|]. intros e g l g' Hn Hv.
  destruct e; cbn [visit_expr] in Hv; try solve [run_temps Hv].
  - do 2 step_temps Hv. destruct e1; try solve [run_temps Hv].
    repeat step_temps Hv.
    lazymatch type of Hv with
    | context [?W e1_1 ?i] =>
        assert (Hw : ∀ aux j g u g', (expr_size aux < S n)%nat →
                                     W aux j g = Some (u, g') → temps_grow g g')
    end.
    { clear -IH. intros aux. induction aux; intros j g u g' Hs Hw; cbn in Hs;
        cbn [visit_expr] in Hw; try solve [run_temps Hw]. }
    run_temps Hv.
  - step_temps Hv. destruct arguments as [a|]; [|run_temps Hv].
    destruct a; try solve [run_temps Hv].
    apply bind_Some in Hv as (u & g1 & E1 & Hv). cbn [expr_size] in Hn.
    apply (temps_grow_trans _ g1); [|run_temps Hv].
    lazymatch type of E1 with
    | ?F exprs _ = _ =>
        lazymatch type of Hn with
        | context [?sum exprs] =>
            assert (Hp : ∀ l g u g', (sum l < n)%nat →
                                     F l g = Some (u, g') → temps_grow g g')
        end
    end.
    { clear -IH. intros l. induction l as [|a l IHl]; intros g u g' Hs Hp;
        cbn in Hs; run_temps Hp. }
    eapply Hp; [|exact E1]. lia.
Qed.

Lemma visit_expr_temps e g l g' : visit_expr e g = Some (l, g') → temps_grow g g'.
Proof. apply (visit_expr_temps_sized (S (expr_size e))). lia. Qed.

End TempVisits.

Section TempStatements.

Import uc_ast uc_block CodeGenerator Cfg.

Lemma visit_ParamList_temps params : ∀ g x g',
  visit_ParamList params g = Some (x, g') → temps_grow g g'.
Proof.
  induction params as [|d params IH]; intros g x g' Hv; cbn [visit_ParamList] in Hv;
    run_temps Hv.
Qed.

Lemma visit_VarDecl_temps name ty init dim g x g' :
  visit_VarDecl name ty init dim g = Some (x, g') → temps_grow g g'.
Proof.
  pose proof visit_expr_temps as IH.
  unfold visit_VarDecl. intros Hv. run_temps Hv.
Qed.

Lemma visit_declarator_temps d : ∀ init dim g x g',
  visit_declarator d init dim g = Some (x, g') → temps_grow g g'.
Proof.
  pose proof visit_VarDecl_temps as IHv.
  pose proof visit_ParamList_temps as IHp.
  induction d as [| |params d IH]; intros init dim g x g' Hv;
    cbn [visit_declarator] in Hv; unfold visit_FuncDecl in *; run_temps Hv.
Qed.

Lemma visit_Decls_temps l : ∀ g x g', visit_Decls l g = Some (x, g') → temps_grow g g'.
Proof.
  pose proof visit_declarator_temps as IHd.
  induction l as [|d l IH]; intros g x g' Hv; cbn [visit_Decls] in Hv;
    unfold visit_Decl in *; run_temps Hv.
Qed.

Lemma visit_Print_temps e g x g' : visit_Print e g = Some (x, g') → temps_grow g g'.
Proof.
  pose proof visit_expr_temps as IH.
  unfold visit_Print. intros Hv.
  destruct e as [e|]; [|run_temps Hv].
  destruct e; try solve [run_temps Hv].
  revert g x g' Hv. induction exprs as [|a exprs IHl]; intros g x g' Hv; run_temps Hv.
Qed.

Lemma visit_Return_temps e g x g' : visit_Return e g = Some (x, g') → temps_grow g g'.
Proof.
  pose proof visit_expr_temps as IH.
  unfold visit_Return. intros Hv. run_temps Hv.
Qed.

Lemma visit_stmt_temps_sized n : ∀ s g x g',
  (stmt_size s < n)%nat → visit_stmt s g = Some (x, g') → temps_grow g g'.
Proof.
  pose proof visit_expr_temps as IHe.
  pose proof visit_Decls_temps as IHd.
  pose proof visit_Print_temps as IHp.
  pose proof visit_Return_temps as IHr.
  induction n as [|n IH]; [lia|]. intros s g x g' Hn Hv.
  destruct s; cbn [visit_stmt] in Hv.
  - run_temps Hv.
  - step_temps Hv. cbn [stmt_size] in Hn. apply PeanoNat.lt_S_n in Hn.
    clear dependent x0. revert g0 Hv Hn.
    induction statmts as [|[child|] rest IHl]; intros g0 Hv Hn.
    + run_temps Hv.
    + step_temps Hv. apply (IHl _ Hv). cbn in Hn |- *. lia.
    + apply (IHl _ Hv). cbn in Hn |- *. lia.
  - destruct elsestat as [els|], ifstat as [thn|]; run_temps Hv.
  - run_temps Hv.
  - destruct t1 as [[e1|]|decls], t2 as [e2|], t3 as [e3|]; run_temps Hv.
  - unfold visit_Break in Hv. run_temps Hv.
  - run_temps Hv.
  - unfold visit_Assert in Hv. run_temps Hv.
  - run_temps Hv.
  - run_temps Hv.
Qed.

Lemma visit_stmt_temps s g x g' : visit_stmt s g = Some (x, g') → temps_grow g g'.
Proof. apply (visit_stmt_temps_sized (S (stmt_size s))). lia. Qed.

End TempStatements.

Section TemporariesFresh.

Import uc_ast uc_block CodeGenerator Cfg.

(** X24. Inside a function the generator never hands out the same temporary
    twice: a temporary taken after a statement was visited has a higher
    number than one taken before it, so the two names differ, whatever
    the statement is and however many labels and temporaries its visit
    needed. *)
Theorem temporaries_never_reused s g t1 g1 x g2 t2 g3 :
  new_temp g = Some (t1, g1) →
  visit_stmt s g1 = Some (x, g2) →
  new_temp g2 = Some (t2, g3) →
  t1 ≠ t2
  ∧ ∃ n1 n2, t1 = "%" +:+ Py.str_nat n1 ∧ t2 = "%" +:+ Py.str_nat n2 ∧ (n1 < n2)%nat.
Proof.
  intros (-> & Hf1 & Hn1)%new_temp_spec [Hf2 Hn2]%visit_stmt_temps
         (-> & _ & _)%new_temp_spec.
  split.
  - intros Heq. injection Heq as Heq. unfold Py.str_nat in Heq.
    change (pretty (next_temp g) = pretty (next_temp g2)) in Heq. apply (inj (@pretty nat _)) in Heq. lia.
  - exists (next_temp g), (next_temp g2). split; [done|]. split; [done|]. lia.
Qed.

Lemma temporaries_never_reused_witness :
  let g := set_fname "_main_" init in
  let s := Print (Some (BinaryOp "+" (Examples.int_const "2") (Examples.int_const "3")
                                 None (Some uc_type.IntType))) in
  ∃ g1 g2 g3,
    new_temp g = Some ("%1", g1) ∧ visit_stmt s g1 = Some (tt, g2)
    ∧ new_temp g2 = Some ("%5", g3) ∧ "%1" ≠ "%5".
Proof.
  intros g s.
  assert (H1 : bool_decide (fst <$> new_temp g = Some "%1") = true)
    by (vm_compute; reflexivity).
  assert (H2 : bool_decide
                 (is_Some (visit_stmt s (default g (snd <$> new_temp g)))) = true)
    by (vm_compute; reflexivity).
  assert (H3 : bool_decide
                 (fst <$> new_temp (default g (snd <$> visit_stmt s
                                     (default g (snd <$> new_temp g)))) = Some "%5") = true)
    by (vm_compute; reflexivity).
  destruct (new_temp g) as [[t1 g1]|] eqn:E1; [|discriminate H1].
  apply bool_decide_eq_true_1 in H1. cbn in H1. injection H1 as ->.
  cbn [default from_option id fmap option_fmap option_map snd] in H2, H3.
  destruct (visit_stmt s g1) as [[[] g2]|] eqn:E2; [|discriminate H2].
  cbn [default from_option id fmap option_fmap option_map snd] in H3.
  destruct (new_temp g2) as [[t2 g3]|] eqn:E3; [|discriminate H3].
  apply bool_decide_eq_true_1 in H3. cbn in H3. injection H3 as ->.
  exists g1, g2, g3. split; [reflexivity|]. split; [exact E2|]. split; [exact E3|].
  exact (proj1 (temporaries_never_reused s g _ g1 tt g2 _ g3 E1 E2 E3)).
Defined.

End TemporariesFresh.


(* --------------------------------------------------------------------- *)
(** *** What the generator builds                                       *)
(* --------------------------------------------------------------------- *)

Section GeneratorProperties.

Import uc_ast uc_block CodeGenerator Cfg.

(** X1.  Generating the code of an expression stays in the current basic
    block: whatever the expression, if [visit_expr] returns, it has created
    no block, the current block is the same, and the only change to the
    labels, instruction lists and [next_block] links of the blocks is that
    instructions were appended to the current block, none of them a [jump] or
    a [cbranch]. *)
Theorem visit_expr_stays_in_block e g l g' :
  visit_expr e g = Some (l, g') →
  next_ref g' = next_ref g ∧ current_block g' = current_block g ∧ appends g g'.
Proof.
  intros Hv. pose proof (visit_expr_appends _ _ _ _ Hv) as Ha.
  split; [|split; [|exact Ha]]; destruct Ha as (ts & _ & E).
  - change (v_next (view_of g') = v_next (view_of g)). rewrite E.
    unfold v_append_current. by destruct (v_current (view_of g)).
  - change (v_current (view_of g') = v_current (view_of g)). rewrite E.
    unfold v_append_current. by destruct (v_current (view_of g)) eqn:Hc.
Qed.

Lemma visit_expr_stays_in_block_witness :
  let e := BinaryOp "+" (Examples.int_const "2") (Examples.int_const "3") None
                    (Some uc_type.IntType) in
  ∃ l g', visit_expr e init = Some (l, g')
          ∧ next_ref g' = 1%nat ∧ current_block g' = Some 0%nat.
Proof.
  intros e.
  assert (H : bool_decide (is_Some (visit_expr e init)) = true)
    by (vm_compute; reflexivity).
  destruct (visit_expr e init) as [[l g']|] eqn:E; [|discriminate H].
  exists l, g'. split; [reflexivity|].
  destruct (visit_expr_stays_in_block e init l g' E) as (Hn & Hc & _).
  split; [exact Hn|exact Hc].
Defined.

Lemma visit_stmt_straight_sized n : ∀ s g x g',
  (stmt_size s < n)%nat → straight s = true →
  visit_stmt s g = Some (x, g') → appends g g'.
Proof.
  induction n as [|n IH]; [lia|]. intros s g x g' Hn Hs Hv.
  destruct s; cbn [visit_stmt] in Hv; try discriminate Hs.
  - apply bind_Some in Hv as (l & g1 & E%visit_expr_appends & [_ ->]%ret_Some).
    exact E.
  - apply bind_Some in Hv as ([] & g1 & E%visit_Decls_appends & Hv).
    apply (appends_trans _ _ _ E). clear E.
    cbn [stmt_size straight] in Hn, Hs. apply PeanoNat.lt_S_n in Hn.
    revert g1 Hv Hn Hs. induction statmts as [|[child|] rest IHr]; intros g1 Hv Hn Hs.
    + apply ret_Some in Hv as [_ ->]. apply appends_refl.
    + apply bind_Some in Hv as ([] & g2 & E & Hv).
      apply andb_true_iff in Hs as [Hc Hs].
      eapply appends_trans; [eapply IH; [|exact Hc|exact E]; lia|].
      apply IHr; [exact Hv|lia|exact Hs].
    + by apply IHr.
  - by eapply visit_Return_appends.
  - by eapply visit_Print_appends.
  - apply ret_Some in Hv as [_ ->]. apply appends_refl.
Qed.

(** X2.  Straight-line code stays in one basic block: for a statement with
    no [if], [while], [for], [break] or [assert] inside (expressions,
    declarations, [print], [read], [return], and compounds of them),
    [visit_stmt] creates no block, keeps the current block, and only
    appends instructions that are no terminators to it.  In particular
    [return] ends no block. *)
Theorem straight_line_stays_in_block s g x g' :
  straight s = true → visit_stmt s g = Some (x, g') →
  next_ref g' = next_ref g ∧ current_block g' = current_block g ∧ appends g g'.
Proof.
  intros Hs Hv.
  pose proof (visit_stmt_straight_sized (S (stmt_size s)) s g x g'
                ltac:(lia) Hs Hv) as Ha.
  split; [|split; [|exact Ha]]; destruct Ha as (ts & _ & E).
  - change (v_next (view_of g') = v_next (view_of g)). rewrite E.
    unfold v_append_current. by destruct (v_current (view_of g)).
  - change (v_current (view_of g') = v_current (view_of g)). rewrite E.
    unfold v_append_current. by destruct (v_current (view_of g)) eqn:Hc.
Qed.

Lemma straight_line_stays_in_block_witness :
  let s := Compound []
             [Some (Print (Some (Examples.int_const "1")));
              Some (Return None); Some (Print None)] in
  ∃ g', visit_stmt s init = Some (tt, g')
        ∧ next_ref g' = 1%nat ∧ current_block g' = Some 0%nat.
Proof.
  intros s.
  assert (H : bool_decide (is_Some (visit_stmt s init)) = true)
    by (vm_compute; reflexivity).
  destruct (visit_stmt s init) as [[[] g']|] eqn:E; [|discriminate H].
  exists g'. split; [reflexivity|].
  destruct (straight_line_stays_in_block s init () g' eq_refl E) as (Hn & Hc & _).
  split; [exact Hn|exact Hc].
Defined.

Lemma function_cfg_blocks sh ty (h : heap) lo hi cfg l :
  function_cfg sh ty (skeleton <$> h) lo hi cfg l →
  ∃ mid ex bx t,
    l = cfg :: mid ++ [ex]
    ∧ chain h cfg = Some (cfg :: mid ++ [ex])
    ∧ Forall (λ r, lo ≤ r < hi)%nat (cfg :: mid ++ [ex])
    ∧ h !! ex = Some bx
    ∧ label bx = "%exit" ∧ next_block bx = None
    ∧ instructions bx = [Inst "exit:" []; t]
    ∧ opcode t = "return_" +:+ ty
    ∧ (sh = true → ∀ r b, r ∈ cfg :: mid → h !! r = Some b → closed cfg r (skeleton b)).
Proof.
  intros Hf. pose proof (function_cfg_chain _ _ _ _ _ _ _ Hf) as Hc.
  destruct Hf as (mid & ex & t & -> & Hnd & Hr & Hl & Hex & Ht & Hcl).
  rewrite lookup_fmap in Hex. apply fmap_Some in Hex as (bx & Hbx & Hsk).
  injection Hsk as Hlab Hins Hnext _.
  exists mid, ex, bx, t. repeat (split; [done|]).
  intros Hsh r b Hin Hb. apply (Hcl Hsh r); [done|]. by rewrite lookup_fmap, Hb.
Qed.

(** X3.  The CFG of a function.  Visiting a function definition, between
    two functions, makes a fresh block the entry of its CFG; when it returns,
    no block is current, and the chain of [next_block] links from the entry
    lists only blocks created by this visit, ending in the exit block, whose
    label is [%exit] and whose instructions are exactly the label [exit:]
    and the [return_T] of the type [T] of the function. *)
Theorem visit_FuncDef_builds_cfg f g cfg g' :
  well_formed g → visit_FuncDef f g = Some (cfg, g') →
  cfg = next_ref g ∧ current_block g' = None ∧ well_formed g'
  ∧ ∃ mid ex bx t,
      chain (blocks g') cfg = Some (cfg :: mid ++ [ex])
      ∧ Forall (λ r, next_ref g ≤ r < next_ref g')%nat (cfg :: mid ++ [ex])
      ∧ blocks g' !! ex = Some bx
      ∧ label bx = "%exit" ∧ next_block bx = None
      ∧ instructions bx = [Inst "exit:" []; t]
      ∧ opcode t = "return_" +:+ fd_type f.
Proof.
  intros Hwf Hv.
  destruct (visit_FuncDef_Inv f g cfg g' Hwf Hv) as (Hcfg & Hwf' & Hcur & _ & l & Hl).
  split; [exact Hcfg|]. split; [exact Hcur|]. split; [exact Hwf'|].
  destruct (function_cfg_blocks _ _ _ _ _ _ _ Hl)
    as (mid & ex & bx & t & _ & Hc & Hr & Hbx & Hlab & Hn & Hi & Ht & _).
  by exists mid, ex, bx, t.
Qed.

Lemma visit_FuncDef_builds_cfg_witness :
  ∃ f g' ex bx,
    head (functions Examples.prog_early_return) = Some f
    ∧ visit_FuncDef f init = Some (1%nat, g')
    ∧ current_block g' = None
    ∧ last <$> chain (blocks g') 1%nat = Some (Some ex)
    ∧ blocks g' !! ex = Some bx
    ∧ instructions bx = [Inst "exit:" []; Inst "return_int" [S_ "%1"]].
Proof.
  destruct (head (functions Examples.prog_early_return)) as [f|] eqn:Ef;
    [|discriminate Ef].
  assert (H : fst <$> visit_FuncDef f init = Some 1%nat)
    by (injection Ef as <-; vm_compute; reflexivity).
  assert (Hi : (λ x, (λ r, instructions <$> blocks x.2 !! r)
                       <$> (chain (blocks x.2) 1%nat ≫= last))
                 <$> visit_FuncDef f init
               = Some (Some (Some [Inst "exit:" []; Inst "return_int" [S_ "%1"]])))
    by (injection Ef as <-; vm_compute; reflexivity).
  destruct (visit_FuncDef f init) as [[cfg g']|] eqn:E; [|discriminate H].
  injection H as ->.
  destruct (visit_FuncDef_builds_cfg f init 1%nat g' well_formed_init E)
    as (_ & Hcur & _ & mid & ex & bx & t & Hc & _ & Hbx & _ & _ & Hins & _).
  exists f, g', ex, bx. split; [reflexivity|]. split; [exact E|].
  split; [exact Hcur|]. rewrite Hc. cbn [fmap option_fmap option_map].
  rewrite app_comm_cons, last_snoc. split; [reflexivity|]. split; [exact Hbx|].
  cbn [fmap option_fmap option_map mbind option_bind snd] in Hi.
  rewrite Hc in Hi. cbn [mbind option_bind] in Hi.
  rewrite app_comm_cons, last_snoc in Hi. cbn [fmap option_fmap option_map] in Hi.
  rewrite Hbx in Hi. by injection Hi.
Defined.

(** X4.  Visiting a function definition leaves the blocks of the functions
    before it alone: a block that existed and was not the current one keeps
    its label, its instructions and its [next_block] link, and still has no
    numbered instruction. *)
Theorem visit_FuncDef_keeps_older_blocks f g cfg g' r b :
  well_formed g → visit_FuncDef f g = Some (cfg, g') →
  blocks g !! r = Some b → current_block g ≠ Some r →
  ∃ b', blocks g' !! r = Some b'
        ∧ label b' = label b ∧ instructions b' = instructions b
        ∧ next_block b' = next_block b ∧ numerated_code b' = [].
Proof.
  intros Hwf Hv Hb Hne.
  destruct (visit_FuncDef_Inv f g cfg g' Hwf Hv) as (_ & Hwf' & _ & Hfr & _).
  assert (Hlt : (r < next_ref g)%nat) by (apply Hwf; eauto).
  specialize (Hfr r Hlt Hne). cbn [view_of v_blocks] in Hfr.
  rewrite !lookup_fmap, Hb in Hfr.
  destruct (blocks g' !! r) as [b'|] eqn:Hb'; [|discriminate Hfr].
  injection Hfr as Hlab Hins Hnext _.
  exists b'. repeat (split; [done|]). by apply (proj1 (proj2 Hwf') r).
Qed.

Lemma visit_FuncDef_keeps_older_blocks_witness :
  ∃ f1 f2 g1 g2 b,
    functions Examples.prog_two = [f1; f2]
    ∧ visit_FuncDef f1 init = Some (1%nat, g1)
    ∧ visit_FuncDef f2 g1 = Some (3%nat, g2)
    ∧ blocks g1 !! 1%nat = Some b
    ∧ ∃ b', blocks g2 !! 1%nat = Some b' ∧ instructions b' = instructions b.
Proof.
  destruct (functions Examples.prog_two) as [|f1 [|f2 [|]]] eqn:Ef;
    try discriminate Ef.
  assert (H1 : fst <$> visit_FuncDef f1 init = Some 1%nat)
    by (injection Ef as <- <-; vm_compute; reflexivity).
  assert (H2 : fst <$> (visit_FuncDef f1 init ≫= λ x, visit_FuncDef f2 x.2)
               = Some 3%nat)
    by (injection Ef as <- <-; vm_compute; reflexivity).
  assert (H3 : (λ x, bool_decide (is_Some (blocks x.2 !! 1%nat)))
                 <$> visit_FuncDef f1 init = Some true)
    by (injection Ef as <- <-; vm_compute; reflexivity).
  destruct (visit_FuncDef f1 init) as [[c1 g1]|] eqn:E1; [|discriminate H1].
  injection H1 as ->. cbn [mbind option_bind snd] in H2.
  destruct (visit_FuncDef f2 g1) as [[c2 g2]|] eqn:E2; [|discriminate H2].
  injection H2 as ->. injection H3 as H3. apply bool_decide_eq_true in H3 as [b Hb].
  exists f1, f2, g1, g2, b. split; [reflexivity|]. split; [exact E1|].
  split; [exact E2|]. split; [exact Hb|].
  destruct (visit_FuncDef_Inv f1 init 1%nat g1 well_formed_init E1)
    as (_ & Hwf1 & Hcur1 & _).
  destruct (visit_FuncDef_keeps_older_blocks f2 g1 3%nat g2 1%nat b Hwf1 E2 Hb)
    as (b' & Hb' & _ & Hins & _); [by rewrite Hcur1|].
  by exists b'.
Defined.

(** X5.  In what the generator leaves for a program, the CFGs of the
    functions share no block (the chains of [next_block] links from their
    entries are disjoint, and none has a cycle), and no block has numbered
    instructions yet: the state the dataflow stage expects. *)
Theorem generated_cfgs_separated p out :
  visit_Program p = Some out →
  DataFlow.separated (g_blocks out) (g_cfgs out)
  ∧ Forall (DataFlow.unnumbered (g_blocks out)) (g_cfgs out).
Proof. apply visit_Program_separated. Qed.

Lemma generated_cfgs_separated_witness :
  ∃ out chains,
    visit_Program Examples.prog_two = Some out
    ∧ g_cfgs out = [1; 3]%nat
    ∧ mapM (chain (g_blocks out)) (g_cfgs out) = Some chains
    ∧ NoDup (concat chains).
Proof.
  assert (Hg : visit_Program Examples.prog_two
               = Some (Examples.generated Examples.prog_two))
    by (vm_compute; reflexivity).
  destruct (generated_cfgs_separated _ _ Hg) as [(chains & Hc & Hnd) _].
  exists (Examples.generated Examples.prog_two), chains.
  split; [exact Hg|]. split; [vm_compute; reflexivity|]. by split.
Defined.

Lemma function_cfg_emit sh ty (h : heap) lo hi cfg l :
  function_cfg sh ty (skeleton <$> h) lo hi cfg l →
  ∃ body t, emit_blocks h cfg = Some (body ++ [Inst "exit:" []; t])
            ∧ opcode t = "return_" +:+ ty.
Proof.
  intros Hf. pose proof Hf as (_ & _ & _ & _ & _ & _ & Hl & _).
  destruct (function_cfg_blocks _ _ _ _ _ _ _ Hf)
    as (mid & ex & bx & t & -> & Hc & _ & Hbx & _ & _ & Hi & Ht & _).
  assert (Hbs : is_Some (mapM (λ r, h !! r) (cfg :: mid))).
  { apply mapM_is_Some, Forall_forall. intros r Hr.
    apply list_elem_of_lookup in Hr as [i Hi'].
    destruct (Hl i r) as (s & Hs & _).
    { rewrite app_comm_cons. by apply lookup_app_l_Some. }
    rewrite lookup_fmap in Hs. apply fmap_Some in Hs as (b & Hb & _). by exists b. }
  destruct Hbs as [bs Hbs].
  exists (concat (instructions <$> bs)), t. split; [|exact Ht].
  unfold emit_blocks. rewrite Hc. cbn [mbind option_bind].
  assert (Hall : mapM (λ r, h !! r) (cfg :: mid ++ [ex]) = Some (bs ++ [bx])).
  { apply mapM_Some. rewrite app_comm_cons. apply Forall2_app.
    - by apply mapM_Some.
    - by constructor. }
  rewrite Hall. cbn [mbind option_bind].
  by rewrite fmap_app, concat_app, <- Hi; cbn; rewrite app_nil_r.
Qed.

(** X6.  The code of every function ends with the exit block.  For each
    function definition of an accepted program, in order, the instructions
    the generator emits for its CFG end with the label [exit:] followed by
    the [return_T] of the type [T] of the function: the one [return] of the
    function, and the last instruction of a block that is neither a [jump]
    nor a [cbranch]. *)
Theorem generated_functions_end_in_exit p out :
  visit_Program p = Some out →
  Forall2 (λ f cfg, ∃ body t,
             emit_blocks (g_blocks out) cfg = Some (body ++ [Inst "exit:" []; t])
             ∧ opcode t = "return_" +:+ fd_type f
             ∧ is_terminator t = false)
          (functions p) (g_cfgs out).
Proof.
  intros (hi & ls & Hls & _)%visit_Program_cfgs.
  induction Hls as [|f cfg l fs cfgs ls Hf _ IH]; constructor; [|exact IH].
  destruct (function_cfg_emit _ _ _ _ _ _ _ Hf) as (body & t & He & Ht).
  exists body, t. split; [exact He|]. split; [exact Ht|].
  unfold is_terminator. rewrite Ht. reflexivity.
Qed.

Lemma generated_functions_end_in_exit_witness :
  ∃ out,
    visit_Program Examples.prog_two = Some out
    ∧ Forall2 (λ f cfg, ∃ body t,
                 emit_blocks (g_blocks out) cfg = Some (body ++ [Inst "exit:" []; t])
                 ∧ opcode t = "return_" +:+ fd_type f
                 ∧ is_terminator t = false)
              (functions Examples.prog_two) (g_cfgs out).
Proof.
  assert (Hg : visit_Program Examples.prog_two
               = Some (Examples.generated Examples.prog_two))
    by (vm_compute; reflexivity).
  exists (Examples.generated Examples.prog_two). split; [exact Hg|].
  exact (generated_functions_end_in_exit _ _ Hg).
Defined.

(** X7.  The blocks of a function with no [break] and no [assert].  For
    each such function of an accepted program, every block of its CFG but
    the exit block has exactly one terminator ([jump] or [cbranch]), its
    last instruction; the entry block begins with the [define] of the
    function, and every other one with the label-only instruction made of
    its own label. *)
Theorem generated_blocks_closed p out :
  visit_Program p = Some out →
  Forall2 (λ f cfg,
             plain_function f = true →
             ∃ mid ex,
               chain (g_blocks out) cfg = Some (cfg :: mid ++ [ex])
               ∧ ∀ r b, r ∈ cfg :: mid → g_blocks out !! r = Some b →
                   terminated (instructions b) = true
                   ∧ (r = cfg → ∃ ty ops, head (instructions b)
                                          = Some (Inst ("define_" +:+ ty) ops))
                   ∧ (r ≠ cfg → head (instructions b)
                                = Some (Inst (label b +:+ ":") [])))
          (functions p) (g_cfgs out).
Proof.
  intros (hi & ls & Hls & _)%visit_Program_cfgs.
  induction Hls as [|f cfg l fs cfgs ls Hf _ IH]; constructor; [|exact IH].
  intros Hplain.
  destruct (function_cfg_blocks _ _ _ _ _ _ _ Hf)
    as (mid & ex & bx & t & _ & Hc & _ & _ & _ & _ & _ & _ & Hcl).
  exists mid, ex. split; [exact Hc|]. intros r b Hr Hb.
  destruct (Hcl Hplain r b Hr Hb) as [Hh Ht]. split; [exact Ht|].
  unfold headed in Hh. cbn [skeleton s_instructions s_label] in Hh.
  split; intros Hrc.
  - by rewrite decide_True in Hh.
  - by rewrite decide_False in Hh.
Qed.

Lemma generated_blocks_closed_witness :
  ∃ out f mid ex,
    visit_Program Examples.prog_three_stores = Some out
    ∧ functions Examples.prog_three_stores = [f]
    ∧ plain_function f = true
    ∧ chain (g_blocks out) 1%nat = Some (1%nat :: mid ++ [ex])
    ∧ ∀ r b, r ∈ 1%nat :: mid → g_blocks out !! r = Some b →
             terminated (instructions b) = true.
Proof.
  assert (Hg : visit_Program Examples.prog_three_stores
               = Some (Examples.generated Examples.prog_three_stores))
    by (vm_compute; reflexivity).
  pose proof (generated_blocks_closed _ _ Hg) as H.
  assert (Ec : g_cfgs (Examples.generated Examples.prog_three_stores) = [1%nat])
    by (vm_compute; reflexivity).
  rewrite Ec in H. clear Ec.
  destruct (functions Examples.prog_three_stores) as [|f [|]] eqn:Ef;
    try discriminate Ef.
  assert (Hp : plain_function f = true) by (injection Ef as <-; reflexivity).
  apply Forall2_cons_1 in H as [H _]. destruct (H Hp) as (mid & ex & Hc & Hb).
  exists (Examples.generated Examples.prog_three_stores), f, mid, ex.
  split; [exact Hg|]. split; [reflexivity|]. split; [exact Hp|].
  split; [exact Hc|]. intros r b Hr Hlk. by destruct (Hb r b Hr Hlk).
Defined.

End GeneratorProperties.

Section PipelineProperties.

Import uc_ast uc_block DataFlow.

Context `{Py.SetOrder}.

(** X8.  The two stages together.  For every program the generator
    accepts, when the dataflow stage returns, its code has exactly the
    side-effecting instructions ([print], [cbranch], [jump], [return],
    [param], [elem], casts) of the code of the generator, in the same
    order, and is no longer than it.  Nothing is assumed of the blocks: the
    generator leaves them as the dataflow stage needs them. *)
Theorem optimised_code_keeps_side_effects fuel p out s :
  CodeGenerator.visit_Program p = Some out →
  visit_Program fuel (CodeGenerator.g_text out) (CodeGenerator.g_cfgs out)
                (init (CodeGenerator.g_blocks out)) = Some s →
  filter (λ t, side_effecting t = true) (code s)
  = filter (λ t, side_effecting t = true) (CodeGenerator.g_code out)
  ∧ (length (code s) ≤ length (CodeGenerator.g_code out))%nat.
Proof.
  intros Hg Hv.
  destruct (visit_Program_separated _ _ Hg) as [Hsep Hun].
  assert (Hem : CodeGenerator.emit_program (CodeGenerator.g_blocks out)
                  (CodeGenerator.g_text out) (CodeGenerator.g_cfgs out)
                = Some (CodeGenerator.g_code out)).
  { unfold CodeGenerator.visit_Program in Hg.
    destruct (CodeGenerator.visit_gdecls p CodeGenerator.init) as [[cfgs g]|];
      cbn in Hg; [|done].
    destruct (CodeGenerator.emit_program _ _ _) as [code|] eqn:Hem; cbn in Hg; [|done].
    injection Hg as <-. exact Hem. }
  destruct (visit_Program_spec fuel _ _ (init (CodeGenerator.g_blocks out)) s _
              Hun Hsep Hem Hv) as [Hlen Hfil].
  by split.
Qed.

End PipelineProperties.

Lemma optimised_code_keeps_side_effects_witness :
  let out := Examples.generated Examples.prog_three_stores in
  ∃ s,
    CodeGenerator.visit_Program Examples.prog_three_stores = Some out
    ∧ DataFlow.visit_Program (H := Py.insertion_order) 200
        (CodeGenerator.g_text out) (CodeGenerator.g_cfgs out)
        (DataFlow.init (CodeGenerator.g_blocks out)) = Some s
    ∧ filter (λ t, DataFlow.side_effecting t = true) (DataFlow.code s)
      = filter (λ t, DataFlow.side_effecting t = true) (CodeGenerator.g_code out).
Proof.
  intros out.
  assert (Hg : CodeGenerator.visit_Program Examples.prog_three_stores = Some out)
    by (vm_compute; reflexivity).
  assert (Hv : bool_decide (is_Some (DataFlow.visit_Program (H := Py.insertion_order) 200
                  (CodeGenerator.g_text out) (CodeGenerator.g_cfgs out)
                  (DataFlow.init (CodeGenerator.g_blocks out)))) = true)
    by (vm_compute; reflexivity).
  destruct (DataFlow.visit_Program 200 _ _ _) as [s|] eqn:Ev; [|discriminate Hv].
  exists s. split; [exact Hg|]. split; [reflexivity|].
  exact (proj1 (optimised_code_keeps_side_effects (H := Py.insertion_order) 200
                  Examples.prog_three_stores out s Hg Ev)).
Defined.

(* --------------------------------------------------------------------- *)
(** *** What the analyses do                                            *)
(* --------------------------------------------------------------------- *)

Section DataFlowProperties.

Import uc_block DataFlow.

(** X9.  [number_instructions] numbers the instructions of a function from
    1, in the order in which the generator emits them: on blocks not
    numbered before, [labeled_code] becomes the emitted code of the CFG with
    the indices 1, 2, 3, ... and is spread over the [numerated_code] of the
    blocks of the chain; labels, instructions, predecessors and links of the
    blocks, and [code], are not touched. *)
Theorem number_instructions_numbers_from_one cfg s s' body :
  unnumbered (blocks s) cfg → emit_blocks (blocks s) cfg = Some body →
  number_instructions cfg s = Some s' →
  labeled_code s' = numbering 1 body
  ∧ (labeled_code s').*1 = seq 1 (length body)
  ∧ numbered s' cfg
  ∧ heap_rel same_static (blocks s) (blocks s')
  ∧ code s' = code s.
Proof.
  intros Hun Hem Hn. unfold emit_blocks in Hem.
  destruct (chain (blocks s) cfg) as [refs|] eqn:Hc; cbn [mbind option_bind] in Hem;
    [|done].
  destruct (mapM _ refs) as [bs|] eqn:Hbs; cbn [mbind option_bind] in Hem; [|done].
  injection Hem as <-.
  destruct (number_instructions_spec cfg s s' refs bs Hun Hc Hbs Hn)
    as (Hnum & Hlc & _ & Hrel & Hcode & _).
  split; [exact Hlc|]. split; [by rewrite Hlc, numbering_fst|]. by repeat split.
Qed.

Lemma number_instructions_numbers_from_one_witness :
  let s := init (CodeGenerator.g_blocks (Examples.generated Examples.prog_three_stores)) in
  ∃ s', number_instructions 1%nat s = Some s'
        ∧ labeled_code s' = Examples.three_stores_code.
Proof.
  intros s.
  assert (Hb : emit_blocks (blocks s) 1%nat = Some (Examples.three_stores_code).*2)
    by (vm_compute; reflexivity).
  assert (Hv : bool_decide (is_Some (number_instructions 1%nat s)) = true)
    by (vm_compute; reflexivity).
  destruct (number_instructions 1%nat s) as [s'|] eqn:Ev; [|discriminate Hv].
  exists s'. split; [reflexivity|].
  assert (Hun : unnumbered (blocks s) 1%nat).
  { apply fresh_unnumbered. apply (bool_decide_unpack _). vm_compute. exact I. }
  destruct (number_instructions_numbers_from_one 1%nat s s' _ Hun Hb Ev) as (Hlc & _).
  rewrite Hlc. reflexivity.
Defined.

Section Passes.

Context `{Py.SetOrder}.

(** X10.  The reaching-definitions analysis only computes sets: the two
    passes [computeRD_gen_kill] and [computeRD_in_out] leave the label, the
    instructions, the numbered instructions, the predecessors, the links and
    the branch targets of every block as they were, and [labeled_code],
    [code], [global_variables] and [defs] too. *)
Theorem reaching_definitions_keep_code fuel cfg s s1 s2 :
  computeRD_gen_kill cfg s = Some s1 → computeRD_in_out fuel cfg s1 = Some s2 →
  heap_rel same_code (blocks s) (blocks s2)
  ∧ labeled_code s2 = labeled_code s ∧ code s2 = code s
  ∧ global_variables s2 = global_variables s ∧ defs s2 = defs s.
Proof.
  intros H1 H2. apply computeRD_gen_kill_frame in H1.
  apply computeRD_in_out_frame in H2.
  exact (state_frame_trans _ _ _ H1 H2).
Qed.

(** X11.  The liveness analysis only computes sets: [computeLV_use_def]
    and [computeLV_in_out] leave the label, the instructions, the numbered
    instructions, the predecessors, the links and the branch targets of every
    block as they were, and [labeled_code], [code], [global_variables] and
    [defs] too. *)
Theorem liveness_keeps_code fuel cfg s s1 s2 :
  computeLV_use_def cfg s = Some s1 → computeLV_in_out fuel cfg s1 = Some s2 →
  heap_rel same_code (blocks s) (blocks s2)
  ∧ labeled_code s2 = labeled_code s ∧ code s2 = code s
  ∧ global_variables s2 = global_variables s ∧ defs s2 = defs s.
Proof.
  intros H1 H2. apply computeLV_use_def_frame in H1.
  apply computeLV_in_out_frame in H2.
  exact (state_frame_trans _ _ _ H1 H2).
Qed.

End Passes.

Lemma reaching_definitions_keep_code_witness :
  let s := Examples.three_stores_numbered_state in
  ∃ s1 s2,
    computeRD_gen_kill 1%nat s = Some s1
    ∧ computeRD_in_out (H := Py.insertion_order) 200 1%nat s1 = Some s2
    ∧ labeled_code s2 = labeled_code s ∧ defs s2 = defs s.
Proof.
  intros s.
  assert (H1 : bool_decide (is_Some (computeRD_gen_kill 1%nat s)) = true)
    by (vm_compute; reflexivity).
  assert (H2 : bool_decide (is_Some (computeRD_gen_kill 1%nat s
                 ≫= computeRD_in_out (H := Py.insertion_order) 200 1%nat)) = true)
    by (vm_compute; reflexivity).
  destruct (computeRD_gen_kill 1%nat s) as [s1|] eqn:E1; [|discriminate H1].
  cbn [mbind option_bind] in H2.
  destruct (computeRD_in_out 200 1%nat s1) as [s2|] eqn:E2; [|discriminate H2].
  exists s1, s2. split; [reflexivity|]. split; [exact E2|].
  destruct (reaching_definitions_keep_code (H := Py.insertion_order) 200 1%nat s s1 s2
              E1 E2) as (_ & Hl & _ & _ & Hd).
  by split.
Defined.

Lemma liveness_keeps_code_witness :
  let s := Examples.three_stores_numbered_state in
  ∃ s1 s2,
    computeLV_use_def 1%nat s = Some s1
    ∧ computeLV_in_out (H := Py.insertion_order) 200 1%nat s1 = Some s2
    ∧ labeled_code s2 = labeled_code s ∧ defs s2 = defs s.
Proof.
  intros s.
  assert (H1 : bool_decide (is_Some (computeLV_use_def 1%nat s)) = true)
    by (vm_compute; reflexivity).
  assert (H2 : bool_decide (is_Some (computeLV_use_def 1%nat s
                 ≫= computeLV_in_out (H := Py.insertion_order) 200 1%nat)) = true)
    by (vm_compute; reflexivity).
  destruct (computeLV_use_def 1%nat s) as [s1|] eqn:E1; [|discriminate H1].
  cbn [mbind option_bind] in H2.
  destruct (computeLV_in_out 200 1%nat s1) as [s2|] eqn:E2; [|discriminate H2].
  exists s1, s2. split; [reflexivity|]. split; [exact E2|].
  destruct (liveness_keeps_code (H := Py.insertion_order) 200 1%nat s s1 s2
              E1 E2) as (_ & Hl & _ & _ & Hd).
  by split.
Defined.

End DataFlowProperties.

Section GenKillProperties.

Import uc_block DataFlow.

(** Rewrites every test of the opcode of [t] by what the hypothesis [H], an
    opcode test that holds, says of it. *)
Ltac settle_opcodes H :=
  match type of H with
  | op_is ?t ?p = true =>
      repeat match goal with
             | |- context [op_is t ?q] =>
                 first [ rewrite (op_is_exclusive t p q eq_refl eq_refl H)
                       | rewrite H ]
             end
  end.

Lemma instruction_gen_kill_binary d t i p :
  p ∈ binary_ops → op_is t p = true →
  instruction_gen_kill d t i = gen_kill_at d 3 t i.
Proof.
  unfold binary_ops. rewrite !elem_of_cons, elem_of_nil. intros Hp H.
  unfold instruction_gen_kill, binary_ops. cbn [Py.for_each].
  repeat (destruct Hp as [->|Hp];
          [settle_opcodes H; cbn [mbind option_bind];
           by destruct (gen_kill_at d 3 t i)|]).
  done.
Qed.

(** X12.  Where [instruction_gen_kill] has a case, it computes the sets of
    the specification: for an instruction at index [i] whose opcode starts
    with [store], [literal], [load], [call], [not_], [sitofp] or [fptosi]
    (target: component 2) or with a binary operator (target: component 3),
    gen is the index alone and kill is the list of the definitions recorded
    for the target, without [i]. *)
Theorem instruction_gen_kill_defining d t i p k x ds kill :
  (p ∈ target_prefixes ∧ k = 2%nat) ∨ (p ∈ binary_ops ∧ k = 3%nat) →
  op_is t p = true → arg k t = Some (Py.VStr x) → d !! x = Some ds →
  Py.list_remove i ds = Some kill →
  instruction_gen_kill d t i = Some ([i], kill).
Proof.
  intros [[Hp ->]|[Hp ->]] Hop Ha Hd Hk.
  - by eapply instruction_gen_kill_handled.
  - rewrite (instruction_gen_kill_binary d t i p Hp Hop).
    unfold gen_kill_at. rewrite Ha. cbn. rewrite Hd. cbn. by rewrite Hk.
Qed.

Lemma instruction_gen_kill_defining_witness :
  instruction_gen_kill {[ "%5" := [3; 11; 20]%nat ]}
    (Inst "eq_int" [Py.VStr "%3"; Py.VStr "%4"; Py.VStr "%5"]) 11
  = Some ([11%nat], [3; 20]%nat).
Proof.
  apply (instruction_gen_kill_defining _ _ _ "eq_" 3%nat "%5" [3; 11; 20]%nat).
  - right. split; [|reflexivity]. unfold binary_ops.
    solve [repeat first [left | right]].
  - reflexivity.
  - reflexivity.
  - apply lookup_singleton_eq.
  - reflexivity.
Defined.



End GenKillProperties.

Section BlockGenKill.

Import uc_block DataFlow.

Lemma gen_kill_at_gen d k t i g kl : gen_kill_at d k t i = Some (g, kl) → g = [i].
Proof.
  unfold gen_kill_at. intros H.
  destruct (arg k t ≫= Py.as_str) as [x|]; cbn in H; [|done].
  destruct (d !! x) as [ds|]; cbn in H; [|done].
  destruct (Py.list_remove i ds); cbn in H; [|done]. by injection H as <- _.
Qed.

Lemma binary_gen_kill_loop_shape d t i ops : ∀ gk gk',
  Py.for_each (λ gk bin_op, if op_is t bin_op then gen_kill_at d 3 t i else Some gk)
              ops gk = Some gk' →
  (gk.1 = [] → gk.2 = []) → gk'.1 = [] → gk'.2 = [].
Proof.
  induction ops as [|op ops IH]; intros gk gk' E Hgk; cbn [Py.for_each] in E.
  - by injection E as <-.
  - destruct (op_is t op).
    + destruct (gen_kill_at d 3 t i) as [[g kl]|] eqn:Eg; cbn in E; [|done].
      apply (IH _ _ E). cbn. intros ->. by apply gen_kill_at_gen in Eg.
    + cbn in E. by apply (IH _ _ E).
Qed.

(** The sets of an instruction: no kill without a gen. *)
Lemma instruction_gen_kill_shape d t i g k :
  instruction_gen_kill d t i = Some (g, k) → g = [] → k = [].
Proof.
  unfold instruction_gen_kill. intros H.
  match type of H with
  | context [mbind _ ?m] => destruct m as [gk1|] eqn:E1
  end; cbn [mbind option_bind] in H; [|done].
  apply (binary_gen_kill_loop_shape _ _ _ _ _ _ H).
  destruct gk1 as [g1 k1]. cbn. intros ->.
  repeat match type of E1 with
         | (if ?c then _ else _) = _ =>
             destruct c; [by apply gen_kill_at_gen in E1|]
         end.
  by injection E1 as <-.
Qed.

Lemma filter_notin_nil (l : list nat) : filter (λ i, i ∉ []) l = l.
Proof.
  induction l as [|x l IH]; [done|].
  rewrite filter_cons_True by apply not_elem_of_nil. by rewrite IH.
Qed.

Lemma update_block_gen_kill_RD_seq b g k :
  (gen_defs b = [] → kill_defs b = []) → (g = [] → k = []) →
  (gen_defs (update_block_gen_kill_RD b g k), kill_defs (update_block_gen_kill_RD b g k))
  = seq_gen_kill (gen_defs b, kill_defs b) (g, k)
  ∧ (gen_defs (update_block_gen_kill_RD b g k) = [] →
     kill_defs (update_block_gen_kill_RD b g k) = []).
Proof.
  intros Hb Hgk. unfold update_block_gen_kill_RD, seq_gen_kill. cbn [fst snd].
  destruct g as [|i g].
  - rewrite (Hgk eq_refl). rewrite filter_notin_nil, !app_nil_r. done.
  - destruct (gen_defs b) as [|j gd] eqn:Hgd.
    + rewrite (Hb eq_refl). cbn. split; [done|]. intros [=].
    + destruct k; cbn; (split; [done|]); intros Hnil;
        by apply app_eq_nil in Hnil as [_ [=]].
Qed.

Lemma gen_kill_items d items : ∀ b b',
  Py.for_each (λ b' it, '(g, k) ← instruction_gen_kill d it.2 it.1;
                        Some (update_block_gen_kill_RD b' g k)) items b = Some b' →
  (gen_defs b = [] → kill_defs b = []) →
  ∃ gks,
    mapM (λ it, instruction_gen_kill d it.2 it.1) items = Some gks
    ∧ (gen_defs b', kill_defs b') = foldl seq_gen_kill (gen_defs b, kill_defs b) gks
    ∧ same_code b b'.
Proof.
  induction items as [|it items IH]; intros b b' E Hb; cbn [Py.for_each] in E.
  - injection E as <-. exists []. split; [done|]. split; [done|]. apply same_code_refl.
  - destruct (instruction_gen_kill d it.2 it.1) as [[g k]|] eqn:Ei;
      cbn [mbind option_bind] in E; [|done].
    pose proof (instruction_gen_kill_shape _ _ _ _ _ Ei) as Hgk.
    destruct (update_block_gen_kill_RD_seq b g k Hb Hgk) as [Hseq Hinv].
    destruct (IH _ _ E Hinv) as (gks & Hm & Hfold & Hsame).
    exists ((g, k) :: gks). split.
    { cbn [mapM]. rewrite Ei. cbn [mbind option_bind]. rewrite Hm. done. }
    split.
    { cbn [foldl]. by rewrite <- Hseq. }
    eapply same_code_trans; [apply update_block_gen_kill_RD_same_code|exact Hsame].
Qed.

(** X14.  The sets of a block are those of its instructions, one after the
    other.  On a block whose [gen_defs] and [kill_defs] are still empty, the
    body of the loop of [computeRD_gen_kill] leaves in [kill_defs] the kill
    lists of the instructions of the block, concatenated in order, and in
    [gen_defs] the gen of each instruction that no later instruction of the
    block kills; the special case the code makes of an empty [gen_defs]
    changes nothing to that.  Label, instructions, numbered instructions and
    links of the block stay as they are. *)
Theorem gen_kill_block_composes s r s' b :
  gen_kill_block s r = Some s' → blocks s !! r = Some b →
  gen_defs b = [] → kill_defs b = [] →
  ∃ gks b',
    mapM (λ it, instruction_gen_kill (defs s) it.2 it.1) (numerated_code b) = Some gks
    ∧ blocks s' = <[r := b']> (blocks s)
    ∧ (gen_defs b', kill_defs b') = foldl seq_gen_kill ([], []) gks
    ∧ same_code b b'.
Proof.
  unfold gen_kill_block. intros H Hb Hg Hk. rewrite Hb in H.
  cbn [mbind option_bind] in H.
  destruct (Py.for_each _ _ b) as [b'|] eqn:E; cbn [mbind option_bind] in H; [|done].
  injection H as <-.
  destruct (gen_kill_items _ _ _ _ E) as (gks & Hm & Hfold & Hsame); [done|].
  exists gks, b'. rewrite Hg, Hk in Hfold.
  split; [exact Hm|]. split; [reflexivity|]. split; [exact Hfold|exact Hsame].
Qed.

Lemma gen_kill_block_composes_witness :
  let s := Examples.three_stores_numbered_state in
  ∃ s' b b',
    gen_kill_block s 1%nat = Some s'
    ∧ blocks s !! 1%nat = Some b
    ∧ blocks s' = <[1%nat := b']> (blocks s)
    ∧ (gen_defs b', kill_defs b') = ([4%nat], []).
Proof.
  intros s.
  assert (H1 : bool_decide (is_Some (gen_kill_block s 1%nat)) = true)
    by (vm_compute; reflexivity).
  assert (H2 : (λ b, (gen_defs b, kill_defs b,
                      foldl seq_gen_kill ([], [])
                        <$> mapM (λ it, instruction_gen_kill (defs s) it.2 it.1)
                                 (numerated_code b)))
                 <$> blocks s !! 1%nat
               = Some ([], [], Some ([4%nat], [])))
    by (vm_compute; reflexivity).
  destruct (gen_kill_block s 1%nat) as [s'|] eqn:E; [|discriminate H1].
  destruct (blocks s !! 1%nat) as [b|] eqn:Eb; [|discriminate H2].
  injection H2 as Hg Hk Hf.
  destruct (gen_kill_block_composes s 1%nat s' b E Eb Hg Hk)
    as (gks & b' & Hm & Hb' & Hfold & _).
  exists s', b, b'. split; [reflexivity|]. split; [reflexivity|]. split; [exact Hb'|].
  rewrite Hm in Hf. cbn [fmap option_fmap option_map] in Hf. injection Hf as Hf.
  by rewrite Hfold, Hf.
Defined.

End BlockGenKill.

Section NoKeyError.

Import uc_block DataFlow.

Lemma list_remove_is_Some i ds : i ∈ ds → is_Some (Py.list_remove i ds).
Proof.
  induction ds as [|y ds IH]; intros Hin; [by apply elem_of_nil in Hin|].
  cbn [Py.list_remove]. destruct (Nat.eqb_spec i y) as [->|Hne]; [by eexists|].
  apply elem_of_cons in Hin as [->|Hin]; [done|].
  destruct (IH Hin) as [l ->]. by eexists.
Qed.

Lemma gen_kill_at_is_Some d k t i v :
  arg k t = Some v → recorded d i v → is_Some (gen_kill_at d k t i).
Proof.
  intros Ha (x & ds & -> & Hd & Hin). unfold gen_kill_at. rewrite Ha. cbn.
  rewrite Hd. cbn. destruct (list_remove_is_Some i ds Hin) as [kl ->]. by eexists.
Qed.

Lemma grows_refl d : grows d d.
Proof. intros x ds Hx. by exists ds. Qed.

Lemma grows_trans d1 d2 d3 : grows d1 d2 → grows d2 d3 → grows d1 d3.
Proof.
  intros H12 H23 x ds Hx. destruct (H12 x ds Hx) as (ds2 & Hx2 & Hs2).
  destruct (H23 x ds2 Hx2) as (ds3 & Hx3 & Hs3). exists ds3. split; [done|].
  by etrans.
Qed.

Lemma recorded_grows d d' i v : grows d d' → recorded d i v → recorded d' i v.
Proof.
  intros Hg (x & ds & -> & Hd & Hin). destruct (Hg x ds Hd) as (ds' & Hd' & Hs).
  exists x, ds'. split; [done|]. split; [done|]. by apply Hs.
Qed.

Lemma targets_recorded_grows d d' i t :
  grows d d' → targets_recorded d i t → targets_recorded d' i t.
Proof.
  intros Hg [H2 H3]. split; intros p Hp Hop.
  - destruct (H2 p Hp Hop) as (v & Ha & Hr). exists v. split; [done|].
    by eapply recorded_grows.
  - destruct (H3 p Hp Hop) as (v & Ha & Hr). exists v. split; [done|].
    by eapply recorded_grows.
Qed.

Lemma add_to_defs_spec v i d d' :
  add_to_defs v i d = Some d' → grows d d' ∧ recorded d' i v.
Proof.
  unfold add_to_defs. destruct v as [| |x| |]; try done; cbn. intros [= <-]. split.
  - intros y ds Hy. destruct (decide (x = y)) as [->|Hne].
    + rewrite lookup_insert_eq, Hy. cbn. eexists. split; [done|].
      intros k Hk. apply elem_of_app. by left.
    + rewrite lookup_insert_ne by done. exists ds. by split.
  - exists x, (default [] (d !! x) ++ [i]). split; [done|].
    split; [apply lookup_insert_eq|]. apply elem_of_app. right. left.
Qed.

Lemma def_at_spec k t i d d' :
  def_at k t i d = Some d' → grows d d' ∧ ∃ v, arg k t = Some v ∧ recorded d' i v.
Proof.
  unfold def_at. destruct (arg k t) as [v|]; cbn; [|done].
  intros [Hg Hr]%add_to_defs_spec. split; [done|]. by exists v.
Qed.

Lemma define_loop_grows i params : ∀ d d',
  Py.for_each (λ d' parameter, name ← Py.item parameter 1; add_to_defs name i d')
              params d = Some d' →
  grows d d'.
Proof.
  induction params as [|p params IH]; intros d d' E; cbn [Py.for_each] in E.
  - injection E as <-. apply grows_refl.
  - destruct (Py.item p 1) as [name|]; cbn in E; [|done].
    destruct (add_to_defs name i d) as [d1|] eqn:E1; cbn in E; [|done].
    apply add_to_defs_spec in E1 as [Hg _]. eapply grows_trans; [exact Hg|].
    by apply IH.
Qed.

Lemma binary_defs_loop t i ops : ∀ d d',
  Py.for_each (λ d' bin_op, if op_is t bin_op then def_at 3 t i d' else Some d')
              ops d = Some d' →
  grows d d'
  ∧ ∀ p, p ∈ ops → op_is t p = true → ∃ v, arg 3 t = Some v ∧ recorded d' i v.
Proof.
  induction ops as [|op ops IH]; intros d d' E; cbn [Py.for_each] in E.
  - injection E as <-. split; [apply grows_refl|]. intros p Hp.
    by apply elem_of_nil in Hp.
  - destruct (if op_is t op then _ else _) as [d1|] eqn:E1;
      cbn [mbind option_bind] in E; [|done].
    destruct (IH _ _ E) as [Hg Hrec].
    assert (H1 : grows d d1
                 ∧ (op_is t op = true → ∃ v, arg 3 t = Some v ∧ recorded d1 i v)).
    { destruct (op_is t op).
      - apply def_at_spec in E1 as [? ?]. by split.
      - injection E1 as <-. split; [apply grows_refl|done]. }
    destruct H1 as [Hg1 Hrec1]. split; [by eapply grows_trans|].
    intros p Hp Hop. apply elem_of_cons in Hp as [->|Hp]; [|by apply (Hrec p)].
    destruct (Hrec1 Hop) as (v & Ha & Hr). exists v. split; [done|].
    by eapply recorded_grows.
Qed.

(** What [number_instructions] records for one instruction is what
    [instruction_gen_kill] will look up for it. *)
Lemma number_defs_spec t i d d' :
  number_defs t i d = Some d' → grows d d' ∧ targets_recorded d' i t.
Proof.
  unfold number_defs. intros H.
  match type of H with
  | context [mbind _ ?m] => destruct m as [d1|] eqn:E1
  end; cbn [mbind option_bind] in H; [|done].
  destruct (binary_defs_loop _ _ _ _ _ H) as [Hg Hrec3].
  assert (H1 : grows d d1
               ∧ ∀ p, p ∈ target_prefixes → op_is t p = true →
                      ∃ v, arg 2 t = Some v ∧ recorded d1 i v).
  { repeat match type of E1 with
           | (if op_is t ?q then def_at 2 t i d else _) = _ =>
               destruct (op_is t q) eqn:?;
               [apply def_at_spec in E1 as [? ?]; by split|]
           end.
    assert (Hnone : ∀ p, p ∈ target_prefixes → op_is t p = true → False).
    { intros p Hp Hop. unfold target_prefixes in Hp.
      repeat (apply elem_of_cons in Hp as [->|Hp]; [congruence|]).
      by apply elem_of_nil in Hp. }
    split; [|intros p Hp Hop; destruct (Hnone p Hp Hop)].
    destruct (op_is t "elem"); [by apply def_at_spec in E1 as [? _]|].
    destruct (op_is t "define"); [|injection E1 as <-; apply grows_refl].
    destruct (arg 2 t ≫= Py.iter) as [params|]; cbn [mbind option_bind] in E1; [|done].
    by eapply define_loop_grows. }
  destruct H1 as [Hg1 Hrec2]. split; [by eapply grows_trans|]. split.
  - intros p Hp Hop. destruct (Hrec2 p Hp Hop) as (v & Ha & Hr). exists v.
    split; [done|]. by eapply recorded_grows.
  - exact Hrec3.
Qed.

Lemma number_loop_defs ins : ∀ nc lc d i nc' lc' d' i',
  Py.for_each number_inst ins (nc, lc, d, i) = Some (nc', lc', d', i') →
  grows d d' ∧ ∀ j t, (j, t) ∈ numbering i ins → targets_recorded d' j t.
Proof.
  induction ins as [|t ins IH]; intros nc lc d i nc' lc' d' i' E; cbn [Py.for_each] in E.
  - injection E as _ _ <- _. split; [apply grows_refl|]. intros j t Hin.
    by apply elem_of_nil in Hin.
  - destruct (number_inst (nc, lc, d, i) t) as [[[[nc1 lc1] d1] i1]|] eqn:E0;
      cbn [mbind option_bind] in E; [|done].
    unfold number_inst in E0.
    destruct (number_defs t i d) as [d0|] eqn:E1; cbn [mbind option_bind] in E0; [|done].
    injection E0 as <- <- <- <-.
    apply number_defs_spec in E1 as [Hg1 Hrec1].
    destruct (IH _ _ _ _ _ _ _ _ E) as [Hg Hrec].
    split; [by eapply grows_trans|]. intros j t0 Hin. cbn [numbering] in Hin.
    apply elem_of_cons in Hin as [[= -> ->]|Hin]; [|by apply Hrec].
    by eapply targets_recorded_grows.
Qed.

Lemma number_block_defs s r s' b :
  number_block s r = Some s' → blocks s !! r = Some b →
  grows (defs s) (defs s')
  ∧ ∀ j t, (j, t) ∈ numbering (index s) (instructions b) →
           targets_recorded (defs s') j t.
Proof.
  unfold number_block. intros H Hb. rewrite Hb in H. cbn [mbind option_bind] in H.
  destruct (Py.for_each _ _ _) as [[[[nc lc] d] i]|] eqn:E;
    cbn [mbind option_bind] in H; [|done].
  injection H as <-. cbn [defs]. by eapply number_loop_defs.
Qed.

Lemma number_chain_defs refs : ∀ s s' bs,
  NoDup refs → mapM (λ r, blocks s !! r) refs = Some bs →
  Forall (λ b, numerated_code b = []) bs →
  Forall (λ k, k < index s)%nat (labeled_code s).*1 →
  (∀ j t, (j, t) ∈ labeled_code s → targets_recorded (defs s) j t) →
  Py.for_each number_block refs s = Some s' →
  ∀ j t, (j, t) ∈ labeled_code s' → targets_recorded (defs s') j t.
Proof.
  induction refs as [|r refs IH]; intros s s' bs Hnd Hbs Hfresh Hlc Hinv Hl.
  - cbn in Hl. by injection Hl as <-.
  - apply NoDup_cons in Hnd as [Hr Hnd].
    apply mapM_lookup_cons in Hbs as (b & bs0 & -> & Hb & Hbs0).
    apply Forall_cons in Hfresh as [Hbnc Hfresh].
    cbn [Py.for_each] in Hl.
    destruct (number_block s r) as [s1|] eqn:E1; cbn [mbind option_bind] in Hl; [|done].
    destruct (number_block_spec _ _ _ _ E1 Hb Hbnc Hlc) as (Hh1 & Hlc1 & Hi1 & _).
    destruct (number_block_defs _ _ _ _ E1 Hb) as [Hg1 Hrec1].
    apply (IH s1 s' bs0); try done.
    + rewrite Hh1. by rewrite mapM_lookup_insert_notin.
    + rewrite Hlc1, fmap_app, Forall_app, Hi1. split.
      * eapply Forall_impl; [done|]. cbn. lia.
      * rewrite numbering_fst. apply Forall_forall. intros k Hk.
        apply elem_of_seq in Hk. lia.
    + intros j t Hin. rewrite Hlc1 in Hin. apply elem_of_app in Hin as [Hin|Hin].
      * eapply targets_recorded_grows; [exact Hg1|]. by apply Hinv.
      * by apply Hrec1.
Qed.

Lemma binary_loop_is_Some {A} (t : inst) (o : option A) ops : ∀ gk,
  (∀ p, p ∈ ops → op_is t p = true → is_Some o) →
  is_Some (Py.for_each (λ gk bin_op, if op_is t bin_op then o else Some gk) ops gk).
Proof.
  induction ops as [|op ops IH]; intros gk Hops; cbn [Py.for_each]; [by eexists|].
  destruct (op_is t op) eqn:Hop.
  - destruct o as [gk1|]; [|by destruct (Hops op ltac:(left) Hop)].
    cbn. apply IH. intros p Hp. apply Hops. by right.
  - cbn. apply IH. intros p Hp. apply Hops. by right.
Qed.

Lemma instruction_gen_kill_is_Some d t i :
  targets_recorded d i t → is_Some (instruction_gen_kill d t i).
Proof.
  intros [H2 H3]. unfold instruction_gen_kill.
  assert (Hloop : ∀ gk, is_Some (Py.for_each
                    (λ gk bin_op, if op_is t bin_op then gen_kill_at d 3 t i else Some gk)
                    binary_ops gk)).
  { intros gk. apply binary_loop_is_Some. intros p Hp Hop.
    destruct (H3 p Hp Hop) as (v & Ha & Hr). by eapply gen_kill_at_is_Some. }
  assert (H1 : ∀ p, p ∈ target_prefixes → op_is t p = true →
                    is_Some (gen_kill_at d 2 t i)).
  { intros p Hp Hop. destruct (H2 p Hp Hop) as (v & Ha & Hr).
    by eapply gen_kill_at_is_Some. }
  unfold target_prefixes in H1.
  repeat match goal with
         | |- is_Some (mbind _ (if op_is t ?q then _ else _)) =>
             destruct (op_is t q) eqn:?;
             [destruct (H1 q) as [gk ->];
              [solve [repeat first [left | right]]|done|]; cbn; apply Hloop|]
         end.
  cbn. apply Hloop.
Qed.

Lemma gen_kill_items_is_Some d items : ∀ b,
  (∀ j t, (j, t) ∈ items → targets_recorded d j t) →
  is_Some (Py.for_each (λ b' it, '(g, k) ← instruction_gen_kill d it.2 it.1;
                                 Some (update_block_gen_kill_RD b' g k)) items b).
Proof.
  induction items as [|[j t] items IH]; intros b Hall; cbn [Py.for_each]; [by eexists|].
  destruct (instruction_gen_kill_is_Some d t j) as [[g k] Hgk]; [apply Hall; left|].
  cbn [fst snd]. rewrite Hgk. cbn. apply IH. intros j' t' Hin. apply Hall. by right.
Qed.

Lemma gen_kill_chain_is_Some refs : ∀ s,
  (∀ r, r ∈ refs → ∃ b, blocks s !! r = Some b
                        ∧ ∀ j t, (j, t) ∈ numerated_code b →
                                 targets_recorded (defs s) j t) →
  is_Some (Py.for_each gen_kill_block refs s).
Proof.
  induction refs as [|r refs IH]; intros s Hall; cbn [Py.for_each]; [by eexists|].
  destruct (Hall r) as (b & Hb & Hrec); [left|].
  assert (Hs : is_Some (gen_kill_block s r)).
  { unfold gen_kill_block. rewrite Hb. cbn [mbind option_bind].
    destruct (gen_kill_items_is_Some (defs s) (numerated_code b) b Hrec) as [b' ->].
    by eexists. }
  destruct Hs as [s1 E1]. rewrite E1. cbn [mbind option_bind]. apply IH.
  pose proof (gen_kill_block_frame _ _ _ E1) as (Hrel & _ & _ & _ & Hd).
  intros r' Hr'. destruct (Hall r') as (b0 & Hb0 & Hrec0); [by right|].
  pose proof (Hrel r') as Hr. rewrite Hb0 in Hr. inversion Hr as [? b1 Hsame|]; subst.
  exists b1. split; [done|]. destruct Hsame as [_ ->]. by rewrite Hd.
Qed.

(** X15.  [computeRD_gen_kill] never raises on what [number_instructions]
    leaves.  When [number_instructions] has numbered the CFG of a function
    whose blocks were not numbered before, every lookup [self.defs[...]] and
    every [inst_kill.remove(index)] that [computeRD_gen_kill] then makes
    succeeds: each index it asks for was recorded by [number_instructions]
    under the name it asks for.  No KeyError, no ValueError. *)
Theorem computeRD_gen_kill_never_raises cfg s s1 :
  unnumbered (blocks s) cfg → number_instructions cfg s = Some s1 →
  is_Some (computeRD_gen_kill cfg s1).
Proof.
  intros Hun Hn. pose proof Hn as Hn0. unfold number_instructions in Hn.
  destruct (chain (blocks s) cfg) as [refs|] eqn:Hc; cbn [mbind option_bind] in Hn;
    [|done].
  destruct (chain_blocks _ _ _ Hc) as [bs Hbs].
  destruct (number_instructions_spec cfg s s1 refs bs Hun Hc Hbs Hn0)
    as ((refs' & bs' & Hc' & Hbs' & Hcat & _) & _).
  pose proof (unnumbered_blocks _ _ _ _ Hun Hc Hbs) as Hfresh.
  assert (Hnd : NoDup refs) by (by eapply chain_NoDup).
  assert (Hrec : ∀ j t, (j, t) ∈ labeled_code s1 → targets_recorded (defs s1) j t).
  { match type of Hn with
    | Py.for_each _ _ ?s0 = _ =>
        apply (number_chain_defs refs s0 s1 bs Hnd Hbs Hfresh); [constructor| |exact Hn]
    end.
    intros j t Hin. by apply elem_of_nil in Hin. }
  unfold computeRD_gen_kill, for_each_block. rewrite Hc'. cbn [mbind option_bind].
  apply gen_kill_chain_is_Some. intros r Hr.
  apply mapM_Some in Hbs'. apply list_elem_of_lookup in Hr as [k Hk].
  destruct (Forall2_lookup_l _ _ _ _ _ Hbs' Hk) as (b & Hkb & Hb).
  exists b. split; [done|]. intros j t Hin. apply Hrec. rewrite <- Hcat.
  apply list_elem_of_In, in_concat. exists (numerated_code b). split.
  - apply list_elem_of_In, list_elem_of_fmap. exists b. split; [done|].
    by eapply list_elem_of_lookup_2.
  - by apply list_elem_of_In.
Qed.

Lemma computeRD_gen_kill_never_raises_witness :
  let s := init (CodeGenerator.g_blocks (Examples.generated Examples.prog_three_stores)) in
  ∃ s1, number_instructions 1%nat s = Some s1 ∧ is_Some (computeRD_gen_kill 1%nat s1).
Proof.
  intros s.
  assert (Hv : bool_decide (is_Some (number_instructions 1%nat s)) = true)
    by (vm_compute; reflexivity).
  destruct (number_instructions 1%nat s) as [s1|] eqn:Ev; [|discriminate Hv].
  exists s1. split; [reflexivity|].
  apply (computeRD_gen_kill_never_raises 1%nat s s1); [|exact Ev].
  apply fresh_unnumbered. apply (bool_decide_unpack _). vm_compute. exact I.
Defined.

(** X16.  [deadcode_elimination] only fills [dead_code], and only with
    indices of instructions it looks at: on a numbered CFG, every index it
    marks is the index in [labeled_code] of an instruction whose opcode starts
    with [store], [literal], [load], [call] or a binary operator; so no
    [alloc], no label and no [define] is ever removed.  The blocks, [code],
    [labeled_code] and [global_variables] are left as they are. *)
Theorem deadcode_elimination_marks_removable cfg s s' :
  numbered s cfg → deadcode_elimination cfg s = Some s' →
  (∀ k, k ∈ dead_code s' → ∃ t, (k, t) ∈ labeled_code s ∧ removable t = true)
  ∧ blocks s' = blocks s ∧ code s' = code s ∧ labeled_code s' = labeled_code s
  ∧ global_variables s' = global_variables s.
Proof.
  intros Hn Hd.
  destruct (deadcode_elimination_spec cfg s s' Hn Hd) as (Hb & Hc & Hl & Hg & Hdead).
  by repeat split.
Qed.

Lemma deadcode_elimination_marks_removable_witness :
  let s := Examples.three_stores_numbered_state in
  ∃ s', deadcode_elimination 1%nat s = Some s'
        ∧ labeled_code s' = labeled_code s
        ∧ ∀ k, k ∈ dead_code s' → ∃ t, (k, t) ∈ labeled_code s ∧ removable t = true.
Proof.
  intros s.
  assert (Hv : bool_decide (is_Some (deadcode_elimination 1%nat s)) = true)
    by (vm_compute; reflexivity).
  destruct (deadcode_elimination 1%nat s) as [s'|] eqn:Ev; [|discriminate Hv].
  exists s'. split; [reflexivity|].
  assert (Hn : numbered s 1%nat).
  { eexists _, _.
    split; [vm_compute; reflexivity|].
    split; [vm_compute; reflexivity|].
    split; [vm_compute; reflexivity|].
    apply (bool_decide_unpack _). vm_compute. exact I. }
  destruct (deadcode_elimination_marks_removable 1%nat s s' Hn Ev)
    as (Hdead & _ & _ & Hl & _).
  by split.
Defined.

End NoKeyError.

Section RelatedPropagation.

Import uc_block DataFlow.

Context `{Py.SetOrder}.

(** The loops of [constant_propagation], for any relation [R] that holds
    between an instruction and what one step of the pass makes of it. *)
Variable R : inst → inst → Prop.
Hypothesis R_refl : ∀ t, R t t.
Hypothesis R_inst : ∀ d cd nc lc i t cd' nc' lc',
  propagate_inst d (cd, nc, lc) (i, t) = Some (cd', nc', lc') →
  (nc' = nc ∧ lc' = lc)
  ∨ (∃ t', R t t' ∧ nc' = Py.dict_set i t' nc ∧ lc' = Py.dict_set i t' lc).

Lemma related_dict_keys d d' : related_dict R d d' → d'.*1 = d.*1.
Proof.
  induction 1 as [|e e' d d' [He _] _ IH]; [done|].
  rewrite !fmap_cons. by rewrite He, IH.
Qed.

Lemma related_dict_get d d' k t :
  related_dict R d d' → Py.dict_get k d = Some t →
  ∃ t', Py.dict_get k d' = Some t' ∧ R t t'.
Proof.
  induction 1 as [|[k1 t1] [k1' t1'] d d' [He Hp] _ IH]; simpl; [done|].
  simpl in He. subst k1'. destruct (Nat.eqb k k1); [|done].
  intros. simplify_eq. eauto.
Qed.

Lemma related_loop d rest : ∀ cd (done_ pre post : list (nat * inst)) cd' nc' lc',
  NoDup (pre ++ done_ ++ rest ++ post).*1 →
  Py.for_each (propagate_inst d) rest (cd, done_ ++ rest, pre ++ done_ ++ rest ++ post)
  = Some (cd', nc', lc') →
  ∃ rest', nc' = done_ ++ rest' ∧ lc' = pre ++ done_ ++ rest' ++ post
           ∧ related_dict R rest rest'.
Proof.
  induction rest as [|[i t] rest IH]; intros cd done_ pre post cd' nc' lc' Hnd Hl;
    cbn [Py.for_each] in Hl.
  - simplify_eq. exists []. repeat split. constructor.
  - destruct (propagate_inst d _ (i, t)) as [[[cd1 nc1] lc1]|] eqn:E;
      cbn [mbind option_bind] in Hl; [|done].
    assert (Hi_pre : (i ∉ (pre ++ done_).*1) ∧ (i ∉ done_.*1)).
    { pose proof Hnd as Hnd'.
      rewrite !fmap_app in Hnd'. rewrite fmap_app.
      rewrite app_assoc in Hnd'. apply NoDup_app in Hnd' as (_ & Hdisj & _).
      assert (Hnot : i ∉ pre.*1 ++ done_.*1).
      { intros Hin. apply (Hdisj _ Hin). rewrite fmap_cons. set_solver. }
      split; [done|]. intros Hin. apply Hnot, elem_of_app. by right. }
    destruct Hi_pre as [Hi_pre Hi_done].
    apply R_inst in E as [[-> ->]|(t' & Hp & -> & ->)].
    + specialize (IH cd1 (done_ ++ [(i, t)]) pre post cd' nc' lc').
      rewrite <- !app_assoc in IH. simpl in IH.
      destruct (IH Hnd Hl) as (rest' & -> & -> & Hrest).
      exists ((i, t) :: rest'). rewrite <- !app_assoc. simpl.
      repeat split. constructor; [split; [done|apply R_refl]|done].
    + specialize (IH cd1 (done_ ++ [(i, t')]) pre post cd' nc' lc').
      rewrite <- !app_assoc in IH. simpl in IH.
      rewrite (dict_set_app_r i t' done_) in Hl by done.
      rewrite (app_assoc pre done_), (dict_set_app_r i t' (pre ++ done_)) in Hl by done.
      rewrite ?dict_set_head, <- ?app_assoc in Hl.
      change (((i, t) :: rest) ++ post) with ((i, t) :: rest ++ post) in Hl.
      rewrite ?dict_set_head in Hl.
      assert (Hnd2 : NoDup (pre ++ done_ ++ (i, t') :: rest ++ post).*1).
      { revert Hnd. by rewrite !fmap_app, !fmap_cons, !fmap_app. }
      destruct (IH Hnd2 Hl) as (rest' & -> & -> & Hrest).
      exists ((i, t') :: rest'). rewrite <- !app_assoc. simpl.
      repeat split. constructor; [split; done|done].
Qed.

Lemma related_block s r s' b pre post :
  propagate_block s r = Some s' → blocks s !! r = Some b →
  labeled_code s = pre ++ numerated_code b ++ post →
  NoDup (labeled_code s).*1 →
  ∃ nc', blocks s' = <[r := set_numerated_code nc' b]> (blocks s)
         ∧ labeled_code s' = pre ++ nc' ++ post
         ∧ related_dict R (numerated_code b) nc'.
Proof.
  unfold propagate_block. intros Hp Hb Hlc Hnd. rewrite Hb in Hp. simpl in Hp.
  destruct (Py.for_each _ _ _) as [[[cd nc] lc]|] eqn:E; simpl in Hp; [|done].
  simplify_eq. rewrite Hlc in E, Hnd.
  destruct (related_loop (defs s) (numerated_code b) (in_RD b) [] pre post cd nc lc)
    as (rest' & -> & -> & Hrest); [done|done|].
  exists rest'. simpl. by repeat split.
Qed.

Lemma related_chain refs : ∀ s s' bs pre post,
  NoDup refs → mapM (λ r, blocks s !! r) refs = Some bs →
  labeled_code s = pre ++ concat (numerated_code <$> bs) ++ post →
  NoDup (labeled_code s).*1 →
  Py.for_each propagate_block refs s = Some s' →
  ∃ code',
    labeled_code s' = pre ++ code' ++ post
    ∧ related_dict R (concat (numerated_code <$> bs)) code'.
Proof.
  induction refs as [|r refs IH]; intros s s' bs pre post Hnd Hbs Hlc Hkeys Hl.
  - simpl in *. injection Hbs as <-. simplify_eq. exists []. split; [done|constructor].
  - apply NoDup_cons in Hnd as [Hr Hnd].
    apply mapM_lookup_cons in Hbs as (b & bs0 & -> & Hb & Hbs0).
    simpl in Hl. destruct (propagate_block s r) as [s1|] eqn:E1; simpl in Hl; [|done].
    rewrite fmap_cons in Hlc. cbn [concat] in Hlc. rewrite <- app_assoc in Hlc.
    destruct (related_block _ _ _ _ _ _ E1 Hb Hlc Hkeys) as (nc' & Hh1 & Hlc1 & Hprop).
    destruct (IH s1 s' bs0 (pre ++ nc') post) as (code' & Hlc' & Hrel); try done.
    { rewrite Hh1. by rewrite mapM_lookup_insert_notin. }
    { by rewrite Hlc1, <- app_assoc. }
    { rewrite Hlc1. rewrite Hlc in Hkeys.
      rewrite !fmap_app in *. by rewrite (related_dict_keys _ _ Hprop). }
    exists (nc' ++ code'). split; [by rewrite Hlc', <- !app_assoc|].
    rewrite fmap_cons. cbn [concat]. by apply Forall2_app.
Qed.

Lemma related_constant_propagation cfg s s' k t :
  numbered s cfg → constant_propagation cfg s = Some s' →
  Py.dict_get k (labeled_code s) = Some t →
  ∃ t', Py.dict_get k (labeled_code s') = Some t' ∧ R t t'.
Proof.
  intros (refs & bs & Hc & Hbs & Hcat & Hnd) Hcp.
  unfold constant_propagation, for_each_block in Hcp. rewrite Hc in Hcp. simpl in Hcp.
  destruct (related_chain refs s s' bs [] []) as (code' & Hlc' & Hrel); try done.
  { by eapply chain_NoDup. }
  { by rewrite app_nil_r. }
  simpl in Hlc'. rewrite app_nil_r in Hlc'. rewrite Hcat in Hrel.
  rewrite Hlc'. by apply related_dict_get.
Qed.

End RelatedPropagation.

Section GlobalsExcluded.

Import uc_block DataFlow.

Context `{Py.SetOrder}.

Lemma check_constant_propagation_local lc d cd variable v :
  check_constant_propagation lc d cd variable = Some (Some v) →
  is_global_name variable = false.
Proof.
  unfold check_constant_propagation, is_global_name.
  destruct (Py.item variable 0) as [first|]; cbn; [|done].
  by destruct (Py.eqb first (Py.VStr "@")).
Qed.

Lemma propagate_inst_local d cd nc lc i t cd' nc' lc' :
  propagate_inst d (cd, nc, lc) (i, t) = Some (cd', nc', lc') →
  (nc' = nc ∧ lc' = lc)
  ∨ (∃ t', propagated_local t t'
           ∧ nc' = Py.dict_set i t' nc ∧ lc' = Py.dict_set i t' lc).
Proof.
  unfold propagate_inst. intros Hp.
  match type of Hp with
  | context [mbind _ ?m] => destruct m as [[nc1 lc1]|] eqn:E
  end; simpl in Hp; [|done].
  assert (Hout : nc' = nc1 ∧ lc' = lc1).
  { destruct (instruction_gen_kill d t i) as [[g k]|]; simpl in Hp; [|done].
    destruct g, k; by simplify_eq. }
  destruct Hout as [-> ->]. clear Hp.
  destruct (op_is t "load") eqn:Hload; [|left; by simplify_eq].
  destruct (arg 1 t) as [variable|] eqn:Hvar; simpl in E; [|done].
  destruct (check_constant_propagation lc d cd variable) as [[v|]|] eqn:Hcheck;
    simpl in E; [| left; by simplify_eq | done].
  destruct (operands t !! 1%nat) as [target|] eqn:Ht; simpl in E; [|done].
  simplify_eq. right. eexists. split; [|done]. right. split; [done|].
  exists variable, v, target. split; [done|].
  split; [by eapply check_constant_propagation_local|]. by split.
Qed.

(** X17.  Globals are excluded from constant propagation: on a numbered
    CFG, a [load] of a name that begins with [@] is the same instruction
    after [constant_propagation], whatever definitions reach it. *)
Theorem constant_propagation_skips_globals cfg s s' k t variable :
  numbered s cfg → constant_propagation cfg s = Some s' →
  Py.dict_get k (labeled_code s) = Some t →
  arg 1 t = Some variable → is_global_name variable = true →
  Py.dict_get k (labeled_code s') = Some t.
Proof.
  intros Hn Hcp Hk Hvar Hglob.
  destruct (related_constant_propagation propagated_local ltac:(by left)
              propagate_inst_local cfg s s' k t Hn Hcp Hk) as (t' & Ht' & Hp).
  destruct Hp as [->|(_ & variable' & v & target & Hvar' & Hloc & _)]; [done|].
  congruence.
Qed.

End GlobalsExcluded.

Lemma constant_propagation_skips_globals_witness :
  let s := Examples.global_reached in
  ∃ s',
    DataFlow.constant_propagation (H := Py.insertion_order) 1%nat s = Some s'
    ∧ Py.dict_get 4%nat (DataFlow.labeled_code s')
      = Some (uc_block.Inst "load_int" [Py.VStr "@g"; Py.VStr "%2"]).
Proof.
  intros s.
  assert (Hv : bool_decide (is_Some (DataFlow.constant_propagation
                                       (H := Py.insertion_order) 1%nat s)) = true)
    by (vm_compute; reflexivity).
  destruct (DataFlow.constant_propagation 1%nat s) as [s'|] eqn:E; [|discriminate Hv].
  exists s'. split; [reflexivity|].
  apply (constant_propagation_skips_globals (H := Py.insertion_order) 1%nat s s' 4%nat
           _ (Py.VStr "@g")); [|exact E|vm_compute; reflexivity|reflexivity|reflexivity].
  eexists _, _.
  split; [vm_compute; reflexivity|].
  split; [vm_compute; reflexivity|].
  split; [vm_compute; reflexivity|].
  apply (bool_decide_unpack _). vm_compute. exact I.
Defined.
(* ===================================================================== *)
(** ** The global instructions through the dataflow stage                  *)
(* ===================================================================== *)

Section GlobalsKept.

Import uc_ast uc_block DataFlow.

Context `{Py.SetOrder}.

(** X23.  The dataflow stage never touches the global instructions: for
    every program the generator accepts, when the dataflow stage returns, its
    code is the global instructions [node.text] as the generator left them,
    followed by one segment per function definition, in order; the segment of
    a function is no longer than the code the generator emitted for it and has
    the same side-effecting instructions. *)
Theorem optimised_code_keeps_globals fuel p out s :
  CodeGenerator.visit_Program p = Some out →
  visit_Program fuel (CodeGenerator.g_text out) (CodeGenerator.g_cfgs out)
                (init (CodeGenerator.g_blocks out)) = Some s →
  ∃ outs bodies,
    code s = CodeGenerator.g_text out ++ concat outs
    ∧ CodeGenerator.g_code out = CodeGenerator.g_text out ++ concat bodies
    ∧ mapM (emit_blocks (CodeGenerator.g_blocks out)) (CodeGenerator.g_cfgs out)
      = Some bodies
    ∧ Forall2 (λ o body,
                 (length o ≤ length body)%nat
                 ∧ filter (λ t, side_effecting t = true) o
                   = filter (λ t, side_effecting t = true) body) outs bodies.
Proof.
  intros Hg Hv.
  destruct (visit_Program_separated _ _ Hg) as [(chains & Hch & Hnd) Hun].
  assert (Hem : ∃ bodies,
             mapM (emit_blocks (CodeGenerator.g_blocks out)) (CodeGenerator.g_cfgs out)
             = Some bodies
             ∧ CodeGenerator.g_code out = CodeGenerator.g_text out ++ concat bodies).
  { unfold CodeGenerator.visit_Program in Hg.
    destruct (CodeGenerator.visit_gdecls p CodeGenerator.init) as [[cfgs g]|];
      cbn in Hg; [|done].
    unfold CodeGenerator.emit_program in Hg.
    destruct (mapM _ cfgs) as [bodies|] eqn:Hb; cbn in Hg; [|done].
    injection Hg as <-. cbn. by exists bodies. }
  destruct Hem as (bodies & Hb & Hcode).
  unfold visit_Program, save_global_variables in Hv. cbn [blocks code init] in Hv.
  destruct (mapM (arg 1) _) as [names|]; cbn [mbind option_bind] in Hv; [|done].
  pose proof Hb as Hb'. apply mapM_Some in Hb', Hch.
  match type of Hv with
  | Py.for_each _ _ ?s0 = _ =>
      destruct (visit_functions_spec fuel _ s0 s bodies chains Hun Hch Hnd Hb' Hv)
        as (outs & Hc & Hall)
  end.
  cbn [code] in Hc. by exists outs, bodies.
Qed.

End GlobalsKept.

Lemma optimised_code_keeps_globals_witness :
  let out := Examples.generated Examples.prog_global in
  ∃ s rest,
    CodeGenerator.visit_Program Examples.prog_global = Some out
    ∧ DataFlow.visit_Program (H := Py.insertion_order) 200
        (CodeGenerator.g_text out) (CodeGenerator.g_cfgs out)
        (DataFlow.init (CodeGenerator.g_blocks out)) = Some s
    ∧ DataFlow.code s
      = uc_block.Inst "global_int" [Py.VStr "@g"; Py.VInt 3] :: rest.
Proof.
  intros out.
  assert (Hg : CodeGenerator.visit_Program Examples.prog_global = Some out)
    by (vm_compute; reflexivity).
  assert (Hv : bool_decide (is_Some (DataFlow.visit_Program (H := Py.insertion_order) 200
                  (CodeGenerator.g_text out) (CodeGenerator.g_cfgs out)
                  (DataFlow.init (CodeGenerator.g_blocks out)))) = true)
    by (vm_compute; reflexivity).
  assert (Ht : CodeGenerator.g_text out
               = [uc_block.Inst "global_int" [Py.VStr "@g"; Py.VInt 3]])
    by (vm_compute; reflexivity).
  destruct (DataFlow.visit_Program 200 _ _ _) as [s|] eqn:Ev; [|discriminate Hv].
  destruct (optimised_code_keeps_globals (H := Py.insertion_order) 200
              Examples.prog_global out s Hg Ev) as (outs & bodies & Hc & _).
  exists s, (concat outs). split; [exact Hg|]. split; [reflexivity|].
  by rewrite Hc, Ht.
Defined.


(* --------------------------------------------------------------------- *)
(** *** What the semantic analyser accepts                              *)
(* --------------------------------------------------------------------- *)

Section AnalyserProperties.

Import uc_type uc_ast Visitor.

Lemma bind_Ok {A B} (m : outcome A) (f : A → outcome B) b :
  m ≫= f = Ok b ↔ ∃ a, m = Ok a ∧ f a = Ok b.
Proof. destruct m; cbn; naive_solver. Qed.

Lemma lift_Ok {A} (o : option A) a : lift o = Ok a ↔ o = Some a.
Proof. destruct o; cbn; naive_solver. Qed.

Lemma assert_Ok c n u : _assert_semantic c n = Ok u ↔ c = true.
Proof. destruct c, u; cbn; naive_solver. Qed.

(** An identifier the analyser accepts is bound, and gets the type of its
    newest binding. *)
Lemma visit_ID_Ok st n c t0 e' :
  visit st (ID n c t0) = Ok e' →
  SymbolTable.bound st n
  ∧ ∃ ty, SymbolTable.lookup st n = Some ty ∧ e' = ID n c (Some ty).
Proof.
  cbn [visit]. intros (d & Hd%lift_Ok & (u & Ha%assert_Ok & [= <-])%bind_Ok)%bind_Ok.
  assert (Hb : SymbolTable.bound st n).
  { unfold SymbolTable.declared in Hd. unfold SymbolTable.bound.
    destruct (last (SymbolTable.scope st)); cbn in Hd; [|done].
    intros Hnil. rewrite Hnil in Hd. cbn in Hd.
    rewrite andb_false_r in Hd. by injection Hd as <-. }
  split; [exact Hb|]. unfold SymbolTable.lookup, SymbolTable.bound in *.
  destruct (SymbolTable.get st n) as [|ty l]; [done|]. by exists ty.
Qed.

(** Takes a successful visit [H] apart, down to its last step. *)
Ltac inv_visit H :=
  repeat match type of H with
         | _ ≫= _ = Ok _ => apply bind_Ok in H as (? & _ & H)
         | (if ?c then _ else _) = Ok _ => destruct c
         | match ?x with _ => _ end = Ok _ => destruct x
         end.

(** The visit of a node returns a node of the same class; here for an
    identifier. *)
Lemma visit_Ok_ID st d n c t :
  visit st d = Ok (ID n c t) → ∃ t0, d = ID n c t0.
Proof.
  intros H. destruct d; cbn [visit] in H; inv_visit H; try discriminate H.
  injection H as <- <- _. by eexists.
Qed.

(** X18.  Every expression the analyser accepts is typed: when the visit
    of an expression node other than an expression list succeeds, the
    [uc_type] it leaves in the node is a type, never [None].  (An [ExprList]
    has no [uc_type].) *)
Theorem accepted_expression_is_typed st e e' :
  visit st e = Ok e' → (∀ exprs c, e ≠ ExprList exprs c) →
  ∃ ty, uc_type_of e' = Some (Some ty).
Proof.
  intros H Hne.
  destruct e as [ty0 v c t0|n c t0|op l r c t0|op e1 c t0|tn v c t0|i p c t0
                 |d a c t0|op l r c t0|exprs c];
    [| |cbn [visit] in H..]; [cbn [visit] in H| |..].
  - destruct (negb _).
    + apply bind_Ok in H as (t & Ht%lift_Ok & [= <-]). by exists t.
    + injection H as <-. by eexists.
  - apply visit_ID_Ok in H as (_ & ty & _ & ->). by exists ty.
  - apply bind_Ok in H as (l' & _ & H). apply bind_Ok in H as (lt & _ & H).
    apply bind_Ok in H as (r' & _ & H). apply bind_Ok in H as (rt & _ & H).
    apply bind_Ok in H as (u & _ & H). apply bind_Ok in H as (ty & _ & H).
    destruct (op_in op (binary_ops ty)); [injection H as <-; by exists ty|].
    destruct (op_in op (rel_ops ty)); [injection H as <-; by eexists|done].
  - apply bind_Ok in H as (e1' & _ & H). apply bind_Ok in H as (t & _ & H).
    apply bind_Ok in H as (ty & ->%lift_Ok & H).
    apply bind_Ok in H as (u & _ & [= <-]). by exists ty.
  - apply bind_Ok in H as (v' & _ & H).
    apply bind_Ok in H as (t & ?%lift_Ok & [= <-]). by exists t.
  - apply bind_Ok in H as (id' & _ & H). apply bind_Ok in H as (pos' & _ & H).
    apply bind_Ok in H as (pt & _ & H). apply bind_Ok in H as (u & _ & H).
    apply bind_Ok in H as (it & _ & H).
    destruct it as [[| | | | | |elem sz]|]; try done. injection H as <-. by exists elem.
  - apply bind_Ok in H as (d' & Hd & H).
    apply bind_Ok in H as (name & Hn%lift_Ok & H).
    apply bind_Ok in H as (u & _ & H).
    apply bind_Ok in H as (t & Ht%lift_Ok & H).
    destruct d' as [|n' c' t'| | | | | | |]; try discriminate Hn.
    cbn in Ht. injection Ht as ->.
    destruct (visit_Ok_ID _ _ _ _ _ Hd) as [t0' ->].
    apply visit_ID_Ok in Hd as (_ & ty & _ & [= ->]).
    exists ty. inv_visit H; try discriminate H; by injection H as <-.
  - apply bind_Ok in H as (r' & _ & H). apply bind_Ok in H as (rt & _ & H).
    apply bind_Ok in H as (l' & _ & H). apply bind_Ok in H as (lt & _ & H).
    apply bind_Ok in H as (u & _ & H). apply bind_Ok in H as (ty & _ & H).
    apply bind_Ok in H as (u' & _ & [= <-]). by eexists.
  - by destruct (Hne exprs c).
Qed.

Lemma accepted_expression_is_typed_witness :
  ∃ st e', Examples.symtab_main = Some st
           ∧ visit st Examples.row_of_m = Ok e'
           ∧ ∃ ty, uc_type_of e' = Some (Some ty).
Proof.
  destruct Examples.symtab_main as [st|] eqn:Est; [|discriminate Est].
  assert (H : match visit st Examples.row_of_m with Ok _ => true | _ => false end = true)
    by (injection Est as <-; vm_compute; reflexivity).
  destruct (visit st Examples.row_of_m) as [e'| |] eqn:E; try discriminate H.
  exists st, e'. split; [reflexivity|]. split; [exact E|].
  apply (accepted_expression_is_typed st Examples.row_of_m e' E).
  intros exprs c. discriminate.
Defined.

Lemma accepted_identifiers_sized st k : ∀ e e' n,
  (Cfg.expr_size e < k)%nat → visit st e = Ok e' → n ∈ ids e →
  SymbolTable.bound st n.
Proof.
  induction k as [|k IH]; [lia|]. intros e e' n Hk H Hin.
  destruct e as [ty0 v c t0|n0 c t0|op l r c t0|op e1 c t0|tn v c t0|i p c t0
                 |d a c t0|op l r c t0|exprs c];
    cbn [ids] in Hin; cbn [Cfg.expr_size] in Hk.
  - by apply elem_of_nil in Hin.
  - apply list_elem_of_singleton in Hin as ->. by apply visit_ID_Ok in H as [? _].
  - cbn [visit] in H. apply bind_Ok in H as (l' & Hl & H).
    apply bind_Ok in H as (lt & _ & H). apply bind_Ok in H as (r' & Hr & _).
    apply elem_of_app in Hin as [Hin|Hin];
      [eapply IH; [|exact Hl|exact Hin]|eapply IH; [|exact Hr|exact Hin]]; lia.
  - cbn [visit] in H. apply bind_Ok in H as (e1' & He & _).
    eapply IH; [|exact He|exact Hin]. lia.
  - cbn [visit] in H. apply bind_Ok in H as (v' & Hv & _).
    eapply IH; [|exact Hv|exact Hin]. lia.
  - cbn [visit] in H. apply bind_Ok in H as (i' & Hi & H).
    apply bind_Ok in H as (p' & Hp & _).
    apply elem_of_app in Hin as [Hin|Hin];
      [eapply IH; [|exact Hi|exact Hin]|eapply IH; [|exact Hp|exact Hin]]; lia.
  - cbn [visit] in H. apply bind_Ok in H as (d' & Hd & H).
    apply elem_of_app in Hin as [Hin|Hin]; [eapply IH; [|exact Hd|exact Hin]; lia|].
    destruct a as [a|]; [|by apply elem_of_nil in Hin].
    apply bind_Ok in H as (name & _ & H). apply bind_Ok in H as (u & _ & H).
    apply bind_Ok in H as (t & _ & H). apply bind_Ok in H as (a' & Ha & _).
    eapply IH; [|exact Ha|exact Hin]. lia.
  - cbn [visit] in H. apply bind_Ok in H as (r' & Hr & H).
    apply bind_Ok in H as (rt & _ & H). apply bind_Ok in H as (l' & Hl & _).
    apply elem_of_app in Hin as [Hin|Hin];
      [eapply IH; [|exact Hl|exact Hin]|eapply IH; [|exact Hr|exact Hin]]; lia.
  - cbn [visit] in H. apply bind_Ok in H as (exprs' & H & _).
    apply PeanoNat.lt_S_n in Hk.
    revert exprs' H Hin Hk. induction exprs as [|x exprs IHl]; intros exprs' H Hin Hk.
    + by apply elem_of_nil in Hin.
    + apply bind_Ok in H as (x' & Hx & H). apply bind_Ok in H as (u & _ & H).
      apply bind_Ok in H as (rest & Hrest & _).
      apply elem_of_app in Hin as [Hin|Hin].
      * eapply IH; [|exact Hx|exact Hin]. lia.
      * eapply IHl; [exact Hrest|exact Hin|lia].
Qed.

(** X19.  Every identifier of an accepted expression is declared: when the
    visit of an expression succeeds, each identifier that occurs anywhere in
    it (operands, array and index, callee and arguments, both sides of an
    assignment) has a binding in the symbol table.  An undeclared name
    anywhere stops the analysis, with message 1 or with whatever stopped it
    before. *)
Theorem accepted_identifiers_are_declared st e e' n :
  visit st e = Ok e' → n ∈ ids e → SymbolTable.bound st n.
Proof. apply (accepted_identifiers_sized st (S (Cfg.expr_size e))). lia. Qed.

Lemma accepted_identifiers_are_declared_witness :
  ∃ st e', Examples.symtab_main = Some st
           ∧ visit st Examples.x_plus_1 = Ok e'
           ∧ SymbolTable.bound st "x".
Proof.
  destruct Examples.symtab_main as [st|] eqn:Est; [|discriminate Est].
  assert (H : match visit st Examples.x_plus_1 with Ok _ => true | _ => false end = true)
    by (injection Est as <-; vm_compute; reflexivity).
  destruct (visit st Examples.x_plus_1) as [e'| |] eqn:E; try discriminate H.
  exists st, e'. split; [reflexivity|]. split; [exact E|].
  apply (accepted_identifiers_are_declared st Examples.x_plus_1 e' "x" E).
  cbn. left.
Defined.




End AnalyserProperties.

Section SymbolTableProperties.

Context {V A : Type}.

(** X21.  The symbol table keeps its dict and its scope lists in step: on
    every state reached from the empty table by [beginscope], [add] and
    [endscope] calls that do not raise, each name has exactly as many live
    bindings (the length of the chain stored under it) as there are records
    of it in the lists of the open scopes. *)
Theorem symtab_bindings_match_scopes (s : SymbolTable.t V A) m :
  SymbolTable.reachable s →
  length (SymbolTable.get s m)
  = length (filter (λ x, x = m) (concat (SymbolTable.scope s))).
Proof. apply symtab_reachable_balance. Qed.

(** X22.  On every such state a name is bound exactly when it is recorded
    in some open scope: once [endscope] has closed the scope a name was
    added in, and no enclosing scope declares it, [lookup] finds nothing;
    and a name recorded in an open scope is always found. *)
Theorem symtab_bound_iff_in_scope (s : SymbolTable.t V A) m :
  SymbolTable.reachable s →
  SymbolTable.bound s m ↔ SymbolTable.in_some_scope s m.
Proof. apply symtab_reachable_bound. Qed.

End SymbolTableProperties.

Lemma symtab_bindings_match_scopes_witness :
  ∃ st, Examples.symtab_main = Some st
        ∧ length (SymbolTable.get st "x") = 1%nat.
Proof.
  assert (Hr : ∀ st, Examples.symtab_main = Some st → SymbolTable.reachable st).
  { intros st. unfold Examples.symtab_main. intros H.
    destruct (SymbolTable.add "main" _ _ _ _) as [s1|] eqn:E1; [|discriminate H].
    cbn [mbind option_bind] in H.
    destruct (SymbolTable.add "x" _ _ _ _) as [s2|] eqn:E2; [|discriminate H].
    cbn [mbind option_bind] in H.
    eapply SymbolTable.reach_add; [|exact H].
    eapply SymbolTable.reach_add; [|exact E2].
    apply SymbolTable.reach_begin.
    eapply SymbolTable.reach_add; [|exact E1].
    apply SymbolTable.reach_begin, SymbolTable.reach_begin, SymbolTable.reach_init. }
  destruct Examples.symtab_main as [st|] eqn:Est; [|discriminate Est].
  exists st. split; [reflexivity|].
  rewrite (symtab_bindings_match_scopes st "x" (Hr st eq_refl)).
  injection Est as <-. reflexivity.
Defined.

Lemma symtab_bound_iff_in_scope_witness :
  ∃ st, Examples.symtab_main = Some st
        ∧ SymbolTable.in_some_scope st "m" ∧ ¬ SymbolTable.bound st "y".
Proof.
  assert (Hr : ∀ st, Examples.symtab_main = Some st → SymbolTable.reachable st).
  { intros st. unfold Examples.symtab_main. intros H.
    destruct (SymbolTable.add "main" _ _ _ _) as [s1|] eqn:E1; [|discriminate H].
    cbn [mbind option_bind] in H.
    destruct (SymbolTable.add "x" _ _ _ _) as [s2|] eqn:E2; [|discriminate H].
    cbn [mbind option_bind] in H.
    eapply SymbolTable.reach_add; [|exact H].
    eapply SymbolTable.reach_add; [|exact E2].
    apply SymbolTable.reach_begin.
    eapply SymbolTable.reach_add; [|exact E1].
    apply SymbolTable.reach_begin, SymbolTable.reach_begin, SymbolTable.reach_init. }
  destruct Examples.symtab_main as [st|] eqn:Est; [|discriminate Est].
  exists st. split; [reflexivity|].
  pose proof (symtab_bound_iff_in_scope st "m" (Hr st eq_refl)) as Hm.
  split.
  - apply Hm. unfold SymbolTable.bound. injection Est as <-. discriminate.
  - unfold SymbolTable.bound. injection Est as <-. intros Hy. by apply Hy.
Defined.
